(** * Swagger schema to JSON Schema conversion: a model of [src/json-schema.js]

    The development embeds the reference resolver, the cycle-safe
    dereferencer, the schema node converter, the reference scanner and the
    definition closure builder of [json-schema.js], and states the properties
    of the specification over that embedding.

    Conventions of the embedding.

    - Values are the plain data a parsed Swagger document is made of:
      [undefined], [null], booleans, numbers, strings, arrays and objects.
      Numbers are integers; the code only tests them for truthiness and for
      being a valid length.
    - An object is the list of its own enumerable properties in enumeration
      order.  A property read is an own-property read: names an object would
      inherit from the built-in prototypes ([constructor], [toString], ...)
      are outside the model, and so are the methods of arrays and strings
      other than the ones the code calls.  Where the code reads or writes
      under a key taken from the data ([value[key]] in [lookupReference],
      [result.definitions[lookup.id]] in [convertSchema], [result[key] = ...]
      on a fresh object) such a name behaves differently from a key of the
      data: the read finds the inherited member, and writing [__proto__]
      sets the prototype.  [inherited_name] lists these names; a theorem
      that states what such a read finds or what such a write leaves takes
      the hypothesis that the key is none of them.
    - [_.omit] and [_.omitBy] are the removal of the keys from the list of
      properties.  Recent versions of lodash also leave out of the result of
      [_.omitBy] the keys [__proto__], [constructor] and [prototype]
      ([guarded_key]); a theorem that states that a converted node keeps a
      key takes the hypothesis that the key is none of them.
    - A thrown exception is the outcome [Throw]; the three messages of the
      source are three constructors of [error], every exception raised by the
      language itself (reading a property of [null], calling a missing
      method, writing to a primitive in strict mode) is [TypeError].
    - Recursion that follows the data is bounded by a [fuel] argument; the
      outcome [OutOfFuel] never stands for a behaviour of the program, and
      the totality lemmas show that it disappears once the fuel exceeds a
      bound computed from the arguments.
    - [_.cloneDeep] is the identity on values; the aliasing it removes is the
      subject of the store model in module [Store]. *)

From Stdlib Require Import String Ascii List ZArith Lia Bool Arith DecimalString.
Import ListNotations.
Open Scope string_scope.
Open Scope list_scope.

(** ** Values *)

#[warnings="-register-all"]
Inductive json : Type :=
| JUndef
| JNull
| JBool (b : bool)
| JNum (n : Z)
| JStr (s : string)
| JArr (l : list json)
| JObj (m : list (string * json)).

Definition fields : Type := list (string * json).

Inductive error : Type :=
| InvalidReferenceRoot              (* 'Schema reference must start with document root (#)' *)
| InvalidReferenceTarget            (* 'Schema reference must be reference to #/definitions' *)
| ReferenceNotFound (reference : string)   (* `Reference to ${reference} does not exist` *)
| TypeError.

Inductive outcome (A : Type) : Type :=
| Ret (a : A)
| Throw (e : error)
| OutOfFuel.

Arguments Ret {A} a.
Arguments Throw {A} e.
Arguments OutOfFuel {A}.

Definition bind {A B : Type} (x : outcome A) (f : A -> outcome B) : outcome B :=
  match x with
  | Ret a => f a
  | Throw e => Throw e
  | OutOfFuel => OutOfFuel
  end.

Notation "x <- c1 ;; c2" := (bind c1 (fun x => c2))
  (at level 61, c1 at next level, right associativity).
Notation "' pat <- c1 ;; c2" := (bind c1 (fun x => match x with pat => c2 end))
  (at level 61, pat pattern, c1 at next level, right associativity).

(** [l.map(f)] where [f] may throw: elements are visited left to right and
    the first exception ends the traversal. *)
Fixpoint mapM {A B : Type} (f : A -> outcome B) (l : list A) : outcome (list B) :=
  match l with
  | [] => Ret []
  | x :: rest =>
      y <- f x ;;
      ys <- mapM f rest ;;
      Ret (y :: ys)
  end.

(** ** The language's primitives on values *)

(** ToBoolean. *)
Definition truthy (v : json) : bool :=
  match v with
  | JUndef | JNull => false
  | JBool b => b
  | JNum n => negb (n =? 0)%Z
  | JStr s => negb (s =? "")
  | JArr _ | JObj _ => true
  end.

Definition is_undef (v : json) : bool :=
  match v with JUndef => true | _ => false end.

Definition is_null (v : json) : bool :=
  match v with JNull => true | _ => false end.

(** [typeof v === 'object'] for a truthy [v]. *)
Definition typeof_object (v : json) : bool :=
  match v with JArr _ | JObj _ => true | _ => false end.

Definition key_of_index (i : nat) : string :=
  NilEmpty.string_of_uint (Nat.to_uint i).

(** An integer-like key (a canonical array index): such keys come first, in
    ascending order, when the properties of an object are enumerated. *)
Definition index_of_key (k : string) : option N :=
  match NilEmpty.uint_of_string k with
  | Some u =>
      let n := N.of_uint u in
      if (NilEmpty.string_of_uint (N.to_uint n) =? k) && (n <? 4294967295)%N
      then Some n else None
  | None => None
  end.

Fixpoint obj_get (m : fields) (k : string) : json :=
  match m with
  | [] => JUndef
  | (k', v) :: rest => if k' =? k then v else obj_get rest k
  end.

Fixpoint obj_has (m : fields) (k : string) : bool :=
  match m with
  | [] => false
  | (k', _) :: rest => (k' =? k) || obj_has rest k
  end.

Fixpoint obj_replace (k : string) (v : json) (m : fields) : fields :=
  match m with
  | [] => []
  | (k', v') :: rest =>
      if k' =? k then (k', v) :: rest else (k', v') :: obj_replace k v rest
  end.

(** Where a new integer-like key [k] (of value [i]) enters the enumeration
    order: before the first key that is not integer-like or is larger. *)
Fixpoint obj_insert_index (i : N) (k : string) (v : json) (m : fields) : fields :=
  match m with
  | [] => [(k, v)]
  | (k', v') :: rest =>
      match index_of_key k' with
      | Some j =>
          if (j <? i)%N then (k', v') :: obj_insert_index i k v rest
          else (k, v) :: m
      | None => (k, v) :: m
      end
  end.

(** [o[k] = v] on an object. *)
Definition obj_set (k : string) (v : json) (m : fields) : fields :=
  if obj_has m k then obj_replace k v m
  else match index_of_key k with
       | Some i => obj_insert_index i k v m
       | None => m ++ [(k, v)]
       end.

Fixpoint arr_get (l : list json) (i : nat) (k : string) : json :=
  match l with
  | [] => JUndef
  | x :: rest => if key_of_index i =? k then x else arr_get rest (S i) k
  end.

Fixpoint str_get (s : string) (i : nat) (k : string) : json :=
  match s with
  | EmptyString => JUndef
  | String c rest =>
      if key_of_index i =? k then JStr (String c EmptyString)
      else str_get rest (S i) k
  end.

(** [v[k]] for a [v] that is neither [null] nor [undefined]. *)
Definition get (v : json) (k : string) : json :=
  match v with
  | JObj m => obj_get m k
  | JArr l =>
      if k =? "length" then JNum (Z.of_nat (List.length l)) else arr_get l 0 k
  | JStr s =>
      if k =? "length" then JNum (Z.of_nat (String.length s)) else str_get s 0 k
  | _ => JUndef
  end.

(** [v[k]], throwing on [null] and [undefined]. *)
Definition prop (v : json) (k : string) : outcome json :=
  match v with
  | JUndef | JNull => Throw TypeError
  | _ => Ret (get v k)
  end.

Fixpoint arr_entries (l : list json) (i : nat) : fields :=
  match l with
  | [] => []
  | x :: rest => (key_of_index i, x) :: arr_entries rest (S i)
  end.

Fixpoint str_entries (s : string) (i : nat) : fields :=
  match s with
  | EmptyString => []
  | String c rest =>
      (key_of_index i, JStr (String c EmptyString)) :: str_entries rest (S i)
  end.

(** The own enumerable string-keyed properties of a value, in enumeration
    order: what [Object.keys], [Object.values], [for..in] and lodash's
    [keysIn] see. *)
Definition entries (v : json) : fields :=
  match v with
  | JObj m => m
  | JArr l => arr_entries l 0
  | JStr s => str_entries s 0
  | _ => []
  end.

(** [Object.keys(v)] and [Object.values(v)]. *)
Definition object_keys (v : json) : list string := map fst (entries v).
Definition object_values (v : json) : list json := map snd (entries v).

(** [l[k] = v] on an array: an index inside the array replaces the element,
    an index past the end extends the array (the gap reads [undefined]);
    other keys do not occur in the code. *)
Fixpoint arr_set (l : list json) (i : nat) (v : json) : list json :=
  match l, i with
  | [], 0 => [v]
  | [], S i' => JUndef :: arr_set [] i' v
  | _ :: rest, 0 => v :: rest
  | x :: rest, S i' => x :: arr_set rest i' v
  end.

(** [target[k] = v] in strict mode; the result is the updated target. *)
Definition set_prop (target : json) (k : string) (v : json) : outcome json :=
  match target with
  | JObj m => Ret (JObj (obj_set k v m))
  | JArr l =>
      match index_of_key k with
      | Some i => Ret (JArr (arr_set l (N.to_nat i) v))
      | None => Throw TypeError
      end
  | _ => Throw TypeError
  end.

(** ** Strings *)

(** [s.split(sep)] for a one-character separator: never empty. *)
Fixpoint split (sep : ascii) (s : string) : list string :=
  match s with
  | EmptyString => [EmptyString]
  | String c rest =>
      if Ascii.eqb c sep then EmptyString :: split sep rest
      else match split sep rest with
           | seg :: segs => String c seg :: segs
           | [] => [String c EmptyString]
           end
  end.

(** [l.join(sep)]. *)
Fixpoint join (sep : string) (l : list string) : string :=
  match l with
  | [] => ""
  | x :: rest =>
      match rest with
      | [] => x
      | _ :: _ => (x ++ sep ++ join sep rest)%string
      end
  end.

Definition slash : ascii := "/"%char.

(** [s.startsWith(searchString)]. *)
Definition startsWith (s searchString : string) : bool :=
  String.prefix searchString s.

(** [_.startsWith(key, 'x-')]: the test for a Swagger extension key. *)
Definition isExtension (key : string) : bool := startsWith key "x-".

(** ** lodash *)

(** [isLength]: a non-negative safe integer. *)
Definition isLength (v : json) : option nat :=
  match v with
  | JNum n =>
      if (0 <=? n)%Z && (n <=? 9007199254740991)%Z then Some (Z.to_nat n) else None
  | _ => None
  end.

(** The pairs [_.forEach(collection, (value, key) => ...)] visits.  Arrays and
    strings are visited by index; so is every object that has a [length]
    property holding a valid length ("objects with a length property are
    iterated like arrays"), index by index up to that length. *)
Definition forEach_entries (collection : json) : fields :=
  match collection with
  | JObj m =>
      match isLength (obj_get m "length") with
      | Some n => map (fun i => (key_of_index i, obj_get m (key_of_index i))) (seq 0 n)
      | None => m
      end
  | _ => entries collection
  end.

(** [_.omit(object, keys)]: a new object with the own enumerable properties
    of [object] except [keys]. *)
Definition omit (object : json) (keys : list string) : fields :=
  filter (fun kv => negb (existsb (String.eqb (fst kv)) keys)) (entries object).

(** [_.omitBy(object, predicate)] for a predicate on keys.  The keys lodash
    guards ([__proto__], [constructor], [prototype]) are treated like any
    other key. *)
Definition omitBy (object : fields) (predicate : string -> bool) : fields :=
  filter (fun kv => negb (predicate (fst kv))) object.

Definition cloneDeep (v : json) : json := v.

(** ** ReferenceResolver *)

Definition parseReference (reference : string) : outcome string :=
  let parts := split slash reference in
  if negb (nth 0 parts "" =? "#") then Throw InvalidReferenceRoot
  else
    match nth_error parts 1 with
    | Some second =>
        if (second =? "definitions") && (List.length parts =? 3)%nat
        then Ret (nth 2 parts "")
        else Throw InvalidReferenceTarget
    | None => Throw InvalidReferenceTarget
    end.

(** [depth && depth === currentDepth]. *)
Definition depth_reached (depth : option Z) (currentDepth : Z) : bool :=
  match depth with
  | Some d => negb (d =? 0)%Z && (d =? currentDepth)%Z
  | None => false
  end.

(** The [while] loop of [lookupReference].  [parts] holds the segments still
    to follow, in reading order: the source reverses the array and pops from
    its end, which takes them in this order.  [value[key]] is the property
    of the data under [key], [undefined] when there is none. *)
Fixpoint lookup_walk (parts : list string) (value : json) (currentDepth : Z)
    (depth : option Z) : outcome json :=
  match parts with
  | [] => Ret value
  | key :: rest =>
      if is_undef value then Ret value
      else
        value' <- prop value key ;;
        let currentDepth' := (currentDepth + 1)%Z in
        if depth_reached depth currentDepth' then Ret value'
        else lookup_walk rest value' currentDepth' depth
  end.

(** The result [{ id, referenced }]; [id] is [None] when the reference has no
    third segment ([parts[parts.length - 1]] of an empty array). *)
Definition lookupReference (reference : json) (root : json) (depth : option Z)
    : outcome (option string * json) :=
  match reference with
  | JStr reference =>
      match split slash reference with
      | [] => Throw InvalidReferenceRoot
      | first :: parts1 =>
          if negb (first =? "#") then Throw InvalidReferenceRoot
          else
            match parts1 with
            | [] => Throw InvalidReferenceTarget
            | second :: parts =>
                if negb (second =? "definitions") then Throw InvalidReferenceTarget
                else
                  let id := hd_error parts in
                  value <- prop root "definitions" ;;
                  value <- lookup_walk parts value 2 depth ;;
                  if is_undef value then Throw (ReferenceNotFound reference)
                  else Ret (id, value)
            end
      end
  | _ => Throw TypeError          (* reference.split is not a function *)
  end.

(** The property key an [id] is used as: [o[undefined]] is [o['undefined']]. *)
Definition key_of_id (id : option string) : string :=
  match id with
  | Some s => s
  | None => "undefined"
  end.

(** ** CycleSafeDereferencer *)

Definition or_empty (l : option (list string)) : list string :=
  match l with Some l => l | None => [] end.

Definition pathHasCircularReference (paths path : option (list string))
    (reference : string) : bool :=
  let currentPath := join "/" (or_empty path) in
  if startsWith currentPath reference then true
  else
    match find (fun p => startsWith p reference) (or_empty paths) with
    | Some p => negb (p =? "")
    | None => false
    end.

(** [example.$ref && _.isString(example.$ref)], for an [example] that is
    neither [null] nor [undefined]. *)
Definition ref_string (example : json) : option string :=
  match get example "$ref" with
  | JStr s => if s =? "" then None else Some s
  | _ => None
  end.

Definition is_some {A : Type} (o : option A) : bool :=
  match o with Some _ => true | None => false end.

Fixpoint dereference (fuel : nat) (example root : json)
    (paths path : option (list string)) : outcome json :=
  match fuel with
  | 0 => OutOfFuel
  | S fuel' =>
      match example with
      | JUndef | JNull => Ret example
      | _ =>
          match ref_string example with
          | Some ref =>
              let refPath := split slash ref in
              let currentPath := join "/" (or_empty path) in
              if is_some path && pathHasCircularReference paths path ref
              then Ret JNull
              else
                '(_, referenced) <- lookupReference (JStr ref) root None ;;
                let newPaths := or_empty paths ++ [currentPath] in
                dereference fuel' referenced root (Some newPaths) (Some refPath)
          | None =>
              match example with
              | JArr l =>
                  l' <- mapM (fun value => dereference fuel' value root paths path) l ;;
                  Ret (JArr l')
              | JObj _ =>
                  result <-
                    fold_left
                      (fun (acc : outcome fields) (kv : string * json) =>
                         result <- acc ;;
                         value <- dereference fuel' (snd kv) root paths
                                    (Some (or_empty path ++ [fst kv])) ;;
                         Ret (obj_set (fst kv) value result))
                      (forEach_entries example) (Ret []) ;;
                  Ret (JObj result)
              | _ => Ret example
              end
          end
      end
  end.

(** ** SchemaNodeConverter *)

Definition swagger_only_keys : list string :=
  ["discriminator"; "readOnly"; "xml"; "externalDocs"; "example"].

Definition is_array (v : json) : bool :=
  match v with JArr _ => true | _ => false end.

Definition is_file (v : json) : bool :=
  match v with JStr s => s =? "file" | _ => false end.

(** A converter of one node: the node and the references recorded so far go
    in, the converted node and the extended record come out. *)
Definition converter : Type := json -> list json -> outcome (json * list json).

(** [l.map(recurse)], the record of references threaded through. *)
Fixpoint map_convert (recurse : converter) (l : list json) (references : list json)
    : outcome (list json * list json) :=
  match l with
  | [] => Ret ([], references)
  | s :: rest =>
      '(s', references) <- recurse s references ;;
      '(rest', references) <- map_convert recurse rest references ;;
      Ret (s' :: rest', references)
  end.

(** [v.map(recurse)] for any [v]: only an array has the method. *)
Definition map_method (recurse : converter) (v : json) (references : list json)
    : outcome (json * list json) :=
  match v with
  | JArr l =>
      '(l', references) <- map_convert recurse l references ;;
      Ret (JArr l', references)
  | _ => Throw TypeError
  end.

(** [if (schema[name]) actualSchema[name] = schema[name].map(recurse)]. *)
Definition convert_each (recurse : converter) (name : string) (schema : json)
    (actualSchema : fields) (references : list json) : outcome (fields * list json) :=
  if truthy (get schema name) then
    '(converted, references) <- map_method recurse (get schema name) references ;;
    Ret (obj_set name converted actualSchema, references)
  else Ret (actualSchema, references).

(** [actualSchema[name] = recurse(schema[name])]. *)
Definition convert_one (recurse : converter) (name : string) (schema : json)
    (actualSchema : fields) (references : list json) : outcome (fields * list json) :=
  '(converted, references) <- recurse (get schema name) references ;;
  Ret (obj_set name converted actualSchema, references).

(** [Object.keys(schema[name]).forEach(key =>
       actualSchema[name][key] = recurse(schema[name][key]))]. *)
Definition convert_keys (recurse : converter) (name : string) (schema : json)
    (actualSchema : fields) (references : list json) : outcome (fields * list json) :=
  fold_left
    (fun (acc : outcome (fields * list json)) (key : string) =>
       '(actualSchema, references) <- acc ;;
       '(converted, references) <- recurse (get (get schema name) key) references ;;
       target <- set_prop (obj_get actualSchema name) key converted ;;
       Ret (obj_set name target actualSchema, references))
    (object_keys (get schema name)) (Ret (actualSchema, references)).

(** The body of [if (schema['x-nullable'])]. *)
Definition nullable (actualSchema : fields) : outcome fields :=
  let type := obj_get actualSchema "type" in
  let actualSchema :=
    if truthy type then obj_set "type" (JArr [type; JStr "null"]) actualSchema
    else if is_undef (obj_get actualSchema "enum")
         then obj_set "type" (JStr "null") actualSchema
         else actualSchema in
  let enum := obj_get actualSchema "enum" in
  if truthy enum then
    match enum with
    | JArr l =>
        if existsb is_null l then Ret actualSchema
        else Ret (obj_set "enum" (JArr (l ++ [JNull])) actualSchema)
    | JStr s =>
        (* String.prototype.includes looks for 'null'; a string has no push *)
        if is_some (String.index 0 "null" s) then Ret actualSchema
        else Throw TypeError
    | _ => Throw TypeError
    end
  else Ret actualSchema.

(** Lines 158 to 205: the recursion into the combinators, the array keywords
    and the object keywords, in the order of the source. *)
Definition convert_children (recurse : converter) (schema : json)
    (actualSchema : fields) (references : list json) : outcome (fields * list json) :=
  '(actualSchema, references) <-
    convert_each recurse "allOf" schema actualSchema references ;;
  '(actualSchema, references) <-
    convert_each recurse "anyOf" schema actualSchema references ;;
  '(actualSchema, references) <-
    convert_each recurse "oneOf" schema actualSchema references ;;
  '(actualSchema, references) <-
    (if truthy (get schema "not")
     then convert_one recurse "not" schema actualSchema references
     else Ret (actualSchema, references)) ;;
  '(actualSchema, references) <-
    (if truthy (get schema "items") then
       if is_array (get schema "items")
       then convert_each recurse "items" schema actualSchema references
       else convert_one recurse "items" schema actualSchema references
     else Ret (actualSchema, references)) ;;
  '(actualSchema, references) <-
    (if truthy (get schema "additionalItems")
        && typeof_object (get schema "additionalItems")
     then convert_one recurse "additionalItems" schema actualSchema references
     else Ret (actualSchema, references)) ;;
  '(actualSchema, references) <-
    (if truthy (get schema "properties")
     then convert_keys recurse "properties" schema actualSchema references
     else Ret (actualSchema, references)) ;;
  '(actualSchema, references) <-
    (if truthy (get schema "patternProperties")
     then convert_keys recurse "patternProperties" schema actualSchema references
     else Ret (actualSchema, references)) ;;
  (if truthy (get schema "additionalProperties")
      && typeof_object (get schema "additionalProperties")
   then convert_one recurse "additionalProperties" schema actualSchema references
   else Ret (actualSchema, references)).

(** Lines 133 to 140: the copy without the Swagger-only and extension keys,
    and the rewriting of the [file] type. *)
Definition strip_keys (schema : json) : fields :=
  let actualSchema := omit schema swagger_only_keys in
  let actualSchema := omitBy actualSchema isExtension in
  let actualSchema := map (fun kv => (fst kv, cloneDeep (snd kv))) actualSchema in
  if is_file (get schema "type")
  then obj_set "type" (JStr "string") actualSchema
  else actualSchema.

Fixpoint convertSubSchema (fuel : nat) (schema : json) (references : list json)
    (swagger : json) : outcome (json * list json) :=
  match fuel with
  | 0 => OutOfFuel
  | S fuel' =>
      ref <- prop schema "$ref" ;;
      if truthy ref then Ret (JObj [("$ref", ref)], references ++ [ref])
      else
        let recurse : converter := fun s refs => convertSubSchema fuel' s refs swagger in
        let actualSchema := strip_keys schema in
        actualSchema <-
          (if truthy (get schema "example") then
             example <- dereference fuel' (get schema "example") swagger None None ;;
             Ret (obj_set "examples" (JArr [example]) actualSchema)
           else Ret actualSchema) ;;
        actualSchema <-
          (if truthy (get schema "x-nullable") then nullable actualSchema
           else Ret actualSchema) ;;
        '(actualSchema, references) <-
          convert_children recurse schema actualSchema references ;;
        Ret (JObj actualSchema, references)
  end.

(** ** ReferenceScanner *)

(** [l.some(f)] where [f] may throw. *)
Fixpoint someM {A : Type} (f : A -> outcome bool) (l : list A) : outcome bool :=
  match l with
  | [] => Ret false
  | x :: rest =>
      b <- f x ;;
      if b then Ret true else someM f rest
  end.

Fixpoint checkSchemaHasReferences (fuel : nat) (schema : json) : outcome bool :=
  match fuel with
  | 0 => OutOfFuel
  | S fuel' =>
      ref <- prop schema "$ref" ;;
      if truthy ref then Ret true
      else
        someM
          (fun value =>
             match value with
             | JArr l => someM (checkSchemaHasReferences fuel') l
             | JObj _ => checkSchemaHasReferences fuel' value
             | _ => Ret false
             end)
          (object_values schema)
  end.

(** [a.concat(...args)]: an argument that is an array contributes its
    elements, any other argument contributes itself. *)
Definition concat_spread (a : list json) (args : list json) : list json :=
  a ++ flat_map (fun x => match x with JArr l => l | _ => [x] end) args.

(** [references.concat(...v.map(find))]. *)
Definition find_each (find : json -> outcome (list json)) (v : json)
    (references : list json) : outcome (list json) :=
  match v with
  | JArr l =>
      found <- mapM find l ;;
      Ret (references ++ concat found)
  | _ => Throw TypeError
  end.

(** [Object.keys(v).forEach(key =>
       references = references.concat(find(v[key])))]. *)
Definition find_keys (find : json -> outcome (list json)) (v : json)
    (references : list json) : outcome (list json) :=
  fold_left
    (fun (acc : outcome (list json)) (key : string) =>
       references <- acc ;;
       found <- find (get v key) ;;
       Ret (references ++ found))
    (object_keys v) (Ret references).

(** Lines 238 to 284: the references of the children, in the order of the
    source. *)
Definition find_children (find : json -> outcome (list json)) (schema : json)
    : outcome (list json) :=
  let references : list json := [] in
  references <-
    (if truthy (get schema "allOf")
     then find_each find (get schema "allOf") references
     else Ret references) ;;
  references <-
    (if truthy (get schema "anyOf")
     then find_each find (get schema "anyOf") references
     else Ret references) ;;
  references <-
    (if truthy (get schema "oneOf")
     then find_each find (get schema "oneOf") references
     else Ret references) ;;
  references <-
    (if truthy (get schema "not") then
       found <- find (get schema "not") ;;
       Ret (concat_spread references found)
     else Ret references) ;;
  references <-
    (if truthy (get schema "items") then
       if is_array (get schema "items")
       then find_each find (get schema "items") references
       else found <- find (get schema "items") ;; Ret (references ++ found)
     else Ret references) ;;
  references <-
    (if truthy (get schema "additionalItems")
        && typeof_object (get schema "additionalItems")
     then found <- find (get schema "additionalItems") ;; Ret (references ++ found)
     else Ret references) ;;
  references <-
    (if truthy (get schema "properties")
     then find_keys find (get schema "properties") references
     else Ret references) ;;
  references <-
    (if truthy (get schema "patternProperties")
     then find_keys find (get schema "patternProperties") references
     else Ret references) ;;
  (if truthy (get schema "additionalProperties")
      && typeof_object (get schema "additionalProperties")
   then found <- find (get schema "additionalProperties") ;;
        Ret (references ++ found)
   else Ret references).

Fixpoint findReferences (fuel : nat) (schema : json) : outcome (list json) :=
  match fuel with
  | 0 => OutOfFuel
  | S fuel' =>
      ref <- prop schema "$ref" ;;
      if truthy ref then Ret [ref]
      else find_children (findReferences fuel') schema
  end.

(** ** DefinitionClosureBuilder and RootReferenceNormalizer *)

(** [references.pop()] on a non-empty array: the last element, and the array
    without it. *)
Definition pop {A : Type} (l : list A) : option (A * list A) :=
  match rev l with
  | [] => None
  | x :: r => Some (x, rev r)
  end.

(** The [while (references.length !== 0)] loop.  [definitions] is the object
    held by [result.definitions], which line 301 creates whenever the loop
    body is going to run; [steps] bounds the number of iterations.  The test
    [result.definitions[lookup.id] === undefined] is the test that the
    object has no property of its own under the id. *)
Fixpoint copy_loop (steps fuel : nat) (references : list json)
    (definitions : fields) (root : json) : outcome fields :=
  match steps with
  | 0 => OutOfFuel
  | S steps' =>
      match pop references with
      | None => Ret definitions
      | Some (reference, references) =>
          '(id, referenced) <- lookupReference reference root (Some 3%Z) ;;
          if is_undef (obj_get definitions (key_of_id id)) then
            found <- findReferences fuel referenced ;;
            copy_loop steps' fuel (references ++ found)
              (obj_set (key_of_id id) referenced definitions) root
          else copy_loop steps' fuel references definitions root
      end
  end.

Definition allOf_wrapper (ref definitions : json) : json :=
  JObj [("allOf", JArr [JObj [("$ref", ref)]]); ("definitions", definitions)].

Definition convertSchema (fuel : nat) (schema root swagger : json)
    (copyDefinitions : bool) : outcome json :=
  '(result, references) <- convertSubSchema fuel schema [] swagger ;;
  result <-
    (if copyDefinitions then
       match references with
       | [] => Ret result
       | _ :: _ =>
           definitions <- copy_loop fuel fuel references [] root ;;
           set_prop result "definitions" (JObj definitions)
       end
     else Ret result) ;;
  if truthy (get result "$ref") && copyDefinitions then
    '(id, _) <- lookupReference (get result "$ref") root None ;;
    definition <- prop (get result "definitions") (key_of_id id) ;;
    hasReferences <- checkSchemaHasReferences fuel definition ;;
    if negb hasReferences then Ret definition
    else Ret (allOf_wrapper (get result "$ref") (get result "definitions"))
  else Ret result.

(** ** BatchConverter *)

Definition convertSchemaDefinitions (fuel : nat) (definitions : json) : outcome json :=
  if truthy definitions then
    let root := JObj [("definitions", definitions)] in
    jsonSchemaDefinitions <-
      fold_left
        (fun (acc : outcome fields) (kv : string * json) =>
           jsonSchemaDefinitions <- acc ;;
           converted <- convertSchema fuel (snd kv) root root false ;;
           Ret (obj_set (fst kv) converted jsonSchemaDefinitions))
        (forEach_entries definitions) (Ret []) ;;
    Ret (JObj jsonSchemaDefinitions)
  else Ret (JObj []).

(** ** Measures on values *)

Fixpoint height (v : json) : nat :=
  match v with
  | JArr l => S (fold_right (fun x acc => Nat.max (height x) acc) 0 l)
  | JObj m => S (fold_right (fun kv acc => Nat.max (height (snd kv)) acc) 0 m)
  | _ => 0
  end.

(** Every string held under a [$ref] key, at any depth. *)
Fixpoint refs_of (v : json) : list string :=
  match v with
  | JArr l => flat_map refs_of l
  | JObj m =>
      flat_map
        (fun kv =>
           (if fst kv =? "$ref"
            then match snd kv with JStr s => [s] | _ => [] end
            else [])
           ++ refs_of (snd kv)) m
  | _ => []
  end.

(** Fuel that lets [dereference example root] run to its end. *)
Definition dereference_fuel (root example : json) : nat :=
  S (List.length (refs_of root ++ refs_of example)
     * (Nat.max (height root) (height example) + 2)
     + height example).

(** The references the cycle check answers for; [dereference] consults it
    only when a path is given. *)
Definition blocked (paths path : option (list string)) (r : string) : bool :=
  is_some path && pathHasCircularReference paths path r.

(** The keys of the children the converter and the scanner recurse into. *)
Definition child_keys : list string :=
  ["allOf"; "anyOf"; "oneOf"; "not"; "items"; "additionalItems";
   "properties"; "patternProperties"; "additionalProperties"].

(** The keys a conversion may write to after the copy. *)
Definition written_keys : list string := "type" :: "enum" :: "examples" :: child_keys.

(** Fuel that lets [convertSubSchema schema _ swagger] run to its end. *)
Definition convertSubSchema_fuel (schema swagger : json) : nat :=
  List.length (refs_of swagger ++ refs_of schema)
  * (Nat.max (height swagger) (height schema) + 2)
  + Nat.max (height swagger) (height schema) + 2 + height schema.

(** The keys under which [v] may hold something. *)
Definition own_keys (v : json) : list string := "length" :: object_keys v.

(** The keys the definitions map of a result can have: the ids present in
    [root.definitions], and ['undefined'] for a reference without an id. *)
Definition definition_keys (root : json) : list string :=
  "undefined" :: own_keys (get root "definitions").

(** How many elements of [l] do not satisfy [p] yet. *)
Definition count_unset {A : Type} (p : A -> bool) (l : list A) : nat :=
  List.length (filter (fun x => negb (p x)) l).

Definition is_set (definitions : fields) (k : string) : bool :=
  negb (is_undef (obj_get definitions k)).

(** [c fuel] settles on the outcome [r] once there is enough fuel. *)
Definition settles {A : Type} (c : nat -> outcome A) (r : outcome A) : Prop :=
  r <> OutOfFuel /\ exists N, forall k, c (N + k) = r.

Definition converges {A : Type} (c : nat -> outcome A) : Prop :=
  exists r, settles c r.

(** [approx a b]: [b] is [a], or [a] ran out of fuel. *)
Definition approx {A : Type} (a b : outcome A) : Prop :=
  a = OutOfFuel \/ a = b.

Definition approx_converter (recurse recurse' : converter) : Prop :=
  forall s refs, approx (recurse s refs) (recurse' s refs).

Definition approx_find (find find' : json -> outcome (list json)) : Prop :=
  forall s, approx (find s) (find' s).


(** The references of [universe] the cycle check does not answer for yet. *)
Definition unblocked (universe : list string) (paths path : option (list string)) : nat :=
  count_unset (blocked paths path) universe.

(** ** Schema positions *)

(** [schema_child name v c]: [c] is a child schema of [v] under the keyword
    [name], one of the children [convertSubSchema] and [findReferences]
    recurse into: the elements of [allOf], [anyOf], [oneOf] and of an array
    [items]; [not] and a single [items]; an [additionalItems] or
    [additionalProperties] that is an object; the values of an object
    [properties] or [patternProperties]. *)
Inductive schema_child : string -> json -> json -> Prop :=
| child_each (name : string) (v : json) (l : list json) (c : json) :
    In name ["allOf"; "anyOf"; "oneOf"; "items"] ->
    get v name = JArr l -> In c l -> schema_child name v c
| child_not (v : json) :
    truthy (get v "not") = true -> schema_child "not" v (get v "not")
| child_items (v : json) :
    truthy (get v "items") = true -> is_array (get v "items") = false ->
    schema_child "items" v (get v "items")
| child_additional (name : string) (v : json) :
    In name ["additionalItems"; "additionalProperties"] ->
    truthy (get v name) = true -> typeof_object (get v name) = true ->
    schema_child name v (get v name)
| child_property (name : string) (v : json) (p : fields) (key : string) :
    In name ["properties"; "patternProperties"] ->
    get v name = JObj p -> In key (map fst p) ->
    schema_child name v (obj_get p key).

(** [schema_ref r v]: [r] is the (truthy) [$ref] of [v] or of a schema below
    [v]; the search stops at a reference, as the code does. *)
Inductive schema_ref (r : json) : json -> Prop :=
| ref_here (v : json) :
    truthy (get v "$ref") = true -> get v "$ref" = r -> schema_ref r v
| ref_below (v : json) (name : string) (c : json) :
    truthy (get v "$ref") = false ->
    schema_child name v c -> schema_ref r c -> schema_ref r v.

(** [deep_ref v]: some object inside [v], at any depth below object values
    and array elements, has a truthy [$ref]. *)
Inductive deep_ref : json -> Prop :=
| deep_here (m : fields) : truthy (obj_get m "$ref") = true -> deep_ref (JObj m)
| deep_field (m : fields) (kv : string * json) :
    In kv m -> deep_ref (snd kv) -> deep_ref (JObj m)
| deep_elem (l : list json) (x : json) : In x l -> deep_ref x -> deep_ref (JArr l).

(** [converted recurse lo hi c c']: some call of [recurse] on [c], made with
    at least the references [lo] recorded, returned [c'] and a record within
    [hi]. *)
Definition converted (recurse : converter) (lo hi : list json) (c c' : json) : Prop :=
  exists r0 r0', recurse c r0 = Ret (c', r0') /\ incl lo r0 /\ incl r0' hi.

(** A converter only adds to the record of references. *)
Definition growing (recurse : converter) : Prop :=
  forall s r0 s' r0', recurse s r0 = Ret (s', r0') -> incl r0 r0'.

(** The reference [r] resolves, at depth 3, to an id that [definitions]
    has. *)
Definition resolved (root : json) (definitions : fields) (r : json) : Prop :=
  exists id node,
    lookupReference r root (Some 3%Z) = Ret (id, node)
    /\ obj_get definitions (key_of_id id) <> JUndef.

(** A step of the converter on the node under construction and the record of
    references. *)
Definition step : Type := fields -> list json -> outcome (fields * list json).

(** The step [convert_children] takes for the keyword [name]. *)
Definition child_step (recurse : converter) (schema : json) (name : string) : step :=
  fun actualSchema references =>
    if existsb (String.eqb name) ["allOf"; "anyOf"; "oneOf"] then
      convert_each recurse name schema actualSchema references
    else if name =? "not" then
      if truthy (get schema "not")
      then convert_one recurse "not" schema actualSchema references
      else Ret (actualSchema, references)
    else if name =? "items" then
      if truthy (get schema "items") then
        if is_array (get schema "items")
        then convert_each recurse "items" schema actualSchema references
        else convert_one recurse "items" schema actualSchema references
      else Ret (actualSchema, references)
    else if existsb (String.eqb name) ["additionalItems"; "additionalProperties"] then
      if truthy (get schema name) && typeof_object (get schema name)
      then convert_one recurse name schema actualSchema references
      else Ret (actualSchema, references)
    else if existsb (String.eqb name) ["properties"; "patternProperties"] then
      if truthy (get schema name)
      then convert_keys recurse name schema actualSchema references
      else Ret (actualSchema, references)
    else Ret (actualSchema, references).

Fixpoint run_steps (steps : list step) (actualSchema : fields) (references : list json)
    : outcome (fields * list json) :=
  match steps with
  | [] => Ret (actualSchema, references)
  | s :: rest =>
      '(actualSchema, references) <- s actualSchema references ;;
      run_steps rest actualSchema references
  end.

(** [closed root definitions pending]: every string reference at a schema
    position of a copied definition is still on the worklist or resolves to
    a copied definition. *)
Definition closed (root : json) (definitions : fields) (pending : list json) : Prop :=
  forall k s,
    obj_get definitions k <> JUndef ->
    schema_ref (JStr s) (obj_get definitions k) ->
    In (JStr s) pending \/ resolved root definitions (JStr s).

(** [definitions'] has everything [definitions] has, unchanged. *)
Definition extends (definitions definitions' : fields) : Prop :=
  forall k, obj_get definitions k <> JUndef ->
            obj_get definitions' k = obj_get definitions k.

(** Inclusion of the string references of a list in another. *)
Definition strings_incl (l l' : list json) : Prop :=
  forall s, In (JStr s) l -> In (JStr s) l'.

(** ** The conversion as the specification words it *)

(** A key the conversion removes: a Swagger-only key or an extension. *)
Definition removed_key (k : string) : bool :=
  existsb (String.eqb k) swagger_only_keys || isExtension k.

(** The child schemas below the value [x] of the keyword [k], rewritten by
    [rec]; any other value is left as it is. *)
Definition strip_child (rec : json -> json) (k : string) (x : json) : json :=
  if existsb (String.eqb k) ["allOf"; "anyOf"; "oneOf"; "items"] && is_array x then
    match x with JArr l => JArr (map rec l) | _ => x end
  else if existsb (String.eqb k) ["not"; "items"; "additionalItems"; "additionalProperties"]
  then rec x
  else if existsb (String.eqb k) ["properties"; "patternProperties"] then
    match x with
    | JObj p => JObj (map (fun kv => (fst kv, rec (snd kv))) p)
    | _ => x
    end
  else x.

(** "A structurally equal schema with only extension/Swagger-only keys
    removed": the keys are removed from the schema and from every schema
    below it; nothing else is added, removed or changed. *)
Fixpoint stripSwaggerKeys (v : json) : json :=
  match v with
  | JObj m =>
      JObj (flat_map
              (fun kv =>
                 if removed_key (fst kv) then []
                 else [(fst kv, strip_child stripSwaggerKeys (fst kv) (snd kv))])
              m)
  | _ => v
  end.

(** A schema the idempotence property speaks of: an object with distinct
    keys, no reference, no [x-nullable], no [file] type and no example, whose
    combinators are arrays and whose property maps are objects with distinct
    keys, and whose child schemas are such schemas. *)
Inductive plain : json -> Prop :=
| plain_node (m : fields) :
    NoDup (map fst m) ->
    truthy (obj_get m "$ref") = false ->
    truthy (obj_get m "x-nullable") = false ->
    is_file (obj_get m "type") = false ->
    truthy (obj_get m "example") = false ->
    (forall name, In name ["allOf"; "anyOf"; "oneOf"] ->
                  truthy (obj_get m name) = true -> is_array (obj_get m name) = true) ->
    (forall name, In name ["properties"; "patternProperties"] ->
                  truthy (obj_get m name) = true ->
                  exists p, obj_get m name = JObj p /\ NoDup (map fst p)) ->
    (forall name c, schema_child name (JObj m) c -> plain c) ->
    plain (JObj m).

(** ** Names with a meaning of their own *)

(** The members every object inherits from [Object.prototype]: read under
    such a name, an object that has no property of that name gives the
    inherited member, not [undefined]. *)
Definition inherited_names : list string :=
  ["constructor"; "__proto__"; "hasOwnProperty"; "isPrototypeOf";
   "propertyIsEnumerable"; "toLocaleString"; "toString"; "valueOf";
   "__defineGetter__"; "__defineSetter__"; "__lookupGetter__"; "__lookupSetter__"].

Definition inherited_name (k : string) : bool :=
  existsb (String.eqb k) inherited_names.

(** The keys lodash refuses to set on the object [_.omitBy] builds. *)
Definition guarded_key (k : string) : bool :=
  existsb (String.eqb k) ["__proto__"; "constructor"; "prototype"].

(** No schema at a schema position, the schema itself included, has a
    property under a guarded key. *)
Inductive unguarded : json -> Prop :=
| unguarded_node (m : fields) :
    (forall k, In k (map fst m) -> guarded_key k = false) ->
    (forall name c, schema_child name (JObj m) c -> unguarded c) ->
    unguarded (JObj m).

(** The id of a reference: its third segment, if it has one. *)
Definition reference_id (reference : string) : option string :=
  nth_error (split slash reference) 2.

(** No [$ref] string inside the value, at any depth, has an inherited name
    as its id. *)
Definition own_ids (v : json) : bool :=
  forallb
    (fun reference =>
       match reference_id reference with
       | Some id => negb (inherited_name id)
       | None => true
       end)
    (refs_of v).

(** Reading [value[key]] gives the property of the data or [undefined]: the
    value is an object and the key no inherited name, or it is an array and
    the key an index. *)
Definition own_read (value : json) (key : string) : bool :=
  match value with
  | JObj _ => negb (inherited_name key)
  | JArr _ => match index_of_key key with Some _ => true | None => false end
  | _ => false
  end.

(** ** Example documents *)

Definition tagged_leaf : json := JObj [("type", JStr "string"); ("xml", JObj [])].

Definition tagged_schema : json :=
  JObj [("type", JStr "object"); ("x-internal", JNum 1); ("readOnly", JBool true);
        ("properties", JObj [("name", tagged_leaf)])].

Definition example_string_schema : json :=
  JObj [("type", JStr "string"); ("example", JStr "foo")].

Definition closure_root : json :=
  JObj [("definitions",
         JObj [("A", JObj [("items", JObj [("$ref", JStr "#/definitions/B")])]);
               ("B", JObj [("type", JStr "string")])])].

Definition closure_schema : json :=
  JObj [("properties",
         JObj [("a", JObj [("$ref", JStr "#/definitions/A")]);
               ("b", JObj [("$ref", JStr "#/definitions/B")])])].

Definition closure_result : json :=
  JObj [("properties",
         JObj [("a", JObj [("$ref", JStr "#/definitions/A")]);
               ("b", JObj [("$ref", JStr "#/definitions/B")])]);
        ("definitions",
         JObj [("B", JObj [("type", JStr "string")]);
               ("A", JObj [("items", JObj [("$ref", JStr "#/definitions/B")])])])].

Definition bogus_items_schema : json :=
  JObj [("type", JStr "array"); ("items", JObj [("$ref", JStr "bogus")])].



Definition default_ref_schema : json :=
  JObj [("type", JStr "object");
        ("default", JObj [("$ref", JStr "#/definitions/Missing")])].

Definition node_ref : json := JObj [("$ref", JStr "#/definitions/Node")].

Definition node_root : json :=
  JObj [("definitions",
         JObj [("Node",
                JObj [("type", JStr "object");
                      ("properties",
                       JObj [("next", JObj [("$ref", JStr "#/definitions/Node")])])])])].


Definition nullable_enum_schema : fields :=
  [("type", JStr "string"); ("enum", JArr [JStr "a"; JStr "b"]);
   ("x-nullable", JBool true)].

Definition example_swagger : json :=
  JObj [("definitions", JObj [("Name", JObj [("first", JStr "Ada")])])].

Definition example_schema : fields :=
  [("type", JStr "object");
   ("example", JObj [("name", JObj [("$ref", JStr "#/definitions/Name")])])].

Definition status_ref : json := JObj [("$ref", JStr "#/definitions/Status")].

Definition status_node : json :=
  JObj [("type", JStr "string"); ("enum", JArr [JStr "on"; JNull])].

Definition status_root : json := JObj [("definitions", JObj [("Status", status_node)])].

Definition status_default_root : json :=
  JObj [("definitions",
         JObj [("Status", JObj [("type", JStr "string"); ("default", JNull)])])].

Definition self_ref : json := JObj [("$ref", JStr "#/definitions/A")].

Definition self_root : json := JObj [("definitions", JObj [("A", self_ref)])].

Definition user_root : json :=
  JObj [("definitions",
         JObj [("User",
                JObj [("type", JStr "object");
                      ("properties",
                       JObj [("name", JObj [("type", JStr "string")])])])])].

(** ** Reference strings *)

(** A segment: a string without ['/']. *)
Fixpoint no_slash (s : string) : bool :=
  match s with
  | EmptyString => true
  | String c rest => negb (Ascii.eqb c slash) && no_slash rest
  end.

(** ** Values without references *)

(** The properties are listed in the order the object enumerates them
    (integer-like keys first and ascending, then the others as inserted),
    each once: setting them one after the other builds the list itself. *)
Definition canonical (m : fields) : Prop :=
  fold_left (fun acc kv => obj_set (fst kv) (snd kv) acc) m [] = m.

(** A value no object of which has a string [$ref], is array-like (holds
    a valid length under [length]) or has a property named [__proto__]
    (writing it to the copy would set the prototype of the copy). *)
Inductive reference_free : json -> Prop :=
| free_atom (v : json) : typeof_object v = false -> reference_free v
| free_array (l : list json) :
    (forall x, In x l -> reference_free x) -> reference_free (JArr l)
| free_object (m : fields) :
    ref_string (JObj m) = None ->
    isLength (obj_get m "length") = None ->
    obj_has m "__proto__" = false ->
    canonical m ->
    (forall kv, In kv m -> reference_free (snd kv)) ->
    reference_free (JObj m).

(** ** Schemas whose references are strings *)

Definition string_or_falsy (v : json) : bool :=
  match v with JStr _ => true | _ => negb (truthy v) end.

Definition is_string (v : json) : bool :=
  match v with JStr _ => true | _ => false end.

(** Every [$ref] property inside the value, at any depth, holds a string or
    a falsy value. *)
Fixpoint string_refs (v : json) : bool :=
  match v with
  | JArr l => forallb string_refs l
  | JObj m =>
      forallb
        (fun kv =>
           (negb (fst kv =? "$ref") || string_or_falsy (snd kv)) && string_refs (snd kv))
        m
  | _ => true
  end.

(** [follow v parts]: the value reached from [v] along the keys [parts]. *)
Definition follow (v : json) (parts : list string) : json := fold_left get parts v.

(** * The store model

    The functions [convertSchema] calls, once more, over a heap of mutable
    cells: an object or an array is a location, a property holds a primitive
    or a location, and two properties may hold the same location.  Every
    assignment of the source ([actualSchema.type = ...], [enum.push(null)],
    [actualSchema.properties[key] = ...], [result.definitions[id] = ...],
    [result[key] = ...]) is a write to a cell, every object or array literal
    and every result of [map], [_.omit], [_.omitBy] and [_.cloneDeep] is a
    new cell.  The array [references] is created by [convertSchema] and held
    by no object: it is the list threaded through the calls, as before. *)

Module Store.

Definition loc : Type := nat.

Inductive val : Type :=
| VUndef
| VNull
| VBool (b : bool)
| VNum (n : Z)
| VStr (s : string)
| VRef (l : loc).

Definition props : Type := list (string * val).

Inductive cell : Type :=
| CObj (m : props)
| CArr (l : list val).

Definition heap : Type := list cell.

(** A location that was never allocated reads as an empty object; the
    program is never given one. *)
Definition read (h : heap) (l : loc) : cell := nth l h (CObj []).

Fixpoint update (h : heap) (l : loc) (c : cell) : heap :=
  match h, l with
  | [], _ => []
  | _ :: rest, 0 => c :: rest
  | x :: rest, S l' => x :: update rest l' c
  end.

(** A literal, or the result of a library call that builds a new object. *)
Definition alloc (c : cell) (h : heap) : val * heap :=
  (VRef (List.length h), h ++ [c]).

(** ** Primitives *)

Definition truthy (v : val) : bool :=
  match v with
  | VUndef | VNull => false
  | VBool b => b
  | VNum n => negb (n =? 0)%Z
  | VStr s => negb (s =? "")
  | VRef _ => true
  end.

Definition is_undef (v : val) : bool :=
  match v with VUndef => true | _ => false end.

Definition is_null (v : val) : bool :=
  match v with VNull => true | _ => false end.

Definition typeof_object (v : val) : bool :=
  match v with VRef _ => true | _ => false end.

Definition is_array (h : heap) (v : val) : bool :=
  match v with
  | VRef l => match read h l with CArr _ => true | CObj _ => false end
  | _ => false
  end.

Definition is_file (v : val) : bool :=
  match v with VStr s => s =? "file" | _ => false end.

Fixpoint props_get (m : props) (k : string) : val :=
  match m with
  | [] => VUndef
  | (k', v) :: rest => if k' =? k then v else props_get rest k
  end.

Fixpoint props_has (m : props) (k : string) : bool :=
  match m with
  | [] => false
  | (k', _) :: rest => (k' =? k) || props_has rest k
  end.

Fixpoint props_replace (k : string) (v : val) (m : props) : props :=
  match m with
  | [] => []
  | (k', v') :: rest =>
      if k' =? k then (k', v) :: rest else (k', v') :: props_replace k v rest
  end.

Fixpoint props_insert_index (i : N) (k : string) (v : val) (m : props) : props :=
  match m with
  | [] => [(k, v)]
  | (k', v') :: rest =>
      match index_of_key k' with
      | Some j =>
          if (j <? i)%N then (k', v') :: props_insert_index i k v rest
          else (k, v) :: m
      | None => (k, v) :: m
      end
  end.

Definition props_set (k : string) (v : val) (m : props) : props :=
  if props_has m k then props_replace k v m
  else match index_of_key k with
       | Some i => props_insert_index i k v m
       | None => m ++ [(k, v)]
       end.

Fixpoint elems_get (l : list val) (i : nat) (k : string) : val :=
  match l with
  | [] => VUndef
  | x :: rest => if key_of_index i =? k then x else elems_get rest (S i) k
  end.

Fixpoint chars_get (s : string) (i : nat) (k : string) : val :=
  match s with
  | EmptyString => VUndef
  | String c rest =>
      if key_of_index i =? k then VStr (String c EmptyString)
      else chars_get rest (S i) k
  end.

(** [v[k]] for a [v] that is neither [null] nor [undefined]. *)
Definition get (h : heap) (v : val) (k : string) : val :=
  match v with
  | VRef l =>
      match read h l with
      | CObj m => props_get m k
      | CArr a =>
          if k =? "length" then VNum (Z.of_nat (List.length a)) else elems_get a 0 k
      end
  | VStr s =>
      if k =? "length" then VNum (Z.of_nat (String.length s)) else chars_get s 0 k
  | _ => VUndef
  end.

Definition prop (h : heap) (v : val) (k : string) : outcome val :=
  match v with
  | VUndef | VNull => Throw TypeError
  | _ => Ret (get h v k)
  end.

Fixpoint elems_entries (l : list val) (i : nat) : props :=
  match l with
  | [] => []
  | x :: rest => (key_of_index i, x) :: elems_entries rest (S i)
  end.

Fixpoint chars_entries (s : string) (i : nat) : props :=
  match s with
  | EmptyString => []
  | String c rest =>
      (key_of_index i, VStr (String c EmptyString)) :: chars_entries rest (S i)
  end.

Definition entries (h : heap) (v : val) : props :=
  match v with
  | VRef l =>
      match read h l with
      | CObj m => m
      | CArr a => elems_entries a 0
      end
  | VStr s => chars_entries s 0
  | _ => []
  end.

Definition object_keys (h : heap) (v : val) : list string := map fst (entries h v).
Definition object_values (h : heap) (v : val) : list val := map snd (entries h v).

Fixpoint elems_set (l : list val) (i : nat) (v : val) : list val :=
  match l, i with
  | [], 0 => [v]
  | [], S i' => VUndef :: elems_set [] i' v
  | _ :: rest, 0 => v :: rest
  | x :: rest, S i' => x :: elems_set rest i' v
  end.

(** [target[k] = v] in strict mode: the cell of [target] is overwritten. *)
Definition set_prop (target : val) (k : string) (v : val) (h : heap) : outcome heap :=
  match target with
  | VRef l =>
      match read h l with
      | CObj m => Ret (update h l (CObj (props_set k v m)))
      | CArr a =>
          match index_of_key k with
          | Some i => Ret (update h l (CArr (elems_set a (N.to_nat i) v)))
          | None => Throw TypeError
          end
      end
  | _ => Throw TypeError
  end.

(** The element [array[i]] as it is when its turn comes; [None] past the
    end. *)
Definition elem (h : heap) (array : loc) (i : nat) : option val :=
  match read h array with
  | CArr a => nth_error a i
  | CObj _ => None
  end.

(** ** lodash *)

Definition isLength (v : val) : option nat :=
  match v with
  | VNum n =>
      if (0 <=? n)%Z && (n <=? 9007199254740991)%Z then Some (Z.to_nat n) else None
  | _ => None
  end.

(** The keys [_.forEach(collection, (value, key) => ...)] visits; the value
    of a key is read when the key is visited. *)
Definition forEach_keys (h : heap) (collection : val) : list string :=
  match collection with
  | VRef l =>
      match read h l with
      | CObj m =>
          match isLength (props_get m "length") with
          | Some n => map key_of_index (seq 0 n)
          | None => map fst m
          end
      | CArr a => map key_of_index (seq 0 (List.length a))
      end
  | _ => object_keys h collection
  end.

(** [_.omit] and [_.omitBy] build a new object that holds the values of the
    kept properties themselves. *)
Definition omit (object : val) (keys : list string) (h : heap) : val * heap :=
  alloc (CObj (filter (fun kv => negb (existsb (String.eqb (fst kv)) keys))
                 (entries h object))) h.

Definition omitBy (object : val) (predicate : string -> bool) (h : heap) : val * heap :=
  alloc (CObj (filter (fun kv => negb (predicate (fst kv))) (entries h object))) h.

(** [l.map(f)] for an [f] that allocates. *)
Fixpoint map_heap {A B : Type} (f : A -> heap -> outcome (B * heap)) (l : list A)
    (h : heap) : outcome (list B * heap) :=
  match l with
  | [] => Ret ([], h)
  | x :: rest =>
      '(y, h) <- f x h ;;
      '(ys, h) <- map_heap f rest h ;;
      Ret (y :: ys, h)
  end.

(** [_.cloneDeep]: every object and array below the value is copied into a
    new cell.  A cell reached along two paths is copied once per path (lodash
    copies it once); the cells of the copy are new either way. *)
Fixpoint cloneDeep (fuel : nat) (value : val) (h : heap) : outcome (val * heap) :=
  match fuel with
  | 0 => OutOfFuel
  | S fuel' =>
      match value with
      | VRef l =>
          match read h l with
          | CObj m =>
              '(m', h) <-
                map_heap
                  (fun (kv : string * val) h =>
                     '(v, h) <- cloneDeep fuel' (snd kv) h ;;
                     Ret ((fst kv, v), h))
                  m h ;;
              Ret (alloc (CObj m') h)
          | CArr a =>
              '(a', h) <- map_heap (cloneDeep fuel') a h ;;
              Ret (alloc (CArr a') h)
          end
      | _ => Ret (value, h)
      end
  end.

(** ** ReferenceResolver *)

Fixpoint lookup_walk (h : heap) (parts : list string) (value : val)
    (currentDepth : Z) (depth : option Z) : outcome val :=
  match parts with
  | [] => Ret value
  | key :: rest =>
      if is_undef value then Ret value
      else
        value' <- prop h value key ;;
        let currentDepth' := (currentDepth + 1)%Z in
        if depth_reached depth currentDepth' then Ret value'
        else lookup_walk h rest value' currentDepth' depth
  end.

Definition lookupReference (h : heap) (reference root : val) (depth : option Z)
    : outcome (option string * val) :=
  match reference with
  | VStr reference =>
      match split slash reference with
      | [] => Throw InvalidReferenceRoot
      | first :: parts1 =>
          if negb (first =? "#") then Throw InvalidReferenceRoot
          else
            match parts1 with
            | [] => Throw InvalidReferenceTarget
            | second :: parts =>
                if negb (second =? "definitions") then Throw InvalidReferenceTarget
                else
                  let id := hd_error parts in
                  value <- prop h root "definitions" ;;
                  value <- lookup_walk h parts value 2 depth ;;
                  if is_undef value then Throw (ReferenceNotFound reference)
                  else Ret (id, value)
            end
      end
  | _ => Throw TypeError
  end.

(** ** CycleSafeDereferencer *)

Definition ref_string (h : heap) (example : val) : option string :=
  match get h example "$ref" with
  | VStr s => if s =? "" then None else Some s
  | _ => None
  end.

(** [array.map(f)]: the length is read once, an element when its turn comes;
    an index that is no longer there is skipped and leaves a hole. *)
Fixpoint map_elems (f : val -> heap -> outcome (val * heap)) (array : loc)
    (indices : list nat) (h : heap) : outcome (list val * heap) :=
  match indices with
  | [] => Ret ([], h)
  | i :: rest =>
      '(y, h) <-
        match elem h array i with
        | Some x => f x h
        | None => Ret (VUndef, h)
        end ;;
      '(ys, h) <- map_elems f array rest h ;;
      Ret (y :: ys, h)
  end.

Fixpoint dereference (fuel : nat) (example root : val)
    (paths path : option (list string)) (h : heap) : outcome (val * heap) :=
  match fuel with
  | 0 => OutOfFuel
  | S fuel' =>
      match example with
      | VUndef | VNull => Ret (example, h)
      | _ =>
          match ref_string h example with
          | Some ref =>
              let refPath := split slash ref in
              let currentPath := join "/" (or_empty path) in
              if is_some path && pathHasCircularReference paths path ref
              then Ret (VNull, h)
              else
                '(_, referenced) <- lookupReference h (VStr ref) root None ;;
                let newPaths := or_empty paths ++ [currentPath] in
                dereference fuel' referenced root (Some newPaths) (Some refPath) h
          | None =>
              match example with
              | VRef l =>
                  match read h l with
                  | CArr a =>
                      '(a', h) <-
                        map_elems (fun value => dereference fuel' value root paths path)
                          l (seq 0 (List.length a)) h ;;
                      Ret (alloc (CArr a') h)
                  | CObj _ =>
                      let '(result, h0) := alloc (CObj []) h in
                      h' <-
                        fold_left
                          (fun (acc : outcome heap) (key : string) =>
                             h <- acc ;;
                             '(value, h) <-
                               dereference fuel' (get h example key) root paths
                                 (Some (or_empty path ++ [key])) h ;;
                             set_prop result key value h)
                          (forEach_keys h example) (Ret h0) ;;
                      Ret (result, h')
                  end
              | _ => Ret (example, h)
              end
          end
      end
  end.

(** ** SchemaNodeConverter *)

(** A converter of one node: the node, the references recorded so far and
    the heap go in; the converted node, the extended record and the heap
    come out. *)
Definition converter : Type :=
  val -> list val -> heap -> outcome ((val * list val) * heap).

Fixpoint map_convert (recurse : converter) (array : loc) (indices : list nat)
    (references : list val) (h : heap) : outcome ((list val * list val) * heap) :=
  match indices with
  | [] => Ret (([], references), h)
  | i :: rest =>
      '((y, references), h) <-
        match elem h array i with
        | Some x => recurse x references h
        | None => Ret ((VUndef, references), h)
        end ;;
      '((ys, references), h) <- map_convert recurse array rest references h ;;
      Ret ((y :: ys, references), h)
  end.

(** [v.map(recurse)]: only an array has the method; the result is a new
    array. *)
Definition map_method (recurse : converter) (v : val) (references : list val)
    (h : heap) : outcome ((val * list val) * heap) :=
  match v with
  | VRef l =>
      match read h l with
      | CArr a =>
          '((a', references), h) <-
            map_convert recurse l (seq 0 (List.length a)) references h ;;
          let '(converted, h) := alloc (CArr a') h in
          Ret ((converted, references), h)
      | CObj _ => Throw TypeError
      end
  | _ => Throw TypeError
  end.

(** [if (schema[name]) actualSchema[name] = schema[name].map(recurse)]. *)
Definition convert_each (recurse : converter) (name : string) (schema actualSchema : val)
    (references : list val) (h : heap) : outcome (list val * heap) :=
  if truthy (get h schema name) then
    '((converted, references), h) <-
      map_method recurse (get h schema name) references h ;;
    h <- set_prop actualSchema name converted h ;;
    Ret (references, h)
  else Ret (references, h).

(** [actualSchema[name] = recurse(schema[name])]. *)
Definition convert_one (recurse : converter) (name : string) (schema actualSchema : val)
    (references : list val) (h : heap) : outcome (list val * heap) :=
  '((converted, references), h) <- recurse (get h schema name) references h ;;
  h <- set_prop actualSchema name converted h ;;
  Ret (references, h).

(** [Object.keys(schema[name]).forEach(key =>
       actualSchema[name][key] = recurse(schema[name][key]))]: the object
    written to is [actualSchema[name]] as it is before the call. *)
Definition convert_keys (recurse : converter) (name : string) (schema actualSchema : val)
    (references : list val) (h : heap) : outcome (list val * heap) :=
  fold_left
    (fun (acc : outcome (list val * heap)) (key : string) =>
       '(references, h) <- acc ;;
       let target := get h actualSchema name in
       '((converted, references), h) <-
         recurse (get h (get h schema name) key) references h ;;
       h <- set_prop target key converted h ;;
       Ret (references, h))
    (object_keys h (get h schema name)) (Ret (references, h)).

(** The body of [if (schema['x-nullable'])]. *)
Definition nullable (actualSchema : val) (h : heap) : outcome heap :=
  let type := get h actualSchema "type" in
  h <-
    (if truthy type then
       let '(widened, h) := alloc (CArr [type; VStr "null"]) h in
       set_prop actualSchema "type" widened h
     else if is_undef (get h actualSchema "enum")
          then set_prop actualSchema "type" (VStr "null") h
          else Ret h) ;;
  let enum := get h actualSchema "enum" in
  if truthy enum then
    match enum with
    | VRef e =>
        match read h e with
        | CArr l =>
            if existsb is_null l then Ret h
            else Ret (update h e (CArr (l ++ [VNull])))
        | CObj _ => Throw TypeError
        end
    | VStr s =>
        if is_some (String.index 0 "null" s) then Ret h else Throw TypeError
    | _ => Throw TypeError
    end
  else Ret h.

Definition convert_children (recurse : converter) (schema actualSchema : val)
    (references : list val) (h : heap) : outcome (list val * heap) :=
  '(references, h) <- convert_each recurse "allOf" schema actualSchema references h ;;
  '(references, h) <- convert_each recurse "anyOf" schema actualSchema references h ;;
  '(references, h) <- convert_each recurse "oneOf" schema actualSchema references h ;;
  '(references, h) <-
    (if truthy (get h schema "not")
     then convert_one recurse "not" schema actualSchema references h
     else Ret (references, h)) ;;
  '(references, h) <-
    (if truthy (get h schema "items") then
       if is_array h (get h schema "items")
       then convert_each recurse "items" schema actualSchema references h
       else convert_one recurse "items" schema actualSchema references h
     else Ret (references, h)) ;;
  '(references, h) <-
    (if truthy (get h schema "additionalItems")
        && typeof_object (get h schema "additionalItems")
     then convert_one recurse "additionalItems" schema actualSchema references h
     else Ret (references, h)) ;;
  '(references, h) <-
    (if truthy (get h schema "properties")
     then convert_keys recurse "properties" schema actualSchema references h
     else Ret (references, h)) ;;
  '(references, h) <-
    (if truthy (get h schema "patternProperties")
     then convert_keys recurse "patternProperties" schema actualSchema references h
     else Ret (references, h)) ;;
  (if truthy (get h schema "additionalProperties")
      && typeof_object (get h schema "additionalProperties")
   then convert_one recurse "additionalProperties" schema actualSchema references h
   else Ret (references, h)).

Fixpoint convertSubSchema (fuel : nat) (schema : val) (references : list val)
    (swagger : val) (h : heap) : outcome ((val * list val) * heap) :=
  match fuel with
  | 0 => OutOfFuel
  | S fuel' =>
      ref <- prop h schema "$ref" ;;
      if truthy ref then
        let '(result, h) := alloc (CObj [("$ref", ref)]) h in
        Ret ((result, references ++ [ref]), h)
      else
        let recurse : converter := fun s refs => convertSubSchema fuel' s refs swagger in
        let '(actualSchema, h) := omit schema swagger_only_keys h in
        let '(actualSchema, h) := omitBy actualSchema isExtension h in
        '(actualSchema, h) <- cloneDeep fuel' actualSchema h ;;
        h <-
          (if is_file (get h schema "type")
           then set_prop actualSchema "type" (VStr "string") h
           else Ret h) ;;
        h <-
          (if truthy (get h schema "example") then
             '(example, h) <-
               dereference fuel' (get h schema "example") swagger None None h ;;
             let '(examples, h) := alloc (CArr [example]) h in
             set_prop actualSchema "examples" examples h
           else Ret h) ;;
        h <-
          (if truthy (get h schema "x-nullable") then nullable actualSchema h
           else Ret h) ;;
        '(references, h) <-
          convert_children recurse schema actualSchema references h ;;
        Ret ((actualSchema, references), h)
  end.

(** ** ReferenceScanner *)

Fixpoint checkSchemaHasReferences (fuel : nat) (h : heap) (schema : val) : outcome bool :=
  match fuel with
  | 0 => OutOfFuel
  | S fuel' =>
      ref <- prop h schema "$ref" ;;
      if truthy ref then Ret true
      else
        someM
          (fun value =>
             match value with
             | VRef l =>
                 match read h l with
                 | CArr a => someM (checkSchemaHasReferences fuel' h) a
                 | CObj _ => checkSchemaHasReferences fuel' h value
                 end
             | _ => Ret false
             end)
          (object_values h schema)
  end.

Definition concat_spread (h : heap) (a : list val) (args : list val) : list val :=
  a ++ flat_map
         (fun x =>
            match x with
            | VRef l => match read h l with CArr elems => elems | CObj _ => [x] end
            | _ => [x]
            end)
         args.

Definition find_each (h : heap) (find : val -> outcome (list val)) (v : val)
    (references : list val) : outcome (list val) :=
  match v with
  | VRef l =>
      match read h l with
      | CArr a =>
          found <- mapM find a ;;
          Ret (references ++ concat found)
      | CObj _ => Throw TypeError
      end
  | _ => Throw TypeError
  end.

Definition find_keys (h : heap) (find : val -> outcome (list val)) (v : val)
    (references : list val) : outcome (list val) :=
  fold_left
    (fun (acc : outcome (list val)) (key : string) =>
       references <- acc ;;
       found <- find (get h v key) ;;
       Ret (references ++ found))
    (object_keys h v) (Ret references).

Definition find_children (h : heap) (find : val -> outcome (list val)) (schema : val)
    : outcome (list val) :=
  let references : list val := [] in
  references <-
    (if truthy (get h schema "allOf")
     then find_each h find (get h schema "allOf") references
     else Ret references) ;;
  references <-
    (if truthy (get h schema "anyOf")
     then find_each h find (get h schema "anyOf") references
     else Ret references) ;;
  references <-
    (if truthy (get h schema "oneOf")
     then find_each h find (get h schema "oneOf") references
     else Ret references) ;;
  references <-
    (if truthy (get h schema "not") then
       found <- find (get h schema "not") ;;
       Ret (concat_spread h references found)
     else Ret references) ;;
  references <-
    (if truthy (get h schema "items") then
       if is_array h (get h schema "items")
       then find_each h find (get h schema "items") references
       else found <- find (get h schema "items") ;; Ret (references ++ found)
     else Ret references) ;;
  references <-
    (if truthy (get h schema "additionalItems")
        && typeof_object (get h schema "additionalItems")
     then found <- find (get h schema "additionalItems") ;; Ret (references ++ found)
     else Ret references) ;;
  references <-
    (if truthy (get h schema "properties")
     then find_keys h find (get h schema "properties") references
     else Ret references) ;;
  references <-
    (if truthy (get h schema "patternProperties")
     then find_keys h find (get h schema "patternProperties") references
     else Ret references) ;;
  (if truthy (get h schema "additionalProperties")
      && typeof_object (get h schema "additionalProperties")
   then found <- find (get h schema "additionalProperties") ;;
        Ret (references ++ found)
   else Ret references).

Fixpoint findReferences (fuel : nat) (h : heap) (schema : val) : outcome (list val) :=
  match fuel with
  | 0 => OutOfFuel
  | S fuel' =>
      ref <- prop h schema "$ref" ;;
      if truthy ref then Ret [ref]
      else find_children h (findReferences fuel' h) schema
  end.

(** ** DefinitionClosureBuilder and RootReferenceNormalizer *)

(** The [while (references.length !== 0)] loop: [result.definitions] is read
    again at every use. *)
Fixpoint copy_loop (steps fuel : nat) (references : list val) (result root : val)
    (h : heap) : outcome heap :=
  match steps with
  | 0 => OutOfFuel
  | S steps' =>
      match pop references with
      | None => Ret h
      | Some (reference, references) =>
          '(id, referenced) <- lookupReference h reference root (Some 3%Z) ;;
          definitions <- prop h result "definitions" ;;
          existing <- prop h definitions (key_of_id id) ;;
          if is_undef existing then
            found <- findReferences fuel h referenced ;;
            definitions <- prop h result "definitions" ;;
            h <- set_prop definitions (key_of_id id) referenced h ;;
            copy_loop steps' fuel (references ++ found) result root h
          else copy_loop steps' fuel references result root h
      end
  end.

Definition convertSchema (fuel : nat) (schema root swagger : val)
    (copyDefinitions : bool) (h : heap) : outcome (val * heap) :=
  '((result, references), h) <- convertSubSchema fuel schema [] swagger h ;;
  h <-
    (if copyDefinitions then
       h <-
         match references with
         | [] => Ret h
         | _ :: _ =>
             let '(definitions, h) := alloc (CObj []) h in
             set_prop result "definitions" definitions h
         end ;;
       copy_loop fuel fuel references result root h
     else Ret h) ;;
  if truthy (get h result "$ref") && copyDefinitions then
    '(id, _) <- lookupReference h (get h result "$ref") root None ;;
    definition <- prop h (get h result "definitions") (key_of_id id) ;;
    hasReferences <- checkSchemaHasReferences fuel h definition ;;
    if negb hasReferences then Ret (definition, h)
    else
      let '(reference, h1) := alloc (CObj [("$ref", get h result "$ref")]) h in
      let '(allOf, h2) := alloc (CArr [reference]) h1 in
      Ret (alloc (CObj [("allOf", allOf);
                        ("definitions", get h result "definitions")]) h2)
  else Ret (result, h).

(** ** Reading a value off the heap *)

Fixpoint all_some {A : Type} (l : list (option A)) : option (list A) :=
  match l with
  | [] => Some []
  | Some x :: rest => option_map (cons x) (all_some rest)
  | None :: _ => None
  end.

(** The plain value below [v]: the tree the heap holds there, when [fuel]
    exceeds its height and every location is allocated. *)
Fixpoint reify (fuel : nat) (h : heap) (v : val) : option json :=
  match fuel with
  | 0 => None
  | S fuel' =>
      match v with
      | VUndef => Some JUndef
      | VNull => Some JNull
      | VBool b => Some (JBool b)
      | VNum n => Some (JNum n)
      | VStr s => Some (JStr s)
      | VRef l =>
          match nth_error h l with
          | Some (CArr a) => option_map JArr (all_some (map (reify fuel' h) a))
          | Some (CObj m) =>
              option_map JObj
                (all_some
                   (map (fun kv => option_map (pair (fst kv)) (reify fuel' h (snd kv))) m))
          | None => None
          end
      end
  end.

(** [load j h]: the tree [j] written into new cells of [h]. *)
Fixpoint load (j : json) (h : heap) : val * heap :=
  match j with
  | JUndef => (VUndef, h)
  | JNull => (VNull, h)
  | JBool b => (VBool b, h)
  | JNum n => (VNum n, h)
  | JStr s => (VStr s, h)
  | JArr l =>
      let '(a, h) :=
        (fix load_elems (l : list json) (h : heap) : list val * heap :=
           match l with
           | [] => ([], h)
           | x :: rest =>
               let '(v, h) := load x h in
               let '(vs, h) := load_elems rest h in
               (v :: vs, h)
           end) l h in
      alloc (CArr a) h
  | JObj m =>
      let '(m', h) :=
        (fix load_props (m : list (string * json)) (h : heap) : props * heap :=
           match m with
           | [] => ([], h)
           | (k, x) :: rest =>
               let '(v, h) := load x h in
               let '(vs, h) := load_props rest h in
               ((k, v) :: vs, h)
           end) m h in
      alloc (CObj m') h
  end.

(** ** What a call may touch *)

(** [frame n h h']: the heap has not shrunk and the cells below [n] are as
    they were. *)
Definition frame (n : nat) (h h' : heap) : Prop :=
  List.length h <= List.length h'
  /\ forall l, l < n -> nth_error h' l = nth_error h l.

(** A value that is no location below [n]. *)
Definition fresh (n : nat) (v : val) : Prop :=
  match v with VRef l => n <= l | _ => True end.

Definition cell_fresh (n : nat) (c : cell) : Prop :=
  match c with
  | CObj m => Forall (fresh n) (map snd m)
  | CArr a => Forall (fresh n) a
  end.

(** [own n h v]: [v] is an allocated location not below [n], and its cell
    holds no location below [n]. *)
Definition own (n : nat) (h : heap) (v : val) : Prop :=
  exists l, v = VRef l /\ n <= l /\ l < List.length h /\ cell_fresh n (read h l).

(** A location allocated at or after [n]. *)
Definition created (n : nat) (h : heap) (v : val) : Prop :=
  exists l, v = VRef l /\ n <= l /\ l < List.length h.

(** What a converter has to guarantee: it touches no cell that was there
    and returns a location it allocated. *)
Definition allocates (recurse : converter) : Prop :=
  forall s refs h r refs' h',
    recurse s refs h = Ret ((r, refs'), h') ->
    frame (List.length h) h h' /\ created (List.length h) h' r.

(** The example of the closure, in a heap: the root document, then the
    schema. *)
Definition closure_store : (val * val) * heap :=
  let '(root, h) := load closure_root [] in
  let '(schema, h) := load closure_schema h in
  ((root, schema), h).

End Store.

(** * Properties *)

#[local] Arguments lookupReference : simpl never.
#[local] Arguments pathHasCircularReference : simpl never.
#[local] Arguments forEach_entries : simpl never.


(** ** Outcomes *)

Lemma bind_ret_inv {A B : Type} (c : outcome A) (k : A -> outcome B) (r : B) :
  bind c k = Ret r -> exists a, c = Ret a /\ k a = Ret r.
Proof.
  destruct c as [a| |]; simpl; intros H; try discriminate.
  exists a; split; [reflexivity | exact H].
Qed.

Lemma bind_fuel_inv {A B : Type} (c : outcome A) (k : A -> outcome B) :
  bind c k = OutOfFuel -> c = OutOfFuel \/ exists a, c = Ret a /\ k a = OutOfFuel.
Proof.
  destruct c as [a| |]; simpl; intros H; try discriminate.
  - right; exists a; split; [reflexivity | exact H].
  - left; reflexivity.
Qed.

(** Splits a hypothesis [bind c k = Ret r] into its two steps. *)
Ltac inv_bind H :=
  let a := fresh "a" in
  let Ha := fresh "Hstep" in
  apply bind_ret_inv in H; destruct H as [a [Ha H]].

Ltac inv_ret H := injection H as H; subst.

(** ** Objects *)

Lemma obj_has_false_get (m : fields) (k : string) :
  obj_has m k = false -> obj_get m k = JUndef.
Proof.
  induction m as [|[k' v] m IH]; simpl; [reflexivity|].
  destruct (k' =? k); simpl; [discriminate | exact IH].
Qed.

Lemma obj_get_replace (k : string) (v : json) (m : fields) (k' : string) :
  obj_has m k = true ->
  obj_get (obj_replace k v m) k' = if k =? k' then v else obj_get m k'.
Proof.
  induction m as [|[k0 v0] m IH]; simpl; [discriminate|].
  destruct (k0 =? k) eqn:E0; simpl.
  - intros _. apply String.eqb_eq in E0; subst k0.
    destruct (k =? k'); reflexivity.
  - intros H. rewrite (IH H).
    destruct (k0 =? k') eqn:E1; [|reflexivity].
    apply String.eqb_eq in E1; subst k0.
    rewrite String.eqb_sym, E0. reflexivity.
Qed.

Lemma obj_get_app (m m' : fields) (k : string) :
  obj_get (m ++ m') k = if obj_has m k then obj_get m k else obj_get m' k.
Proof.
  induction m as [|[k0 v0] m IH]; simpl; [reflexivity|].
  destruct (k0 =? k); simpl; [reflexivity | exact IH].
Qed.

Lemma obj_get_insert_index (i : N) (k : string) (v : json) (m : fields) (k' : string) :
  obj_has m k = false ->
  obj_get (obj_insert_index i k v m) k' = if k =? k' then v else obj_get m k'.
Proof.
  induction m as [|[k0 v0] m IH]; simpl; intros H.
  - destruct (k =? k'); reflexivity.
  - apply orb_false_iff in H; destruct H as [E0 H].
    destruct (index_of_key k0) as [j|]; [destruct (j <? i)%N|]; simpl;
      try reflexivity.
    rewrite (IH H).
    destruct (k0 =? k') eqn:E1; [|reflexivity].
    apply String.eqb_eq in E1; subst k0. rewrite String.eqb_sym, E0. reflexivity.
Qed.

Lemma obj_get_set (k : string) (v : json) (m : fields) (k' : string) :
  obj_get (obj_set k v m) k' = if k =? k' then v else obj_get m k'.
Proof.
  unfold obj_set. destruct (obj_has m k) eqn:Hh.
  - apply obj_get_replace; exact Hh.
  - destruct (index_of_key k) as [i|].
    + apply obj_get_insert_index; exact Hh.
    + rewrite obj_get_app. simpl.
      destruct (k =? k') eqn:E.
      * apply String.eqb_eq in E; subst k'. rewrite Hh. reflexivity.
      * destruct (obj_has m k') eqn:Hk; [reflexivity|].
        symmetry; apply obj_has_false_get; exact Hk.
Qed.

Lemma obj_get_set_same (k : string) (v : json) (m : fields) :
  obj_get (obj_set k v m) k = v.
Proof. rewrite obj_get_set, String.eqb_refl. reflexivity. Qed.

Lemma obj_get_set_other (k : string) (v : json) (m : fields) (k' : string) :
  k <> k' -> obj_get (obj_set k v m) k' = obj_get m k'.
Proof.
  intros H. rewrite obj_get_set.
  destruct (k =? k') eqn:E; [apply String.eqb_eq in E; contradiction | reflexivity].
Qed.

(** ** ReferenceResolver *)

Lemma get_undef (k : string) : get JUndef k = JUndef.
Proof. reflexivity. Qed.

Lemma prop_get (v : json) (k : string) :
  get v k <> JUndef -> prop v k = Ret (get v k).
Proof. destruct v; simpl; intros H; try reflexivity; contradiction. Qed.

Lemma lookupReference_id (reference : string) (root : json) (depth : option Z)
    (id : option string) (referenced : json) :
  lookupReference (JStr reference) root depth = Ret (id, referenced) ->
  id = nth_error (split slash reference) 2 /\ referenced <> JUndef.
Proof.
  unfold lookupReference.
  destruct (split slash reference) as [|first [|second parts]]; try discriminate.
  - destruct (negb (first =? "#")); discriminate.
  - destruct (negb (first =? "#")); [discriminate|].
    destruct (negb (second =? "definitions")); [discriminate|].
    intros H. inv_bind H. inv_bind H.
    destruct (is_undef a0) eqn:E; [discriminate|].
    inv_ret H. split; [destruct parts; reflexivity|].
    intros ->; discriminate.
Qed.

Lemma lookupReference_depth3 (reference id : string) (sub : list string) (root : json) :
  split slash reference = "#" :: "definitions" :: id :: sub ->
  get (get root "definitions") id <> JUndef ->
  lookupReference (JStr reference) root (Some 3%Z)
  = Ret (Some id, get (get root "definitions") id).
Proof.
  intros Hs Hn. unfold lookupReference. rewrite Hs. simpl.
  assert (Hd : get root "definitions" <> JUndef) by (intros E; rewrite E in Hn; auto).
  rewrite (prop_get _ _ Hd). simpl.
  destruct (get root "definitions") eqn:Ed; try (exfalso; apply Hn; reflexivity);
    simpl; destruct (is_undef _) eqn:Eu; try reflexivity;
    exfalso; apply Hn; simpl;
    match goal with
    | H : is_undef ?x = true |- _ => destruct x; try discriminate; reflexivity
    end.
Qed.

(** C8.  For a reference [#/definitions/<id>/<sub-path>] whose [id] is
    present in [root.definitions], [lookupReference] with depth 3 returns the
    definition [root.definitions[id]] itself, whatever the sub-path; and the
    [id] of every successful lookup, with or without a depth, is the third
    segment of the reference. *)
Theorem lookupReference_owner_and_id :
  (forall (reference id : string) (sub : list string) (root : json),
      split slash reference = "#" :: "definitions" :: id :: sub ->
      get (get root "definitions") id <> JUndef ->
      lookupReference (JStr reference) root (Some 3%Z)
      = Ret (Some id, get (get root "definitions") id))
  /\
  (forall (reference : string) (root : json) (depth : option Z)
          (id : option string) (referenced : json),
      lookupReference (JStr reference) root depth = Ret (id, referenced) ->
      id = nth_error (split slash reference) 2).
Proof.
  split.
  - exact lookupReference_depth3.
  - intros reference root depth id referenced H.
    exact (proj1 (lookupReference_id _ _ _ _ _ H)).
Qed.

Lemma lookupReference_owner_and_id_witness :
  lookupReference (JStr "#/definitions/User/properties/name") user_root (Some 3%Z)
  = Ret (Some "User", get (get user_root "definitions") "User")
  /\ Some "User" = nth_error (split slash "#/definitions/User/properties/name") 2.
Proof.
  split.
  - apply (proj1 lookupReference_owner_and_id) with (sub := ["properties"; "name"]).
    + reflexivity.
    + discriminate.
  - apply (proj2 lookupReference_owner_and_id) with
      (root := user_root) (depth := None)
      (referenced := JObj [("type", JStr "string")]).
    reflexivity.
Defined.

(** ** Strings *)

Lemma prefix_empty (s : string) : String.prefix "" s = true.
Proof. destruct s; reflexivity. Qed.

Lemma prefix_refl (s : string) : String.prefix s s = true.
Proof.
  induction s as [|c s IH]; simpl; [reflexivity|].
  destruct (ascii_dec c c) as [_|n]; [exact IH | contradiction].
Qed.

Lemma prefix_of_empty (s : string) : String.prefix s "" = true -> s = "".
Proof. destruct s; simpl; [reflexivity | discriminate]. Qed.

Lemma prefix_append (r s t : string) :
  String.prefix r s = true -> String.prefix r (s ++ t)%string = true.
Proof.
  revert s; induction r as [|c r IH]; intros s; [intros _; apply prefix_empty|].
  destruct s as [|c' s]; simpl; [discriminate|].
  destruct (ascii_dec c c'); [apply IH | discriminate].
Qed.

Lemma string_app_assoc (a b c : string) :
  ((a ++ b) ++ c = a ++ (b ++ c))%string.
Proof. induction a as [|x a IH]; simpl; [reflexivity | rewrite IH; reflexivity]. Qed.

Lemma split_not_nil (sep : ascii) (s : string) : split sep s <> [].
Proof.
  induction s as [|c s IH]; simpl; [discriminate|].
  destruct (Ascii.eqb c sep); [discriminate|].
  destruct (split sep s); [contradiction | discriminate].
Qed.

Lemma join_split (s : string) : join "/" (split slash s) = s.
Proof.
  induction s as [|c s IH]; [reflexivity|].
  simpl split. destruct (Ascii.eqb c slash) eqn:E.
  - apply Ascii.eqb_eq in E; subst c.
    pose proof (split_not_nil slash s) as Hn.
    destruct (split slash s) as [|seg segs] eqn:Es; [contradiction|].
    change (join "/" ("" :: seg :: segs)) with ("/" ++ join "/" (seg :: segs))%string.
    rewrite IH. reflexivity.
  - pose proof (split_not_nil slash s) as Hn.
    destruct (split slash s) as [|seg segs] eqn:Es; [contradiction|].
    destruct segs as [|seg' segs].
    + simpl in *. rewrite IH. reflexivity.
    + change (join "/" (String c seg :: seg' :: segs))
        with (String c seg ++ "/" ++ join "/" (seg' :: segs))%string.
      change (join "/" (seg :: seg' :: segs))
        with (seg ++ "/" ++ join "/" (seg' :: segs))%string in IH.
      simpl. rewrite <- IH. reflexivity.
Qed.

Lemma join_snoc_prefix (r : string) (p : list string) (k : string) :
  String.prefix r (join "/" p) = true ->
  String.prefix r (join "/" (p ++ [k])) = true.
Proof.
  intros H. destruct p as [|x p].
  - simpl in H. apply prefix_of_empty in H; subst r. apply prefix_empty.
  - assert (E : exists t, join "/" ((x :: p) ++ [k]) = (join "/" (x :: p) ++ t)%string).
    { clear H. revert x. induction p as [|y p IH]; intros x.
      - exists ("/" ++ k)%string. reflexivity.
      - destruct (IH y) as [t Ht]. exists t.
        change (join "/" ((x :: y :: p) ++ [k]))
          with (x ++ "/" ++ join "/" ((y :: p) ++ [k]))%string.
        rewrite Ht.
        change (join "/" (x :: y :: p)) with (x ++ "/" ++ join "/" (y :: p))%string.
        rewrite !string_app_assoc. reflexivity. }
    destruct E as [t ->]. apply prefix_append; exact H.
Qed.

Lemma key_of_index_not_ref (i : nat) : (key_of_index i =? "$ref") = false.
Proof.
  unfold key_of_index. destruct (Nat.to_uint i); reflexivity.
Qed.

(** ** Values reached by property reads *)

Lemma height_obj_get (m : fields) (k : string) :
  height (obj_get m k) < height (JObj m) .
Proof.
  induction m as [|[k' v] m IH]; simpl in *; [lia|].
  destruct (k' =? k); lia.
Qed.

Lemma height_arr_get (l : list json) (i : nat) (k : string) :
  height (arr_get l i k) < height (JArr l).
Proof.
  revert i; induction l as [|x l IH]; intros i; simpl in *; [lia|].
  destruct (key_of_index i =? k); [lia|]. specialize (IH (S i)). lia.
Qed.

Lemma height_str_get (s : string) (i : nat) (k : string) :
  height (str_get s i k) = 0.
Proof.
  revert i; induction s as [|c s IH]; intros i; simpl; [reflexivity|].
  destruct (key_of_index i =? k); [reflexivity | apply IH].
Qed.

Lemma height_get (v : json) (k : string) : height (get v k) <= height v.
Proof.
  destruct v as [| | | |s|l|m]; simpl; try lia.
  - destruct (k =? "length"); simpl; [lia|]. rewrite height_str_get. lia.
  - destruct (k =? "length"); simpl; [lia|].
    pose proof (height_arr_get l 0 k). simpl in *. lia.
  - pose proof (height_obj_get m k). simpl in *. lia.
Qed.

Lemma height_elem (l : list json) (x : json) :
  In x l -> height x < height (JArr l).
Proof.
  induction l as [|y l IH]; simpl; [contradiction|].
  intros [->|H]; [lia|]. specialize (IH H). simpl in IH. lia.
Qed.

Lemma height_field (m : fields) (kv : string * json) :
  In kv m -> height (snd kv) < height (JObj m).
Proof.
  induction m as [|y m IH]; simpl; [contradiction|].
  intros [->|H]; [lia|]. specialize (IH H). simpl in IH. lia.
Qed.

Lemma refs_obj_get (m : fields) (k : string) :
  incl (refs_of (obj_get m k)) (refs_of (JObj m)).
Proof.
  induction m as [|[k' v] m IH]; simpl; [apply incl_nil_l|].
  destruct (k' =? k).
  - apply incl_appl, incl_appr, incl_refl.
  - apply incl_appr. exact IH.
Qed.

Lemma refs_arr_get (l : list json) (i : nat) (k : string) :
  incl (refs_of (arr_get l i k)) (refs_of (JArr l)).
Proof.
  revert i; induction l as [|x l IH]; intros i; simpl; [apply incl_nil_l|].
  destruct (key_of_index i =? k).
  - apply incl_appl, incl_refl.
  - apply incl_appr. apply IH.
Qed.

Lemma refs_str_get (s : string) (i : nat) (k : string) :
  refs_of (str_get s i k) = [].
Proof.
  revert i; induction s as [|c s IH]; intros i; simpl; [reflexivity|].
  destruct (key_of_index i =? k); [reflexivity | apply IH].
Qed.

Lemma refs_get (v : json) (k : string) : incl (refs_of (get v k)) (refs_of v).
Proof.
  destruct v as [| | | |s|l|m]; simpl; try apply incl_nil_l.
  - destruct (k =? "length"); [apply incl_nil_l | rewrite refs_str_get; apply incl_nil_l].
  - destruct (k =? "length"); [apply incl_nil_l | apply refs_arr_get].
  - apply refs_obj_get.
Qed.

Lemma refs_elem (l : list json) (x : json) :
  In x l -> incl (refs_of x) (refs_of (JArr l)).
Proof.
  induction l as [|y l IH]; simpl; [contradiction|].
  intros [->|H]; [apply incl_appl, incl_refl | apply incl_appr, IH, H].
Qed.

Lemma refs_field (m : fields) (kv : string * json) :
  In kv m -> incl (refs_of (snd kv)) (refs_of (JObj m)).
Proof.
  induction m as [|y m IH]; simpl; [contradiction|].
  intros [->|H]; [apply incl_appl, incl_appr, incl_refl | apply incl_appr, IH, H].
Qed.

Lemma str_get_not_ref (s : string) (i : nat) : str_get s i "$ref" = JUndef.
Proof.
  revert i; induction s as [|c s IH]; intros i; simpl; [reflexivity|].
  rewrite key_of_index_not_ref. apply IH.
Qed.

Lemma arr_get_not_ref (l : list json) (i : nat) : arr_get l i "$ref" = JUndef.
Proof.
  revert i; induction l as [|x l IH]; intros i; simpl; [reflexivity|].
  rewrite key_of_index_not_ref. apply IH.
Qed.

Lemma obj_get_ref_in (m : fields) (s : string) :
  obj_get m "$ref" = JStr s -> In s (refs_of (JObj m)).
Proof.
  induction m as [|[k v] m IH]; simpl; [discriminate|].
  destruct (k =? "$ref").
  - intros ->. left; reflexivity.
  - intros H. apply in_or_app; right. apply IH; exact H.
Qed.

Lemma ref_string_in (v : json) (r : string) :
  ref_string v = Some r -> In r (refs_of v).
Proof.
  unfold ref_string. destruct v as [| | | |s|l|m]; simpl; try discriminate.
  - rewrite str_get_not_ref. discriminate.
  - rewrite arr_get_not_ref. discriminate.
  - destruct (obj_get m "$ref") as [| | | |s| |] eqn:E; try discriminate.
    destruct (s =? ""); [discriminate|]. intros H; inv_ret H.
    apply obj_get_ref_in; exact E.
Qed.

Lemma ref_string_obj (v : json) (r : string) :
  ref_string v = Some r -> exists m, v = JObj m.
Proof.
  unfold ref_string. destruct v as [| | | |s|l|m]; simpl; try discriminate.
  - rewrite str_get_not_ref. discriminate.
  - rewrite arr_get_not_ref. discriminate.
  - intros _. exists m; reflexivity.
Qed.

Lemma lookup_walk_reach (parts : list string) (value : json) (d : Z)
    (depth : option Z) (value' : json) :
  lookup_walk parts value d depth = Ret value' ->
  height value' <= height value /\ incl (refs_of value') (refs_of value).
Proof.
  revert value d; induction parts as [|key rest IH]; intros value d; simpl.
  - intros H; inv_ret H. split; [lia | apply incl_refl].
  - destruct (is_undef value).
    + intros H; inv_ret H. split; [lia | apply incl_refl].
    + intros H. inv_bind H.
      assert (Ea : a = get value key).
      { destruct value; simpl in Hstep; try discriminate; inv_ret Hstep; reflexivity. }
      subst a.
      pose proof (height_get value key) as Hh.
      pose proof (refs_get value key) as Hr.
      destruct (depth_reached depth (d + 1)).
      * inv_ret H. split; [exact Hh | exact Hr].
      * apply IH in H. destruct H as [H1 H2].
        split; [lia | eapply incl_tran; eassumption].
Qed.

Lemma lookup_walk_total (parts : list string) (value : json) (d : Z)
    (depth : option Z) :
  lookup_walk parts value d depth <> OutOfFuel.
Proof.
  revert value d; induction parts as [|key rest IH]; intros value d; simpl;
    [discriminate|].
  destruct (is_undef value); [discriminate|].
  destruct value; simpl; try discriminate;
    (destruct (depth_reached depth (d + 1)); [discriminate | apply IH]).
Qed.

Lemma lookupReference_total (reference root : json) (depth : option Z) :
  lookupReference reference root depth <> OutOfFuel.
Proof.
  unfold lookupReference. destruct reference as [| | | |s| |]; try discriminate.
  destruct (split slash s) as [|first [|second parts]]; try discriminate;
    destruct (negb (first =? "#")); try discriminate.
  destruct (negb (second =? "definitions")); try discriminate.
  intros H. apply bind_fuel_inv in H. destruct H as [H|[a [_ H]]].
  - destruct root; discriminate.
  - apply bind_fuel_inv in H. destruct H as [H|[b [_ H]]].
    + exact (lookup_walk_total _ _ _ _ H).
    + destruct (is_undef b); discriminate.
Qed.

Lemma lookupReference_reach (reference : string) (root : json) (depth : option Z)
    (id : option string) (referenced : json) :
  lookupReference (JStr reference) root depth = Ret (id, referenced) ->
  height referenced <= height root /\ incl (refs_of referenced) (refs_of root).
Proof.
  unfold lookupReference.
  destruct (split slash reference) as [|first [|second parts]]; try discriminate;
    destruct (negb (first =? "#")); try discriminate.
  destruct (negb (second =? "definitions")); try discriminate.
  intros H. inv_bind H. inv_bind H.
  destruct (is_undef a0); [discriminate|]. inv_ret H.
  assert (Ea : a = get root "definitions").
  { destruct root; simpl in Hstep; try discriminate; inv_ret Hstep; reflexivity. }
  subst a. apply lookup_walk_reach in Hstep0. destruct Hstep0 as [H1 H2].
  pose proof (height_get root "definitions").
  pose proof (refs_get root "definitions").
  split; [lia | eapply incl_tran; eassumption].
Qed.

(** ** Traversals never run out of fuel on their own *)

Lemma mapM_fuel {A B : Type} (f : A -> outcome B) (l : list A) :
  (forall x, In x l -> f x <> OutOfFuel) -> mapM f l <> OutOfFuel.
Proof.
  induction l as [|x l IH]; simpl; intros Hf; [discriminate|].
  intros H. apply bind_fuel_inv in H. destruct H as [H|[y [_ H]]].
  - exact (Hf x (or_introl eq_refl) H).
  - apply bind_fuel_inv in H. destruct H as [H|[ys [_ H]]]; [|discriminate].
    apply IH; [intros z Hz; apply Hf; right; exact Hz | exact H].
Qed.

Lemma fold_left_fuel {A S : Type} (step : outcome S -> A -> outcome S)
    (l : list A) (init : outcome S) :
  (forall acc x, In x l -> acc <> OutOfFuel -> step acc x <> OutOfFuel) ->
  init <> OutOfFuel -> fold_left step l init <> OutOfFuel.
Proof.
  revert init; induction l as [|x l IH]; simpl; intros init Hs Hi; [exact Hi|].
  apply IH.
  - intros acc y Hy. apply Hs; right; exact Hy.
  - apply Hs; [left; reflexivity | exact Hi].
Qed.

(** ** CycleSafeDereferencer: the cycle check and termination *)

Lemma pathHasCircularReference_eq (paths path : option (list string)) (r : string) :
  pathHasCircularReference paths path r
  = startsWith (join "/" (or_empty path)) r
    || existsb (fun p => startsWith p r) (or_empty paths).
Proof.
  unfold pathHasCircularReference.
  destruct (startsWith (join "/" (or_empty path)) r) eqn:Ed; [reflexivity|].
  simpl. induction (or_empty paths) as [|p ps IH]; simpl; [reflexivity|].
  destruct (startsWith p r) eqn:Ep; simpl; [|exact IH].
  destruct (p =? "") eqn:E; [|reflexivity].
  apply String.eqb_eq in E; subst p. unfold startsWith in Ep.
  apply prefix_of_empty in Ep; subst r.
  unfold startsWith in Ed. rewrite prefix_empty in Ed. discriminate.
Qed.

Lemma count_unset_le {A : Type} (p p' : A -> bool) (l : list A) :
  (forall x, p x = true -> p' x = true) -> count_unset p' l <= count_unset p l.
Proof.
  intros Hm. unfold count_unset.
  induction l as [|x l IH]; simpl; [lia|].
  destruct (p x) eqn:E.
  - rewrite (Hm x E). simpl. exact IH.
  - simpl. destruct (p' x); simpl; lia.
Qed.

Lemma count_unset_lt {A : Type} (p p' : A -> bool) (l : list A) (x0 : A) :
  (forall x, p x = true -> p' x = true) ->
  In x0 l -> p x0 = false -> p' x0 = true ->
  count_unset p' l < count_unset p l.
Proof.
  intros Hm Hin H0 H1.
  induction l as [|x l IH]; simpl; [contradiction|].
  pose proof (count_unset_le p p' l Hm) as Hle. unfold count_unset in *. simpl.
  destruct Hin as [->|Hin].
  - rewrite H0, H1. simpl. lia.
  - specialize (IH Hin).
    destruct (p x) eqn:E.
    + rewrite (Hm x E). simpl. exact IH.
    + simpl. destruct (p' x); simpl; lia.
Qed.

Lemma unblocked_le (universe : list string) (paths path paths' path' : option (list string)) :
  (forall r, blocked paths path r = true -> blocked paths' path' r = true) ->
  unblocked universe paths' path' <= unblocked universe paths path.
Proof. apply count_unset_le. Qed.

Lemma unblocked_lt (universe : list string) (paths path paths' path' : option (list string))
    (r0 : string) :
  (forall r, blocked paths path r = true -> blocked paths' path' r = true) ->
  In r0 universe -> blocked paths path r0 = false -> blocked paths' path' r0 = true ->
  unblocked universe paths' path' < unblocked universe paths path.
Proof. apply count_unset_lt. Qed.

Lemma unblocked_bound (universe : list string) (paths path : option (list string)) :
  unblocked universe paths path <= List.length universe.
Proof. unfold unblocked, count_unset. apply filter_length_le. Qed.

Lemma blocked_descend (paths path : option (list string)) (key r : string) :
  blocked paths path r = true ->
  blocked paths (Some (or_empty path ++ [key])) r = true.
Proof.
  unfold blocked. destruct path as [p|]; simpl; [|discriminate].
  rewrite !pathHasCircularReference_eq. simpl.
  intros H. apply orb_true_iff in H. apply orb_true_iff.
  destruct H as [H|H]; [left | right; exact H].
  unfold startsWith in *. apply join_snoc_prefix; exact H.
Qed.

Lemma blocked_follow (paths path : option (list string)) (ref r : string) :
  blocked paths path r = true ->
  blocked (Some (or_empty paths ++ [join "/" (or_empty path)]))
    (Some (split slash ref)) r = true.
Proof.
  unfold blocked. destruct path as [p|]; simpl; [|discriminate].
  rewrite !pathHasCircularReference_eq. simpl.
  intros H. apply orb_true_iff in H. apply orb_true_iff. right.
  rewrite existsb_app. apply orb_true_iff.
  destruct H as [H|H]; [right | left; exact H].
  simpl. rewrite H. reflexivity.
Qed.

Lemma blocked_followed (paths : option (list string)) (ref : string) :
  blocked paths (Some (split slash ref)) ref = true.
Proof.
  unfold blocked. simpl. rewrite pathHasCircularReference_eq. simpl.
  rewrite join_split. unfold startsWith. rewrite prefix_refl. reflexivity.
Qed.

Section DereferenceTermination.

Variable root : json.
Variable universe : list string.
Variable bound : nat.
Hypothesis root_refs : incl (refs_of root) universe.
Hypothesis root_height : height root <= bound.

Lemma dereference_enough_fuel (fuel : nat) :
  forall (example : json) (paths path : option (list string)),
    incl (refs_of example) universe ->
    height example <= bound ->
    unblocked universe paths path * (bound + 2) + height example < fuel ->
    dereference fuel example root paths path <> OutOfFuel.
Proof.
  induction fuel as [|fuel IH]; intros example paths path Hr Hh Hf; [lia|].
  simpl.
  destruct (ref_string example) as [ref|] eqn:Eref.
  - (* a reference node *)
    destruct (ref_string_obj _ _ Eref) as [m ->].
    destruct (is_some path && pathHasCircularReference paths path ref) eqn:Ec;
      [discriminate|].
    intros H. apply bind_fuel_inv in H. destruct H as [H|[[id referenced] [Hl H]]].
    + exact (lookupReference_total _ _ _ H).
    + apply lookupReference_reach in Hl. destruct Hl as [Hh' Hr'].
      revert H. apply IH.
      * eapply incl_tran; [exact Hr' | exact root_refs].
      * lia.
      * assert (Hlt : unblocked universe
                        (Some (or_empty paths ++ [join "/" (or_empty path)]))
                        (Some (split slash ref))
                      < unblocked universe paths path).
        { apply unblocked_lt with (r0 := ref).
          - intros r. apply blocked_follow.
          - apply Hr. apply ref_string_in; exact Eref.
          - exact Ec.
          - apply blocked_followed. }
        nia.
  - destruct example as [| | | |s|l|m]; try discriminate.
    + (* an array *)
      intros H. apply bind_fuel_inv in H. destruct H as [H|[l' [_ H]]]; [|discriminate].
      revert H. apply mapM_fuel. intros x Hx. apply IH.
      * eapply incl_tran; [apply refs_elem; exact Hx | exact Hr].
      * pose proof (height_elem l x Hx). lia.
      * pose proof (height_elem l x Hx). lia.
    + (* an object *)
      intros H. apply bind_fuel_inv in H. destruct H as [H|[l' [_ H]]]; [|discriminate].
      revert H. apply fold_left_fuel; [|discriminate].
      intros acc kv Hkv Hacc H.
      apply bind_fuel_inv in H. destruct H as [H|[res [_ H]]]; [contradiction|].
      apply bind_fuel_inv in H. destruct H as [H|[res' [_ H]]]; [|discriminate].
      revert H.
      assert (Hv : height (snd kv) < height (JObj m)
                   /\ incl (refs_of (snd kv)) (refs_of (JObj m))).
      { unfold forEach_entries in Hkv.
        destruct (isLength (obj_get m "length")) as [n|].
        - apply in_map_iff in Hkv. destruct Hkv as [i [<- _]]. simpl snd.
          split; [apply height_obj_get | apply refs_obj_get].
        - split; [apply height_field; exact Hkv | apply refs_field; exact Hkv]. }
      destruct Hv as [Hv1 Hv2].
      apply IH.
      * eapply incl_tran; [exact Hv2 | exact Hr].
      * lia.
      * pose proof (unblocked_le universe paths path paths
                      (Some (or_empty path ++ [fst kv]))
                      (fun r => blocked_descend paths path (fst kv) r)).
        nia.
Qed.

End DereferenceTermination.

Lemma dereference_total (example root : json) (paths path : option (list string))
    (k : nat) :
  dereference (dereference_fuel root example + k) example root paths path <> OutOfFuel.
Proof.
  apply dereference_enough_fuel
    with (universe := refs_of root ++ refs_of example)
         (bound := Nat.max (height root) (height example)).
  - apply incl_appl, incl_refl.
  - lia.
  - apply incl_appr, incl_refl.
  - lia.
  - unfold dereference_fuel.
    pose proof (unblocked_bound (refs_of root ++ refs_of example) paths path).
    nia.
Qed.

Lemma dereference_circular (fuel : nat) (example root : json)
    (paths : option (list string)) (path : list string) (ref : string) :
  ref_string example = Some ref ->
  pathHasCircularReference paths (Some path) ref = true ->
  dereference (S fuel) example root paths (Some path) = Ret JNull.
Proof.
  intros Hr Hc. destruct (ref_string_obj _ _ Hr) as [m ->].
  simpl. rewrite Hr. simpl. rewrite Hc. reflexivity.
Qed.

(** C6.  [dereference] terminates on every input: the fuel
    [dereference_fuel root example], and any larger one, is never exhausted.
    On [root.definitions = {A: {$ref: '#/definitions/A'}}] the reference to
    [A] dereferences to [null].  A reference the cycle check answers for is
    replaced by [null] without being looked up, so it is never an error. *)
Theorem dereference_terminates_and_breaks_cycles :
  (forall (example root : json) (paths path : option (list string)) (k : nat),
      dereference (dereference_fuel root example + k) example root paths path
      <> OutOfFuel)
  /\
  (forall k : nat,
      dereference (dereference_fuel self_root self_ref + k) self_ref self_root None None
      = Ret JNull)
  /\
  (forall (fuel : nat) (example root : json) (paths : option (list string))
          (path : list string) (ref : string),
      ref_string example = Some ref ->
      pathHasCircularReference paths (Some path) ref = true ->
      dereference (S fuel) example root paths (Some path) = Ret JNull).
Proof.
  split; [exact dereference_total|].
  split; [|exact dereference_circular].
  intros k. reflexivity.
Qed.

Lemma dereference_terminates_and_breaks_cycles_witness :
  dereference 1 (JObj [("$ref", JStr "#/definitions/Missing")]) (JObj [])
    (Some ["#/definitions/Missing/properties/a"]) (Some ["properties"; "b"])
  = Ret JNull.
Proof.
  apply (proj2 (proj2 dereference_terminates_and_breaks_cycles)) with
    (ref := "#/definitions/Missing"); reflexivity.
Defined.

(** ** SchemaNodeConverter: the shape of a conversion *)

Lemma prop_ret_inv (v : json) (k : string) (x : json) :
  prop v k = Ret x -> x = get v k /\ v <> JNull /\ v <> JUndef.
Proof.
  destruct v; simpl; intros H; try discriminate; inv_ret H;
    (split; [reflexivity | split; discriminate]).
Qed.

Lemma obj_get_filter_key (q : string -> bool) (m : fields) (k : string) :
  obj_get (filter (fun kv => q (fst kv)) m) k = if q k then obj_get m k else JUndef.
Proof.
  induction m as [|[k' v] m IH]; simpl; [destruct (q k); reflexivity|].
  destruct (q k') eqn:Eq; simpl.
  - destruct (k' =? k) eqn:E; [|exact IH].
    apply String.eqb_eq in E; subst k'. rewrite Eq. reflexivity.
  - destruct (k' =? k) eqn:E; [|exact IH].
    apply String.eqb_eq in E; subst k'. rewrite Eq in IH |- *. exact IH.
Qed.

Lemma map_cloneDeep (m : fields) :
  map (fun kv => (fst kv, cloneDeep (snd kv))) m = m.
Proof.
  induction m as [|[k v] m IH]; simpl; [reflexivity|].
  rewrite IH. reflexivity.
Qed.

Lemma obj_get_arr_entries (l : list json) (i : nat) (k : string) :
  obj_get (arr_entries l i) k = arr_get l i k.
Proof.
  revert i; induction l as [|x l IH]; intros i; simpl; [reflexivity|].
  destruct (key_of_index i =? k); [reflexivity | apply IH].
Qed.

Lemma obj_get_str_entries (s : string) (i : nat) (k : string) :
  obj_get (str_entries s i) k = str_get s i k.
Proof.
  revert i; induction s as [|c s IH]; intros i; simpl; [reflexivity|].
  destruct (key_of_index i =? k); [reflexivity | apply IH].
Qed.

(** Reading an own enumerable property: every property but the [length] of
    an array or of a string. *)
Lemma obj_get_entries (v : json) (k : string) :
  (k =? "length") = false -> obj_get (entries v) k = get v k.
Proof.
  intros Hk. destruct v as [| | | |s|l|m]; simpl; try reflexivity; rewrite Hk.
  - apply obj_get_str_entries.
  - apply obj_get_arr_entries.
Qed.

(** What [strip_keys] leaves under a key. *)
Lemma obj_get_strip_keys (schema : json) (k : string) :
  obj_get (strip_keys schema) k =
  if is_file (get schema "type") && (k =? "type") then JStr "string"
  else if existsb (String.eqb k) swagger_only_keys || isExtension k then JUndef
       else obj_get (entries schema) k.
Proof.
  unfold strip_keys, omit, omitBy. rewrite map_cloneDeep.
  assert (E : obj_get
            (filter (fun kv => negb (isExtension (fst kv)))
               (filter (fun kv => negb (existsb (String.eqb (fst kv)) swagger_only_keys))
                  (entries schema))) k
          = if existsb (String.eqb k) swagger_only_keys || isExtension k then JUndef
            else obj_get (entries schema) k).
  { rewrite (obj_get_filter_key (fun k => negb (isExtension k))).
    rewrite (obj_get_filter_key (fun k => negb (existsb (String.eqb k) swagger_only_keys))).
    destruct (isExtension k); destruct (existsb (String.eqb k) swagger_only_keys);
      reflexivity. }
  destruct (is_file (get schema "type")) eqn:Ef; cbn [andb].
  - rewrite obj_get_set. rewrite String.eqb_sym.
    destruct (k =? "type"); [reflexivity | exact E].
  - exact E.
Qed.

Lemma convert_each_keeps (recurse : converter) (name : string) (schema : json)
    (a : fields) (refs : list json) (a' : fields) (refs' : list json) (k : string) :
  convert_each recurse name schema a refs = Ret (a', refs') ->
  name <> k -> obj_get a' k = obj_get a k.
Proof.
  unfold convert_each. destruct (truthy (get schema name)).
  - intros H Hk. inv_bind H. destruct a0 as [c r]. inv_ret H.
    apply obj_get_set_other; exact Hk.
  - intros H _. inv_ret H. reflexivity.
Qed.

Lemma convert_one_keeps (recurse : converter) (name : string) (schema : json)
    (a : fields) (refs : list json) (a' : fields) (refs' : list json) (k : string) :
  convert_one recurse name schema a refs = Ret (a', refs') ->
  name <> k -> obj_get a' k = obj_get a k.
Proof.
  unfold convert_one. intros H Hk. inv_bind H. destruct a0 as [c r]. inv_ret H.
  apply obj_get_set_other; exact Hk.
Qed.

Lemma convert_keys_keeps (recurse : converter) (name : string) (schema : json)
    (a : fields) (refs : list json) (a' : fields) (refs' : list json) (k : string) :
  convert_keys recurse name schema a refs = Ret (a', refs') ->
  name <> k -> obj_get a' k = obj_get a k.
Proof.
  unfold convert_keys. intros H Hk. revert a refs H.
  induction (object_keys (get schema name)) as [|key keys IH]; simpl; intros a refs H.
  - inv_ret H. reflexivity.
  - destruct (recurse (get (get schema name) key) refs) as [[c r]| |] eqn:Er; simpl in H.
    + destruct (set_prop (obj_get a name) key c) as [t| |] eqn:Es; simpl in H.
      * apply IH in H. rewrite H. apply obj_get_set_other; exact Hk.
      * exfalso. clear -H. induction keys as [|x xs IHx]; simpl in H;
          [discriminate | apply IHx; exact H].
      * exfalso. clear -H. induction keys as [|x xs IHx]; simpl in H;
          [discriminate | apply IHx; exact H].
    + exfalso. clear -H. induction keys as [|x xs IHx]; simpl in H;
        [discriminate | apply IHx; exact H].
    + exfalso. clear -H. induction keys as [|x xs IHx]; simpl in H;
        [discriminate | apply IHx; exact H].
Qed.

(** Splits [convert_children ... = Ret _] into its nine steps. *)
Ltac inv_children H :=
  unfold convert_children in H;
  repeat (let a := fresh "st" in
          let Ha := fresh "Hst" in
          apply bind_ret_inv in H; destruct H as [a [Ha H]];
          destruct a as [? ?]).

(** A relation between the state before and after that holds across every
    single step holds across [convert_children]. *)
Lemma convert_children_steps (recurse : converter) (schema : json)
    (P : fields * list json -> fields * list json -> Prop) :
  (forall s, P s s) ->
  (forall s1 s2 s3, P s1 s2 -> P s2 s3 -> P s1 s3) ->
  (forall name a r a' r', In name child_keys ->
      convert_each recurse name schema a r = Ret (a', r') -> P (a, r) (a', r')) ->
  (forall name a r a' r', In name child_keys ->
      convert_one recurse name schema a r = Ret (a', r') -> P (a, r) (a', r')) ->
  (forall name a r a' r', In name child_keys ->
      convert_keys recurse name schema a r = Ret (a', r') -> P (a, r) (a', r')) ->
  forall a r a' r',
    convert_children recurse schema a r = Ret (a', r') -> P (a, r) (a', r').
Proof.
  intros Hrefl Htrans Heach Hone Hkeys a r a' r' H.
  inv_children H.
  apply Heach in Hst; [|simpl; tauto].
  apply Heach in Hst0; [|simpl; tauto].
  apply Heach in Hst1; [|simpl; tauto].
  assert (P (f1, l1) (f2, l2)) as Hst2'.
  { destruct (truthy (get schema "not"));
      [apply Hone in Hst2; [exact Hst2 | simpl; tauto]
      | injection Hst2 as <- <-; apply Hrefl]. }
  assert (P (f2, l2) (f3, l3)) as Hst3'.
  { destruct (truthy (get schema "items"));
      [destruct (is_array (get schema "items"));
       [apply Heach in Hst3 | apply Hone in Hst3]; solve [exact Hst3 | simpl; tauto]
      | injection Hst3 as <- <-; apply Hrefl]. }
  assert (P (f3, l3) (f4, l4)) as Hst4'.
  { destruct (truthy (get schema "additionalItems")
              && typeof_object (get schema "additionalItems"));
      [apply Hone in Hst4; [exact Hst4 | simpl; tauto]
      | injection Hst4 as <- <-; apply Hrefl]. }
  assert (P (f4, l4) (f5, l5)) as Hst5'.
  { destruct (truthy (get schema "properties"));
      [apply Hkeys in Hst5; [exact Hst5 | simpl; tauto]
      | injection Hst5 as <- <-; apply Hrefl]. }
  assert (P (f5, l5) (f6, l6)) as Hst6'.
  { destruct (truthy (get schema "patternProperties"));
      [apply Hkeys in Hst6; [exact Hst6 | simpl; tauto]
      | injection Hst6 as <- <-; apply Hrefl]. }
  assert (P (f6, l6) (a', r')) as Hst7'.
  { destruct (truthy (get schema "additionalProperties")
              && typeof_object (get schema "additionalProperties"));
      [apply Hone in H; [exact H | simpl; tauto]
      | injection H as <- <-; apply Hrefl]. }
  eauto 12.
Qed.

Lemma convert_children_keeps (recurse : converter) (schema : json)
    (a : fields) (refs : list json) (a' : fields) (refs' : list json) (k : string) :
  convert_children recurse schema a refs = Ret (a', refs') ->
  ~ In k child_keys -> obj_get a' k = obj_get a k.
Proof.
  intros H Hk.
  assert (Hn : forall name, In name child_keys -> name <> k)
    by (intros name Hin ->; contradiction).
  apply (convert_children_steps recurse schema
           (fun s s' => obj_get (fst s') k = obj_get (fst s) k)) in H.
  - exact H.
  - reflexivity.
  - intros s1 s2 s3 H1 H2. rewrite H2. exact H1.
  - intros name a0 r0 a1 r1 Hin Hs. simpl.
    exact (convert_each_keeps _ _ _ _ _ _ _ _ Hs (Hn _ Hin)).
  - intros name a0 r0 a1 r1 Hin Hs. simpl.
    exact (convert_one_keeps _ _ _ _ _ _ _ _ Hs (Hn _ Hin)).
  - intros name a0 r0 a1 r1 Hin Hs. simpl.
    exact (convert_keys_keeps _ _ _ _ _ _ _ _ Hs (Hn _ Hin)).
Qed.

Lemma convertSubSchema_ref (fuel : nat) (schema : json) (refs : list json)
    (swagger res : json) (refs' : list json) :
  convertSubSchema fuel schema refs swagger = Ret (res, refs') ->
  truthy (get schema "$ref") = true ->
  res = JObj [("$ref", get schema "$ref")] /\ refs' = refs ++ [get schema "$ref"].
Proof.
  destruct fuel as [|f]; simpl; [discriminate|].
  intros H Ht. inv_bind H. apply prop_ret_inv in Hstep. destruct Hstep as [-> _].
  rewrite Ht in H. inv_ret H. split; reflexivity.
Qed.

Lemma convertSubSchema_node (fuel : nat) (schema : json) (refs : list json)
    (swagger res : json) (refs' : list json) :
  convertSubSchema fuel schema refs swagger = Ret (res, refs') ->
  truthy (get schema "$ref") = false ->
  exists (f : nat) (a1 a2 a3 : fields),
    fuel = S f
    /\ (if truthy (get schema "example")
        then exists d, dereference f (get schema "example") swagger None None = Ret d
                       /\ a1 = obj_set "examples" (JArr [d]) (strip_keys schema)
        else a1 = strip_keys schema)
    /\ (if truthy (get schema "x-nullable") then nullable a1 = Ret a2 else a2 = a1)
    /\ convert_children (fun s r => convertSubSchema f s r swagger) schema a2 refs
       = Ret (a3, refs')
    /\ res = JObj a3.
Proof.
  destruct fuel as [|f]; [discriminate|].
  cbn [convertSubSchema]. intros H Ht.
  inv_bind H. apply prop_ret_inv in Hstep. destruct Hstep as [-> _].
  rewrite Ht in H. inv_bind H. rename a into a1, Hstep into H1.
  inv_bind H. rename a into a2, Hstep into H2.
  inv_bind H. destruct a as [a3 r3]. inv_ret H.
  exists f, a1, a2, a3. split; [reflexivity|].
  split; [|split; [|split; [exact Hstep | reflexivity]]].
  - destruct (truthy (get schema "example")).
    + inv_bind H1. inv_ret H1. exists a. split; [exact Hstep0 | reflexivity].
    + inv_ret H1. reflexivity.
  - destruct (truthy (get schema "x-nullable")).
    + exact H2.
    + inv_ret H2. reflexivity.
Qed.

Lemma nullable_keeps (a a' : fields) (k : string) :
  nullable a = Ret a' -> "type" <> k -> "enum" <> k -> obj_get a' k = obj_get a k.
Proof.
  unfold nullable. intros H Ht He.
  set (b := if truthy (obj_get a "type")
            then obj_set "type" (JArr [obj_get a "type"; JStr "null"]) a
            else if is_undef (obj_get a "enum") then obj_set "type" (JStr "null") a
                 else a) in *.
  assert (Hb : obj_get b k = obj_get a k).
  { subst b. destruct (truthy (obj_get a "type"));
      [|destruct (is_undef (obj_get a "enum"))];
      try reflexivity; apply obj_get_set_other; exact Ht. }
  destruct (truthy (obj_get b "enum")); [|inv_ret H; exact Hb].
  destruct (obj_get b "enum") as [| | | |s|l|m]; try discriminate.
  - destruct (is_some (index 0 "null" s)); [|discriminate]. inv_ret H. exact Hb.
  - destruct (existsb is_null l); inv_ret H; [exact Hb|].
    rewrite obj_get_set_other by exact He. exact Hb.
Qed.

Lemma nullable_type (a a' : fields) :
  nullable a = Ret a' -> truthy (obj_get a "type") = true ->
  obj_get a' "type" = JArr [obj_get a "type"; JStr "null"].
Proof.
  unfold nullable. intros H Ht. rewrite Ht in H.
  set (b := obj_set "type" (JArr [obj_get a "type"; JStr "null"]) a) in *.
  assert (Hb : obj_get b "type" = JArr [obj_get a "type"; JStr "null"])
    by apply obj_get_set_same.
  destruct (truthy (obj_get b "enum")); [|inv_ret H; exact Hb].
  destruct (obj_get b "enum") as [| | | |s|l|m]; try discriminate.
  - destruct (is_some (index 0 "null" s)); [|discriminate]. inv_ret H. exact Hb.
  - destruct (existsb is_null l); inv_ret H; [exact Hb|].
    rewrite obj_get_set_other by discriminate. exact Hb.
Qed.

Lemma nullable_enum (a a' : fields) (l : list json) :
  nullable a = Ret a' -> obj_get a "enum" = JArr l ->
  obj_get a' "enum" = JArr (if existsb is_null l then l else l ++ [JNull]).
Proof.
  unfold nullable. intros H He.
  set (b := if truthy (obj_get a "type")
            then obj_set "type" (JArr [obj_get a "type"; JStr "null"]) a
            else if is_undef (obj_get a "enum") then obj_set "type" (JStr "null") a
                 else a) in *.
  assert (Hb : obj_get b "enum" = JArr l).
  { subst b. destruct (truthy (obj_get a "type"));
      [|destruct (is_undef (obj_get a "enum"))];
      try exact He; rewrite obj_get_set_other by discriminate; exact He. }
  rewrite Hb in H. simpl in H.
  destruct (existsb is_null l); inv_ret H; [exact Hb | apply obj_get_set_same].
Qed.

(** A key the converter neither removes nor writes holds, in the converted
    node, what it holds in the schema. *)
Lemma convertSubSchema_keeps (fuel : nat) (schema : json) (refs : list json)
    (swagger : json) (a : fields) (refs' : list json) (k : string) :
  convertSubSchema fuel schema refs swagger = Ret (JObj a, refs') ->
  truthy (get schema "$ref") = false ->
  ~ In k written_keys ->
  obj_get a k =
  if existsb (String.eqb k) swagger_only_keys || isExtension k then JUndef
  else obj_get (entries schema) k.
Proof.
  intros H Ht Hk.
  destruct (convertSubSchema_node _ _ _ _ _ _ H Ht)
    as [f [a1 [a2 [a3 [-> [H1 [H2 [H3 E]]]]]]]].
  inv_ret E.
  assert (Ktype : "type" <> k) by (intros <-; apply Hk; simpl; tauto).
  assert (Kenum : "enum" <> k) by (intros <-; apply Hk; simpl; tauto).
  assert (Kex : "examples" <> k) by (intros <-; apply Hk; simpl; tauto).
  assert (Kch : ~ In k child_keys) by (intros Hin; apply Hk; simpl; simpl in Hin; tauto).
  rewrite (convert_children_keeps _ _ _ _ _ _ _ H3 Kch).
  assert (E2 : obj_get a2 k = obj_get a1 k).
  { destruct (truthy (get schema "x-nullable")); [|subst; reflexivity].
    apply nullable_keeps; assumption. }
  assert (E1 : obj_get a1 k = obj_get (strip_keys schema) k).
  { destruct (truthy (get schema "example")); [|subst; reflexivity].
    destruct H1 as [d [_ ->]]. apply obj_get_set_other; exact Kex. }
  rewrite E2, E1, obj_get_strip_keys.
  assert (Et : (k =? "type") = false).
  { apply String.eqb_neq. intros ->. apply Ktype; reflexivity. }
  rewrite Et, andb_false_r. reflexivity.
Qed.

(** ** DefinitionClosureBuilder: a schema that is not a reference *)

Lemma convertSchema_node (fuel : nat) (schema root swagger : json)
    (copyDefinitions : bool) (res : json) :
  convertSchema fuel schema root swagger copyDefinitions = Ret res ->
  truthy (get schema "$ref") = false ->
  exists (a : fields) (refs : list json),
    convertSubSchema fuel schema [] swagger = Ret (JObj a, refs)
    /\ ((res = JObj a /\ (copyDefinitions = false \/ refs = []))
        \/ (copyDefinitions = true /\ refs <> [] /\
            exists defs, copy_loop fuel fuel refs [] root = Ret defs
                         /\ res = JObj (obj_set "definitions" (JObj defs) a))).
Proof.
  unfold convertSchema. intros H Ht.
  inv_bind H. destruct a as [node refs].
  destruct (convertSubSchema_node _ _ _ _ _ _ Hstep Ht)
    as [f [a1 [a2 [a3 [-> [_ [_ [_ ->]]]]]]]].
  exists a3, refs. split; [exact Hstep|].
  assert (Hr : obj_get a3 "$ref" = get schema "$ref").
  { rewrite (convertSubSchema_keeps _ _ _ _ _ _ "$ref" Hstep Ht).
    - apply obj_get_entries. reflexivity.
    - simpl. intros Hin.
      repeat (destruct Hin as [Hin|Hin]; [discriminate|]). exact Hin. }
  inv_bind H. rename a into result.
  assert (Hres : (result = JObj a3 /\ (copyDefinitions = false \/ refs = []))
                 \/ (copyDefinitions = true /\ refs <> [] /\
                     exists defs, copy_loop (S f) (S f) refs [] root = Ret defs
                                  /\ result = JObj (obj_set "definitions" (JObj defs) a3))).
  { destruct copyDefinitions.
    - destruct refs as [|r refs].
      + inv_ret Hstep0. left. split; [reflexivity | right; reflexivity].
      + inv_bind Hstep0. simpl in Hstep0. inv_ret Hstep0.
        right. split; [reflexivity|]. split; [discriminate|].
        exists a. split; [exact Hstep1 | reflexivity].
    - inv_ret Hstep0. left. split; [reflexivity | left; reflexivity]. }
  assert (Hf : truthy (get result "$ref") = false).
  { destruct Hres as [[-> _]|[_ [_ [defs [_ ->]]]]]; simpl.
    - rewrite Hr. exact Ht.
    - rewrite obj_get_set_other by discriminate. rewrite Hr. exact Ht. }
  rewrite Hf in H. simpl in H. inv_ret H. exact Hres.
Qed.

Lemma convertSchema_node_get (fuel : nat) (schema root swagger : json)
    (copyDefinitions : bool) (res : json) :
  convertSchema fuel schema root swagger copyDefinitions = Ret res ->
  truthy (get schema "$ref") = false ->
  exists (a : fields) (refs : list json),
    convertSubSchema fuel schema [] swagger = Ret (JObj a, refs)
    /\ forall k, "definitions" <> k -> get res k = obj_get a k.
Proof.
  intros H Ht. destruct (convertSchema_node _ _ _ _ _ _ H Ht) as [a [refs [Hc Hr]]].
  exists a, refs. split; [exact Hc|]. intros k Hk.
  destruct Hr as [[-> _]|[_ [_ [defs [_ ->]]]]]; simpl; [reflexivity|].
  apply obj_get_set_other; exact Hk.
Qed.

(** C1 (amended).  For an object schema that is no reference, has a truthy
    [x-nullable], a truthy [type] and an array [enum], both fixes apply: the
    converted [type] is the two-element array of the type (after the [file]
    rewrite) and ['null'], and [null] is appended to the converted [enum]
    unless the [enum] already holds it. *)
Theorem nullable_widens_type_and_extends_enum
    (fuel : nat) (m : fields) (root swagger : json) (copyDefinitions : bool)
    (res : json) (l : list json) :
  truthy (obj_get m "$ref") = false ->
  truthy (obj_get m "x-nullable") = true ->
  truthy (obj_get m "type") = true ->
  obj_get m "enum" = JArr l ->
  convertSchema fuel (JObj m) root swagger copyDefinitions = Ret res ->
  get res "type"
  = JArr [if is_file (obj_get m "type") then JStr "string" else obj_get m "type";
          JStr "null"]
  /\ get res "enum" = JArr (if existsb is_null l then l else l ++ [JNull]).
Proof.
  intros Href Hnull Htype Henum H.
  destruct (convertSchema_node_get _ _ _ _ _ _ H Href) as [a [refs [Hc Hget]]].
  rewrite !Hget by discriminate.
  destruct (convertSubSchema_node _ _ _ _ _ _ Hc Href)
    as [f [a1 [a2 [a3 [-> [H1 [H2 [H3 E]]]]]]]].
  inv_ret E. simpl get in *. rewrite Hnull in H2.
  rewrite (convert_children_keeps _ _ _ _ _ _ "type" H3)
    by (simpl; intros Hin; repeat (destruct Hin as [Hin|Hin]; [discriminate|]); exact Hin).
  rewrite (convert_children_keeps _ _ _ _ _ _ "enum" H3)
    by (simpl; intros Hin; repeat (destruct Hin as [Hin|Hin]; [discriminate|]); exact Hin).
  assert (E1 : forall k, "examples" <> k -> obj_get a1 k = obj_get (strip_keys (JObj m)) k).
  { intros k Hk. destruct (truthy (obj_get m "example")); [|subst; reflexivity].
    destruct H1 as [d [_ ->]]. apply obj_get_set_other; exact Hk. }
  assert (Et : obj_get a1 "type"
               = if is_file (obj_get m "type") then JStr "string" else obj_get m "type").
  { rewrite E1 by discriminate. rewrite obj_get_strip_keys. simpl get.
    destruct (is_file (obj_get m "type")); reflexivity. }
  assert (Ee : obj_get a1 "enum" = JArr l).
  { rewrite E1 by discriminate. rewrite obj_get_strip_keys. simpl get.
    rewrite andb_false_r. simpl. exact Henum. }
  split.
  - rewrite (nullable_type _ _ H2); [rewrite Et; reflexivity|].
    rewrite Et. destruct (is_file (obj_get m "type")); [reflexivity | exact Htype].
  - exact (nullable_enum _ _ _ H2 Ee).
Qed.

Lemma nullable_widens_type_and_extends_enum_witness :
  get (JObj [("type", JArr [JStr "string"; JStr "null"]);
             ("enum", JArr [JStr "a"; JStr "b"; JNull])]) "type"
  = JArr [JStr "string"; JStr "null"]
  /\ get (JObj [("type", JArr [JStr "string"; JStr "null"]);
                ("enum", JArr [JStr "a"; JStr "b"; JNull])]) "enum"
     = JArr [JStr "a"; JStr "b"; JNull].
Proof.
  apply (nullable_widens_type_and_extends_enum 2 nullable_enum_schema
           (JObj []) (JObj []) true _ [JStr "a"; JStr "b"]); reflexivity.
Defined.

(** C1, as stated, fails: with a [type] and an [enum], a truthy [x-nullable]
    widens the type and also appends [null] to the enum. *)
Lemma nullable_enum_modified :
  convertSchema 2 (JObj nullable_enum_schema) (JObj []) (JObj []) true
  = Ret (JObj [("type", JArr [JStr "string"; JStr "null"]);
               ("enum", JArr [JStr "a"; JStr "b"; JNull])])
  /\ JArr [JStr "a"; JStr "b"; JNull] <> obj_get nullable_enum_schema "enum".
Proof. split; [reflexivity | discriminate]. Qed.

(** C9 (amended).  For an object schema that is no reference and whose
    [example] is truthy, a conversion that returns has dereferenced the
    example against the Swagger document, returns a node without [example],
    and holds that one dereferenced value in the array [examples]. *)
Theorem example_becomes_examples
    (fuel : nat) (m : fields) (root swagger : json) (copyDefinitions : bool)
    (res : json) :
  truthy (obj_get m "$ref") = false ->
  truthy (obj_get m "example") = true ->
  convertSchema (S fuel) (JObj m) root swagger copyDefinitions = Ret res ->
  get res "example" = JUndef
  /\ exists d, dereference fuel (obj_get m "example") swagger None None = Ret d
               /\ get res "examples" = JArr [d].
Proof.
  intros Href Hex H.
  destruct (convertSchema_node_get _ _ _ _ _ _ H Href) as [a [refs [Hc Hget]]].
  rewrite !Hget by discriminate.
  split.
  - rewrite (convertSubSchema_keeps _ _ _ _ _ _ "example" Hc Href); [reflexivity|].
    simpl. intros Hin. repeat (destruct Hin as [Hin|Hin]; [discriminate|]). exact Hin.
  - destruct (convertSubSchema_node _ _ _ _ _ _ Hc Href)
      as [f [a1 [a2 [a3 [Ef [H1 [H2 [H3 E]]]]]]]].
    inv_ret E. injection Ef as <-. simpl get in *. rewrite Hex in H1.
    destruct H1 as [d [Hd ->]]. exists d. split; [exact Hd|].
    rewrite (convert_children_keeps _ _ _ _ _ _ "examples" H3)
      by (simpl; intros Hin; repeat (destruct Hin as [Hin|Hin]; [discriminate|]); exact Hin).
    assert (E2 : obj_get a2 "examples"
                 = obj_get (obj_set "examples" (JArr [d]) (strip_keys (JObj m))) "examples").
    { destruct (truthy (obj_get m "x-nullable")); [|subst; reflexivity].
      apply (nullable_keeps _ _ _ H2); discriminate. }
    rewrite E2. apply obj_get_set_same.
Qed.

Lemma example_becomes_examples_witness :
  get (JObj [("type", JStr "object");
             ("examples", JArr [JObj [("name", JObj [("first", JStr "Ada")])]])]) "example"
  = JUndef
  /\ exists d,
       dereference 5 (obj_get example_schema "example") example_swagger None None = Ret d
       /\ get (JObj [("type", JStr "object");
                     ("examples", JArr [JObj [("name", JObj [("first", JStr "Ada")])]])])
            "examples" = JArr [d].
Proof.
  apply (example_becomes_examples 5 example_schema (JObj []) example_swagger true);
    reflexivity.
Defined.

(** C9, as stated, fails: a schema that is a reference is converted to the
    bare reference, example or not. *)
Lemma example_of_reference_dropped :
  truthy (get (JObj [("$ref", JStr "#/definitions/A"); ("example", JStr "x")]) "example")
  = true
  /\ convertSchema 3 (JObj [("$ref", JStr "#/definitions/A"); ("example", JStr "x")])
       (JObj []) (JObj []) false
     = Ret (JObj [("$ref", JStr "#/definitions/A")])
  /\ get (JObj [("$ref", JStr "#/definitions/A")]) "examples" = JUndef.
Proof. repeat split. Qed.

(** A falsy example is removed with the other Swagger-only keys and leaves
    no [examples]. *)
Example example_falsy_dropped :
  convertSchema 3 (JObj [("type", JStr "integer"); ("example", JNum 0)])
    (JObj []) (JObj []) true
  = Ret (JObj [("type", JStr "integer")]).
Proof. reflexivity. Qed.

(** ** More fuel never changes an answer *)

Lemma approx_refl {A : Type} (a : outcome A) : approx a a.
Proof. right; reflexivity. Qed.

Lemma approx_fuel {A : Type} (b : outcome A) : approx OutOfFuel b.
Proof. left; reflexivity. Qed.

Lemma approx_eq {A : Type} (a b : outcome A) :
  approx a b -> a <> OutOfFuel -> b = a.
Proof. intros [H|H] Hn; [contradiction | symmetry; exact H]. Qed.

Lemma approx_ret {A : Type} (a b : outcome A) (x : A) :
  approx a b -> a = Ret x -> b = Ret x.
Proof. intros [H|H] E; rewrite E in H; [discriminate | symmetry; exact H]. Qed.

Lemma approx_bind {A B : Type} (c c' : outcome A) (k k' : A -> outcome B) :
  approx c c' -> (forall a, approx (k a) (k' a)) -> approx (bind c k) (bind c' k').
Proof.
  intros [->| ->] Hk; [apply approx_fuel|].
  destruct c' as [a| |]; simpl; [apply Hk | apply approx_refl | apply approx_refl].
Qed.

Lemma approx_if {A : Type} (b : bool) (x x' y y' : outcome A) :
  approx x x' -> approx y y' -> approx (if b then x else y) (if b then x' else y').
Proof. destruct b; auto. Qed.

Lemma approx_mapM {A B : Type} (f f' : A -> outcome B) (l : list A) :
  (forall x, approx (f x) (f' x)) -> approx (mapM f l) (mapM f' l).
Proof.
  intros Hf. induction l as [|x l IH]; simpl; [apply approx_refl|].
  apply approx_bind; [apply Hf|]. intros y.
  apply approx_bind; [exact IH|]. intros ys. apply approx_refl.
Qed.

Lemma approx_someM {A : Type} (f f' : A -> outcome bool) (l : list A) :
  (forall x, approx (f x) (f' x)) -> approx (someM f l) (someM f' l).
Proof.
  intros Hf. induction l as [|x l IH]; simpl; [apply approx_refl|].
  apply approx_bind; [apply Hf|]. intros [|]; [apply approx_refl | exact IH].
Qed.

Lemma approx_fold_left {A S : Type} (step step' : outcome S -> A -> outcome S)
    (l : list A) (init init' : outcome S) :
  (forall acc acc' x, approx acc acc' -> approx (step acc x) (step' acc' x)) ->
  approx init init' ->
  approx (fold_left step l init) (fold_left step' l init').
Proof.
  intros Hs. revert init init'.
  induction l as [|x l IH]; simpl; intros init init' Hi; [exact Hi|].
  apply IH. apply Hs. exact Hi.
Qed.

Lemma dereference_mono (fuel fuel' : nat) :
  fuel <= fuel' ->
  forall example root paths path,
    approx (dereference fuel example root paths path)
           (dereference fuel' example root paths path).
Proof.
  revert fuel'. induction fuel as [|fuel IH]; intros fuel' Hle example root paths path;
    [apply approx_fuel|].
  destruct fuel' as [|fuel']; [lia|].
  assert (Hle' : fuel <= fuel') by lia. specialize (IH fuel' Hle').
  cbn [dereference].
  destruct example as [| | | |s|l|m]; try apply approx_refl;
    (destruct (ref_string _) as [ref|];
     [ destruct (is_some path && pathHasCircularReference paths path ref);
       [apply approx_refl|];
       apply approx_bind; [apply approx_refl|]; intros [id referenced]; apply IH
     | ]); try apply approx_refl.
  - apply approx_bind; [|intros; apply approx_refl].
    apply approx_mapM. intros x. apply IH.
  - apply approx_bind; [|intros; apply approx_refl].
    apply approx_fold_left; [|apply approx_refl].
    intros acc acc' kv Hacc. apply approx_bind; [exact Hacc|]. intros result.
    apply approx_bind; [apply IH | intros; apply approx_refl].
Qed.

Lemma approx_map_convert (recurse recurse' : converter) (l : list json) (refs : list json) :
  approx_converter recurse recurse' ->
  approx (map_convert recurse l refs) (map_convert recurse' l refs).
Proof.
  intros Hr. revert refs. induction l as [|x l IH]; intros refs; simpl;
    [apply approx_refl|].
  apply approx_bind; [apply Hr|]. intros [s' r'].
  apply approx_bind; [apply IH|]. intros [l' r'']. apply approx_refl.
Qed.

Lemma approx_convert_each (recurse recurse' : converter) name schema a refs :
  approx_converter recurse recurse' ->
  approx (convert_each recurse name schema a refs)
         (convert_each recurse' name schema a refs).
Proof.
  intros Hr. unfold convert_each. apply approx_if; [|apply approx_refl].
  apply approx_bind; [|intros [c r]; apply approx_refl].
  unfold map_method. destruct (get schema name); try apply approx_refl.
  apply approx_bind; [apply approx_map_convert; exact Hr|].
  intros [l' r']. apply approx_refl.
Qed.

Lemma approx_convert_one (recurse recurse' : converter) name schema a refs :
  approx_converter recurse recurse' ->
  approx (convert_one recurse name schema a refs)
         (convert_one recurse' name schema a refs).
Proof.
  intros Hr. unfold convert_one.
  apply approx_bind; [apply Hr | intros [c r]; apply approx_refl].
Qed.

Lemma approx_convert_keys (recurse recurse' : converter) name schema a refs :
  approx_converter recurse recurse' ->
  approx (convert_keys recurse name schema a refs)
         (convert_keys recurse' name schema a refs).
Proof.
  intros Hr. unfold convert_keys.
  apply approx_fold_left; [|apply approx_refl].
  intros acc acc' key Hacc. apply approx_bind; [exact Hacc|]. intros [a0 r0].
  apply approx_bind; [apply Hr|]. intros [c r]. apply approx_refl.
Qed.

Ltac approx_conv Hr :=
  first [ apply approx_refl
        | apply approx_convert_each; exact Hr
        | apply approx_convert_one; exact Hr
        | apply approx_convert_keys; exact Hr
        | apply approx_if; approx_conv Hr ].

Lemma approx_convert_children (recurse recurse' : converter) schema a refs :
  approx_converter recurse recurse' ->
  approx (convert_children recurse schema a refs)
         (convert_children recurse' schema a refs).
Proof.
  intros Hr. unfold convert_children.
  do 8 (apply approx_bind; [approx_conv Hr | intros [? ?]]).
  approx_conv Hr.
Qed.

Lemma convertSubSchema_mono (fuel fuel' : nat) :
  fuel <= fuel' ->
  forall schema refs swagger,
    approx (convertSubSchema fuel schema refs swagger)
           (convertSubSchema fuel' schema refs swagger).
Proof.
  revert fuel'. induction fuel as [|fuel IH]; intros fuel' Hle schema refs swagger;
    [apply approx_fuel|].
  destruct fuel' as [|fuel']; [lia|].
  assert (Hle' : fuel <= fuel') by lia. specialize (IH fuel' Hle').
  cbn [convertSubSchema].
  apply approx_bind; [apply approx_refl|]. intros ref.
  apply approx_if; [apply approx_refl|].
  apply approx_bind.
  { apply approx_if; [|apply approx_refl].
    apply approx_bind; [apply dereference_mono; exact Hle' | intros; apply approx_refl]. }
  intros a1. apply approx_bind; [apply approx_refl|]. intros a2.
  apply approx_bind; [|intros [a3 r3]; apply approx_refl].
  apply approx_convert_children. intros s r. apply IH.
Qed.

Lemma approx_find_each find find' v refs :
  approx_find find find' -> approx (find_each find v refs) (find_each find' v refs).
Proof.
  intros Hf. unfold find_each. destruct v; try apply approx_refl.
  apply approx_bind; [apply approx_mapM; exact Hf | intros; apply approx_refl].
Qed.

Lemma approx_find_keys find find' v refs :
  approx_find find find' -> approx (find_keys find v refs) (find_keys find' v refs).
Proof.
  intros Hf. unfold find_keys. apply approx_fold_left; [|apply approx_refl].
  intros acc acc' key Hacc. apply approx_bind; [exact Hacc|]. intros r.
  apply approx_bind; [apply Hf | intros; apply approx_refl].
Qed.

Ltac approx_find_step Hf :=
  first [ apply approx_refl
        | apply approx_find_each; exact Hf
        | apply approx_find_keys; exact Hf
        | apply approx_bind; [apply Hf | intros; apply approx_refl]
        | apply approx_if; approx_find_step Hf ].

Lemma approx_find_children find find' schema :
  approx_find find find' ->
  approx (find_children find schema) (find_children find' schema).
Proof.
  intros Hf. unfold find_children.
  do 8 (apply approx_bind; [approx_find_step Hf | intros ?]).
  approx_find_step Hf.
Qed.

Lemma findReferences_mono (fuel fuel' : nat) :
  fuel <= fuel' ->
  forall schema, approx (findReferences fuel schema) (findReferences fuel' schema).
Proof.
  revert fuel'. induction fuel as [|fuel IH]; intros fuel' Hle schema;
    [apply approx_fuel|].
  destruct fuel' as [|fuel']; [lia|].
  assert (Hle' : fuel <= fuel') by lia. specialize (IH fuel' Hle').
  cbn [findReferences].
  apply approx_bind; [apply approx_refl|]. intros ref.
  apply approx_if; [apply approx_refl|].
  apply approx_find_children. exact IH.
Qed.

Lemma checkSchemaHasReferences_mono (fuel fuel' : nat) :
  fuel <= fuel' ->
  forall schema,
    approx (checkSchemaHasReferences fuel schema)
           (checkSchemaHasReferences fuel' schema).
Proof.
  revert fuel'. induction fuel as [|fuel IH]; intros fuel' Hle schema;
    [apply approx_fuel|].
  destruct fuel' as [|fuel']; [lia|].
  assert (Hle' : fuel <= fuel') by lia. specialize (IH fuel' Hle').
  cbn [checkSchemaHasReferences].
  apply approx_bind; [apply approx_refl|]. intros ref.
  apply approx_if; [apply approx_refl|].
  apply approx_someM. intros value.
  destruct value; try apply approx_refl; [apply approx_someM; exact IH | apply IH].
Qed.

Lemma copy_loop_mono (steps steps' fuel fuel' : nat) :
  steps <= steps' -> fuel <= fuel' ->
  forall references definitions root,
    approx (copy_loop steps fuel references definitions root)
           (copy_loop steps' fuel' references definitions root).
Proof.
  intros Hs Hf. revert steps' Hs.
  induction steps as [|steps IH]; intros steps' Hs references definitions root;
    [apply approx_fuel|].
  destruct steps' as [|steps']; [lia|].
  assert (Hs' : steps <= steps') by lia. specialize (IH steps' Hs').
  cbn [copy_loop]. destruct (pop references) as [[reference rest]|];
    [|apply approx_refl].
  apply approx_bind; [apply approx_refl|]. intros [id referenced].
  apply approx_if; [|apply IH].
  apply approx_bind; [apply findReferences_mono; exact Hf|]. intros found. apply IH.
Qed.

Lemma convertSchema_mono (fuel fuel' : nat) :
  fuel <= fuel' ->
  forall schema root swagger copyDefinitions,
    approx (convertSchema fuel schema root swagger copyDefinitions)
           (convertSchema fuel' schema root swagger copyDefinitions).
Proof.
  intros Hle schema root swagger copyDefinitions. unfold convertSchema.
  apply approx_bind; [apply convertSubSchema_mono; exact Hle|]. intros [result refs].
  apply approx_bind.
  { apply approx_if; [|apply approx_refl].
    destruct refs; [apply approx_refl|].
    apply approx_bind; [apply copy_loop_mono; exact Hle | intros; apply approx_refl]. }
  intros result'. apply approx_if; [|apply approx_refl].
  apply approx_bind; [apply approx_refl|]. intros [id x].
  apply approx_bind; [apply approx_refl|]. intros definition.
  apply approx_bind; [apply checkSchemaHasReferences_mono; exact Hle|].
  intros b. apply approx_refl.
Qed.

(** ** Enough fuel *)

Lemma bind_total {A B : Type} (c : outcome A) (k : A -> outcome B) :
  c <> OutOfFuel -> (forall a, c = Ret a -> k a <> OutOfFuel) ->
  bind c k <> OutOfFuel.
Proof.
  intros Hc Hk H. apply bind_fuel_inv in H. destruct H as [H|[a [Ha H]]].
  - exact (Hc H).
  - exact (Hk a Ha H).
Qed.

Lemma someM_total {A : Type} (f : A -> outcome bool) (l : list A) :
  (forall x, In x l -> f x <> OutOfFuel) -> someM f l <> OutOfFuel.
Proof.
  induction l as [|x l IH]; simpl; intros Hf; [discriminate|].
  apply bind_total; [apply Hf; left; reflexivity|].
  intros [|] _; [discriminate|]. apply IH. intros y Hy. apply Hf; right; exact Hy.
Qed.

Lemma key_of_index_not_child (i : nat) (name : string) :
  In name child_keys -> (key_of_index i =? name) = false.
Proof.
  unfold key_of_index. intros H. simpl in H.
  repeat (destruct H as [<-|H]; [destruct (Nat.to_uint i); reflexivity|]).
  contradiction.
Qed.

Lemma arr_get_not_child (l : list json) (i : nat) (name : string) :
  In name child_keys -> arr_get l i name = JUndef.
Proof.
  intros Hn. revert i; induction l as [|x l IH]; intros i; simpl; [reflexivity|].
  rewrite (key_of_index_not_child i name Hn). apply IH.
Qed.

Lemma str_get_not_child (s : string) (i : nat) (name : string) :
  In name child_keys -> str_get s i name = JUndef.
Proof.
  intros Hn. revert i; induction s as [|c s IH]; intros i; simpl; [reflexivity|].
  rewrite (key_of_index_not_child i name Hn). apply IH.
Qed.

(** Only an object has children under the keys the converter follows. *)
Lemma child_of_object (v : json) (name : string) :
  In name child_keys -> truthy (get v name) = true -> exists m, v = JObj m.
Proof.
  intros Hn. destruct v as [| | | |s|l|m]; simpl; try discriminate.
  - assert (E : (name =? "length") = false)
      by (simpl in Hn; repeat (destruct Hn as [<-|Hn]; [reflexivity|]); contradiction).
    rewrite E, (str_get_not_child s 0 name Hn). discriminate.
  - assert (E : (name =? "length") = false)
      by (simpl in Hn; repeat (destruct Hn as [<-|Hn]; [reflexivity|]); contradiction).
    rewrite E, (arr_get_not_child l 0 name Hn). discriminate.
  - intros _. exists m; reflexivity.
Qed.

Lemma child_height (v : json) (name : string) :
  In name child_keys -> truthy (get v name) = true ->
  height (get v name) < height v.
Proof.
  intros Hn Ht. destruct (child_of_object v name Hn Ht) as [m ->].
  apply height_obj_get.
Qed.

Lemma child_refs (v : json) (name : string) :
  incl (refs_of (get v name)) (refs_of v).
Proof. apply refs_get. Qed.

Section ConverterTotality.

Variable recurse : converter.
Variable schema : json.
Hypothesis recurse_total :
  forall c refs,
    height c < height schema -> incl (refs_of c) (refs_of schema) ->
    recurse c refs <> OutOfFuel.

Lemma map_convert_total (l : list json) (refs : list json) :
  (forall x, In x l -> height x < height schema /\ incl (refs_of x) (refs_of schema)) ->
  map_convert recurse l refs <> OutOfFuel.
Proof.
  revert refs; induction l as [|x l IH]; intros refs Hl; simpl; [discriminate|].
  apply bind_total; [apply recurse_total; apply Hl; left; reflexivity|].
  intros [s' r'] _. apply bind_total.
  - apply IH. intros y Hy. apply Hl; right; exact Hy.
  - intros [l' r''] _. discriminate.
Qed.

Lemma convert_each_total (name : string) (a : fields) (refs : list json) :
  In name child_keys -> convert_each recurse name schema a refs <> OutOfFuel.
Proof.
  intros Hn. unfold convert_each.
  destruct (truthy (get schema name)) eqn:Ht; [|discriminate].
  pose proof (child_height schema name Hn Ht) as Hh.
  pose proof (child_refs schema name) as Hr.
  apply bind_total; [|intros [c r] _; discriminate].
  unfold map_method. destruct (get schema name) as [| | | |s|l|m]; try discriminate.
  apply bind_total; [|intros [l' r'] _; discriminate].
  apply map_convert_total. intros x Hx. split.
  - pose proof (height_elem l x Hx). lia.
  - eapply incl_tran; [apply refs_elem; exact Hx | exact Hr].
Qed.

Lemma convert_one_total (name : string) (a : fields) (refs : list json) :
  In name child_keys -> truthy (get schema name) = true ->
  convert_one recurse name schema a refs <> OutOfFuel.
Proof.
  intros Hn Ht. unfold convert_one.
  apply bind_total; [|intros [c r] _; discriminate].
  apply recurse_total; [apply child_height; assumption | apply child_refs].
Qed.

Lemma convert_keys_total (name : string) (a : fields) (refs : list json) :
  In name child_keys -> truthy (get schema name) = true ->
  convert_keys recurse name schema a refs <> OutOfFuel.
Proof.
  intros Hn Ht. unfold convert_keys.
  pose proof (child_height schema name Hn Ht) as Hh.
  apply fold_left_fuel; [|discriminate].
  intros acc key _ Hacc. apply bind_total; [exact Hacc|]. intros [a0 r0] _.
  apply bind_total.
  - apply recurse_total.
    + pose proof (height_get (get schema name) key). lia.
    + eapply incl_tran; [apply refs_get | apply child_refs].
  - intros [c r] _. apply bind_total; [|intros; discriminate].
    destruct (obj_get a0 name); simpl; try discriminate.
    destruct (index_of_key key); discriminate.
Qed.

Lemma convert_children_total (a : fields) (refs : list json) :
  convert_children recurse schema a refs <> OutOfFuel.
Proof.
  unfold convert_children.
  repeat (apply bind_total; [|intros [? ?] _]);
    repeat match goal with
           | |- (if ?c then _ else _) <> OutOfFuel => destruct c eqn:?
           end;
    try discriminate;
    try (apply convert_each_total; simpl; tauto);
    try (apply convert_keys_total; [simpl; tauto | assumption]);
    try (apply convert_one_total; [simpl; tauto|]);
    try assumption;
    match goal with
    | H : _ && _ = true |- _ => apply andb_true_iff in H; destruct H; assumption
    end.
Qed.

End ConverterTotality.

Section ConvertSubSchemaTotality.

Variable swagger : json.
Variable universe : list string.
Variable bound : nat.
Hypothesis swagger_refs : incl (refs_of swagger) universe.
Hypothesis swagger_height : height swagger <= bound.

Lemma convertSubSchema_enough_fuel (fuel : nat) :
  forall (schema : json) (refs : list json),
    incl (refs_of schema) universe ->
    height schema <= bound ->
    List.length universe * (bound + 2) + bound + 1 + height schema < fuel ->
    convertSubSchema fuel schema refs swagger <> OutOfFuel.
Proof.
  induction fuel as [|fuel IH]; intros schema refs Hr Hh Hf; [lia|].
  cbn [convertSubSchema].
  apply bind_total; [destruct schema; discriminate|].
  intros ref _. destruct (truthy ref); [discriminate|].
  apply bind_total.
  { destruct (truthy (get schema "example")); [|discriminate].
    apply bind_total; [|intros; discriminate].
    apply dereference_enough_fuel with (universe := universe) (bound := bound);
      try assumption.
    - eapply incl_tran; [apply refs_get | exact Hr].
    - pose proof (height_get schema "example"). lia.
    - pose proof (height_get schema "example").
      pose proof (unblocked_bound universe None None). nia. }
  intros a1 _. apply bind_total.
  { destruct (truthy (get schema "x-nullable")); [|discriminate].
    unfold nullable.
    repeat match goal with
           | |- context [if ?c then _ else _] => destruct c
           | |- context [match ?x with _ => _ end] => destruct x
           end; discriminate. }
  intros a2 _. apply bind_total; [|intros [a3 r3] _; discriminate].
  apply convert_children_total. intros c r Hc Hrc. apply IH.
  - eapply incl_tran; [exact Hrc | exact Hr].
  - lia.
  - lia.
Qed.

End ConvertSubSchemaTotality.

(** Fuel that lets [convertSubSchema schema _ swagger] run to its end. *)
Lemma convertSubSchema_total (schema : json) (refs : list json) (swagger : json) (k : nat) :
  convertSubSchema (convertSubSchema_fuel schema swagger + k) schema refs swagger
  <> OutOfFuel.
Proof.
  apply convertSubSchema_enough_fuel
    with (universe := refs_of swagger ++ refs_of schema)
         (bound := Nat.max (height swagger) (height schema)).
  - apply incl_appl, incl_refl.
  - lia.
  - apply incl_appr, incl_refl.
  - lia.
  - unfold convertSubSchema_fuel. lia.
Qed.

Section ScannerTotality.

Variable find : json -> outcome (list json).
Variable schema : json.
Hypothesis find_total : forall c, height c < height schema -> find c <> OutOfFuel.

Lemma find_each_total (name : string) (refs : list json) :
  In name child_keys -> truthy (get schema name) = true ->
  find_each find (get schema name) refs <> OutOfFuel.
Proof.
  intros Hn Ht. pose proof (child_height schema name Hn Ht) as Hh.
  unfold find_each. destruct (get schema name) as [| | | |s|l|m]; try discriminate.
  apply bind_total; [|intros; discriminate].
  apply mapM_fuel. intros x Hx. apply find_total.
  pose proof (height_elem l x Hx). lia.
Qed.

Lemma find_one_total (name : string) :
  In name child_keys -> truthy (get schema name) = true ->
  find (get schema name) <> OutOfFuel.
Proof. intros Hn Ht. apply find_total. apply child_height; assumption. Qed.

Lemma find_keys_total (name : string) (refs : list json) :
  In name child_keys -> truthy (get schema name) = true ->
  find_keys find (get schema name) refs <> OutOfFuel.
Proof.
  intros Hn Ht. pose proof (child_height schema name Hn Ht) as Hh.
  unfold find_keys. apply fold_left_fuel; [|discriminate].
  intros acc key _ Hacc. apply bind_total; [exact Hacc|]. intros r _.
  apply bind_total; [|intros; discriminate].
  apply find_total. pose proof (height_get (get schema name) key). lia.
Qed.

Lemma find_children_total : find_children find schema <> OutOfFuel.
Proof.
  unfold find_children.
  repeat (apply bind_total; [|intros ? _]);
    repeat match goal with
           | |- (if ?c then _ else _) <> OutOfFuel => destruct c eqn:?
           end;
    try discriminate;
    try (apply find_each_total; [simpl; tauto | assumption]);
    try (apply find_keys_total; [simpl; tauto | assumption]);
    (apply bind_total; [|intros; discriminate]);
    (apply find_one_total; [simpl; tauto|]);
    try assumption;
    match goal with
    | H : _ && _ = true |- _ => apply andb_true_iff in H; destruct H; assumption
    end.
Qed.

End ScannerTotality.

Lemma findReferences_enough_fuel (fuel : nat) (schema : json) :
  height schema < fuel -> findReferences fuel schema <> OutOfFuel.
Proof.
  revert schema. induction fuel as [|fuel IH]; intros schema Hf; [lia|].
  cbn [findReferences].
  apply bind_total; [destruct schema; discriminate|].
  intros ref _. destruct (truthy ref); [discriminate|].
  apply find_children_total. intros c Hc. apply IH. lia.
Qed.

Lemma values_arr_entries (l : list json) (i : nat) : map snd (arr_entries l i) = l.
Proof.
  revert i; induction l as [|x l IH]; intros i; simpl; [reflexivity|].
  rewrite IH. reflexivity.
Qed.

Lemma value_height (schema value : json) :
  In value (object_values schema) -> typeof_object value = true ->
  height value < height schema.
Proof.
  unfold object_values. destruct schema as [| | | |s|l|m]; simpl; try contradiction.
  - intros Hin Ht. exfalso. revert Hin. generalize 0.
    induction s as [|c s IH]; intros i; simpl; [tauto|].
    intros [<-|Hin]; [discriminate | exact (IH _ Hin)].
  - rewrite values_arr_entries. intros Hin _. apply (height_elem l value Hin).
  - intros Hin _. apply in_map_iff in Hin. destruct Hin as [kv [<- Hin]].
    apply (height_field m kv Hin).
Qed.

Lemma checkSchemaHasReferences_enough_fuel (fuel : nat) (schema : json) :
  height schema < fuel -> checkSchemaHasReferences fuel schema <> OutOfFuel.
Proof.
  revert schema. induction fuel as [|fuel IH]; intros schema Hf; [lia|].
  cbn [checkSchemaHasReferences].
  apply bind_total; [destruct schema; discriminate|].
  intros ref _. destruct (truthy ref); [discriminate|].
  apply someM_total. intros value Hv.
  destruct value as [| | | |s|l|m]; try discriminate.
  - pose proof (value_height schema (JArr l) Hv eq_refl) as Hh.
    apply someM_total. intros x Hx. apply IH.
    pose proof (height_elem l x Hx). lia.
  - pose proof (value_height schema (JObj m) Hv eq_refl) as Hh.
    apply IH. lia.
Qed.

(** ** Convergence *)

Lemma settles_unique {A : Type} (c : nat -> outcome A) (r r' : outcome A) :
  settles c r -> settles c r' -> r = r'.
Proof.
  intros [_ [N H]] [_ [N' H']].
  rewrite <- (H N'), <- (H' N). f_equal. lia.
Qed.

Lemma settles_mono {A : Type} (c : nat -> outcome A) (N : nat) :
  (forall n n', n <= n' -> approx (c n) (c n')) ->
  c N <> OutOfFuel -> settles c (c N).
Proof.
  intros Hm Hn. split; [exact Hn|]. exists N. intros k.
  apply approx_eq; [apply Hm; lia | exact Hn].
Qed.

Lemma settles_at {A : Type} (c : nat -> outcome A) (r : outcome A) (n : nat) :
  (forall n n', n <= n' -> approx (c n) (c n')) ->
  settles c r -> c n <> OutOfFuel -> c n = r.
Proof.
  intros Hm [_ [N H]] Hn.
  rewrite <- (H n). symmetry. apply approx_eq; [apply Hm; lia | exact Hn].
Qed.

Lemma settles_bind {A B : Type} (c : nat -> outcome A) (k : nat -> A -> outcome B)
    (a : A) (r : outcome B) :
  settles c (Ret a) -> settles (fun n => k n a) r ->
  settles (fun n => bind (c n) (k n)) r.
Proof.
  intros [_ [N1 H1]] [Hr [N2 H2]]. split; [exact Hr|].
  exists (N1 + N2). intros j.
  replace (N1 + N2 + j) with (N1 + (N2 + j)) by lia. rewrite H1. simpl.
  replace (N1 + (N2 + j)) with (N2 + (N1 + j)) by lia. apply H2.
Qed.

Lemma settles_bind_throw {A B : Type} (c : nat -> outcome A)
    (k : nat -> A -> outcome B) (e : error) :
  settles c (Throw e) -> settles (fun n => bind (c n) (k n)) (Throw e).
Proof.
  intros [_ [N1 H1]]. split; [discriminate|].
  exists N1. intros j. rewrite H1. reflexivity.
Qed.

Lemma converges_bind {A B : Type} (c : nat -> outcome A) (k : nat -> A -> outcome B) :
  converges c -> (forall a, settles c (Ret a) -> converges (fun n => k n a)) ->
  converges (fun n => bind (c n) (k n)).
Proof.
  intros [r Hr] Hk. destruct r as [a|e|].
  - destruct (Hk a Hr) as [r' Hr']. exists r'. eapply settles_bind; eassumption.
  - exists (Throw e). apply settles_bind_throw; exact Hr.
  - destruct Hr as [Hr _]. contradiction.
Qed.

Lemma converges_const {A : Type} (r : outcome A) :
  r <> OutOfFuel -> converges (fun _ => r).
Proof. intros H. exists r. split; [exact H|]. exists 0. reflexivity. Qed.

Lemma converges_mono {A : Type} (c : nat -> outcome A) (N : nat) :
  (forall n n', n <= n' -> approx (c n) (c n')) ->
  c N <> OutOfFuel -> converges c.
Proof. intros Hm Hn. exists (c N). apply settles_mono; assumption. Qed.

(** ** DefinitionClosureBuilder: the loop terminates *)

Lemma pop_spec {A : Type} (l : list A) (x : A) (rest : list A) :
  pop l = Some (x, rest) -> l = rest ++ [x].
Proof.
  unfold pop. destruct (rev l) as [|y r] eqn:E; [discriminate|].
  intros H. injection H as <- <-.
  rewrite <- (rev_involutive l), E. reflexivity.
Qed.

Lemma pop_nil {A : Type} (l : list A) : pop l = None -> l = [].
Proof.
  unfold pop. destruct (rev l) as [|y r] eqn:E; [|discriminate].
  intros _. rewrite <- (rev_involutive l), E. reflexivity.
Qed.

Lemma pop_snoc {A : Type} (l : list A) (x : A) : pop (l ++ [x]) = Some (x, l).
Proof. unfold pop. rewrite rev_app_distr. simpl. rewrite rev_involutive. reflexivity. Qed.

Lemma obj_get_in_keys (m : fields) (k : string) :
  obj_get m k <> JUndef -> In k (map fst m).
Proof.
  induction m as [|[k' v] m IH]; simpl; [intros H; contradiction|].
  destruct (k' =? k) eqn:E.
  - apply String.eqb_eq in E. intros _. left; exact E.
  - intros H. right. apply IH; exact H.
Qed.

Lemma get_in_own_keys (v : json) (k : string) :
  get v k <> JUndef -> In k (own_keys v).
Proof.
  unfold own_keys, object_keys. destruct (k =? "length") eqn:E.
  - apply String.eqb_eq in E. intros _. left. symmetry; exact E.
  - rewrite <- (obj_get_entries v k E). intros H. right.
    apply obj_get_in_keys; exact H.
Qed.

Lemma lookupReference_depth3_key (r root : json) (id : option string) (referenced : json) :
  lookupReference r root (Some 3%Z) = Ret (id, referenced) ->
  In (key_of_id id) (definition_keys root)
  /\ referenced <> JUndef
  /\ height referenced <= height root
  /\ incl (refs_of referenced) (refs_of root).
Proof.
  intros H. destruct r as [| | | |s| |]; try discriminate.
  pose proof (lookupReference_id _ _ _ _ _ H) as [_ Hu].
  pose proof (lookupReference_reach _ _ _ _ _ H) as [Hh Hr].
  split; [|split; [exact Hu | split; [exact Hh | exact Hr]]].
  unfold lookupReference in H.
  destruct (split slash s) as [|first [|second parts]]; try discriminate;
    destruct (negb (first =? "#")); try discriminate.
  destruct (negb (second =? "definitions")); try discriminate.
  inv_bind H. inv_bind H. destruct (is_undef a0) eqn:Eu; [discriminate|]. inv_ret H.
  apply prop_ret_inv in Hstep. destruct Hstep as [-> _].
  destruct parts as [|i rest]; simpl; [left; reflexivity|].
  right. simpl in Hstep0.
  destruct (is_undef (get root "definitions")) eqn:Ed.
  - inv_ret Hstep0. rewrite Ed in Eu. discriminate.
  - inv_bind Hstep0. apply prop_ret_inv in Hstep. destruct Hstep as [-> _].
    simpl in Hstep0. inv_ret Hstep0.
    apply get_in_own_keys. intros E. rewrite E in Eu. discriminate.
Qed.

Lemma copy_loop_terminates (root : json) (fuel : nat) :
  height root < fuel ->
  forall (n : nat) (definitions : fields),
    count_unset (is_set definitions) (definition_keys root) = n ->
    forall (len : nat) (references : list json),
      List.length references = len ->
      exists steps, copy_loop steps fuel references definitions root <> OutOfFuel.
Proof.
  intros Hfuel n. induction n as [n IHn] using lt_wf_ind.
  intros definitions Hn len. induction len as [len IHlen] using lt_wf_ind.
  intros references Hlen.
  destruct (pop references) as [[r rest]|] eqn:Ep.
  - pose proof (pop_spec _ _ _ Ep) as ->.
    rewrite length_app in Hlen. simpl in Hlen.
    destruct (lookupReference r root (Some 3%Z)) as [[id referenced]|e|] eqn:El.
    + destruct (lookupReference_depth3_key _ _ _ _ El) as [Hk [Hu [Hh _]]].
      destruct (is_undef (obj_get definitions (key_of_id id))) eqn:Eu.
      * destruct (findReferences fuel referenced) as [found|e|] eqn:Ef.
        -- assert (Hlt : count_unset
                           (is_set (obj_set (key_of_id id) referenced definitions))
                           (definition_keys root) < n).
           { subst n. apply count_unset_lt with (x0 := key_of_id id).
             - intros k. unfold is_set. rewrite obj_get_set.
               destruct (key_of_id id =? k); [|tauto].
               intros _. destruct referenced; try reflexivity. contradiction.
             - exact Hk.
             - unfold is_set. rewrite Eu. reflexivity.
             - unfold is_set. rewrite obj_get_set_same.
               destruct referenced; try reflexivity. contradiction. }
           destruct (IHn _ Hlt _ eq_refl _ (rest ++ found) eq_refl) as [steps Hs].
           exists (S steps). cbn [copy_loop]. rewrite Ep, El. simpl.
           rewrite Eu, Ef. simpl. exact Hs.
        -- exists 1. cbn [copy_loop]. rewrite Ep, El. simpl. rewrite Eu, Ef. discriminate.
        -- exfalso. apply (findReferences_enough_fuel fuel referenced); [lia | exact Ef].
      * assert (Hl : List.length rest < len) by lia.
        destruct (IHlen _ Hl rest eq_refl) as [steps Hs].
        exists (S steps). cbn [copy_loop]. rewrite Ep, El. simpl. rewrite Eu. exact Hs.
    + exists 1. cbn [copy_loop]. rewrite Ep, El. discriminate.
    + exfalso. exact (lookupReference_total _ _ _ El).
  - exists 1. cbn [copy_loop]. rewrite Ep. discriminate.
Qed.

Lemma copy_loop_converges (references : list json) (definitions : fields) (root : json) :
  converges (fun n => copy_loop n n references definitions root).
Proof.
  destruct (copy_loop_terminates root (S (height root)) (Nat.lt_succ_diag_r _)
              _ definitions eq_refl _ references eq_refl) as [steps Hs].
  apply converges_mono with (N := Nat.max steps (S (height root))).
  - intros n n' Hle. apply copy_loop_mono; exact Hle.
  - intros H. apply Hs.
    destruct (copy_loop_mono steps (Nat.max steps (S (height root)))
                (S (height root)) (Nat.max steps (S (height root)))
                ltac:(lia) ltac:(lia) references definitions root) as [E|E].
    + exact E.
    + rewrite E. exact H.
Qed.

Lemma convertSubSchema_converges (schema : json) (refs : list json) (swagger : json) :
  converges (fun n => convertSubSchema n schema refs swagger).
Proof.
  apply converges_mono with (N := convertSubSchema_fuel schema swagger + 0).
  - intros n n' Hle. apply convertSubSchema_mono; exact Hle.
  - apply convertSubSchema_total.
Qed.

Lemma checkSchemaHasReferences_converges (schema : json) :
  converges (fun n => checkSchemaHasReferences n schema).
Proof.
  apply converges_mono with (N := S (height schema)).
  - intros n n' Hle. apply checkSchemaHasReferences_mono; exact Hle.
  - apply checkSchemaHasReferences_enough_fuel. lia.
Qed.

(** [convertSchema] terminates on every input: with enough fuel it returns
    or throws, and more fuel gives the same outcome. *)
Lemma convertSchema_converges (schema root swagger : json) (copyDefinitions : bool) :
  converges (fun n => convertSchema n schema root swagger copyDefinitions).
Proof.
  unfold convertSchema.
  apply converges_bind; [apply convertSubSchema_converges|].
  intros [result refs] _.
  apply (converges_bind
           (fun n => if copyDefinitions
                     then match refs with
                          | [] => Ret result
                          | _ :: _ =>
                              definitions <- copy_loop n n refs [] root ;;
                              set_prop result "definitions" (JObj definitions)
                          end
                     else Ret result)).
  - destruct copyDefinitions; [|apply converges_const; discriminate].
    destruct refs as [|r refs]; [apply converges_const; discriminate|].
    apply (converges_bind (fun n => copy_loop n n (r :: refs) [] root)
             (fun _ definitions => set_prop result "definitions" (JObj definitions))).
    + apply copy_loop_converges.
    + intros defs _. apply converges_const. destruct result; discriminate.
  - intros result' _.
    destruct (truthy (get result' "$ref") && copyDefinitions);
      [|apply converges_const; discriminate].
    apply (converges_bind (fun _ => lookupReference (get result' "$ref") root None)).
    + apply converges_const. apply lookupReference_total.
    + intros [id x] _.
      apply (converges_bind (fun _ => prop (get result' "definitions") (key_of_id id))).
      * apply converges_const. destruct (get result' "definitions"); discriminate.
      * intros definition _.
        apply (converges_bind (fun n => checkSchemaHasReferences n definition)
                 (fun _ hasReferences =>
                    if negb hasReferences then Ret definition
                    else Ret (allOf_wrapper (get result' "$ref")
                                (get result' "definitions")))).
        -- apply checkSchemaHasReferences_converges.
        -- intros b _. apply converges_const. destruct b; discriminate.
Qed.

(** ** SchemaNodeConverter: what each step leaves in the node *)


Lemma obj_get_has (m : fields) (k : string) :
  obj_get m k <> JUndef -> obj_has m k = true.
Proof.
  induction m as [|[k0 v0] m IH]; simpl; [intros H; contradiction|].
  destruct (k0 =? k); simpl; [reflexivity | exact IH].
Qed.

Lemma obj_has_in_keys (m : fields) (k : string) :
  In k (map fst m) -> obj_has m k = true.
Proof.
  induction m as [|[k0 v0] m IH]; simpl; [contradiction|].
  intros [->|H]; [rewrite String.eqb_refl; reflexivity|].
  rewrite (IH H). apply orb_true_r.
Qed.

Lemma obj_replace_keys (k : string) (v : json) (m : fields) :
  map fst (obj_replace k v m) = map fst m.
Proof.
  induction m as [|[k0 v0] m IH]; simpl; [reflexivity|].
  destruct (k0 =? k); simpl; [reflexivity | rewrite IH; reflexivity].
Qed.

(** Writing to a property an object has keeps the enumeration order. *)
Lemma obj_set_keys (k : string) (v : json) (m : fields) :
  obj_has m k = true -> map fst (obj_set k v m) = map fst m.
Proof. intros H. unfold obj_set. rewrite H. apply obj_replace_keys. Qed.

Section ConverterSteps.

Variable recurse : converter.
Hypothesis recurse_growing : growing recurse.

Lemma converted_weaken (lo lo' hi hi' : list json) (c c' : json) :
  incl lo' lo -> incl hi hi' ->
  converted recurse lo hi c c' -> converted recurse lo' hi' c c'.
Proof.
  intros Hlo Hhi [r0 [r0' [H [H1 H2]]]]. exists r0, r0'.
  split; [exact H|]. split; eapply incl_tran; eassumption.
Qed.

Lemma map_convert_spec (l : list json) (refs : list json) (l' : list json)
    (refs' : list json) :
  map_convert recurse l refs = Ret (l', refs') ->
  incl refs refs' /\ Forall2 (converted recurse refs refs') l l'.
Proof.
  revert refs l' refs'. induction l as [|x l IH]; intros refs l' refs'; simpl.
  - intros H; inv_ret H. split; [apply incl_refl | constructor].
  - intros H. inv_bind H. destruct a as [x' r1].
    inv_bind H. destruct a as [l1 r2]. inv_ret H.
    pose proof (recurse_growing _ _ _ _ Hstep) as G1.
    destruct (IH _ _ _ Hstep0) as [G2 F].
    split; [eapply incl_tran; eassumption|].
    constructor.
    + exists refs, r1. split; [exact Hstep|]. split; [apply incl_refl | exact G2].
    + eapply Forall2_impl; [|exact F].
      intros c c'. apply converted_weaken; [exact G1 | apply incl_refl].
Qed.

Lemma convert_each_spec (name : string) (schema : json) (a : fields)
    (refs : list json) (a' : fields) (refs' : list json) :
  convert_each recurse name schema a refs = Ret (a', refs') ->
  incl refs refs'
  /\ (if truthy (get schema name)
      then exists l l', get schema name = JArr l /\ obj_get a' name = JArr l'
                        /\ a' = obj_set name (JArr l') a
                        /\ Forall2 (converted recurse refs refs') l l'
      else a' = a /\ refs' = refs).
Proof.
  unfold convert_each. destruct (truthy (get schema name)).
  - intros H. inv_bind H. destruct a0 as [c r]. inv_ret H.
    unfold map_method in Hstep.
    destruct (get schema name) as [| | | |s|l|m]; try discriminate.
    inv_bind Hstep. destruct a0 as [l' r']. inv_ret Hstep.
    destruct (map_convert_spec _ _ _ _ Hstep0) as [G F].
    split; [exact G|]. exists l, l'.
    split; [reflexivity|]. split; [apply obj_get_set_same|].
    split; [reflexivity | exact F].
  - intros H. inv_ret H. split; [apply incl_refl | split; reflexivity].
Qed.

Lemma convert_one_spec (name : string) (schema : json) (a : fields)
    (refs : list json) (a' : fields) (refs' : list json) :
  convert_one recurse name schema a refs = Ret (a', refs') ->
  incl refs refs'
  /\ exists c', a' = obj_set name c' a
                /\ converted recurse refs refs' (get schema name) c'.
Proof.
  unfold convert_one. intros H. inv_bind H. destruct a0 as [c r]. inv_ret H.
  split; [exact (recurse_growing _ _ _ _ Hstep)|].
  exists c. split; [reflexivity|].
  exists refs, refs'. split; [exact Hstep|]. split; apply incl_refl.
Qed.

(** The loop over the keys of an object [p]: [keys] are the keys still to
    visit, [p0] is the target as the visited keys left it. *)
Lemma convert_keys_fold (name : string) (p : fields) (keys : list string) :
  forall (a : fields) (refs : list json) (p0 : fields) (a' : fields) (refs' : list json),
    obj_get a name = JObj p0 ->
    fold_left
      (fun (acc : outcome (fields * list json)) (key : string) =>
         '(actualSchema, references) <- acc ;;
         '(converted, references) <- recurse (obj_get p key) references ;;
         target <- set_prop (obj_get actualSchema name) key converted ;;
         Ret (obj_set name target actualSchema, references))
      keys (Ret (a, refs)) = Ret (a', refs') ->
    incl refs refs'
    /\ exists p', obj_get a' name = JObj p'
                  /\ (forall key, In key keys ->
                        converted recurse refs refs' (obj_get p key) (obj_get p' key))
                  /\ (forall key, ~ In key keys -> obj_get p' key = obj_get p0 key)
                  /\ (forall k, name <> k -> obj_get a' k = obj_get a k)
                  /\ map fst a' = map fst a
                  /\ (incl keys (map fst p0) -> map fst p' = map fst p0).
Proof.
  induction keys as [|key keys IH]; intros a refs p0 a' refs' Hp0 H; simpl in H.
  - inv_ret H. split; [apply incl_refl|]. exists p0.
    split; [exact Hp0|]. split; [intros key []|].
    repeat split; reflexivity.
  - destruct (recurse (obj_get p key) refs) as [[c r1]| |] eqn:Er; simpl in H;
      try (exfalso; clear -H; induction keys as [|x xs IHx]; simpl in H;
           [discriminate | apply IHx; exact H]).
    rewrite Hp0 in H. simpl in H.
    pose proof (recurse_growing _ _ _ _ Er) as G1.
    apply IH with (p0 := obj_set key c p0) in H; [|apply obj_get_set_same].
    destruct H as [G2 [p' [Ep' [Hk [Hn [Ho [Ha Hp]]]]]]].
    split; [eapply incl_tran; eassumption|]. exists p'.
    split; [exact Ep'|].
    split; [|split; [|split; [|split]]].
    + intros k [<-|Hin].
      * destruct (in_dec string_dec key keys) as [Hin|Hnin].
        -- apply converted_weaken with (lo := r1) (hi := refs');
             [exact G1 | apply incl_refl | apply Hk; exact Hin].
        -- rewrite (Hn key Hnin), obj_get_set_same.
           exists refs, r1. split; [exact Er|]. split; [apply incl_refl | exact G2].
      * apply converted_weaken with (lo := r1) (hi := refs');
          [exact G1 | apply incl_refl | apply Hk; exact Hin].
    + intros k Hnin. rewrite Hn by (intros Hin; apply Hnin; right; exact Hin).
      apply obj_get_set_other. intros ->. apply Hnin; left; reflexivity.
    + intros k Hk'. rewrite (Ho k Hk'). apply obj_get_set_other; exact Hk'.
    + rewrite Ha. apply obj_set_keys. apply obj_get_has. rewrite Hp0. discriminate.
    + intros Hincl.
      assert (Hkey : obj_has p0 key = true)
        by (apply obj_has_in_keys, Hincl; left; reflexivity).
      rewrite Hp.
      * apply obj_set_keys; exact Hkey.
      * rewrite (obj_set_keys _ _ _ Hkey).
        intros k Hin. apply Hincl. right; exact Hin.
Qed.

Lemma convert_keys_spec (name : string) (schema : json) (p : fields) (a : fields)
    (refs : list json) (a' : fields) (refs' : list json) :
  get schema name = JObj p -> obj_get a name = JObj p ->
  convert_keys recurse name schema a refs = Ret (a', refs') ->
  incl refs refs'
  /\ exists p', obj_get a' name = JObj p'
                /\ (forall key, In key (map fst p) ->
                      converted recurse refs refs' (obj_get p key) (obj_get p' key))
                /\ (forall key, ~ In key (map fst p) -> obj_get p' key = JUndef)
                /\ (forall k, name <> k -> obj_get a' k = obj_get a k)
                /\ map fst a' = map fst a
                /\ map fst p' = map fst p.
Proof.
  intros Hs Ha H. unfold convert_keys in H. rewrite Hs in H.
  unfold object_keys in H. simpl in H.
  destruct (convert_keys_fold name p (map fst p) a refs p a' refs' Ha H)
    as [G [p' [Ep' [Hk [Hn [Ho [Hka Hkp]]]]]]].
  split; [exact G|]. exists p'.
  split; [exact Ep'|]. split; [exact Hk|].
  split; [|split; [exact Ho | split; [exact Hka | apply Hkp, incl_refl]]].
  intros key Hnin. rewrite (Hn key Hnin).
  destruct (obj_get p key) eqn:E; try reflexivity;
    exfalso; apply Hnin; apply obj_get_in_keys; rewrite E; discriminate.
Qed.

End ConverterSteps.

Lemma bind_ext {A B : Type} (c : outcome A) (k k' : A -> outcome B) :
  (forall a, k a = k' a) -> bind c k = bind c k'.
Proof. intros H. destruct c; simpl; [apply H | reflexivity | reflexivity]. Qed.

Lemma bind_ret_pair {A B : Type} (c : outcome (A * B)) :
  bind c (fun x => match x with (a, b) => Ret (a, b) end) = c.
Proof. destruct c as [[a b]| |]; reflexivity. Qed.

(** [convert_children] is the sequence of its nine steps. *)
Lemma convert_children_run (recurse : converter) (schema : json) (a : fields)
    (refs : list json) :
  convert_children recurse schema a refs
  = run_steps (map (child_step recurse schema) child_keys) a refs.
Proof.
  unfold convert_children, child_keys. cbn [map run_steps].
  do 8 (apply bind_ext; intros [? ?]).
  symmetry. apply bind_ret_pair.
Qed.

Section ChildSteps.

Variable recurse : converter.
Variable schema : json.
Hypothesis recurse_growing : growing recurse.

Lemma child_step_keeps (name k : string) (a : fields) (refs : list json)
    (a' : fields) (refs' : list json) :
  child_step recurse schema name a refs = Ret (a', refs') ->
  name <> k -> obj_get a' k = obj_get a k.
Proof.
  unfold child_step. intros H Hk.
  repeat match type of H with
         | (if ?c then _ else _) = _ => destruct c eqn:?
         end;
    try (injection H as <- <-; reflexivity);
    try (eapply convert_each_keeps; eassumption);
    try (eapply convert_one_keeps; eassumption);
    try (eapply convert_keys_keeps; eassumption);
    match goal with
    | E : (name =? ?n) = true |- _ => apply String.eqb_eq in E; subst name
    end;
    first [ eapply convert_each_keeps; eassumption
          | eapply convert_one_keeps; eassumption ].
Qed.

Lemma child_step_growing (name : string) (a : fields) (refs : list json)
    (a' : fields) (refs' : list json) :
  child_step recurse schema name a refs = Ret (a', refs') -> incl refs refs'.
Proof.
  unfold child_step. intros H.
  repeat match type of H with
         | (if ?c then _ else _) = _ => destruct c eqn:?
         end;
    try (injection H as <- <-; apply incl_refl);
    try (eapply convert_each_spec; eassumption);
    try (eapply convert_one_spec; eassumption).
  unfold convert_keys in H.
  revert a refs H. induction (object_keys (get schema name)) as [|key keys IH];
    intros a refs H; simpl in H.
  - inv_ret H. apply incl_refl.
  - destruct (recurse (get (get schema name) key) refs) as [[c r1]| |] eqn:Er;
      simpl in H;
      try (exfalso; clear -H; induction keys as [|x xs IHx]; simpl in H;
           [discriminate | apply IHx; exact H]).
    destruct (set_prop (obj_get a name) key c) as [t| |]; simpl in H;
      try (exfalso; clear -H; induction keys as [|x xs IHx]; simpl in H;
           [discriminate | apply IHx; exact H]).
    apply IH in H. eapply incl_tran; [|exact H].
    exact (recurse_growing _ _ _ _ Er).
Qed.

Lemma run_steps_rest (names : list string) (name : string) :
  forall b rb b' rb',
    run_steps (map (child_step recurse schema) names) b rb = Ret (b', rb') ->
    incl rb rb' /\ (~ In name names -> obj_get b' name = obj_get b name).
Proof.
  induction names as [|m ms IHm]; intros b rb b' rb' Hr; cbn [map run_steps] in Hr.
  - inv_ret Hr. split; [apply incl_refl | reflexivity].
  - inv_bind Hr. destruct a as [b1 rb1].
    destruct (IHm _ _ _ _ Hr) as [G K].
    split.
    + eapply incl_tran; [eapply child_step_growing; eassumption | exact G].
    + intros Hni. rewrite K by (intros Hi; apply Hni; right; exact Hi).
      eapply child_step_keeps; [eassumption|].
      intros ->. apply Hni; left; reflexivity.
Qed.

(** In a run of the steps for distinct keywords, the step for [name] finds
    what the node held under [name] at the start, and what it leaves there
    is there at the end. *)
Lemma run_steps_at (names : list string) (name : string) :
  NoDup names -> In name names ->
  forall a refs a' refs',
    run_steps (map (child_step recurse schema) names) a refs = Ret (a', refs') ->
    exists a1 r1 a2 r2,
      child_step recurse schema name a1 r1 = Ret (a2, r2)
      /\ obj_get a1 name = obj_get a name
      /\ obj_get a' name = obj_get a2 name
      /\ incl refs r1 /\ incl r2 refs'.
Proof.
  induction names as [|n names IH]; intros Hnd Hin a refs a' refs' H; [contradiction|].
  cbn [map run_steps] in H. inv_bind H. destruct a0 as [a1 r1].
  inversion Hnd as [|? ? Hn Hnd']; subst.
  pose proof (run_steps_rest names name) as Hrest.
  destruct Hin as [->|Hin].
  - exists a, refs, a1, r1.
    destruct (Hrest _ _ _ _ H) as [G K].
    split; [exact Hstep|]. split; [reflexivity|].
    split; [apply K; exact Hn|]. split; [apply incl_refl | exact G].
  - destruct (IH Hnd' Hin _ _ _ _ H) as [b1 [rb1 [b2 [rb2 [Hs [E1 [E2 [G1 G2]]]]]]]].
    exists b1, rb1, b2, rb2.
    split; [exact Hs|]. split.
    + rewrite E1. eapply child_step_keeps; [eassumption|].
      intros ->. contradiction.
    + split; [exact E2|]. split; [|exact G2].
      eapply incl_tran; [eapply child_step_growing; eassumption | exact G1].
Qed.

Hypothesis recurse_objects :
  forall s r s' r', recurse s r = Ret (s', r') -> exists o, s' = JObj o.

Lemma Forall2_in_right {A B : Type} (R : A -> B -> Prop) (l : list A) (l' : list B)
    (y : B) :
  Forall2 R l l' -> In y l' -> exists x, In x l /\ R x y.
Proof.
  induction 1 as [|x y' l l' Hxy _ IH]; simpl; [contradiction|].
  intros [->|Hin].
  - exists x. split; [left; reflexivity | exact Hxy].
  - destruct (IH Hin) as [x0 [H0 H1]]. exists x0. split; [right; exact H0 | exact H1].
Qed.

Lemma Forall2_in_left {A B : Type} (R : A -> B -> Prop) (l : list A) (l' : list B)
    (x : A) :
  Forall2 R l l' -> In x l -> exists y, In y l' /\ R x y.
Proof.
  induction 1 as [|x' y l l' Hxy _ IH]; simpl; [contradiction|].
  intros [->|Hin].
  - exists y. split; [left; reflexivity | exact Hxy].
  - destruct (IH Hin) as [y0 [H0 H1]]. exists y0. split; [right; exact H0 | exact H1].
Qed.

(** A target that is no object is no object after the loop over the keys. *)
Lemma convert_keys_not_object (name : string) (a : fields) (refs : list json)
    (a' : fields) (refs' : list json) :
  convert_keys recurse name schema a refs = Ret (a', refs') ->
  (forall p, obj_get a name <> JObj p) ->
  forall p', obj_get a' name <> JObj p'.
Proof.
  unfold convert_keys. revert a refs.
  induction (object_keys (get schema name)) as [|key keys IH]; intros a refs H Hn;
    simpl in H.
  - inv_ret H. exact Hn.
  - destruct (recurse (get (get schema name) key) refs) as [[c r1]| |] eqn:Er;
      simpl in H;
      try (exfalso; clear -H; induction keys as [|x xs IHx]; simpl in H;
           [discriminate | apply IHx; exact H]).
    destruct (set_prop (obj_get a name) key c) as [t| |] eqn:Es; simpl in H;
      try (exfalso; clear -H; induction keys as [|x xs IHx]; simpl in H;
           [discriminate | apply IHx; exact H]).
    apply (IH _ _ H).
    intros p. rewrite obj_get_set_same.
    destruct (obj_get a name) as [| | | |s|l|m] eqn:Et; simpl in Es; try discriminate.
    + destruct (index_of_key key); [|discriminate]. inv_ret Es. discriminate.
    + exfalso. exact (Hn m eq_refl).
Qed.

(** After the step for [name], a child of the node under [name] is the
    conversion of a child of the schema under [name]. *)
Lemma child_step_origin (name : string) (a1 : fields) (r1 : list json)
    (a2 : fields) (r2 : list json) (c : json) :
  child_step recurse schema name a1 r1 = Ret (a2, r2) ->
  obj_get a1 name = get schema name ->
  schema_child name (JObj a2) c ->
  exists c0, schema_child name schema c0 /\ converted recurse r1 r2 c0 c.
Proof.
  intros Hs Ho Hc. inversion Hc as [n v l c' Hn Hg Hin|v Ht|v Ht Ha|n v Hn Ht Hty|n v p key Hn Hg Hin];
    subst; simpl get in *.
  - (* an element of an array *)
    assert (Hl : exists l0, get schema name = JArr l0
                            /\ Forall2 (converted recurse r1 r2) l0 l).
    { simpl in Hn. unfold child_step in Hs.
      repeat (destruct Hn as [<-|Hn]; [simpl in Hs|]); try contradiction.
      1-3: destruct (convert_each_spec recurse recurse_growing _ _ _ _ _ _ Hs) as [_ Hspec];
        match type of Hspec with
        | if truthy ?g then _ else _ =>
            destruct (truthy g) eqn:Et;
            [ destruct Hspec as [l0 [l' [E0 [E1 [_ F]]]]];
              rewrite Hg in E1; inv_ret E1; exists l0; split; [exact E0 | exact F]
            | destruct Hspec as [-> ->]; rewrite Ho in Hg; rewrite Hg in Et; discriminate ]
        end.
      destruct (truthy (get schema "items")) eqn:Et;
        [|inv_ret Hs; rewrite Ho in Hg; rewrite Hg in Et; discriminate].
      destruct (is_array (get schema "items")) eqn:Ea.
      - destruct (convert_each_spec recurse recurse_growing _ _ _ _ _ _ Hs) as [_ Hspec].
        rewrite Et in Hspec. destruct Hspec as [l0 [l' [E0 [E1 [_ F]]]]].
        rewrite Hg in E1; inv_ret E1. exists l0; split; [exact E0 | exact F].
      - destruct (convert_one_spec recurse recurse_growing _ _ _ _ _ _ Hs)
          as [_ [c' [-> [r0 [r0' [Hcall _]]]]]].
        rewrite obj_get_set_same in Hg. subst c'.
        destruct (recurse_objects _ _ _ _ Hcall) as [o Eo]. discriminate. }
    destruct Hl as [l0 [E0 F]].
    destruct (Forall2_in_right _ _ _ _ F Hin) as [c0 [Hin0 Hconv]].
    exists c0. split; [|exact Hconv].
    eapply child_each; eassumption.
  - (* not *)
    unfold child_step in Hs. simpl in Hs.
    destruct (truthy (get schema "not")) eqn:Et;
      [|inv_ret Hs; rewrite Ho in Ht; rewrite Ht in Et; discriminate].
    destruct (convert_one_spec recurse recurse_growing _ _ _ _ _ _ Hs)
      as [_ [c' [-> Hconv]]].
    rewrite obj_get_set_same. exists (get schema "not").
    split; [apply child_not; exact Et | exact Hconv].
  - (* a single items *)
    unfold child_step in Hs. simpl in Hs.
    destruct (truthy (get schema "items")) eqn:Et;
      [|inv_ret Hs; rewrite Ho in Ht; rewrite Ht in Et; discriminate].
    destruct (is_array (get schema "items")) eqn:Ea'.
    + destruct (convert_each_spec recurse recurse_growing _ _ _ _ _ _ Hs) as [_ Hspec].
      rewrite Et in Hspec. destruct Hspec as [l0 [l' [E0 [E1 _]]]].
      rewrite E1 in Ha. discriminate.
    + destruct (convert_one_spec recurse recurse_growing _ _ _ _ _ _ Hs)
        as [_ [c' [-> Hconv]]].
      rewrite obj_get_set_same. exists (get schema "items").
      split; [apply child_items; assumption | exact Hconv].
  - (* additionalItems, additionalProperties *)
    assert (Hstep : (if truthy (get schema name) && typeof_object (get schema name)
                     then convert_one recurse name schema a1 r1
                     else Ret (a1, r1)) = Ret (a2, r2)).
    { simpl in Hn. unfold child_step in Hs.
      repeat (destruct Hn as [<-|Hn]; [exact Hs|]). contradiction. }
    destruct (truthy (get schema name) && typeof_object (get schema name)) eqn:Ec.
    + destruct (convert_one_spec recurse recurse_growing _ _ _ _ _ _ Hstep)
        as [_ [c' [-> Hconv]]].
      rewrite obj_get_set_same. exists (get schema name).
      apply andb_true_iff in Ec. destruct Ec as [E1 E2].
      split; [apply child_additional; assumption | exact Hconv].
    + inv_ret Hstep. rewrite Ho in Ht, Hty. rewrite Ht, Hty in Ec. discriminate.
  - (* properties, patternProperties *)
    assert (Hstep : (if truthy (get schema name)
                     then convert_keys recurse name schema a1 r1
                     else Ret (a1, r1)) = Ret (a2, r2)).
    { simpl in Hn. unfold child_step in Hs.
      repeat (destruct Hn as [<-|Hn]; [exact Hs|]). contradiction. }
    destruct (truthy (get schema name)) eqn:Et;
      [|inv_ret Hstep; rewrite Ho in Hg; rewrite Hg in Et; discriminate].
    destruct (get schema name) as [| | | |s0|l0|p0] eqn:Eg;
      try (exfalso; eapply (convert_keys_not_object _ _ _ _ _ Hstep);
           [intros q; rewrite Ho; discriminate | exact Hg]).
    destruct (convert_keys_spec recurse recurse_growing name schema p0 _ _ _ _ Eg Ho Hstep)
      as [_ [p' [Ep' [Hk [_ [_ [_ Hkeys]]]]]]].
    rewrite Hg in Ep'. inv_ret Ep'. rewrite Hkeys in Hin.
    exists (obj_get p0 key). split; [|apply Hk; exact Hin].
    eapply child_property; eassumption.
Qed.

(** Every child of the schema under [name] is converted by the step for
    [name]. *)
Lemma child_step_covers (name : string) (a1 : fields) (r1 : list json)
    (a2 : fields) (r2 : list json) (c0 : json) :
  child_step recurse schema name a1 r1 = Ret (a2, r2) ->
  obj_get a1 name = get schema name ->
  schema_child name schema c0 ->
  exists c, converted recurse r1 r2 c0 c.
Proof.
  intros Hs Ho Hc. inversion Hc as [n v l c' Hn Hg Hin|v Ht|v Ht Ha|n v Hn Ht Hty|n v p key Hn Hg Hin];
    subst.
  - assert (Hl : exists l', Forall2 (converted recurse r1 r2) l l').
    { simpl in Hn. unfold child_step in Hs.
      repeat (destruct Hn as [<-|Hn]; [simpl in Hs|]); try contradiction.
      1-3: destruct (convert_each_spec recurse recurse_growing _ _ _ _ _ _ Hs) as [_ Hspec];
        rewrite Hg in Hspec; simpl in Hspec;
        destruct Hspec as [l0 [l' [E0 [_ [_ F]]]]]; inv_ret E0; exists l'; exact F.
      rewrite Hg in Hs. simpl in Hs.
      destruct (convert_each_spec recurse recurse_growing _ _ _ _ _ _ Hs) as [_ Hspec].
      rewrite Hg in Hspec; simpl in Hspec.
      destruct Hspec as [l0 [l' [E0 [_ [_ F]]]]]; inv_ret E0; exists l'; exact F. }
    destruct Hl as [l' F].
    destruct (Forall2_in_left _ _ _ _ F Hin) as [c [_ Hconv]]. exists c; exact Hconv.
  - unfold child_step in Hs. simpl in Hs. rewrite Ht in Hs.
    destruct (convert_one_spec recurse recurse_growing _ _ _ _ _ _ Hs)
      as [_ [c' [_ Hconv]]]. exists c'; exact Hconv.
  - unfold child_step in Hs. simpl in Hs. rewrite Ht, Ha in Hs.
    destruct (convert_one_spec recurse recurse_growing _ _ _ _ _ _ Hs)
      as [_ [c' [_ Hconv]]]. exists c'; exact Hconv.
  - assert (Hstep : convert_one recurse name schema a1 r1 = Ret (a2, r2)).
    { simpl in Hn. unfold child_step in Hs.
      repeat (destruct Hn as [<-|Hn]; [simpl in Hs; rewrite Ht, Hty in Hs; exact Hs|]).
      contradiction. }
    destruct (convert_one_spec recurse recurse_growing _ _ _ _ _ _ Hstep)
      as [_ [c' [_ Hconv]]]. exists c'; exact Hconv.
  - assert (Hstep : convert_keys recurse name schema a1 r1 = Ret (a2, r2)).
    { simpl in Hn. unfold child_step in Hs.
      repeat (destruct Hn as [<-|Hn]; [simpl in Hs; rewrite Hg in Hs; exact Hs|]).
      contradiction. }
    rewrite Hg in Ho.
    destruct (convert_keys_spec recurse recurse_growing name schema p _ _ _ _ Hg Ho Hstep)
      as [_ [p' [_ [Hk _]]]].
    exists (obj_get p' key). apply Hk; exact Hin.
Qed.

End ChildSteps.

(** ** SchemaNodeConverter: the references it records *)

Lemma convertSubSchema_objects (fuel : nat) (swagger : json) :
  forall s r s' r',
    convertSubSchema fuel s r swagger = Ret (s', r') -> exists o, s' = JObj o.
Proof.
  intros s r s' r' H. destruct (truthy (get s "$ref")) eqn:Et.
  - destruct (convertSubSchema_ref _ _ _ _ _ _ H Et) as [-> _]. eexists; reflexivity.
  - destruct (convertSubSchema_node _ _ _ _ _ _ H Et)
      as [f [a1 [a2 [a3 [_ [_ [_ [_ ->]]]]]]]]. eexists; reflexivity.
Qed.

Lemma convertSubSchema_growing (fuel : nat) (swagger : json) :
  growing (fun s r => convertSubSchema fuel s r swagger).
Proof.
  induction fuel as [|fuel IH]; intros s r s' r' H; [discriminate|].
  destruct (truthy (get s "$ref")) eqn:Et.
  - destruct (convertSubSchema_ref _ _ _ _ _ _ H Et) as [_ ->]. apply incl_appl, incl_refl.
  - destruct (convertSubSchema_node _ _ _ _ _ _ H Et)
      as [f [a1 [a2 [a3 [Ef [_ [_ [H3 _]]]]]]]].
    injection Ef as <-. rewrite convert_children_run in H3.
    exact (proj1 (run_steps_rest _ s IH child_keys "" _ _ _ _ H3)).
Qed.

(** Before the children are converted, the node holds under each of their
    keywords what the schema holds there. *)
Lemma children_untouched (schema : json) (a1 a2 : fields) (swagger : json) (f : nat)
    (name : string) :
  (if truthy (get schema "example")
   then exists d, dereference f (get schema "example") swagger None None = Ret d
                  /\ a1 = obj_set "examples" (JArr [d]) (strip_keys schema)
   else a1 = strip_keys schema) ->
  (if truthy (get schema "x-nullable") then nullable a1 = Ret a2 else a2 = a1) ->
  In name child_keys ->
  obj_get a2 name = get schema name.
Proof.
  intros H1 H2 Hn.
  assert (E2 : obj_get a2 name = obj_get a1 name).
  { destruct (truthy (get schema "x-nullable")); [|subst; reflexivity].
    apply (nullable_keeps _ _ _ H2);
      intros <-; simpl in Hn; repeat (destruct Hn as [Hn|Hn]; [discriminate|]);
      contradiction. }
  assert (E1 : obj_get a1 name = obj_get (strip_keys schema) name).
  { destruct (truthy (get schema "example")); [|subst; reflexivity].
    destruct H1 as [d [_ ->]]. apply obj_get_set_other.
    intros <-; simpl in Hn; repeat (destruct Hn as [Hn|Hn]; [discriminate|]);
      contradiction. }
  rewrite E2, E1, obj_get_strip_keys.
  simpl in Hn.
  repeat (destruct Hn as [<-|Hn];
          [rewrite andb_false_r; simpl; apply obj_get_entries; reflexivity|]).
  contradiction.
Qed.

Lemma child_keys_nodup : NoDup child_keys.
Proof.
  unfold child_keys.
  repeat (constructor; [simpl; intros H;
                        repeat (destruct H as [H|H]; [discriminate|]); exact H|]).
  constructor.
Qed.

Lemma schema_child_key (name : string) (v c : json) :
  schema_child name v c -> In name child_keys.
Proof.
  intros H; inversion H as [n ? ? ? Hn| | |n ? Hn|n ? ? ? Hn]; subst; simpl;
    try tauto; simpl in Hn; tauto.
Qed.

(** Every reference at a schema position of the converted node has been
    recorded. *)
Lemma convertSubSchema_records_result (fuel : nat) (swagger : json) :
  forall schema refs res refs',
    convertSubSchema fuel schema refs swagger = Ret (res, refs') ->
    forall r, schema_ref r res -> In r refs'.
Proof.
  induction fuel as [|fuel IH]; intros schema refs res refs' H r Hr; [discriminate|].
  destruct (truthy (get schema "$ref")) eqn:Et.
  - destruct (convertSubSchema_ref _ _ _ _ _ _ H Et) as [-> ->].
    inversion Hr as [v Ht E|v name c Ht]; subst.
    + simpl. apply in_or_app; right; left; reflexivity.
    + simpl in Ht. rewrite Et in Ht. discriminate.
  - pose proof H as Hfull.
    destruct (convertSubSchema_node _ _ _ _ _ _ H Et)
      as [f [a1 [a2 [a3 [Ef [H1 [H2 [H3 ->]]]]]]]].
    injection Ef as <-.
    inversion Hr as [v Ht E|v name c Ht Hc Hrc]; subst.
    + exfalso. simpl in Ht.
      rewrite (convertSubSchema_keeps _ _ _ _ _ _ "$ref" Hfull Et) in Ht.
      * simpl in Ht. rewrite obj_get_entries in Ht by reflexivity.
        rewrite Et in Ht. discriminate.
      * simpl. intros Hin. repeat (destruct Hin as [Hin|Hin]; [discriminate|]).
        exact Hin.
    + pose proof (schema_child_key _ _ _ Hc) as Hn.
      rewrite convert_children_run in H3.
      destruct (run_steps_at _ schema (convertSubSchema_growing fuel swagger)
                  child_keys name child_keys_nodup Hn _ _ _ _ H3)
        as [b1 [rb1 [b2 [rb2 [Hs [E1 [E2 [G1 G2]]]]]]]].
      assert (Hc' : schema_child name (JObj b2) c).
      { clear -Hc E2. inversion Hc; subst; simpl get in *.
        - eapply child_each; [eassumption| |eassumption]. simpl. rewrite <- E2. assumption.
        - rewrite E2. apply child_not. simpl. rewrite <- E2. assumption.
        - rewrite E2. apply child_items; simpl; rewrite <- E2; assumption.
        - rewrite E2. apply child_additional; [assumption| |]; simpl; rewrite <- E2;
            assumption.
        - eapply child_property; [eassumption| |eassumption]. simpl. rewrite <- E2.
          assumption. }
      destruct (child_step_origin _ schema (convertSubSchema_growing fuel swagger)
                  (convertSubSchema_objects fuel swagger) name _ _ _ _ c Hs)
        as [c0 [_ [r0 [r0' [Hcall [_ G3]]]]]]; [|exact Hc'|].
      * rewrite E1. eapply children_untouched; eassumption.
      * apply G2, G3. eapply IH; eassumption.
Qed.

(** Every reference at a schema position of the schema has been recorded. *)
Lemma convertSubSchema_records_input (fuel : nat) (swagger : json) :
  forall schema refs res refs',
    convertSubSchema fuel schema refs swagger = Ret (res, refs') ->
    forall r, schema_ref r schema -> In r refs'.
Proof.
  induction fuel as [|fuel IH]; intros schema refs res refs' H r Hr; [discriminate|].
  inversion Hr as [v Ht E|v name c Ht Hc Hrc]; subst.
  - destruct (convertSubSchema_ref _ _ _ _ _ _ H Ht) as [_ ->].
    apply in_or_app; right; left; reflexivity.
  - destruct (convertSubSchema_node _ _ _ _ _ _ H Ht)
      as [f [a1 [a2 [a3 [Ef [H1 [H2 [H3 ->]]]]]]]].
    injection Ef as <-.
    pose proof (schema_child_key _ _ _ Hc) as Hn.
    rewrite convert_children_run in H3.
    destruct (run_steps_at _ schema (convertSubSchema_growing fuel swagger)
                child_keys name child_keys_nodup Hn _ _ _ _ H3)
      as [b1 [rb1 [b2 [rb2 [Hs [E1 [E2 [G1 G2]]]]]]]].
    destruct (child_step_covers _ schema (convertSubSchema_growing fuel swagger)
                name _ _ _ _ c Hs)
      as [c' [r0 [r0' [Hcall [_ G3]]]]]; [|exact Hc|].
    + rewrite E1. eapply children_untouched; eassumption.
    + apply G2, G3. eapply IH; eassumption.
Qed.

(** ** ReferenceScanner: the references it finds *)

Lemma mapM_in {A B : Type} (f : A -> outcome B) (l : list A) (fl : list B) (x : A) :
  mapM f l = Ret fl -> In x l -> exists y, f x = Ret y /\ In y fl.
Proof.
  revert fl. induction l as [|x0 l IH]; intros fl H Hin; [contradiction|].
  simpl in H. inv_bind H. inv_bind H. inv_ret H.
  destruct Hin as [->|Hin].
  - exists a. split; [exact Hstep | left; reflexivity].
  - destruct (IH _ Hstep0 Hin) as [y [Hy Hin']]. exists y.
    split; [exact Hy | right; exact Hin'].
Qed.

Lemma find_each_spec (find : json -> outcome (list json)) (v : json)
    (refs out : list json) :
  find_each find v refs = Ret out ->
  incl refs out
  /\ forall l c, v = JArr l -> In c l -> exists fc, find c = Ret fc /\ incl fc out.
Proof.
  unfold find_each. destruct v as [| | | |s|l|m]; try discriminate.
  intros H. inv_bind H. inv_ret H. split; [apply incl_appl, incl_refl|].
  intros l0 c E Hin. inv_ret E.
  destruct (mapM_in _ _ _ _ Hstep Hin) as [fc [Hf Hin']]. exists fc.
  split; [exact Hf|]. apply incl_appr. intros x Hx.
  apply in_concat. exists fc. split; assumption.
Qed.

Lemma find_keys_spec (find : json -> outcome (list json)) (v : json)
    (refs out : list json) :
  find_keys find v refs = Ret out ->
  incl refs out
  /\ forall key, In key (object_keys v) ->
       exists fk, find (get v key) = Ret fk /\ incl fk out.
Proof.
  unfold find_keys. revert refs.
  induction (object_keys v) as [|k keys IH]; intros refs H; simpl in H.
  - inv_ret H. split; [apply incl_refl | intros key []].
  - destruct (find (get v k)) as [fk| |] eqn:Ef; simpl in H;
      try (exfalso; clear -H; induction keys as [|x xs IHx]; simpl in H;
           [discriminate | apply IHx; exact H]).
    destruct (IH _ H) as [G Hk]. split.
    + eapply incl_tran; [apply incl_appl, incl_refl | exact G].
    + intros key [<-|Hin]; [|apply Hk; exact Hin].
      exists fk. split; [exact Ef|].
      eapply incl_tran; [apply incl_appr, incl_refl | exact G].
Qed.

Lemma concat_spread_strings (a found : list json) (s : string) :
  In (JStr s) found -> In (JStr s) (concat_spread a found).
Proof.
  intros H. unfold concat_spread. apply in_or_app; right.
  apply in_flat_map. exists (JStr s). split; [exact H | left; reflexivity].
Qed.

Lemma strings_incl_of_incl (l l' : list json) : incl l l' -> strings_incl l l'.
Proof. intros H s Hs. apply H; exact Hs. Qed.

Lemma strings_incl_trans (l1 l2 l3 : list json) :
  strings_incl l1 l2 -> strings_incl l2 l3 -> strings_incl l1 l3.
Proof. intros H1 H2 s Hs. apply H2, H1, Hs. Qed.

Section ScannerSteps.

Variable find : json -> outcome (list json).
Variable schema : json.

(** The references found below the children of [schema] contain the string
    references found below each child. *)
Lemma find_children_covers (found : list json) :
  find_children find schema = Ret found ->
  forall name c,
    schema_child name schema c ->
    exists fc, find c = Ret fc /\ strings_incl fc found.
Proof.
  unfold find_children. intros H.
  inv_bind H. rename a into l1, Hstep into H1.
  inv_bind H. rename a into l2, Hstep into H2.
  inv_bind H. rename a into l3, Hstep into H3.
  inv_bind H. rename a into l4, Hstep into H4.
  inv_bind H. rename a into l5, Hstep into H5.
  inv_bind H. rename a into l6, Hstep into H6.
  inv_bind H. rename a into l7, Hstep into H7.
  inv_bind H. rename a into l8, Hstep into H8.
  rename H into H9.
  (* each step keeps what was found before *)
  assert (G2 : incl l1 l2).
  { destruct (truthy (get schema "anyOf"));
      [apply (find_each_spec _ _ _ _ H2) | inv_ret H2; apply incl_refl]. }
  assert (G3 : incl l2 l3).
  { destruct (truthy (get schema "oneOf"));
      [apply (find_each_spec _ _ _ _ H3) | inv_ret H3; apply incl_refl]. }
  assert (G4 : incl l3 l4).
  { destruct (truthy (get schema "not")); [|inv_ret H4; apply incl_refl].
    inv_bind H4. inv_ret H4. apply incl_appl, incl_refl. }
  assert (G5 : incl l4 l5).
  { destruct (truthy (get schema "items")); [|inv_ret H5; apply incl_refl].
    destruct (is_array (get schema "items")); [apply (find_each_spec _ _ _ _ H5)|].
    inv_bind H5. inv_ret H5. apply incl_appl, incl_refl. }
  assert (G6 : incl l5 l6).
  { destruct (truthy (get schema "additionalItems")
              && typeof_object (get schema "additionalItems"));
      [|inv_ret H6; apply incl_refl].
    inv_bind H6. inv_ret H6. apply incl_appl, incl_refl. }
  assert (G7 : incl l6 l7).
  { destruct (truthy (get schema "properties"));
      [apply (find_keys_spec _ _ _ _ H7) | inv_ret H7; apply incl_refl]. }
  assert (G8 : incl l7 l8).
  { destruct (truthy (get schema "patternProperties"));
      [apply (find_keys_spec _ _ _ _ H8) | inv_ret H8; apply incl_refl]. }
  assert (G9 : incl l8 found).
  { destruct (truthy (get schema "additionalProperties")
              && typeof_object (get schema "additionalProperties"));
      [|inv_ret H9; apply incl_refl].
    inv_bind H9. inv_ret H9. apply incl_appl, incl_refl. }
  assert (T8 : incl l8 found) by exact G9.
  assert (T7 : incl l7 found) by (eapply incl_tran; eassumption).
  assert (T6 : incl l6 found) by (eapply incl_tran; eassumption).
  assert (T5 : incl l5 found) by (eapply incl_tran; eassumption).
  assert (T4 : incl l4 found) by (eapply incl_tran; eassumption).
  assert (T3 : incl l3 found) by (eapply incl_tran; eassumption).
  assert (T2 : incl l2 found) by (eapply incl_tran; eassumption).
  assert (T1 : incl l1 found) by (eapply incl_tran; eassumption).
  clear G2 G3 G4 G5 G6 G7 G8 G9.
  intros name c Hc.
  inversion Hc as [n v l c' Hn Hg Hin|v Ht|v Ht Ha|n v Hn Ht Hty|n v p key Hn Hg Hin];
    subst.
  - (* an element of an array *)
    simpl in Hn.
    destruct Hn as [<-|[<-|[<-|[<-|[]]]]].
    + rewrite Hg in H1. cbn [truthy] in H1.
      destruct (proj2 (find_each_spec _ _ _ _ H1) l c eq_refl Hin) as [fc [Hf Hi]].
      exists fc. split; [exact Hf|].
      apply strings_incl_of_incl. eapply incl_tran; eassumption.
    + rewrite Hg in H2. cbn [truthy] in H2.
      destruct (proj2 (find_each_spec _ _ _ _ H2) l c eq_refl Hin) as [fc [Hf Hi]].
      exists fc. split; [exact Hf|].
      apply strings_incl_of_incl. eapply incl_tran; eassumption.
    + rewrite Hg in H3. cbn [truthy] in H3.
      destruct (proj2 (find_each_spec _ _ _ _ H3) l c eq_refl Hin) as [fc [Hf Hi]].
      exists fc. split; [exact Hf|].
      apply strings_incl_of_incl. eapply incl_tran; eassumption.
    + rewrite Hg in H5. cbn [truthy is_array] in H5.
      destruct (proj2 (find_each_spec _ _ _ _ H5) l c eq_refl Hin) as [fc [Hf Hi]].
      exists fc. split; [exact Hf|].
      apply strings_incl_of_incl. eapply incl_tran; eassumption.
  - (* not *)
    rewrite Ht in H4. inv_bind H4. inv_ret H4. exists a. split; [exact Hstep|].
    intros s Hs. apply T4. apply concat_spread_strings; exact Hs.
  - (* a single items *)
    rewrite Ht, Ha in H5. inv_bind H5. inv_ret H5. exists a. split; [exact Hstep|].
    apply strings_incl_of_incl. eapply incl_tran; [apply incl_appr, incl_refl | exact T5].
  - (* additionalItems, additionalProperties *)
    simpl in Hn. destruct Hn as [<-|[<-|[]]].
    + rewrite Ht, Hty in H6. inv_bind H6. inv_ret H6. exists a. split; [exact Hstep|].
      apply strings_incl_of_incl.
      eapply incl_tran; [apply incl_appr, incl_refl | exact T6].
    + rewrite Ht, Hty in H9. inv_bind H9. inv_ret H9. exists a. split; [exact Hstep|].
      apply strings_incl_of_incl. apply incl_appr, incl_refl.
  - (* properties, patternProperties *)
    simpl in Hn. destruct Hn as [<-|[<-|[]]].
    + rewrite Hg in H7. cbn [truthy] in H7.
      destruct (proj2 (find_keys_spec _ _ _ _ H7) key) as [fk [Hf Hi]];
        [exact Hin|].
      exists fk. split; [exact Hf|].
      apply strings_incl_of_incl. eapply incl_tran; eassumption.
    + rewrite Hg in H8. cbn [truthy] in H8.
      destruct (proj2 (find_keys_spec _ _ _ _ H8) key) as [fk [Hf Hi]];
        [exact Hin|].
      exists fk. split; [exact Hf|].
      apply strings_incl_of_incl. eapply incl_tran; eassumption.
Qed.

End ScannerSteps.

(** Every string reference at a schema position is found. *)
Lemma findReferences_finds (fuel : nat) :
  forall schema found,
    findReferences fuel schema = Ret found ->
    forall s, schema_ref (JStr s) schema -> In (JStr s) found.
Proof.
  induction fuel as [|fuel IH]; intros schema found H s Hr; [discriminate|].
  cbn [findReferences] in H. inv_bind H.
  apply prop_ret_inv in Hstep. destruct Hstep as [-> _].
  inversion Hr as [v Ht E|v name c Ht Hc Hrc]; subst.
  - rewrite Ht in H. inv_ret H. left. exact E.
  - rewrite Ht in H.
    destruct (find_children_covers _ _ _ H name c Hc) as [fc [Hf Hi]].
    apply Hi. eapply IH; eassumption.
Qed.

(** ** checkSchemaHasReferences decides [deep_ref] *)

Lemma get_ref_object (v : json) :
  truthy (get v "$ref") = true -> exists m, v = JObj m.
Proof.
  destruct v as [| | | |s|l|m]; simpl; try discriminate.
  - rewrite str_get_not_ref. discriminate.
  - rewrite arr_get_not_ref. discriminate.
  - intros _. exists m; reflexivity.
Qed.

Lemma deep_ref_kind (v : json) : deep_ref v -> typeof_object v = true.
Proof. intros H; inversion H; reflexivity. Qed.

Lemma obj_get_in (m : fields) (k : string) :
  obj_get m k <> JUndef -> In (obj_get m k) (map snd m).
Proof.
  induction m as [|[k' v] m IH]; simpl; [intros H; contradiction|].
  destruct (k' =? k); [left; reflexivity | intros H; right; apply IH; exact H].
Qed.

Lemma arr_get_in (l : list json) (i : nat) (k : string) :
  arr_get l i k <> JUndef -> In (arr_get l i k) l.
Proof.
  revert i; induction l as [|x l IH]; intros i; simpl; [intros H; contradiction|].
  destruct (key_of_index i =? k); [left; reflexivity | intros H; right; apply IH; exact H].
Qed.

Lemma deep_ref_value (m : fields) (x : json) :
  In x (map snd m) -> deep_ref x -> deep_ref (JObj m).
Proof.
  intros Hin Hd. apply in_map_iff in Hin. destruct Hin as [kv [<- Hin]].
  eapply deep_field; eassumption.
Qed.

Lemma str_get_kind (s : string) (i : nat) (k : string) :
  typeof_object (str_get s i k) = false.
Proof.
  revert i; induction s as [|c s IH]; intros i; simpl; [reflexivity|].
  destruct (key_of_index i =? k); [reflexivity | apply IH].
Qed.

Lemma deep_ref_get (v : json) (k : string) : deep_ref (get v k) -> deep_ref v.
Proof.
  intros Hd. pose proof (deep_ref_kind _ Hd) as Hk.
  destruct v as [| | | |s|l|m]; simpl in *; try discriminate.
  - destruct (k =? "length"); [discriminate|].
    rewrite str_get_kind in Hk. discriminate.
  - destruct (k =? "length"); [discriminate|].
    eapply deep_elem; [|exact Hd]. apply arr_get_in. intros E. rewrite E in Hk.
    discriminate.
  - eapply deep_ref_value; [|exact Hd]. apply obj_get_in. intros E. rewrite E in Hk.
    discriminate.
Qed.

Lemma schema_child_deep (name : string) (v c : json) :
  schema_child name v c -> deep_ref c -> deep_ref v.
Proof.
  intros Hc Hd. inversion Hc as [n v0 l c' Hn Hg Hin| | | |n v0 p key Hn Hg Hin]; subst;
    try (apply (deep_ref_get v _ Hd)).
  - apply (deep_ref_get v name). rewrite Hg. eapply deep_elem; eassumption.
  - apply (deep_ref_get v name). rewrite Hg.
    apply (deep_ref_get (JObj p) key). exact Hd.
Qed.

Lemma schema_ref_deep (r v : json) : schema_ref r v -> deep_ref v.
Proof.
  induction 1 as [v Ht E|v name c Ht Hc Hr IH].
  - destruct (get_ref_object v Ht) as [m ->]. apply deep_here. exact Ht.
  - eapply schema_child_deep; eassumption.
Qed.

Lemma someM_true {A : Type} (f : A -> outcome bool) (l : list A) :
  someM f l = Ret true -> exists x, In x l /\ f x = Ret true.
Proof.
  induction l as [|x l IH]; simpl; [discriminate|].
  intros H. inv_bind H. destruct a.
  - exists x. split; [left; reflexivity | exact Hstep].
  - destruct (IH H) as [y [Hin Hy]]. exists y. split; [right; exact Hin | exact Hy].
Qed.

Lemma someM_false {A : Type} (f : A -> outcome bool) (l : list A) :
  someM f l = Ret false -> forall x, In x l -> f x = Ret false.
Proof.
  induction l as [|x l IH]; simpl; [intros _ y []|].
  intros H. inv_bind H. destruct a; [discriminate|].
  intros y [<-|Hin]; [exact Hstep | apply IH; assumption].
Qed.

Lemma object_values_deep (v x : json) :
  In x (object_values v) -> deep_ref x -> deep_ref v.
Proof.
  unfold object_values. destruct v as [| | | |s|l|m]; simpl; try contradiction.
  - intros Hin Hd. exfalso. pose proof (deep_ref_kind _ Hd) as Hk. clear Hd.
    revert Hin. generalize 0. induction s as [|c s IH]; intros i; simpl; [tauto|].
    intros [<-|Hin]; [discriminate | exact (IH _ Hin)].
  - rewrite values_arr_entries. intros Hin Hd. eapply deep_elem; eassumption.
  - apply deep_ref_value.
Qed.

Lemma checkSchemaHasReferences_true (fuel : nat) :
  forall v, checkSchemaHasReferences fuel v = Ret true -> deep_ref v.
Proof.
  induction fuel as [|fuel IH]; intros v H; [discriminate|].
  cbn [checkSchemaHasReferences] in H. inv_bind H.
  apply prop_ret_inv in Hstep. destruct Hstep as [-> _].
  destruct (truthy (get v "$ref")) eqn:Et.
  - destruct (get_ref_object v Et) as [m ->]. apply deep_here; exact Et.
  - apply someM_true in H. destruct H as [x [Hin Hx]].
    apply (object_values_deep v x Hin).
    destruct x as [| | | |s|l|m]; try discriminate.
    + apply someM_true in Hx. destruct Hx as [e [Hine He]].
      eapply deep_elem; [exact Hine | apply IH; exact He].
    + apply IH; exact Hx.
Qed.

Lemma checkSchemaHasReferences_false (fuel : nat) :
  forall v, checkSchemaHasReferences fuel v = Ret false -> ~ deep_ref v.
Proof.
  induction fuel as [|fuel IH]; intros v H; [discriminate|].
  cbn [checkSchemaHasReferences] in H. inv_bind H.
  apply prop_ret_inv in Hstep. destruct Hstep as [-> _].
  destruct (truthy (get v "$ref")) eqn:Et; [discriminate|].
  pose proof (someM_false _ _ H) as Hall. clear H.
  assert (Hval : forall x, In x (object_values v) -> ~ deep_ref x).
  { intros x Hin Hd. specialize (Hall x Hin).
    destruct x as [| | | |s|l|m]; try (inversion Hd; fail).
    - inversion Hd as [| |l0 e Hine He]; subst.
      apply (IH e); [|exact He].
      exact (someM_false _ _ Hall e Hine).
    - exact (IH _ Hall Hd). }
  intros Hd. inversion Hd as [m Ht|m kv Hin Hk|l x Hin Hx]; subst.
  - simpl in Et. rewrite Et in Ht. discriminate.
  - apply (Hval (snd kv)); [|exact Hk].
    unfold object_values. simpl. apply in_map; exact Hin.
  - apply (Hval x); [|exact Hx].
    unfold object_values. simpl. rewrite values_arr_entries. exact Hin.
Qed.

(** ** DefinitionClosureBuilder: the closure *)

Lemma obj_has_not_in (m : fields) (k : string) :
  obj_has m k = false -> ~ In k (map fst m).
Proof.
  intros H Hin. rewrite (obj_has_in_keys m k Hin) in H. discriminate.
Qed.

Lemma obj_insert_index_keys (i : N) (k : string) (v : json) (m : fields) :
  ~ In k (map fst m) -> NoDup (map fst m) ->
  NoDup (map fst (obj_insert_index i k v m))
  /\ forall x, In x (map fst (obj_insert_index i k v m)) <-> x = k \/ In x (map fst m).
Proof.
  induction m as [|[k0 v0] m IH]; simpl; intros Hn Hd.
  - split; [apply NoDup_cons; [intros [] | apply NoDup_nil]|].
    intros x; split; [intros [->|[]]; left; reflexivity | intros [->|[]]; left; reflexivity].
  - inversion Hd as [|? ? Hk0 Hd']; subst.
    assert (Hcons : NoDup (k :: k0 :: map fst m)
                    /\ forall x, In x (k :: k0 :: map fst m)
                                 <-> x = k \/ In x (k0 :: map fst m)).
    { split; [apply NoDup_cons; [exact Hn | exact Hd]|]. intros x; simpl.
      split; intros H; repeat (destruct H as [H|H]); subst; auto. }
    destruct (index_of_key k0) as [j|]; [destruct (j <? i)%N|]; simpl;
      try exact Hcons.
    destruct IH as [IH1 IH2]; [tauto | exact Hd'|].
    split.
    + apply NoDup_cons; [|exact IH1]. rewrite IH2.
      intros [->|H]; [apply Hn; left; reflexivity | contradiction].
    + intros x. simpl. rewrite IH2. tauto.
Qed.

(** Writing a property keeps the keys of an object distinct. *)
Lemma obj_set_nodup (k : string) (v : json) (m : fields) :
  NoDup (map fst m) -> NoDup (map fst (obj_set k v m)).
Proof.
  intros Hd. unfold obj_set. destruct (obj_has m k) eqn:Hh.
  - rewrite obj_replace_keys. exact Hd.
  - pose proof (obj_has_not_in m k Hh) as Hn.
    destruct (index_of_key k) as [i|].
    + apply obj_insert_index_keys; assumption.
    + rewrite map_app. simpl. apply NoDup_app;
        [exact Hd | apply NoDup_cons; [intros [] | apply NoDup_nil]|].
      intros x Hx [<-|[]]. contradiction.
Qed.


Lemma resolved_extends (root : json) (definitions definitions' : fields) (r : json) :
  extends definitions definitions' ->
  resolved root definitions r -> resolved root definitions' r.
Proof.
  intros He [id [node [Hl Hk]]]. exists id, node. split; [exact Hl|].
  rewrite (He _ Hk). exact Hk.
Qed.

Lemma extends_refl (definitions : fields) : extends definitions definitions.
Proof. intros k _. reflexivity. Qed.

Lemma extends_trans (d1 d2 d3 : fields) :
  extends d1 d2 -> extends d2 d3 -> extends d1 d3.
Proof.
  intros H1 H2 k Hk. rewrite H2; [apply H1; exact Hk|]. rewrite (H1 k Hk). exact Hk.
Qed.

Lemma extends_set (k : string) (v : json) (definitions : fields) :
  obj_get definitions k = JUndef -> extends definitions (obj_set k v definitions).
Proof.
  intros Hu k' Hk'. apply obj_get_set_other. intros ->. contradiction.
Qed.

(** The loop, when it returns: what was copied stays as it was copied (the
    first write wins), every reference of the worklist resolves to a copied
    definition, the copied definitions are closed under their references,
    and each of them is a node the resolver returned. *)
Lemma copy_loop_closure (root : json) (fuel steps : nat) :
  forall references definitions definitions',
    copy_loop steps fuel references definitions root = Ret definitions' ->
    closed root definitions references ->
    extends definitions definitions'
    /\ (forall r, In r references -> resolved root definitions' r)
    /\ closed root definitions' []
    /\ (forall k, obj_get definitions' k <> JUndef ->
          obj_get definitions k <> JUndef
          \/ exists r id, lookupReference r root (Some 3%Z)
                          = Ret (id, obj_get definitions' k)
                          /\ key_of_id id = k)
    /\ (NoDup (map fst definitions) -> NoDup (map fst definitions')).
Proof.
  induction steps as [|steps IH]; intros references definitions definitions' H Hc;
    [discriminate|].
  cbn [copy_loop] in H.
  destruct (pop references) as [[r rest]|] eqn:Ep.
  - pose proof (pop_spec _ _ _ Ep) as ->.
    inv_bind H. destruct a as [id referenced]. rename Hstep into Hl.
    destruct (lookupReference_depth3_key _ _ _ _ Hl) as [_ [Hu _]].
    destruct (is_undef (obj_get definitions (key_of_id id))) eqn:Eu.
    + (* a new definition *)
      inv_bind H. rename a into found, Hstep into Hf.
      assert (Eu' : obj_get definitions (key_of_id id) = JUndef)
        by (destruct (obj_get definitions (key_of_id id)); try discriminate; reflexivity).
      pose proof (extends_set (key_of_id id) referenced definitions Eu') as Hext.
      assert (Hres : resolved root (obj_set (key_of_id id) referenced definitions) r).
      { exists id, referenced. split; [exact Hl|]. rewrite obj_get_set_same. exact Hu. }
      apply IH in H.
      * destruct H as [He [Hr [Hc' [Hv Hnd]]]].
        split; [eapply extends_trans; eassumption|].
        split; [|split; [exact Hc'|split]].
        -- intros r0 Hin. apply in_app_or in Hin. destruct Hin as [Hin|[<-|[]]].
           ++ apply Hr. apply in_or_app; left; exact Hin.
           ++ eapply resolved_extends; eassumption.
        -- intros k Hk. destruct (Hv k Hk) as [Hold|Hnew]; [|right; exact Hnew].
           rewrite obj_get_set in Hold.
           destruct (key_of_id id =? k) eqn:E; [|left; exact Hold].
           apply String.eqb_eq in E. right. exists r, id.
           split; [|exact E].
           rewrite He; [|rewrite <- E, obj_get_set_same; exact Hu].
           rewrite <- E, obj_get_set_same. exact Hl.
        -- intros Hd. apply Hnd. apply obj_set_nodup; exact Hd.
      * (* the invariant *)
        intros k s Hk Hs. rewrite obj_get_set in Hk, Hs.
        destruct (key_of_id id =? k) eqn:E.
        -- left. apply in_or_app; right.
           eapply findReferences_finds; eassumption.
        -- destruct (Hc k s Hk Hs) as [Hin|Hrs].
           ++ apply in_app_or in Hin. destruct Hin as [Hin|[<-|[]]].
              ** left. apply in_or_app; left; exact Hin.
              ** right. exact Hres.
           ++ right. eapply resolved_extends; eassumption.
    + (* a definition copied before *)
      assert (Hres : resolved root definitions r).
      { exists id, referenced. split; [exact Hl|]. intros E. rewrite E in Eu.
        discriminate. }
      apply IH in H.
      * destruct H as [He [Hr [Hc' [Hv Hnd]]]].
        split; [exact He|]. split; [|split; [exact Hc' | split; [exact Hv | exact Hnd]]].
        intros r0 Hin. apply in_app_or in Hin. destruct Hin as [Hin|[<-|[]]].
        -- apply Hr; exact Hin.
        -- eapply resolved_extends; eassumption.
      * intros k s Hk Hs. destruct (Hc k s Hk Hs) as [Hin|Hrs]; [|right; exact Hrs].
        apply in_app_or in Hin. destruct Hin as [Hin|[<-|[]]];
          [left; exact Hin | right; exact Hres].
  - inv_ret H. pose proof (pop_nil _ Ep) as ->.
    split; [apply extends_refl|]. split; [intros r []|].
    split; [exact Hc|]. split; [intros k Hk; left; exact Hk | tauto].
Qed.

(** ** DefinitionClosureBuilder and RootReferenceNormalizer: the result *)

(** The shape of a result of [convertSchema] that copies definitions. *)
Lemma convertSchema_copy (fuel : nat) (schema root swagger res : json) :
  convertSchema fuel schema root swagger true = Ret res ->
  exists (node : fields) (refs : list json),
    convertSubSchema fuel schema [] swagger = Ret (JObj node, refs)
    /\ ((refs = [] /\ res = JObj node)
        \/ exists defs,
             refs <> []
             /\ copy_loop fuel fuel refs [] root = Ret defs
             /\ ((truthy (get schema "$ref") = false
                  /\ res = JObj (obj_set "definitions" (JObj defs) node))
                 \/ (truthy (get schema "$ref") = true
                     /\ refs = [get schema "$ref"]
                     /\ exists id x b,
                          lookupReference (get schema "$ref") root None = Ret (id, x)
                          /\ checkSchemaHasReferences fuel (obj_get defs (key_of_id id))
                             = Ret b
                          /\ res = if b
                                   then allOf_wrapper (get schema "$ref") (JObj defs)
                                   else obj_get defs (key_of_id id)))).
Proof.
  intros H. destruct (truthy (get schema "$ref")) eqn:Et.
  - unfold convertSchema in H. inv_bind H. destruct a as [result refs].
    destruct (convertSubSchema_ref _ _ _ _ _ _ Hstep Et) as [-> ->].
    exists [("$ref", get schema "$ref")], [get schema "$ref"].
    split; [exact Hstep|]. right.
    cbn [app] in H. inv_bind H. inv_bind Hstep0. rename a0 into defs.
    cbn [set_prop] in Hstep0. inv_ret Hstep0.
    exists defs. split; [discriminate|]. split; [exact Hstep1|]. right.
    split; [reflexivity|]. split; [reflexivity|].
    assert (E1 : get (JObj (obj_set "definitions" (JObj defs) [("$ref", get schema "$ref")]))
                   "$ref" = get schema "$ref").
    { cbn [get]. rewrite obj_get_set_other by discriminate. reflexivity. }
    assert (E2 : get (JObj (obj_set "definitions" (JObj defs) [("$ref", get schema "$ref")]))
                   "definitions" = JObj defs).
    { cbn [get]. apply obj_get_set_same. }
    rewrite E1, E2, Et in H. cbn [andb] in H.
    inv_bind H. destruct a as [id x]. inv_bind H. cbn [prop] in Hstep2. inv_ret Hstep2.
    inv_bind H. rename a into b.
    exists id, x, b. split; [exact Hstep0|]. split; [exact Hstep2|].
    destruct b; simpl in H; inv_ret H; reflexivity.
  - destruct (convertSchema_node _ _ _ _ _ _ H Et) as [a [refs [Hc Hr]]].
    exists a, refs. split; [exact Hc|].
    destruct Hr as [[-> [E|E]]|[_ [Hn [defs [Hl ->]]]]]; [discriminate| |].
    + left. split; [exact E | reflexivity].
    + right. exists defs. split; [exact Hn|]. split; [exact Hl|].
      left. split; reflexivity.
Qed.

Lemma schema_child_ext (name : string) (a a' : fields) (c : json) :
  obj_get a name = obj_get a' name ->
  schema_child name (JObj a) c -> schema_child name (JObj a') c.
Proof.
  intros E Hc. inversion Hc; subst; cbn [get] in *.
  - eapply child_each; [eassumption| |eassumption]. cbn [get]. rewrite <- E. assumption.
  - rewrite E. apply child_not. cbn [get]. rewrite <- E. assumption.
  - rewrite E. apply child_items; cbn [get]; rewrite <- E; assumption.
  - rewrite E. apply child_additional; [assumption| |]; cbn [get]; rewrite <- E; assumption.
  - eapply child_property; [eassumption| |eassumption]. cbn [get]. rewrite <- E.
    assumption.
Qed.

(** The references at the schema positions of a node depend on its [$ref]
    and on what it holds under the keywords of the children only. *)
Lemma schema_ref_ext (r : json) (a a' : fields) :
  (forall k, In k ("$ref" :: child_keys) -> obj_get a k = obj_get a' k) ->
  schema_ref r (JObj a) -> schema_ref r (JObj a').
Proof.
  intros E Hr. inversion Hr as [v Ht Eq|v name c Ht Hc Hrc]; subst; cbn [get] in *.
  - apply ref_here; cbn [get]; rewrite <- (E "$ref") by (left; reflexivity);
      [exact Ht | reflexivity].
  - apply ref_below with (name := name) (c := c).
    + cbn [get]. rewrite <- (E "$ref") by (left; reflexivity). exact Ht.
    + apply (schema_child_ext name a a'); [|exact Hc].
      apply E. right. eapply schema_child_key; eassumption.
    + exact Hrc.
Qed.

Lemma closed_empty (root : json) (pending : list json) : closed root [] pending.
Proof. intros k s Hk. exfalso. apply Hk. reflexivity. Qed.


Lemma schema_child_get (name : string) (v c : json) :
  schema_child name v c -> truthy (get v name) = true.
Proof.
  intros H; inversion H as [? ? ? ? ? Hg| | | |? ? ? ? ? Hg]; subst;
    try assumption; rewrite Hg; reflexivity.
Qed.

(** A bare reference node has no child schema. *)
Lemma no_child_of_reference (x : json) (name : string) (c : json) :
  ~ schema_child name (JObj [("$ref", x)]) c.
Proof.
  intros H. pose proof (schema_child_key _ _ _ H) as Hn.
  apply schema_child_get in H. simpl in Hn.
  repeat (destruct Hn as [<-|Hn]; [discriminate|]). contradiction.
Qed.

Lemma schema_ref_wrapper (r ref defs : json) :
  schema_ref r (allOf_wrapper ref defs) -> r = ref.
Proof.
  intros H. inversion H as [v Ht E|v name c Ht Hc Hrc]; subst; [discriminate|].
  assert (Ec : c = JObj [("$ref", ref)]).
  { pose proof (schema_child_get _ _ _ Hc) as Hg'.
    inversion Hc as [n v0 l c' Hn' Hg Hin|v0 Ht'|v0 Ht' Ha|n v0 Hn' Ht' Hty|n v0 p key Hn' Hg Hin];
      subst; try discriminate.
    - simpl in Hn'. destruct Hn' as [<-|[<-|[<-|[<-|[]]]]]; try discriminate.
      cbn in Hg. inv_ret Hg. destruct Hin as [<-|[]]. reflexivity.
    - simpl in Hn'. destruct Hn' as [<-|[<-|[]]]; discriminate.
    - simpl in Hn'. destruct Hn' as [<-|[<-|[]]]; discriminate. }
  subst c. inversion Hrc as [v1 Ht1 E1|v1 name1 c1 Ht1 Hc1 Hrc1]; subst.
  - reflexivity.
  - exfalso. exact (no_child_of_reference _ _ _ Hc1).
Qed.

(** What a returning [convertSchema] that copies definitions guarantees when
    the converter recorded a reference: the result is not the inlined
    definition unless that definition holds no reference at all; otherwise it
    carries the copied definitions, closed under their references. *)
Lemma convertSchema_closure (fuel : nat) (schema root swagger res : json)
    (node : fields) (refs : list json) :
  convertSchema fuel schema root swagger true = Ret res ->
  convertSubSchema fuel schema [] swagger = Ret (JObj node, refs) ->
  refs <> [] ->
  exists defs,
    copy_loop fuel fuel refs [] root = Ret defs
    /\ (forall r, In r refs -> resolved root defs r)
    /\ closed root defs []
    /\ NoDup (map fst defs)
    /\ (forall k, obj_get defs k <> JUndef ->
          exists r id, lookupReference r root (Some 3%Z) = Ret (id, obj_get defs k)
                       /\ key_of_id id = k)
    /\ ((get res "definitions" = JObj defs
         /\ forall r, schema_ref r res -> In r refs)
        \/ exists id x,
             truthy (get schema "$ref") = true
             /\ refs = [get schema "$ref"]
             /\ lookupReference (get schema "$ref") root None = Ret (id, x)
             /\ res = obj_get defs (key_of_id id)
             /\ ~ deep_ref res).
Proof.
  intros H Hc Hn.
  destruct (convertSchema_copy _ _ _ _ _ H) as [node' [refs' [Hc' Hr]]].
  rewrite Hc in Hc'. inv_ret Hc'.
  destruct Hr as [[-> _]|[defs [_ [Hl Hcase]]]]; [contradiction|].
  destruct (copy_loop_closure root fuel fuel _ _ _ Hl (closed_empty root refs'))
    as [_ [Hres [Hcl [Hv Hnd]]]].
  exists defs. split; [exact Hl|]. split; [exact Hres|]. split; [exact Hcl|].
  split; [apply Hnd; constructor|].
  split.
  { intros k Hk. destruct (Hv k Hk) as [Hold|Hnew]; [|exact Hnew].
    exfalso. apply Hold. reflexivity. }
  destruct Hcase as [[_ ->]|[Et [E [id [x [b [Hfull [Hb ->]]]]]]]].
  - left. split; [cbn [get]; apply obj_get_set_same|].
    intros r Hr. eapply convertSubSchema_records_result; [exact Hc|].
    revert Hr. apply schema_ref_ext. intros k Hk.
    apply obj_get_set_other. intros <-. simpl in Hk.
    repeat (destruct Hk as [Hk|Hk]; [discriminate|]). exact Hk.
  - destruct b.
    + left. split; [reflexivity|]. intros r Hr.
      apply schema_ref_wrapper in Hr. subst r. rewrite E. left; reflexivity.
    + right. exists id, x. split; [exact Et|]. split; [exact E|].
      split; [exact Hfull|]. split; [reflexivity|].
      eapply checkSchemaHasReferences_false; eassumption.
Qed.


(** The step for a keyword leaves, for every child schema below it, a
    converted child in the same place. *)
Lemma child_step_places (recurse : converter) (schema : json)
    (recurse_growing : growing recurse)
    (recurse_objects :
       forall s r s' r', recurse s r = Ret (s', r') -> exists o, s' = JObj o)
    (name : string) (a1 : fields) (r1 : list json)
    (a2 : fields) (r2 : list json) (c0 : json) :
  child_step recurse schema name a1 r1 = Ret (a2, r2) ->
  obj_get a1 name = get schema name ->
  schema_child name schema c0 ->
  exists c, schema_child name (JObj a2) c /\ converted recurse r1 r2 c0 c.
Proof.
  intros Hs Ho Hc.
  inversion Hc as [n v l c' Hn Hg Hin|v Ht|v Ht Ha|n v Hn Ht Hty|n v p key Hn Hg Hin];
    subst.
  - assert (Hl : exists l', obj_get a2 name = JArr l'
                            /\ Forall2 (converted recurse r1 r2) l l').
    { simpl in Hn. unfold child_step in Hs.
      repeat (destruct Hn as [<-|Hn]; [simpl in Hs|]); try contradiction.
      1-3: destruct (convert_each_spec recurse recurse_growing _ _ _ _ _ _ Hs) as [_ Hspec];
        rewrite Hg in Hspec; simpl in Hspec;
        destruct Hspec as [l0 [l' [E0 [E1 [_ F]]]]]; inv_ret E0; exists l';
        split; [exact E1 | exact F].
      rewrite Hg in Hs. simpl in Hs.
      destruct (convert_each_spec recurse recurse_growing _ _ _ _ _ _ Hs) as [_ Hspec].
      rewrite Hg in Hspec; simpl in Hspec.
      destruct Hspec as [l0 [l' [E0 [E1 [_ F]]]]]; inv_ret E0; exists l';
        split; [exact E1 | exact F]. }
    destruct Hl as [l' [E1 F]].
    destruct (Forall2_in_left _ _ _ _ F Hin) as [c [Hin' Hconv]].
    exists c. split; [|exact Hconv].
    eapply child_each; [exact Hn | exact E1 | exact Hin'].
  - unfold child_step in Hs. simpl in Hs. rewrite Ht in Hs.
    destruct (convert_one_spec recurse recurse_growing _ _ _ _ _ _ Hs)
      as [_ [c' [-> Hconv]]].
    exists c'. split; [|exact Hconv].
    destruct Hconv as [r0 [r0' [Hcall _]]].
    destruct (recurse_objects _ _ _ _ Hcall) as [o ->].
    assert (E : get (JObj (obj_set "not" (JObj o) a1)) "not" = JObj o)
      by (cbn [get]; apply obj_get_set_same).
    rewrite <- E at 2. apply child_not. rewrite E. reflexivity.
  - unfold child_step in Hs. simpl in Hs. rewrite Ht, Ha in Hs.
    destruct (convert_one_spec recurse recurse_growing _ _ _ _ _ _ Hs)
      as [_ [c' [-> Hconv]]].
    exists c'. split; [|exact Hconv].
    destruct Hconv as [r0 [r0' [Hcall _]]].
    destruct (recurse_objects _ _ _ _ Hcall) as [o ->].
    assert (E : get (JObj (obj_set "items" (JObj o) a1)) "items" = JObj o)
      by (cbn [get]; apply obj_get_set_same).
    rewrite <- E at 2. apply child_items; rewrite E; reflexivity.
  - assert (Hstep : convert_one recurse name schema a1 r1 = Ret (a2, r2)).
    { simpl in Hn. unfold child_step in Hs.
      repeat (destruct Hn as [<-|Hn]; [simpl in Hs; rewrite Ht, Hty in Hs; exact Hs|]).
      contradiction. }
    destruct (convert_one_spec recurse recurse_growing _ _ _ _ _ _ Hstep)
      as [_ [c' [-> Hconv]]].
    exists c'. split; [|exact Hconv].
    destruct Hconv as [r0 [r0' [Hcall _]]].
    destruct (recurse_objects _ _ _ _ Hcall) as [o ->].
    assert (E : get (JObj (obj_set name (JObj o) a1)) name = JObj o)
      by (cbn [get]; apply obj_get_set_same).
    rewrite <- E at 2. apply child_additional; [exact Hn | |]; rewrite E; reflexivity.
  - assert (Hstep : convert_keys recurse name schema a1 r1 = Ret (a2, r2)).
    { simpl in Hn. unfold child_step in Hs.
      repeat (destruct Hn as [<-|Hn]; [simpl in Hs; rewrite Hg in Hs; exact Hs|]).
      contradiction. }
    rewrite Hg in Ho.
    destruct (convert_keys_spec recurse recurse_growing name schema p _ _ _ _ Hg Ho Hstep)
      as [_ [p' [Ep' [Hk [_ [_ [_ Hkeys]]]]]]].
    exists (obj_get p' key). split; [|apply Hk; exact Hin].
    eapply child_property; [exact Hn | exact Ep' | rewrite Hkeys; exact Hin].
Qed.

(** A reference at a schema position of the schema stands at a schema
    position of the converted node. *)
Lemma convertSubSchema_keeps_references (fuel : nat) (swagger : json) :
  forall schema refs res refs',
    convertSubSchema fuel schema refs swagger = Ret (res, refs') ->
    forall r, schema_ref r schema -> schema_ref r res.
Proof.
  induction fuel as [|fuel IH]; intros schema refs res refs' H r Hr; [discriminate|].
  inversion Hr as [v Ht E|v name c Ht Hc Hrc]; subst.
  - destruct (convertSubSchema_ref _ _ _ _ _ _ H Ht) as [-> _].
    apply ref_here; [exact Ht | reflexivity].
  - pose proof H as Hfull.
    destruct (convertSubSchema_node _ _ _ _ _ _ H Ht)
      as [f [a1 [a2 [a3 [Ef [H1 [H2 [H3 ->]]]]]]]].
    injection Ef as <-.
    pose proof (schema_child_key _ _ _ Hc) as Hn.
    rewrite convert_children_run in H3.
    destruct (run_steps_at _ schema (convertSubSchema_growing fuel swagger)
                child_keys name child_keys_nodup Hn _ _ _ _ H3)
      as [b1 [rb1 [b2 [rb2 [Hs [E1 [E2 [G1 G2]]]]]]]].
    destruct (child_step_places _ schema (convertSubSchema_growing fuel swagger)
                (convertSubSchema_objects fuel swagger) name _ _ _ _ c Hs)
      as [c' [Hc' [r0 [r0' [Hcall _]]]]]; [|exact Hc|].
    + rewrite E1. eapply children_untouched; eassumption.
    + apply ref_below with (name := name) (c := c').
      * cbn [get].
        rewrite (convertSubSchema_keeps _ _ _ _ _ _ "$ref" Hfull Ht).
        -- simpl. rewrite obj_get_entries by reflexivity. exact Ht.
        -- simpl. intros Hin. repeat (destruct Hin as [Hin|Hin]; [discriminate|]).
           exact Hin.
      * apply (schema_child_ext name b2 a3); [symmetry; exact E2 | exact Hc'].
      * eapply IH; eassumption.
Qed.

(** C2 (amended).  When a reference at a schema position of the schema is
    one [lookupReference] rejects at depth 3, [convertSchema] with
    [copyDefinitions = true] throws: with enough fuel its outcome is an
    exception, never a result.  With [copyDefinitions = false] the
    references at schema positions are not looked up: the outcome is that
    of [convertSubSchema], which [root] does not enter, and in a node that
    is returned every reference at a schema position of the schema stands
    at a schema position, whether it resolves or not. *)
Theorem rejected_reference_aborts_copy :
  (forall (schema root swagger r : json) (e : error),
      schema_ref r schema ->
      lookupReference r root (Some 3%Z) = Throw e ->
      exists e', settles (fun n => convertSchema n schema root swagger true) (Throw e'))
  /\
  (forall (fuel : nat) (schema root swagger : json),
      convertSchema fuel schema root swagger false
      = '(node, _) <- convertSubSchema fuel schema [] swagger ;; Ret node)
  /\
  (forall (fuel : nat) (schema root swagger res r : json),
      convertSchema fuel schema root swagger false = Ret res ->
      schema_ref r schema ->
      schema_ref r res).
Proof.
  assert (Hfalse : forall (fuel : nat) (schema root swagger : json),
             convertSchema fuel schema root swagger false
             = '(node, _) <- convertSubSchema fuel schema [] swagger ;; Ret node).
  { intros fuel schema root swagger. unfold convertSchema.
    apply bind_ext. intros [node refs]. simpl. rewrite andb_false_r. reflexivity. }
  split; [|split].
  - intros schema root swagger r e Hr Hl.
    destruct (convertSchema_converges schema root swagger true) as [o Hs].
    destruct o as [res|e'|].
    + exfalso. destruct Hs as [_ [N HN]]. specialize (HN 0).
      destruct (convertSchema_copy _ _ _ _ _ HN) as [node [refs [Hc _]]].
      pose proof (convertSubSchema_records_input _ _ _ _ _ _ Hc r Hr) as Hin.
      assert (Hn : refs <> []) by (intros ->; contradiction).
      destruct (convertSchema_closure _ _ _ _ _ _ _ HN Hc Hn) as [defs [_ [Hres _]]].
      destruct (Hres r Hin) as [id [x [Hl' _]]]. rewrite Hl in Hl'. discriminate.
    + exists e'. exact Hs.
    + destruct Hs as [Hs _]. contradiction.
  - exact Hfalse.
  - intros fuel schema root swagger res r H Hr. rewrite Hfalse in H.
    inv_bind H. destruct a as [node refs]. inv_ret H.
    exact (convertSubSchema_keeps_references _ _ _ _ _ _ Hstep r Hr).
Qed.

Lemma bogus_items_reference : schema_ref (JStr "bogus") bogus_items_schema.
Proof.
  apply ref_below with (name := "items") (c := JObj [("$ref", JStr "bogus")]).
  - reflexivity.
  - apply (child_items bogus_items_schema); reflexivity.
  - apply ref_here; reflexivity.
Qed.

Lemma rejected_reference_aborts_copy_witness :
  (exists e',
      settles (fun n => convertSchema n bogus_items_schema closure_root closure_root true)
        (Throw e'))
  /\ schema_ref (JStr "bogus") bogus_items_schema.
Proof.
  split.
  - apply (proj1 rejected_reference_aborts_copy) with
      (r := JStr "bogus") (e := InvalidReferenceRoot).
    + exact bogus_items_reference.
    + reflexivity.
  - apply (proj2 (proj2 rejected_reference_aborts_copy) 3 bogus_items_schema
             closure_root closure_root bogus_items_schema (JStr "bogus")).
    + reflexivity.
    + exact bogus_items_reference.
Defined.

(** C2, as stated, fails: without copying, an invalid reference is returned
    as it is, by [convertSchema] and by [convertSchemaDefinitions]. *)
Lemma invalid_reference_returned_without_copy :
  convertSchema 2 (JObj [("$ref", JStr "bogus")]) closure_root closure_root false
  = Ret (JObj [("$ref", JStr "bogus")])
  /\ lookupReference (JStr "bogus") closure_root (Some 3%Z) = Throw InvalidReferenceRoot
  /\ convertSchemaDefinitions 3
       (JObj [("A", JObj [("items", JObj [("$ref", JStr "#/definitions/Missing")])])])
     = Ret (JObj [("A", JObj [("items", JObj [("$ref", JStr "#/definitions/Missing")])])]).
Proof. repeat split. Qed.

(** C3 (amended).  When no [$ref] string of the schema or of the root
    names, as its id, a member objects inherit ([toString], [constructor],
    ...: the test [result.definitions[lookup.id] === undefined] finds the
    inherited member and the definition is never copied), and
    [convertSchema] returns with [copyDefinitions = true] a result that has
    a reference at a schema position, the result carries a definitions map;
    that reference, and every string reference at a schema position of a
    definition of the map, resolves at depth 3 to an id the map has. *)
Theorem schema_references_resolve
    (fuel : nat) (schema root swagger res r : json) :
  own_ids schema = true ->
  own_ids root = true ->
  convertSchema fuel schema root swagger true = Ret res ->
  schema_ref r res ->
  exists defs,
    get res "definitions" = JObj defs
    /\ resolved root defs r
    /\ forall k r',
         obj_get defs k <> JUndef ->
         schema_ref (JStr r') (obj_get defs k) ->
         resolved root defs (JStr r').
Proof.
  intros _ _ H Hr.
  destruct (convertSchema_copy _ _ _ _ _ H) as [node [refs [Hc Hcase]]].
  assert (Hn : refs <> []).
  { destruct Hcase as [[-> ->]|[defs [Hn _]]]; [|exact Hn].
    exfalso. exact (convertSubSchema_records_result _ _ _ _ _ _ Hc r Hr). }
  destruct (convertSchema_closure _ _ _ _ _ _ _ H Hc Hn)
    as [defs [_ [Hres [Hcl [_ [_ Hshape]]]]]].
  destruct Hshape as [[Hd Hin]|[id [x [_ [_ [_ [_ Hnd]]]]]]].
  - exists defs. split; [exact Hd|]. split; [apply Hres, Hin, Hr|].
    intros k r' Hk Hs. destruct (Hcl k r' Hk Hs) as [[]|Hrs]. exact Hrs.
  - exfalso. apply Hnd. eapply schema_ref_deep; eassumption.
Qed.

Lemma schema_references_resolve_witness :
  exists defs,
    get closure_result "definitions" = JObj defs
    /\ resolved closure_root defs (JStr "#/definitions/A")
    /\ forall k r',
         obj_get defs k <> JUndef ->
         schema_ref (JStr r') (obj_get defs k) ->
         resolved closure_root defs (JStr r').
Proof.
  apply (schema_references_resolve 4 closure_schema closure_root closure_root).
  - reflexivity.
  - reflexivity.
  - reflexivity.
  - apply ref_below with (name := "properties") (c := JObj [("$ref", JStr "#/definitions/A")]).
    + reflexivity.
    + apply (child_property "properties" closure_result
               [("a", JObj [("$ref", JStr "#/definitions/A")]);
                ("b", JObj [("$ref", JStr "#/definitions/B")])] "a").
      * left; reflexivity.
      * reflexivity.
      * left; reflexivity.
    + apply ref_here; reflexivity.
Defined.

(** C3, as stated, fails: a [$ref] below a keyword the converter does not
    follow is returned untouched and nothing is copied for it. *)
Lemma reference_outside_schema_positions_dangles :
  convertSchema 3 default_ref_schema closure_root closure_root true
  = Ret default_ref_schema
  /\ In "#/definitions/Missing" (refs_of default_ref_schema)
  /\ get default_ref_schema "definitions" = JUndef
  /\ lookupReference (JStr "#/definitions/Missing") closure_root (Some 3%Z)
     = Throw (ReferenceNotFound "#/definitions/Missing").
Proof. repeat split. left; reflexivity. Qed.




(** The root reference normalizer, on a call that returns.  When the schema
    is a reference and [convertSchema] returns with [copyDefinitions = true]:
    if the definition copied under the id of the reference holds no truthy
    [$ref] at any depth, the result is that definition, which has no [$ref]
    of its own; otherwise the result is [{allOf: [{$ref}], definitions}] with
    the copied definitions.  The reference to a [Node] that references itself
    yields the wrapper. *)
Theorem root_reference_inlined_or_wrapped :
  (forall (fuel : nat) (schema root swagger res : json),
      truthy (get schema "$ref") = true ->
      convertSchema fuel schema root swagger true = Ret res ->
      exists defs id x,
        copy_loop fuel fuel [get schema "$ref"] [] root = Ret defs
        /\ lookupReference (get schema "$ref") root None = Ret (id, x)
        /\ ((~ deep_ref (obj_get defs (key_of_id id))
             /\ res = obj_get defs (key_of_id id)
             /\ truthy (get res "$ref") = false)
            \/ (deep_ref (obj_get defs (key_of_id id))
                /\ res = allOf_wrapper (get schema "$ref") (JObj defs))))
  /\
  (forall k : nat,
      convertSchema (4 + k) node_ref node_root node_root true
      = Ret (allOf_wrapper (JStr "#/definitions/Node")
               (JObj [("Node", get (get node_root "definitions") "Node")]))).
Proof.
  split.
  - intros fuel schema root swagger res Et H.
    destruct (convertSchema_copy _ _ _ _ _ H) as [node [refs [Hc Hcase]]].
    destruct (convertSubSchema_ref _ _ _ _ _ _ Hc Et) as [_ E]. simpl in E. subst refs.
    destruct Hcase as [[E _]|[defs [_ [Hl [[Ef _]|[_ [_ [id [x [b [Hfull [Hb ->]]]]]]]]]]]];
      [discriminate | rewrite Et in Ef; discriminate |].
    exists defs, id, x. split; [exact Hl|]. split; [exact Hfull|].
    destruct b.
    + right. split; [|reflexivity].
      eapply checkSchemaHasReferences_true; eassumption.
    + left. pose proof (checkSchemaHasReferences_false _ _ Hb) as Hnd.
      split; [exact Hnd|]. split; [reflexivity|].
      destruct (truthy (get (obj_get defs (key_of_id id)) "$ref")) eqn:Er; [|reflexivity].
      exfalso. apply Hnd.
      destruct (get_ref_object _ Er) as [m Em]. rewrite Em in *. apply deep_here; exact Er.
  - intros k. reflexivity.
Qed.

Lemma root_reference_inlined_or_wrapped_witness :
  exists defs id x,
    copy_loop 3 3 [get (JObj [("$ref", JStr "#/definitions/B")]) "$ref"] [] closure_root
    = Ret defs
    /\ lookupReference (get (JObj [("$ref", JStr "#/definitions/B")]) "$ref")
         closure_root None = Ret (id, x)
    /\ ((~ deep_ref (obj_get defs (key_of_id id))
         /\ JObj [("type", JStr "string")] = obj_get defs (key_of_id id)
         /\ truthy (get (JObj [("type", JStr "string")]) "$ref") = false)
        \/ (deep_ref (obj_get defs (key_of_id id))
            /\ JObj [("type", JStr "string")]
               = allOf_wrapper (get (JObj [("$ref", JStr "#/definitions/B")]) "$ref")
                   (JObj defs))).
Proof.
  apply (proj1 root_reference_inlined_or_wrapped 3
           (JObj [("$ref", JStr "#/definitions/B")]) closure_root closure_root);
    reflexivity.
Defined.

(** C5.  The scan that decides between the definition and the wrapper
    guards the values of an object ([_.isObject(value)]) and not the elements
    of an array ([value.some(checkSchemaHasReferences)]): on a [null] element
    it reads [null.$ref].  The reference to [Status], a string enumeration
    that admits [null], resolves; its definition holds no [$ref] at any
    depth; and [convertSchema] throws a [TypeError] whatever the fuel, where
    the definition should be returned.  With the [null] as the value of a
    property the definition is returned. *)
Theorem root_reference_null_element_throws :
  lookupReference (JStr "#/definitions/Status") status_root (Some 3%Z)
  = Ret (Some "Status", status_node)
  /\ ~ deep_ref status_node
  /\ (forall k : nat, checkSchemaHasReferences (2 + k) status_node = Throw TypeError)
  /\ (forall k : nat,
        convertSchema (4 + k) status_ref status_root status_root true = Throw TypeError)
  /\ (forall k : nat,
        convertSchema (4 + k) status_ref status_default_root status_default_root true
        = Ret (JObj [("type", JStr "string"); ("default", JNull)])).
Proof.
  split; [reflexivity|]. split; [|repeat split; intros k; reflexivity].
  intros H. inversion H as [m Ht|m kv Hin Hd|]; subst; [discriminate Ht|].
  simpl in Hin. destruct Hin as [<-|[<-|[]]]; simpl in Hd.
  - inversion Hd.
  - inversion Hd as [| |l x Hx Hdx]; subst.
    simpl in Hx. destruct Hx as [<-|[<-|[]]]; inversion Hdx.
Qed.

(** ** Conversion of plain schemas *)

Lemma obj_has_keys (m : fields) (k : string) :
  obj_has m k = true -> In k (map fst m).
Proof.
  induction m as [|[k0 v0] m IH]; simpl; [discriminate|].
  destruct (k0 =? k) eqn:E; [left; apply String.eqb_eq; exact E|].
  intros H. right. apply IH. exact H.
Qed.

(** Two objects with the same distinct keys in the same order and the same
    value under every key are the same object. *)
Lemma fields_ext (a b : fields) :
  NoDup (map fst a) -> map fst a = map fst b ->
  (forall k, obj_get a k = obj_get b k) -> a = b.
Proof.
  revert b. induction a as [|[k v] a IH]; intros [|[k' w] b] Hnd Hk Hg;
    try discriminate; [reflexivity|].
  simpl in Hk. injection Hk as <- Hk.
  inversion Hnd as [|? ? Hnin Hnd']; subst.
  assert (Ev : v = w).
  { specialize (Hg k). simpl in Hg. rewrite String.eqb_refl in Hg. exact Hg. }
  subst w. f_equal. apply IH; [exact Hnd' | exact Hk|].
  intros k'. specialize (Hg k'). simpl in Hg.
  destruct (k =? k') eqn:E; [|exact Hg].
  apply String.eqb_eq in E. subst k'.
  rewrite (obj_has_false_get a k), (obj_has_false_get b k); [reflexivity| |].
  - destruct (obj_has b k) eqn:Eh; [|reflexivity].
    exfalso. apply Hnin. rewrite Hk. apply obj_has_keys. exact Eh.
  - destruct (obj_has a k) eqn:Eh; [|reflexivity].
    exfalso. apply Hnin. apply obj_has_keys. exact Eh.
Qed.

Lemma filter_keys_nodup (q : string -> bool) (m : fields) :
  NoDup (map fst m) -> NoDup (map fst (filter (fun kv => q (fst kv)) m)).
Proof.
  induction m as [|[k v] m IH]; simpl; intros Hnd; [constructor|].
  inversion Hnd as [|? ? Hnin Hnd']; subst.
  destruct (q k); simpl; [|apply IH; exact Hnd'].
  constructor; [|apply IH; exact Hnd'].
  intros Hin. apply Hnin. apply in_map_iff in Hin. destruct Hin as [kv [E Hin]].
  apply filter_In in Hin. destruct Hin as [Hin _].
  apply in_map_iff. exists kv. split; assumption.
Qed.

Lemma strip_keys_plain (m : fields) :
  is_file (obj_get m "type") = false ->
  strip_keys (JObj m) = filter (fun kv => negb (removed_key (fst kv))) m.
Proof.
  intros Hf. unfold strip_keys, omit, omitBy. rewrite map_cloneDeep.
  cbn [get entries]. rewrite Hf.
  induction m as [|[k v] m IH]; [reflexivity|].
  cbn [filter fst]. unfold removed_key at 1.
  assert (IH' : filter (fun kv => negb (isExtension (fst kv)))
                  (filter (fun kv => negb (existsb (String.eqb (fst kv)) swagger_only_keys)) m)
                = filter (fun kv => negb (removed_key (fst kv))) m).
  { clear. induction m as [|[k v] m IH]; [reflexivity|].
    cbn [filter fst]. unfold removed_key at 1.
    destruct (existsb (String.eqb k) swagger_only_keys); cbn [negb orb filter fst];
      [exact IH|].
    destruct (isExtension k); cbn [negb]; [exact IH | rewrite IH; reflexivity]. }
  destruct (existsb (String.eqb k) swagger_only_keys); cbn [negb orb filter fst];
    [exact IH'|].
  destruct (isExtension k); cbn [negb]; [exact IH' | rewrite IH'; reflexivity].
Qed.

Lemma strip_child_falsy (rec : json -> json) (k : string) (x : json) :
  (forall y, typeof_object y = false -> rec y = y) ->
  typeof_object x = false -> strip_child rec k x = x.
Proof.
  intros Hrec Hx. unfold strip_child.
  assert (Ea : is_array x = false) by (destruct x; try reflexivity; discriminate).
  rewrite Ea, andb_false_r.
  destruct (existsb (String.eqb k) ["not"; "items"; "additionalItems"; "additionalProperties"]);
    [apply Hrec; exact Hx|].
  destruct (existsb (String.eqb k) ["properties"; "patternProperties"]); [|reflexivity].
  destruct x; try reflexivity; discriminate.
Qed.

Lemma strip_atom (y : json) : typeof_object y = false -> stripSwaggerKeys y = y.
Proof. destruct y; try reflexivity; discriminate. Qed.

Lemma falsy_atom (x : json) : truthy x = false -> typeof_object x = false.
Proof. destruct x; try reflexivity; discriminate. Qed.

Lemma obj_get_strip_fields (m : fields) (k : string) :
  obj_get
    (flat_map
       (fun kv =>
          if removed_key (fst kv) then []
          else [(fst kv, strip_child stripSwaggerKeys (fst kv) (snd kv))]) m) k
  = if removed_key k then JUndef
    else strip_child stripSwaggerKeys k (obj_get m k).
Proof.
  induction m as [|[k0 v0] m IH]; cbn [flat_map obj_get fst snd].
  - destruct (removed_key k); [reflexivity|].
    symmetry. apply strip_child_falsy; [exact strip_atom | reflexivity].
  - destruct (removed_key k0) eqn:Er; cbn [app obj_get].
    + destruct (k0 =? k) eqn:E; [|exact IH].
      apply String.eqb_eq in E. subst k0. rewrite Er in IH |- *. exact IH.
    + destruct (k0 =? k) eqn:E; [|exact IH].
      apply String.eqb_eq in E. subst k0. rewrite Er. reflexivity.
Qed.

Lemma keys_strip_fields (m : fields) :
  map fst
    (flat_map
       (fun kv =>
          if removed_key (fst kv) then []
          else [(fst kv, strip_child stripSwaggerKeys (fst kv) (snd kv))]) m)
  = map fst (filter (fun kv => negb (removed_key (fst kv))) m).
Proof.
  induction m as [|[k0 v0] m IH]; cbn [flat_map filter fst snd]; [reflexivity|].
  destruct (removed_key k0); cbn [negb app map fst]; [exact IH|].
  rewrite IH. reflexivity.
Qed.

Lemma obj_get_map_values (g : json -> json) (p : fields) (k : string) :
  obj_get (map (fun kv => (fst kv, g (snd kv))) p) k
  = if obj_has p k then g (obj_get p k) else JUndef.
Proof.
  induction p as [|[k0 v0] p IH]; simpl; [reflexivity|].
  destruct (k0 =? k); [reflexivity | exact IH].
Qed.

Lemma child_key_kept (name : string) :
  In name child_keys -> removed_key name = false.
Proof.
  intros H. simpl in H. repeat (destruct H as [<-|H]; [reflexivity|]). contradiction.
Qed.

Lemma truthy_has (a : fields) (name : string) (x : json) :
  obj_get a name = x -> truthy x = true -> obj_has a name = true.
Proof.
  intros Ha Ht. apply obj_get_has. rewrite Ha. intros ->. discriminate.
Qed.

Lemma plain_object (c : json) : plain c -> exists m, c = JObj m.
Proof. intros H. inversion H. eexists. reflexivity. Qed.

Section PlainConversion.

Variable recurse : converter.
Variable m : fields.
Variable refs : list json.
Hypothesis m_plain : plain (JObj m).
Hypothesis recurse_plain :
  forall c r, plain c -> height c < height (JObj m) ->
              recurse c r = Ret (stripSwaggerKeys c, r).
Hypothesis recurse_growing : growing recurse.

Lemma map_convert_plain (l : list json) :
  (forall x, In x l -> plain x /\ height x < height (JObj m)) ->
  map_convert recurse l refs = Ret (map stripSwaggerKeys l, refs).
Proof.
  induction l as [|x l IH]; intros Hl; [reflexivity|].
  cbn [map_convert map]. destruct (Hl x (or_introl eq_refl)) as [Hp Hh].
  rewrite (recurse_plain x refs Hp Hh). cbn [bind].
  rewrite IH by (intros y Hy; apply Hl; right; exact Hy). reflexivity.
Qed.

Lemma converted_plain (lo hi : list json) (c c' : json) :
  plain c -> height c < height (JObj m) ->
  converted recurse lo hi c c' -> c' = stripSwaggerKeys c.
Proof.
  intros Hp Hh [r0 [r0' [Hcall _]]].
  rewrite (recurse_plain c r0 Hp Hh) in Hcall. inv_ret Hcall. reflexivity.
Qed.

Lemma child_plain (name : string) (c : json) :
  schema_child name (JObj m) c -> plain c /\ height c < height (JObj m).
Proof.
  intros Hc. split.
  - inversion m_plain as [m0 _ _ _ _ _ _ _ Hch]; subst. eapply Hch; eassumption.
  - inversion Hc as [n v l c' Hn Hg Hin| | | |n v p key Hn Hg Hin]; subst;
      try apply height_obj_get.
    + pose proof (height_obj_get m name). cbn [get] in Hg. rewrite Hg in H.
      pose proof (height_elem l c Hin). lia.
    + pose proof (height_obj_get m name). cbn [get] in Hg. rewrite Hg in H.
      pose proof (height_obj_get p key). lia.
Qed.

Lemma convert_each_plain (name : string) (a : fields) (l : list json) :
  In name ["allOf"; "anyOf"; "oneOf"; "items"] ->
  obj_get m name = JArr l ->
  convert_each recurse name (JObj m) a refs
  = Ret (obj_set name (JArr (map stripSwaggerKeys l)) a, refs).
Proof.
  intros Hn Hg. unfold convert_each. cbn [get]. rewrite Hg. cbn [truthy map_method].
  rewrite map_convert_plain; [reflexivity|].
  intros x Hx. apply (child_plain name). eapply child_each; eassumption.
Qed.

Lemma convert_one_plain (name : string) (a : fields) :
  schema_child name (JObj m) (obj_get m name) ->
  convert_one recurse name (JObj m) a refs
  = Ret (obj_set name (stripSwaggerKeys (obj_get m name)) a, refs).
Proof.
  intros Hc. unfold convert_one. cbn [get].
  destruct (child_plain _ _ Hc) as [Hp Hh].
  rewrite (recurse_plain _ refs Hp Hh). reflexivity.
Qed.

Lemma convert_keys_returns (name : string) (p : fields) (keys : list string) :
  (forall key, In key keys -> plain (obj_get p key)
                              /\ height (obj_get p key) < height (JObj m)) ->
  forall (a : fields) (p0 : fields),
    obj_get a name = JObj p0 ->
    exists a',
      fold_left
        (fun (acc : outcome (fields * list json)) (key : string) =>
           '(actualSchema, references) <- acc ;;
           '(converted, references) <- recurse (obj_get p key) references ;;
           target <- set_prop (obj_get actualSchema name) key converted ;;
           Ret (obj_set name target actualSchema, references))
        keys (Ret (a, refs)) = Ret (a', refs).
Proof.
  induction keys as [|key keys IH]; intros Hk a p0 Ha; cbn [fold_left].
  - exists a; reflexivity.
  - destruct (Hk key (or_introl eq_refl)) as [Hp Hh].
    cbn [bind]. rewrite (recurse_plain _ refs Hp Hh). cbn [bind].
    rewrite Ha. cbn [set_prop bind].
    apply IH with (p0 := obj_set key (stripSwaggerKeys (obj_get p key)) p0).
    + intros k' Hin. apply Hk. right; exact Hin.
    + apply obj_get_set_same.
Qed.

Lemma convert_keys_plain (name : string) (a : fields) (p : fields) :
  In name ["properties"; "patternProperties"] ->
  obj_get m name = JObj p -> NoDup (map fst p) -> obj_get a name = JObj p ->
  exists a',
    convert_keys recurse name (JObj m) a refs = Ret (a', refs)
    /\ map fst a' = map fst a
    /\ obj_get a' name = JObj (map (fun kv => (fst kv, stripSwaggerKeys (snd kv))) p)
    /\ forall k, name <> k -> obj_get a' k = obj_get a k.
Proof.
  intros Hn Hg Hnd Ha.
  assert (Hkeys : forall key, In key (map fst p) ->
                    plain (obj_get p key) /\ height (obj_get p key) < height (JObj m)).
  { intros key Hin. apply (child_plain name). eapply child_property; eassumption. }
  destruct (convert_keys_returns name p (map fst p) Hkeys a p Ha) as [a' Hrun].
  assert (Hrun' : convert_keys recurse name (JObj m) a refs = Ret (a', refs)).
  { unfold convert_keys. cbn [get]. rewrite Hg. exact Hrun. }
  exists a'. split; [exact Hrun'|].
  destruct (convert_keys_spec recurse recurse_growing name (JObj m) p a refs a' refs
              Hg Ha Hrun')
    as [_ [p' [Hp' [Hconv [Hout [Hoth [Hk Hkp]]]]]]].
  split; [exact Hk|]. split; [|exact Hoth].
  rewrite Hp'. f_equal. apply fields_ext.
  - rewrite Hkp. exact Hnd.
  - rewrite Hkp, map_map. reflexivity.
  - intros key. rewrite obj_get_map_values.
    destruct (obj_has p key) eqn:Eh.
    + apply obj_has_keys in Eh. destruct (Hkeys key Eh) as [Hpl Hh].
      apply (converted_plain refs refs); [exact Hpl | exact Hh|].
      apply Hconv. exact Eh.
    + apply Hout, obj_has_not_in, Eh.
Qed.

(** The step for [name], on a node that still holds under [name] what the
    schema holds there. *)
Lemma child_step_plain (name : string) (a : fields) :
  In name child_keys ->
  obj_get a name = obj_get m name ->
  exists a',
    child_step recurse (JObj m) name a refs = Ret (a', refs)
    /\ map fst a' = map fst a
    /\ obj_get a' name = strip_child stripSwaggerKeys name (obj_get m name)
    /\ forall k, name <> k -> obj_get a' k = obj_get a k.
Proof.
  intros Hn Ha.
  assert (Hkeep : exists a',
             Ret (a, refs) = Ret (a', refs) /\ map fst a' = map fst a
             /\ (typeof_object (obj_get m name) = false ->
                 obj_get a' name = strip_child stripSwaggerKeys name (obj_get m name))
             /\ forall k, name <> k -> obj_get a' k = obj_get a k).
  { exists a. split; [reflexivity|]. split; [reflexivity|]. split; [|reflexivity].
    intros Hf. rewrite Ha. symmetry.
    apply strip_child_falsy; [exact strip_atom | exact Hf]. }
  assert (Hset : forall v, obj_has a name = true ->
             map fst (obj_set name v a) = map fst a
             /\ obj_get (obj_set name v a) name = v
             /\ forall k, name <> k -> obj_get (obj_set name v a) k = obj_get a k).
  { intros v Ht. split; [|split; [apply obj_get_set_same|]].
    - apply obj_set_keys. exact Ht.
    - intros k Hk. apply obj_get_set_other; exact Hk. }
  inversion m_plain as [m0 _ _ _ _ _ Harr Hmap _]; subst.
  unfold child_step. simpl in Hn.
  destruct Hn as [<-|[<-|[<-|[<-|[<-|[<-|[<-|[<-|[<-|[]]]]]]]]]]; cbn [existsb String.eqb Ascii.eqb Bool.eqb orb andb].
  - (* allOf *)
    destruct (truthy (obj_get m "allOf")) eqn:Et.
    + pose proof (Harr "allOf" ltac:(simpl; tauto) Et) as Hi.
      destruct (obj_get m "allOf") as [| | | | |l|] eqn:Eg; try discriminate.
      rewrite (convert_each_plain "allOf" a l ltac:(simpl; tauto) Eg).
      eexists. split; [reflexivity|]. apply Hset, (truthy_has _ _ _ Ha Et).
    + unfold convert_each. cbn [get]. rewrite Et.
      destruct Hkeep as [a' [E [K1 [K2 K3]]]]. exists a'.
      repeat split; auto. apply K2, falsy_atom, Et.
  - (* anyOf *)
    destruct (truthy (obj_get m "anyOf")) eqn:Et.
    + pose proof (Harr "anyOf" ltac:(simpl; tauto) Et) as Hi.
      destruct (obj_get m "anyOf") as [| | | | |l|] eqn:Eg; try discriminate.
      rewrite (convert_each_plain "anyOf" a l ltac:(simpl; tauto) Eg).
      eexists. split; [reflexivity|]. apply Hset, (truthy_has _ _ _ Ha Et).
    + unfold convert_each. cbn [get]. rewrite Et.
      destruct Hkeep as [a' [E [K1 [K2 K3]]]]. exists a'.
      repeat split; auto. apply K2, falsy_atom, Et.
  - (* oneOf *)
    destruct (truthy (obj_get m "oneOf")) eqn:Et.
    + pose proof (Harr "oneOf" ltac:(simpl; tauto) Et) as Hi.
      destruct (obj_get m "oneOf") as [| | | | |l|] eqn:Eg; try discriminate.
      rewrite (convert_each_plain "oneOf" a l ltac:(simpl; tauto) Eg).
      eexists. split; [reflexivity|]. apply Hset, (truthy_has _ _ _ Ha Et).
    + unfold convert_each. cbn [get]. rewrite Et.
      destruct Hkeep as [a' [E [K1 [K2 K3]]]]. exists a'.
      repeat split; auto. apply K2, falsy_atom, Et.
  - (* not *)
    cbn [get]. destruct (truthy (obj_get m "not")) eqn:Et.
    + rewrite (convert_one_plain "not" a (child_not (JObj m) Et)).
      eexists. split; [reflexivity|]. apply Hset, (truthy_has _ _ _ Ha Et).
    + destruct Hkeep as [a' [E [K1 [K2 K3]]]]. exists a'.
      repeat split; auto. apply K2, falsy_atom, Et.
  - (* items *)
    cbn [get]. destruct (truthy (obj_get m "items")) eqn:Et.
    + destruct (is_array (obj_get m "items")) eqn:Ei.
      * destruct (obj_get m "items") as [| | | | |l|] eqn:Eg; try discriminate.
        rewrite (convert_each_plain "items" a l ltac:(simpl; tauto) Eg).
        eexists. split; [reflexivity|]. apply Hset, (truthy_has _ _ _ Ha Et).
      * rewrite (convert_one_plain "items" a (child_items (JObj m) Et Ei)).
        eexists. split; [reflexivity|].
        unfold strip_child. cbn [existsb String.eqb Ascii.eqb Bool.eqb orb andb].
        rewrite Ei. apply Hset, (truthy_has _ _ _ Ha Et).
    + destruct Hkeep as [a' [E [K1 [K2 K3]]]]. exists a'.
      repeat split; auto. apply K2, falsy_atom, Et.
  - (* additionalItems *)
    cbn [get].
    destruct (truthy (obj_get m "additionalItems")) eqn:Et; cbn [andb];
      [destruct (typeof_object (obj_get m "additionalItems")) eqn:Ety|].
    + rewrite (convert_one_plain "additionalItems" a
                 (child_additional "additionalItems" (JObj m) ltac:(simpl; tauto) Et Ety)).
      eexists. split; [reflexivity|].
      assert (Es : strip_child stripSwaggerKeys "additionalItems"
                     (obj_get m "additionalItems")
                   = stripSwaggerKeys (obj_get m "additionalItems")).
      { destruct (child_plain _ _
                    (child_additional "additionalItems" (JObj m) ltac:(simpl; tauto) Et Ety))
          as [Hp _].
        destruct (plain_object _ Hp) as [m1 E1]. cbn [get] in E1. rewrite E1. reflexivity. }
      rewrite Es. apply Hset, (truthy_has _ _ _ Ha Et).
    + destruct Hkeep as [a' [E [K1 [K2 K3]]]]. exists a'. repeat split; auto.
    + destruct Hkeep as [a' [E [K1 [K2 K3]]]]. exists a'.
      repeat split; auto. apply K2, falsy_atom, Et.
  - (* properties *)
    cbn [get]. destruct (truthy (obj_get m "properties")) eqn:Et.
    + destruct (Hmap "properties" ltac:(simpl; tauto) Et) as [p [Eg Hnd]].
      rewrite Eg in Ha.
      destruct (convert_keys_plain "properties" a p ltac:(simpl; tauto) Eg Hnd Ha)
        as [a' [Hrun [K1 [K2 K3]]]].
      exists a'. rewrite Eg. repeat split; auto.
    + destruct Hkeep as [a' [E [K1 [K2 K3]]]]. exists a'.
      repeat split; auto. apply K2, falsy_atom, Et.
  - (* patternProperties *)
    cbn [get]. destruct (truthy (obj_get m "patternProperties")) eqn:Et.
    + destruct (Hmap "patternProperties" ltac:(simpl; tauto) Et) as [p [Eg Hnd]].
      rewrite Eg in Ha.
      destruct (convert_keys_plain "patternProperties" a p ltac:(simpl; tauto) Eg Hnd Ha)
        as [a' [Hrun [K1 [K2 K3]]]].
      exists a'. rewrite Eg. repeat split; auto.
    + destruct Hkeep as [a' [E [K1 [K2 K3]]]]. exists a'.
      repeat split; auto. apply K2, falsy_atom, Et.
  - (* additionalProperties *)
    cbn [get].
    destruct (truthy (obj_get m "additionalProperties")) eqn:Et; cbn [andb];
      [destruct (typeof_object (obj_get m "additionalProperties")) eqn:Ety|].
    + rewrite (convert_one_plain "additionalProperties" a
                 (child_additional "additionalProperties" (JObj m)
                    ltac:(simpl; tauto) Et Ety)).
      eexists. split; [reflexivity|].
      assert (Es : strip_child stripSwaggerKeys "additionalProperties"
                     (obj_get m "additionalProperties")
                   = stripSwaggerKeys (obj_get m "additionalProperties")).
      { destruct (child_plain _ _
                    (child_additional "additionalProperties" (JObj m)
                       ltac:(simpl; tauto) Et Ety))
          as [Hp _].
        destruct (plain_object _ Hp) as [m1 E1]. cbn [get] in E1. rewrite E1.
        reflexivity. }
      rewrite Es. apply Hset, (truthy_has _ _ _ Ha Et).
    + destruct Hkeep as [a' [E [K1 [K2 K3]]]]. exists a'. repeat split; auto.
    + destruct Hkeep as [a' [E [K1 [K2 K3]]]]. exists a'.
      repeat split; auto. apply K2, falsy_atom, Et.
Qed.

Lemma run_steps_plain (names : list string) :
  NoDup names -> incl names child_keys ->
  forall a : fields,
    (forall name, In name names -> obj_get a name = obj_get m name) ->
    exists a',
      run_steps (map (child_step recurse (JObj m)) names) a refs = Ret (a', refs)
      /\ map fst a' = map fst a
      /\ (forall name, In name names ->
            obj_get a' name = strip_child stripSwaggerKeys name (obj_get m name))
      /\ forall k, ~ In k names -> obj_get a' k = obj_get a k.
Proof.
  induction names as [|name names IH]; intros Hnd Hincl a Ha.
  - exists a. cbn [map run_steps]. repeat split; auto. intros ? [].
  - inversion Hnd as [|? ? Hnin Hnd']; subst.
    destruct (child_step_plain name a (Hincl name (or_introl eq_refl))
                (Ha name (or_introl eq_refl)))
      as [a1 [Hstep [K1 [K2 K3]]]].
    destruct (IH Hnd' (fun x Hx => Hincl x (or_intror Hx)) a1) as [a' [Hrun [L1 [L2 L3]]]].
    { intros n' Hn'. rewrite K3 by (intros ->; contradiction).
      apply Ha. right; exact Hn'. }
    exists a'. cbn [map run_steps]. rewrite Hstep. cbn [bind].
    split; [exact Hrun|]. split; [congruence|]. split.
    + intros n' [<-|Hn']; [|apply L2; exact Hn'].
      rewrite L3 by exact Hnin. exact K2.
    + intros k Hk. rewrite L3 by (intros Hin; apply Hk; right; exact Hin).
      apply K3. intros ->. apply Hk. left; reflexivity.
Qed.

End PlainConversion.

Lemma strip_child_other (rec : json -> json) (k : string) (x : json) :
  ~ In k child_keys -> strip_child rec k x = x.
Proof.
  intros Hk. unfold strip_child.
  assert (Hno : forall l, incl l child_keys -> existsb (String.eqb k) l = false).
  { intros l Hl. destruct (existsb (String.eqb k) l) eqn:E; [|reflexivity].
    apply existsb_exists in E. destruct E as [y [Hy E]].
    apply String.eqb_eq in E. subst y. exfalso. apply Hk, Hl, Hy. }
  rewrite !Hno; [reflexivity| | |]; intros y Hy; simpl in Hy |- *; intuition.
Qed.

(** A plain schema is converted to its copy without the Swagger-only and
    extension keys, and no reference is recorded. *)
Lemma convertSubSchema_plain (swagger : json) (fuel : nat) :
  forall (schema : json) (refs : list json),
    plain schema -> height schema < fuel ->
    convertSubSchema fuel schema refs swagger = Ret (stripSwaggerKeys schema, refs).
Proof.
  induction fuel as [|fuel IH]; intros schema refs Hp Hh; [lia|].
  inversion Hp as [m Hnd Href Hnull Hfile Hex Harr Hmap Hch]; subst.
  cbn [convertSubSchema prop bind get]. rewrite Href, Hex, Hnull. cbn [bind].
  rewrite convert_children_run.
  assert (Hrec : forall c r, plain c -> height c < height (JObj m) ->
                   convertSubSchema fuel c r swagger = Ret (stripSwaggerKeys c, r)).
  { intros c r Hc Hlt. apply IH; [exact Hc | lia]. }
  rewrite (strip_keys_plain m Hfile).
  destruct (run_steps_plain (fun s r => convertSubSchema fuel s r swagger) m refs Hp
              Hrec (convertSubSchema_growing fuel swagger) child_keys child_keys_nodup
              (fun x Hx => Hx)
              (filter (fun kv => negb (removed_key (fst kv))) m))
    as [a' [Hrun [K1 [K2 K3]]]].
  { intros name Hn.
    rewrite (obj_get_filter_key (fun k => negb (removed_key k))).
    rewrite (child_key_kept name Hn). reflexivity. }
  rewrite Hrun. cbn [bind stripSwaggerKeys]. do 3 f_equal.
  apply fields_ext.
  - rewrite K1. apply (filter_keys_nodup (fun k => negb (removed_key k))). exact Hnd.
  - rewrite K1, keys_strip_fields. reflexivity.
  - intros k. rewrite obj_get_strip_fields.
    destruct (in_dec string_dec k child_keys) as [Hin|Hout].
    + rewrite (child_key_kept k Hin). apply K2. exact Hin.
    + rewrite (K3 k Hout), (obj_get_filter_key (fun k => negb (removed_key k))).
      destruct (removed_key k); cbn [negb]; [reflexivity|].
      symmetry. apply strip_child_other. exact Hout.
Qed.

(** [stripSwaggerKeys] of an object has no truthy [$ref] when the object has
    none. *)
Lemma strip_ref_falsy (m : fields) :
  truthy (obj_get m "$ref") = false ->
  truthy (get (stripSwaggerKeys (JObj m)) "$ref") = false.
Proof.
  intros H. cbn [stripSwaggerKeys get]. rewrite obj_get_strip_fields.
  assert (E : removed_key "$ref" = false) by reflexivity.
  rewrite E, strip_child_other; [exact H|].
  simpl. intuition discriminate.
Qed.

(** C7 (amended).  For a plain schema, that is an object schema with
    distinct keys in which the schema itself and every schema below it at a
    schema position has no truthy [$ref], [x-nullable] or [example], is not
    of type [file], holds arrays under a truthy [allOf], [anyOf] and [oneOf]
    and objects under a truthy [properties] and [patternProperties], and
    has no property named [__proto__], [constructor] or [prototype] (the
    keys lodash guards), [convertSchema] with fuel above the height of the
    schema returns [stripSwaggerKeys schema]: the schema with the extension
    keys and the Swagger-only keys removed at every schema position, every
    other key kept with its value and in its place, and no key added. *)
Theorem plain_schema_keeps_keys_and_structure
    (schema root swagger : json) (copyDefinitions : bool) (fuel : nat) :
  plain schema -> unguarded schema -> height schema < fuel ->
  convertSchema fuel schema root swagger copyDefinitions = Ret (stripSwaggerKeys schema).
Proof.
  intros Hp _ Hh. unfold convertSchema.
  rewrite (convertSubSchema_plain swagger fuel schema [] Hp Hh). cbn [bind].
  assert (E : (if copyDefinitions then Ret (stripSwaggerKeys schema)
               else Ret (stripSwaggerKeys schema))
              = (Ret (stripSwaggerKeys schema) : outcome json))
    by (destruct copyDefinitions; reflexivity).
  rewrite E. cbn [bind].
  inversion Hp as [m Hnd Href _ _ _ _ _ _]; subst.
  rewrite (strip_ref_falsy m Href). reflexivity.
Qed.

Lemma tagged_leaf_plain : plain tagged_leaf.
Proof.
  apply plain_node; try reflexivity.
  - repeat apply NoDup_cons; simpl; try apply NoDup_nil; intuition discriminate.
  - intros name Hn Ht. simpl in Hn.
    destruct Hn as [<-|[<-|[<-|[]]]]; discriminate Ht.
  - intros name Hn Ht. simpl in Hn. destruct Hn as [<-|[<-|[]]]; discriminate Ht.
  - intros name c Hc.
    inversion Hc as [n v l c' Hn Hg Hin|v Ht|v Ht Hi|n v Hn Ht Hty|n v p key Hn Hg Hin];
      subst; try discriminate.
    + simpl in Hn. destruct Hn as [<-|[<-|[<-|[<-|[]]]]]; discriminate Hg.
    + simpl in Hn. destruct Hn as [<-|[<-|[]]]; discriminate Ht.
    + simpl in Hn. destruct Hn as [<-|[<-|[]]]; discriminate Hg.
Qed.

Lemma tagged_schema_plain : plain tagged_schema.
Proof.
  apply plain_node; try reflexivity.
  - repeat apply NoDup_cons; simpl; try apply NoDup_nil; intuition discriminate.
  - intros name Hn Ht. simpl in Hn.
    destruct Hn as [<-|[<-|[<-|[]]]]; discriminate Ht.
  - intros name Hn Ht. simpl in Hn. destruct Hn as [<-|[<-|[]]]; [|discriminate Ht].
    eexists. split; [reflexivity|].
    apply NoDup_cons; [intros []|apply NoDup_nil].
  - intros name c Hc.
    inversion Hc as [n v l c' Hn Hg Hin|v Ht|v Ht Hi|n v Hn Ht Hty|n v p key Hn Hg Hin];
      subst; try discriminate.
    + simpl in Hn. destruct Hn as [<-|[<-|[<-|[<-|[]]]]]; discriminate Hg.
    + simpl in Hn. destruct Hn as [<-|[<-|[]]]; discriminate Ht.
    + simpl in Hn. destruct Hn as [<-|[<-|[]]]; [|discriminate Hg].
      injection Hg as <-. simpl in Hin. destruct Hin as [<-|[]].
      exact tagged_leaf_plain.
Qed.

Lemma tagged_leaf_unguarded : unguarded tagged_leaf.
Proof.
  apply unguarded_node.
  - intros k Hk. simpl in Hk. destruct Hk as [<-|[<-|[]]]; reflexivity.
  - intros name c Hc.
    inversion Hc as [n v l c' Hn Hg Hin|v Ht|v Ht Hi|n v Hn Ht Hty|n v p key Hn Hg Hin];
      subst; try discriminate.
    + simpl in Hn. destruct Hn as [<-|[<-|[<-|[<-|[]]]]]; discriminate Hg.
    + simpl in Hn. destruct Hn as [<-|[<-|[]]]; discriminate Ht.
    + simpl in Hn. destruct Hn as [<-|[<-|[]]]; discriminate Hg.
Qed.

Lemma tagged_schema_unguarded : unguarded tagged_schema.
Proof.
  apply unguarded_node.
  - intros k Hk. simpl in Hk.
    repeat (destruct Hk as [<-|Hk]; [reflexivity|]). contradiction.
  - intros name c Hc.
    inversion Hc as [n v l c' Hn Hg Hin|v Ht|v Ht Hi|n v Hn Ht Hty|n v p key Hn Hg Hin];
      subst; try discriminate.
    + simpl in Hn. destruct Hn as [<-|[<-|[<-|[<-|[]]]]]; discriminate Hg.
    + simpl in Hn. destruct Hn as [<-|[<-|[]]]; discriminate Ht.
    + simpl in Hn. destruct Hn as [<-|[<-|[]]]; [|discriminate Hg].
      injection Hg as <-. simpl in Hin. destruct Hin as [<-|[]].
      exact tagged_leaf_unguarded.
Qed.

Lemma plain_schema_keeps_keys_and_structure_witness :
  convertSchema 5 tagged_schema (JObj []) (JObj []) true
  = Ret (JObj [("type", JStr "object");
               ("properties", JObj [("name", JObj [("type", JStr "string")])])]).
Proof.
  apply (plain_schema_keeps_keys_and_structure tagged_schema (JObj []) (JObj []) true 5).
  - exact tagged_schema_plain.
  - exact tagged_schema_unguarded.
  - vm_compute. lia.
Defined.

(** C7, as stated, fails: a truthy [example] is removed and the key
    [examples] is added. *)
Lemma example_adds_examples_key :
  get example_string_schema "$ref" = JUndef
  /\ get example_string_schema "x-nullable" = JUndef
  /\ is_file (get example_string_schema "type") = false
  /\ convertSchema 3 example_string_schema (JObj []) (JObj []) true
     = Ret (JObj [("type", JStr "string"); ("examples", JArr [JStr "foo"])])
  /\ stripSwaggerKeys example_string_schema = JObj [("type", JStr "string")]
  /\ obj_has [("type", JStr "string"); ("example", JStr "foo")] "examples" = false.
Proof. repeat split. Qed.

(** * The store model: what a call may touch *)

Module StoreFacts.

Import Store.

#[local] Arguments Store.lookupReference : simpl never.

(** ** Heaps *)

Lemma store_length_update (h : heap) (l : loc) (c : cell) :
  List.length (update h l c) = List.length h.
Proof.
  revert l. induction h as [|x h IH]; intros [|l]; simpl; auto.
Qed.

Lemma store_nth_update_other (h : heap) (l l' : loc) (c : cell) :
  l <> l' -> nth_error (update h l c) l' = nth_error h l'.
Proof.
  revert l l'. induction h as [|x h IH]; intros [|l] [|l'] Hne; simpl; auto;
    try contradiction; try (apply IH; intros ->; apply Hne; reflexivity).
Qed.

Lemma store_nth_update_same (h : heap) (l : loc) (c : cell) :
  l < List.length h -> nth_error (update h l c) l = Some c.
Proof.
  revert l. induction h as [|x h IH]; intros [|l] Hl; simpl in *; try lia; auto.
  apply IH. lia.
Qed.

Lemma store_read_nth (h : heap) (l : loc) :
  read h l = match nth_error h l with Some c => c | None => CObj [] end.
Proof.
  unfold read. revert l. induction h as [|x h IH]; intros [|l]; simpl; auto.
Qed.

Lemma store_read_same (h h' : heap) (l : loc) :
  nth_error h' l = nth_error h l -> read h' l = read h l.
Proof. intros H. rewrite !store_read_nth, H. reflexivity. Qed.

Lemma store_read_update_same (h : heap) (l : loc) (c : cell) :
  l < List.length h -> read (update h l c) l = c.
Proof.
  intros Hl. rewrite store_read_nth, store_nth_update_same by exact Hl. reflexivity.
Qed.

Lemma store_read_update_other (h : heap) (l l' : loc) (c : cell) :
  l <> l' -> read (update h l c) l' = read h l'.
Proof. intros Hne. apply store_read_same, store_nth_update_other, Hne. Qed.

Lemma store_read_alloc (h : heap) (l : loc) (c : cell) :
  l < List.length h -> read (h ++ [c]) l = read h l.
Proof. intros Hl. apply store_read_same, nth_error_app1, Hl. Qed.

(** ** Frames *)

Lemma frame_refl (n : nat) (h : heap) : frame n h h.
Proof. split; [lia | reflexivity]. Qed.

Lemma frame_trans (n : nat) (h1 h2 h3 : heap) :
  frame n h1 h2 -> frame n h2 h3 -> frame n h1 h3.
Proof.
  intros [L1 F1] [L2 F2]. split; [lia|].
  intros l Hl. rewrite (F2 l Hl). apply F1, Hl.
Qed.

Lemma frame_weaken (n n' : nat) (h h' : heap) :
  n' <= n -> frame n h h' -> frame n' h h'.
Proof. intros Hn [L F]. split; [exact L|]. intros l Hl. apply F. lia. Qed.

Lemma frame_alloc (n : nat) (h : heap) (c : cell) :
  n <= List.length h -> frame n h (h ++ [c]).
Proof.
  intros Hn. split; [rewrite length_app; simpl; lia|].
  intros l Hl. apply nth_error_app1. lia.
Qed.

Lemma frame_update (n : nat) (h : heap) (l : loc) (c : cell) :
  n <= l -> frame n h (update h l c).
Proof.
  intros Hn. split; [rewrite store_length_update; lia|].
  intros l' Hl'. apply store_nth_update_other. lia.
Qed.

Lemma frame_length (n : nat) (h h' : heap) :
  frame n h h' -> List.length h <= List.length h'.
Proof. intros [L _]. exact L. Qed.

Lemma frame_read (n : nat) (h h' : heap) (l : loc) :
  frame n h h' -> l < n -> read h' l = read h l.
Proof. intros [_ F] Hl. apply store_read_same, F, Hl. Qed.

(** ** Fresh values and owned cells *)

Lemma fresh_weaken (n n' : nat) (v : val) : n' <= n -> fresh n v -> fresh n' v.
Proof. destruct v; simpl; auto. lia. Qed.

Lemma fresh_all_weaken (n n' : nat) (l : list val) :
  n' <= n -> Forall (fresh n) l -> Forall (fresh n') l.
Proof.
  intros Hn H. eapply Forall_impl; [|exact H]. intros v. apply fresh_weaken, Hn.
Qed.

Lemma cell_fresh_weaken (n n' : nat) (c : cell) :
  n' <= n -> cell_fresh n c -> cell_fresh n' c.
Proof. destruct c; simpl; apply fresh_all_weaken. Qed.

Lemma fresh_props_get (n : nat) (m : props) (k : string) :
  Forall (fresh n) (map snd m) -> fresh n (props_get m k).
Proof.
  induction m as [|[k' v] m IH]; simpl; intros H; [exact I|].
  inversion H as [|? ? Hv Hm]; subst.
  destruct (k' =? k); [exact Hv | apply IH, Hm].
Qed.

Lemma fresh_elems_get (n : nat) (a : list val) (i : nat) (k : string) :
  Forall (fresh n) a -> fresh n (elems_get a i k).
Proof.
  revert i. induction a as [|x a IH]; simpl; intros i H; [exact I|].
  inversion H as [|? ? Hv Ha]; subst.
  destruct (key_of_index i =? k); [exact Hv | apply IH, Ha].
Qed.

Lemma fresh_props_set (n : nat) (k : string) (v : val) (m : props) :
  fresh n v -> Forall (fresh n) (map snd m) ->
  Forall (fresh n) (map snd (props_set k v m)).
Proof.
  intros Hv Hm. unfold props_set.
  destruct (props_has m k).
  - induction m as [|[k' v'] m IH]; simpl; [constructor|].
    inversion Hm as [|? ? Hv' Hm']; subst.
    destruct (k' =? k); simpl; constructor; auto.
  - destruct (index_of_key k) as [i|].
    + induction m as [|[k' v'] m IH]; simpl; [repeat constructor; exact Hv|].
      inversion Hm as [|? ? Hv' Hm']; subst.
      destruct (index_of_key k') as [j|]; [destruct (j <? i)%N|]; simpl;
        repeat constructor; auto.
    + rewrite map_app. apply Forall_app. split; [exact Hm|].
      repeat constructor. exact Hv.
Qed.

Lemma fresh_elems_set (n : nat) (a : list val) (i : nat) (v : val) :
  fresh n v -> Forall (fresh n) a -> Forall (fresh n) (elems_set a i v).
Proof.
  intros Hv. revert i. induction a as [|x a IH]; intros i Ha.
  - induction i as [|i IHi]; simpl; repeat constructor; auto.
  - inversion Ha as [|? ? Hx Ha']; subst.
    destruct i as [|i]; simpl; constructor; auto.
Qed.

Lemma own_range (n : nat) (h : heap) (a : val) : own n h a -> n <= List.length h.
Proof. intros [l [_ [H1 [H2 _]]]]. lia. Qed.

Lemma own_fresh (n : nat) (h : heap) (a : val) : own n h a -> fresh n a.
Proof. intros [l [-> [H1 _]]]. exact H1. Qed.

Lemma own_weaken (n n' : nat) (h : heap) (a : val) :
  n' <= n -> own n h a -> own n' h a.
Proof.
  intros Hn [l [E [H1 [H2 H3]]]]. exists l. repeat split; auto; try lia.
  eapply cell_fresh_weaken; eassumption.
Qed.

(** What is read from an owned cell is fresh. *)
Lemma own_get (n : nat) (h : heap) (a : val) (k : string) :
  own n h a -> fresh n (get h a k).
Proof.
  intros [l [-> [H1 [H2 H3]]]]. simpl. destruct (read h l) as [m|elems]; simpl in H3.
  - apply fresh_props_get, H3.
  - destruct (k =? "length"); [exact I | apply fresh_elems_get, H3].
Qed.

(** A call that leaves the cells allocated before it alone keeps an owned
    cell. *)
Lemma own_frame (n : nat) (h h' : heap) (a : val) :
  frame (List.length h) h h' -> own n h a -> own n h' a.
Proof.
  intros Hf [l [E [H1 [H2 H3]]]]. exists l.
  pose proof (frame_length _ _ _ Hf). repeat split; auto; try lia.
  rewrite (frame_read _ _ _ l Hf H2). exact H3.
Qed.

Lemma own_alloc (n : nat) (h : heap) (a : val) (c : cell) :
  own n h a -> own n (h ++ [c]) a.
Proof. apply own_frame, frame_alloc. lia. Qed.

Lemma own_update (n : nat) (h : heap) (a : val) (l : loc) (c : cell) :
  (cell_fresh n (read h l) -> cell_fresh n c) ->
  own n h a -> own n (update h l c) a.
Proof.
  intros Hc [la [E [H1 [H2 H3]]]]. exists la.
  rewrite store_length_update. repeat split; auto.
  destruct (Nat.eq_dec l la) as [->|Hne].
  - rewrite store_read_update_same by exact H2. apply Hc, H3.
  - rewrite store_read_update_other by exact Hne. exact H3.
Qed.

(** A new cell that holds fresh values is owned. *)
Lemma own_new (n : nat) (h : heap) (c : cell) :
  n <= List.length h -> cell_fresh n c -> own n (h ++ [c]) (VRef (List.length h)).
Proof.
  intros Hn Hc. exists (List.length h). repeat split; auto.
  - rewrite length_app. simpl. lia.
  - rewrite store_read_nth, nth_error_app2, Nat.sub_diag by lia. exact Hc.
Qed.

(** ** Assignments *)

Lemma set_prop_frame (n : nat) (target : val) (k : string) (v : val) (h h' : heap) :
  set_prop target k v h = Ret h' -> fresh n target -> frame n h h'.
Proof.
  unfold set_prop. destruct target as [| | | | |l]; try discriminate.
  simpl. intros H Hl.
  destruct (read h l) as [m|a].
  - inv_ret H. apply frame_update, Hl.
  - destruct (index_of_key k); [|discriminate]. inv_ret H. apply frame_update, Hl.
Qed.

Lemma set_prop_own (n : nat) (target : val) (k : string) (v : val) (h h' : heap)
    (a : val) :
  set_prop target k v h = Ret h' -> fresh n v -> own n h a -> own n h' a.
Proof.
  unfold set_prop. destruct target as [| | | | |l]; try discriminate.
  intros H Hv Ha.
  destruct (read h l) as [m|elems] eqn:Er.
  - inv_ret H. apply own_update; [|exact Ha]. rewrite Er. simpl.
    apply fresh_props_set, Hv.
  - destruct (index_of_key k); [|discriminate]. inv_ret H.
    apply own_update; [|exact Ha]. rewrite Er. simpl. apply fresh_elems_set, Hv.
Qed.

Lemma set_prop_length (target : val) (k : string) (v : val) (h h' : heap) :
  set_prop target k v h = Ret h' -> List.length h' = List.length h.
Proof.
  unfold set_prop. destruct target as [| | | | |l]; try discriminate.
  destruct (read h l) as [m|elems]; [|destruct (index_of_key k); [|discriminate]];
    intros H; inv_ret H; apply store_length_update.
Qed.

(** ** Loops *)

Lemma store_fold_stuck {S K : Type} (step : S -> K -> outcome S) (keys : list K)
    (o : outcome S) :
  (forall s, o <> Ret s) ->
  fold_left (fun acc k => bind acc (fun s => step s k)) keys o = o.
Proof.
  intros Ho. induction keys as [|k keys IH]; simpl; [reflexivity|].
  destruct o as [s| |]; simpl; [exfalso; apply (Ho s); reflexivity | exact IH..].
Qed.

(** An invariant of the steps of a [forEach] holds when it is over. *)
Lemma store_fold_inv {S K : Type} (step : S -> K -> outcome S) (I : S -> Prop)
    (keys : list K) :
  (forall s k s', I s -> step s k = Ret s' -> I s') ->
  forall s s',
    I s ->
    fold_left (fun acc k => bind acc (fun s => step s k)) keys (Ret s) = Ret s' ->
    I s'.
Proof.
  intros Hstep. induction keys as [|k keys IH]; simpl; intros s s' Hs H.
  - inv_ret H. exact Hs.
  - destruct (step s k) as [s1| |] eqn:E.
    + apply (IH s1 s'); [eapply Hstep; eassumption | exact H].
    + rewrite store_fold_stuck in H by discriminate. discriminate.
    + rewrite store_fold_stuck in H by discriminate. discriminate.
Qed.

Lemma map_heap_frame {A B : Type} (f : A -> heap -> outcome (B * heap))
    (Q : nat -> B -> Prop) :
  (forall n n' y, n' <= n -> Q n y -> Q n' y) ->
  (forall x h y h', f x h = Ret (y, h') -> frame (List.length h) h h' /\ Q (List.length h) y) ->
  forall l h ys h',
    map_heap f l h = Ret (ys, h') ->
    frame (List.length h) h h' /\ Forall (Q (List.length h)) ys.
Proof.
  intros Hq Hf. induction l as [|x l IH]; simpl; intros h ys h' H.
  - inv_ret H. split; [apply frame_refl | constructor].
  - inv_bind H. destruct a as [y h1]. inv_bind H. destruct a as [ys1 h2]. inv_ret H.
    destruct (Hf _ _ _ _ Hstep) as [F1 Q1].
    destruct (IH _ _ _ Hstep0) as [F2 Q2].
    pose proof (frame_length _ _ _ F1) as L1.
    split.
    + eapply frame_trans; [exact F1|]. eapply frame_weaken; [|exact F2]. exact L1.
    + constructor; [exact Q1|].
      eapply Forall_impl; [|exact Q2]. intros y0. apply Hq. exact L1.
Qed.

Lemma map_elems_frame (f : val -> heap -> outcome (val * heap)) (array : loc) :
  (forall x h y h', f x h = Ret (y, h') -> frame (List.length h) h h') ->
  forall indices h ys h',
    map_elems f array indices h = Ret (ys, h') -> frame (List.length h) h h'.
Proof.
  intros Hf. induction indices as [|i indices IH]; simpl; intros h ys h' H.
  - inv_ret H. apply frame_refl.
  - inv_bind H. destruct a as [y h1]. inv_bind H. destruct a as [ys1 h2]. inv_ret H.
    assert (F1 : frame (List.length h) h h1).
    { destruct (elem h array i) as [x|]; [eapply Hf; eassumption|].
      inv_ret Hstep. apply frame_refl. }
    pose proof (frame_length _ _ _ F1) as L1.
    eapply frame_trans; [exact F1|].
    eapply frame_weaken; [|eapply IH; eassumption]. exact L1.
Qed.

(** ** The library calls and the dereferencer *)

(** [_.cloneDeep] touches no cell that was there, and what it returns is
    new: a primitive, or a new cell that holds new values. *)
Lemma cloneDeep_fresh (fuel : nat) :
  forall (value : val) (h : heap) (v' : val) (h' : heap),
    cloneDeep fuel value h = Ret (v', h') ->
    frame (List.length h) h h'
    /\ fresh (List.length h) v'
    /\ (typeof_object value = true -> own (List.length h) h' v').
Proof.
  induction fuel as [|fuel IH]; simpl; intros value h v' h' H; [discriminate|].
  destruct value as [| | | | |l];
    try (inv_ret H; split; [apply frame_refl | split; [exact I | discriminate]]).
  destruct (read h l) as [m|a].
  - inv_bind H. destruct a as [m' h1]. unfold alloc in H. inv_ret H.
    assert (Hkv : forall (x : string * val) h0 (y : string * val) h0',
               ('(v, h) <- cloneDeep fuel (snd x) h0 ;; Ret ((fst x, v), h))
               = Ret (y, h0') ->
               frame (List.length h0) h0 h0' /\ fresh (List.length h0) (snd y)).
    { intros x h0 y h0' Hx. inv_bind Hx. destruct a as [v0 h2]. inv_ret Hx.
      destruct (IH _ _ _ _ Hstep0) as [F [Fr _]]. split; [exact F | exact Fr]. }
    destruct (map_heap_frame _ (fun n (kv : string * val) => fresh n (snd kv))
                (fun n n' y Hn => fresh_weaken n n' (snd y) Hn) Hkv _ _ _ _ Hstep)
      as [F Q].
    pose proof (frame_length _ _ _ F) as L.
    split; [|split].
    + eapply frame_trans; [exact F|]. apply frame_alloc, L.
    + simpl. exact L.
    + intros _. apply own_new; [exact L|]. simpl. apply Forall_map. exact Q.
  - inv_bind H. destruct a0 as [a' h1]. unfold alloc in H. inv_ret H.
    assert (Hx : forall x h0 y h0',
               cloneDeep fuel x h0 = Ret (y, h0') ->
               frame (List.length h0) h0 h0' /\ fresh (List.length h0) y).
    { intros x h0 y h0' Hx. destruct (IH _ _ _ _ Hx) as [F [Fr _]].
      split; [exact F | exact Fr]. }
    destruct (map_heap_frame _ fresh fresh_weaken Hx _ _ _ _ Hstep) as [F Q].
    pose proof (frame_length _ _ _ F) as L.
    split; [|split].
    + eapply frame_trans; [exact F|]. apply frame_alloc, L.
    + simpl. exact L.
    + intros _. apply own_new; [exact L|]. exact Q.
Qed.

(** [dereference] touches no cell that was there. *)
Lemma dereference_frame (fuel : nat) :
  forall (example root : val) (paths path : option (list string)) (h : heap)
         (v : val) (h' : heap),
    dereference fuel example root paths path h = Ret (v, h') ->
    frame (List.length h) h h'.
Proof.
  induction fuel as [|fuel IH]; intros example root paths path h v h' H;
    [discriminate|].
  cbn [dereference] in H.
  assert (Hgo :
    match ref_string h example with
    | Some ref =>
        if is_some path && pathHasCircularReference paths path ref
        then Ret (VNull, h)
        else
          '(_, referenced) <- lookupReference h (VStr ref) root None ;;
          dereference fuel referenced root
            (Some (or_empty paths ++ [join "/" (or_empty path)]))
            (Some (split slash ref)) h
    | None =>
        match example with
        | VRef l =>
            match read h l with
            | CArr a =>
                '(a', h) <-
                  map_elems (fun value => dereference fuel value root paths path)
                    l (seq 0 (List.length a)) h ;;
                Ret (alloc (CArr a') h)
            | CObj _ =>
                let '(result, h0) := alloc (CObj []) h in
                h' <-
                  fold_left
                    (fun (acc : outcome heap) (key : string) =>
                       h <- acc ;;
                       '(value, h) <-
                         dereference fuel (get h example key) root paths
                           (Some (or_empty path ++ [key])) h ;;
                       set_prop result key value h)
                    (forEach_keys h example) (Ret h0) ;;
                Ret (result, h')
            end
        | _ => Ret (example, h)
        end
    end = Ret (v, h') -> frame (List.length h) h h').
  { clear H. intros H.
    destruct (ref_string h example) as [ref|].
    - destruct (is_some path && pathHasCircularReference paths path ref).
      + inv_ret H. apply frame_refl.
      + inv_bind H. destruct a as [id referenced]. eapply IH; eassumption.
    - destruct example as [| | | | |l]; try (inv_ret H; apply frame_refl).
      destruct (read h l) as [m|a].
      + unfold alloc in H. inv_bind H. inv_ret H.
        eapply frame_trans; [apply frame_alloc; apply Nat.le_refl|].
        revert Hstep.
        apply (store_fold_inv
                 (fun (h0 : heap) (key : string) =>
                    '(value, h1) <-
                      dereference fuel (get h0 (VRef l) key) root paths
                        (Some (or_empty path ++ [key])) h0 ;;
                    set_prop (VRef (List.length h)) key value h1)
                 (fun hc => frame (List.length h) (h ++ [CObj []]) hc)).
        * intros s k s' Hs Hk. inv_bind Hk. destruct a as [value h1].
          pose proof (frame_length _ _ _ Hs) as L.
          rewrite length_app in L. simpl in L.
          eapply frame_trans; [exact Hs|].
          eapply frame_trans.
          -- eapply frame_weaken; [|eapply IH; eassumption]. lia.
          -- eapply set_prop_frame; [eassumption|]. simpl. lia.
        * apply frame_refl.
      + inv_bind H. destruct a0 as [a' h1]. unfold alloc in H. inv_ret H.
        assert (F : frame (List.length h) h h1).
        { refine (map_elems_frame _ l _ _ _ _ _ Hstep).
          intros x h0 y h0' Hx. eapply IH; eassumption. }
        eapply frame_trans; [exact F|].
        apply frame_alloc, (frame_length _ _ _ F). }
  destruct example; try exact (Hgo H); inv_ret H; apply frame_refl.
Qed.

(** ** The converter *)

Lemma created_fresh (n m : nat) (h : heap) (v : val) :
  n <= m -> created m h v -> fresh n v.
Proof. intros Hn [l [-> [H1 _]]]. simpl. lia. Qed.

Lemma own_created (n : nat) (h : heap) (a : val) : own n h a -> created n h a.
Proof. intros [l [E [H1 [H2 _]]]]. exists l. auto. Qed.

Section ConverterFrame.

Variable recurse : converter.
Hypothesis recurse_allocates : allocates recurse.
Variable n : nat.
Variable a : val.

Lemma recurse_frame (s : val) (refs : list val) (h : heap) (r : val)
    (refs' : list val) (h' : heap) :
  own n h a -> recurse s refs h = Ret ((r, refs'), h') ->
  frame n h h' /\ own n h' a /\ fresh n r.
Proof.
  intros Ha H. destruct (recurse_allocates _ _ _ _ _ _ H) as [F C].
  pose proof (own_range _ _ _ Ha) as L.
  split; [eapply frame_weaken; [exact L | exact F]|].
  split; [eapply own_frame; eassumption|].
  eapply created_fresh; eassumption.
Qed.

Lemma map_convert_frame (array : loc) (indices : list nat) :
  forall (refs : list val) (h : heap) (ys refs' : list val) (h' : heap),
    own n h a ->
    map_convert recurse array indices refs h = Ret ((ys, refs'), h') ->
    frame n h h' /\ own n h' a /\ Forall (fresh n) ys.
Proof.
  induction indices as [|i indices IH]; simpl; intros refs h ys refs' h' Ha H.
  - inv_ret H. split; [apply frame_refl | split; [exact Ha | constructor]].
  - inv_bind H. destruct a0 as [[y refs1] h1].
    inv_bind H. destruct a0 as [[ys1 refs2] h2]. inv_ret H.
    assert (S1 : frame n h h1 /\ own n h1 a /\ fresh n y).
    { destruct (elem h array i) as [x|]; [eapply recurse_frame; eassumption|].
      inv_ret Hstep. split; [apply frame_refl | split; [exact Ha | exact I]]. }
    destruct S1 as [F1 [A1 Y1]].
    destruct (IH _ _ _ _ _ A1 Hstep0) as [F2 [A2 Y2]].
    split; [eapply frame_trans; eassumption|].
    split; [exact A2 | constructor; assumption].
Qed.

Lemma map_method_frame (v : val) (refs : list val) (h : heap) (c : val)
    (refs' : list val) (h' : heap) :
  own n h a ->
  map_method recurse v refs h = Ret ((c, refs'), h') ->
  frame n h h' /\ own n h' a /\ fresh n c.
Proof.
  intros Ha H. unfold map_method in H.
  destruct v as [| | | | |l]; try discriminate.
  destruct (read h l) as [m|elems]; [discriminate|].
  inv_bind H. destruct a0 as [[a' refs1] h1]. unfold alloc in H. inv_ret H.
  destruct (map_convert_frame _ _ _ _ _ _ _ Ha Hstep) as [F [A Y]].
  pose proof (own_range _ _ _ A) as L.
  split; [eapply frame_trans; [exact F | apply frame_alloc, L]|].
  split; [apply own_alloc, A | exact L].
Qed.

Lemma assign_frame (target : val) (k : string) (v : val) (h0 h h' : heap) :
  frame n h0 h -> own n h a -> fresh n target -> fresh n v ->
  set_prop target k v h = Ret h' ->
  frame n h0 h' /\ own n h' a.
Proof.
  intros F A Ht Hv H. split.
  - eapply frame_trans; [exact F|]. eapply set_prop_frame; eassumption.
  - eapply set_prop_own; eassumption.
Qed.

Lemma convert_each_frame (name : string) (schema : val) (refs : list val) (h : heap)
    (refs' : list val) (h' : heap) :
  own n h a ->
  convert_each recurse name schema a refs h = Ret (refs', h') ->
  frame n h h' /\ own n h' a.
Proof.
  intros Ha H. unfold convert_each in H.
  destruct (truthy (get h schema name)).
  - inv_bind H. destruct a0 as [[c refs1] h1]. inv_bind H. inv_ret H.
    destruct (map_method_frame _ _ _ _ _ _ Ha Hstep) as [F [A Y]].
    exact (assign_frame a name c h h1 h' F A (own_fresh _ _ _ A) Y Hstep0).
  - inv_ret H. split; [apply frame_refl | exact Ha].
Qed.

Lemma convert_one_frame (name : string) (schema : val) (refs : list val) (h : heap)
    (refs' : list val) (h' : heap) :
  own n h a ->
  convert_one recurse name schema a refs h = Ret (refs', h') ->
  frame n h h' /\ own n h' a.
Proof.
  intros Ha H. unfold convert_one in H.
  inv_bind H. destruct a0 as [[c refs1] h1]. inv_bind H. inv_ret H.
  destruct (recurse_frame _ _ _ _ _ _ Ha Hstep) as [F [A Y]].
  exact (assign_frame a name c h h1 h' F A (own_fresh _ _ _ A) Y Hstep0).
Qed.

Lemma convert_keys_frame (name : string) (schema : val) (refs : list val) (h : heap)
    (refs' : list val) (h' : heap) :
  own n h a ->
  convert_keys recurse name schema a refs h = Ret (refs', h') ->
  frame n h h' /\ own n h' a.
Proof.
  intros Ha H. unfold convert_keys in H. revert H.
  apply (store_fold_inv
           (fun (s : list val * heap) (key : string) =>
              let '(references, h) := s in
              let target := get h a name in
              '((converted, references), h) <-
                recurse (get h (get h schema name) key) references h ;;
              h <- set_prop target key converted h ;;
              Ret (references, h))
           (fun s => frame n h (snd s) /\ own n (snd s) a)
           (object_keys h (get h schema name))).
  - intros [refs0 h0] key [refs1 h1] [F A] H. simpl in F, A |- *.
    inv_bind H. destruct a0 as [[c refs2] h2]. inv_bind H. inv_ret H.
    destruct (recurse_frame _ _ _ _ _ _ A Hstep) as [F2 [A2 Y2]].
    exact (assign_frame (get h0 a name) key c h h2 h1 (frame_trans _ _ _ _ F F2) A2
             (own_get _ _ _ name A) Y2 Hstep0).
  - simpl. split; [apply frame_refl | exact Ha].
Qed.

Lemma convert_children_frame (schema : val) (refs : list val) (h : heap)
    (refs' : list val) (h' : heap) :
  own n h a ->
  convert_children recurse schema a refs h = Ret (refs', h') ->
  frame n h h' /\ own n h' a.
Proof.
  intros Ha H. unfold convert_children in H.
  inv_bind H. destruct a0 as [r1 h1].
  destruct (convert_each_frame _ _ _ _ _ _ Ha Hstep) as [F1 A1].
  inv_bind H. destruct a0 as [r2 h2].
  destruct (convert_each_frame _ _ _ _ _ _ A1 Hstep0) as [F2 A2].
  inv_bind H. destruct a0 as [r3 h3].
  destruct (convert_each_frame _ _ _ _ _ _ A2 Hstep1) as [F3 A3].
  inv_bind H. destruct a0 as [r4 h4].
  assert (S4 : frame n h3 h4 /\ own n h4 a).
  { destruct (truthy (get h3 schema "not"));
      [eapply convert_one_frame; eassumption|].
    inv_ret Hstep2. split; [apply frame_refl | exact A3]. }
  destruct S4 as [F4 A4].
  inv_bind H. destruct a0 as [r5 h5].
  assert (S5 : frame n h4 h5 /\ own n h5 a).
  { destruct (truthy (get h4 schema "items"));
      [destruct (is_array h4 (get h4 schema "items"));
       [eapply convert_each_frame | eapply convert_one_frame]; eassumption|].
    inv_ret Hstep3. split; [apply frame_refl | exact A4]. }
  destruct S5 as [F5 A5].
  inv_bind H. destruct a0 as [r6 h6].
  assert (S6 : frame n h5 h6 /\ own n h6 a).
  { destruct (truthy (get h5 schema "additionalItems")
              && typeof_object (get h5 schema "additionalItems"));
      [eapply convert_one_frame; eassumption|].
    inv_ret Hstep4. split; [apply frame_refl | exact A5]. }
  destruct S6 as [F6 A6].
  inv_bind H. destruct a0 as [r7 h7].
  assert (S7 : frame n h6 h7 /\ own n h7 a).
  { destruct (truthy (get h6 schema "properties"));
      [eapply convert_keys_frame; eassumption|].
    inv_ret Hstep5. split; [apply frame_refl | exact A6]. }
  destruct S7 as [F7 A7].
  inv_bind H. destruct a0 as [r8 h8].
  assert (S8 : frame n h7 h8 /\ own n h8 a).
  { destruct (truthy (get h7 schema "patternProperties"));
      [eapply convert_keys_frame; eassumption|].
    inv_ret Hstep6. split; [apply frame_refl | exact A7]. }
  destruct S8 as [F8 A8].
  assert (S9 : frame n h8 h' /\ own n h' a).
  { destruct (truthy (get h8 schema "additionalProperties")
              && typeof_object (get h8 schema "additionalProperties"));
      [eapply convert_one_frame; eassumption|].
    inv_ret H. split; [apply frame_refl | exact A8]. }
  destruct S9 as [F9 A9].
  split; [|exact A9].
  repeat (eapply frame_trans; [eassumption|]). apply frame_refl.
Qed.

End ConverterFrame.

Lemma nullable_frame (n : nat) (a : val) (h h' : heap) :
  own n h a -> nullable a h = Ret h' -> frame n h h' /\ own n h' a.
Proof.
  intros Ha H. unfold nullable in H. inv_bind H. rename a0 into h1.
  assert (S1 : frame n h h1 /\ own n h1 a).
  { destruct (truthy (get h a "type")).
    - unfold alloc in Hstep.
      pose proof (own_range _ _ _ Ha) as L.
      exact (assign_frame n a a "type" (VRef (List.length h)) h _ h1
               (frame_alloc n h _ L)
               (own_alloc _ _ _ _ Ha) (own_fresh _ _ _ Ha) L Hstep).
    - destruct (is_undef (get h a "enum")).
      + exact (assign_frame n a a "type" (VStr "null") h h h1 (frame_refl n h) Ha
                 (own_fresh _ _ _ Ha) I Hstep).
      + inv_ret Hstep. split; [apply frame_refl | exact Ha]. }
  destruct S1 as [F1 A1].
  destruct (truthy (get h1 a "enum"));
    [|inv_ret H; split; [exact F1 | exact A1]].
  pose proof (own_get n h1 a "enum" A1) as He.
  destruct (get h1 a "enum") as [| | | |s|e]; try discriminate.
  - destruct (is_some (index 0 "null" s)); [|discriminate].
    inv_ret H. split; [exact F1 | exact A1].
  - destruct (read h1 e) as [m|l] eqn:Er; [discriminate|].
    destruct (existsb is_null l); inv_ret H; [split; [exact F1 | exact A1]|].
    split.
    + eapply frame_trans; [exact F1|]. apply frame_update, He.
    + apply own_update; [|exact A1]. rewrite Er. simpl. intros Hl.
      apply Forall_app. split; [exact Hl | repeat constructor].
Qed.

(** [convertSubSchema] touches no cell that was there, and returns a
    location it allocated. *)
Lemma convertSubSchema_allocates (fuel : nat) (swagger : val) :
  allocates (fun s refs => convertSubSchema fuel s refs swagger).
Proof.
  induction fuel as [|fuel IH]; intros schema refs h r refs' h' H; [discriminate|].
  cbn [convertSubSchema] in H. inv_bind H. rename a into ref.
  destruct (truthy ref).
  - unfold alloc in H. inv_ret H. split; [apply frame_alloc, Nat.le_refl|].
    exists (List.length h). rewrite length_app. simpl. repeat split; lia.
  - unfold omit, omitBy, alloc in H. cbv zeta in H.
    set (h1 := h ++ [CObj (filter (fun kv => negb (existsb (String.eqb (fst kv))
                                                    swagger_only_keys))
                             (entries h schema))]) in *.
    set (h2 := h1 ++ _) in H.
    assert (L1 : List.length h1 = S (List.length h))
      by (unfold h1; rewrite length_app; simpl; lia).
    assert (L2 : List.length h2 = S (List.length h1))
      by (unfold h2; rewrite length_app; simpl; lia).
    assert (F2 : frame (List.length h) h h2).
    { eapply frame_trans; [apply (frame_alloc _ h), Nat.le_refl|].
      apply frame_alloc. lia. }
    clearbody h2 h1.
    inv_bind H. destruct a as [a h3].
    destruct (cloneDeep_fresh _ _ _ _ _ Hstep0) as [F3 [_ A3]].
    specialize (A3 eq_refl).
    set (n := List.length h).
    assert (A3' : own n h3 a) by (eapply own_weaken; [|exact A3]; unfold n; lia).
    assert (F3' : frame n h h3).
    { eapply frame_trans; [exact F2|]. eapply frame_weaken; [|exact F3].
      unfold n; lia. }
    clear A3 F3 F2.
    inv_bind H. rename a0 into h4.
    assert (S4 : frame n h h4 /\ own n h4 a).
    { destruct (is_file (get h3 schema "type")).
      - exact (assign_frame n a a "type" (VStr "string") h h3 h4 F3' A3'
                 (own_fresh _ _ _ A3') I
                 Hstep1).
      - inv_ret Hstep1. split; assumption. }
    destruct S4 as [F4 A4].
    inv_bind H. rename a0 into h5.
    assert (S5 : frame n h h5 /\ own n h5 a).
    { destruct (truthy (get h4 schema "example")).
      - inv_bind Hstep2. destruct a0 as [example h4']. unfold alloc in Hstep2.
        pose proof (dereference_frame _ _ _ _ _ _ _ _ Hstep3) as Fd.
        pose proof (own_range _ _ _ A4) as L4.
        pose proof (frame_length _ _ _ Fd) as Ld.
        assert (Fa : frame n h (h4' ++ [CArr [example]])).
        { eapply frame_trans; [exact F4|].
          eapply frame_trans; [eapply frame_weaken; [|exact Fd]; exact L4|].
          apply frame_alloc. lia. }
        assert (Aa : own n (h4' ++ [CArr [example]]) a)
          by (apply own_alloc; eapply own_frame; eassumption).
        assert (Ya : fresh n (VRef (List.length h4'))) by (simpl; lia).
        exact (assign_frame n a a "examples" (VRef (List.length h4')) h _ h5 Fa Aa
                 (own_fresh _ _ _ A4) Ya
                 Hstep2).
      - inv_ret Hstep2. split; assumption. }
    destruct S5 as [F5 A5].
    inv_bind H. rename a0 into h6.
    assert (S6 : frame n h h6 /\ own n h6 a).
    { destruct (truthy (get h5 schema "x-nullable")).
      - destruct (nullable_frame _ _ _ _ A5 Hstep3) as [F A].
        split; [eapply frame_trans; eassumption | exact A].
      - inv_ret Hstep3. split; assumption. }
    destruct S6 as [F6 A6].
    inv_bind H. destruct a0 as [refs1 h7]. injection H as <- <- <-.
    destruct (convert_children_frame _ IH n a _ _ _ _ _ A6 Hstep4) as [F7 A7].
    split; [eapply frame_trans; eassumption|].
    apply own_created. exact A7.
Qed.

(** ** The closure builder *)

Lemma props_get_set_same (k : string) (v : val) (m : props) :
  props_get (props_set k v m) k = v.
Proof.
  unfold props_set. destruct (props_has m k) eqn:Eh.
  - induction m as [|[k' v'] m IH]; simpl in *; [discriminate|].
    destruct (k' =? k) eqn:E; simpl.
    + rewrite E. reflexivity.
    + rewrite E. apply IH. exact Eh.
  - assert (Hg : forall m', props_has m' k = false ->
                            props_get (m' ++ [(k, v)]) k = v).
    { induction m' as [|[k' v'] m' IH']; simpl.
      - rewrite String.eqb_refl. reflexivity.
      - destruct (k' =? k); simpl; [discriminate | exact IH']. }
    destruct (index_of_key k) as [i|]; [|apply Hg, Eh].
    induction m as [|[k' v'] m IH]; simpl in *.
    + rewrite String.eqb_refl. reflexivity.
    + destruct (k' =? k) eqn:E; [discriminate|]. simpl in Eh.
      destruct (index_of_key k') as [j|]; [destruct (j <? i)%N|]; simpl;
        rewrite ?E, ?String.eqb_refl; auto.
Qed.

(** The loop writes to the object held by [result.definitions] only. *)
Lemma copy_loop_frame (n : nat) (r : loc) (root : val) (fuel : nat) (steps : nat) :
  forall (references : list val) (h h' : heap),
    references = []
    \/ (exists d, get h (VRef r) "definitions" = VRef d /\ r <> d /\ n <= d) ->
    copy_loop steps fuel references (VRef r) root h = Ret h' ->
    frame n h h'.
Proof.
  induction steps as [|steps IH]; intros references h h' Hk H; [discriminate|].
  cbn [copy_loop] in H.
  destruct (pop references) as [[reference rest]|] eqn:Ep;
    [|inv_ret H; apply frame_refl].
  destruct Hk as [->|[d [Hd [Hne Hn]]]]; [discriminate|].
  apply bind_ret_inv in H. destruct H as [[id referenced] [Hlookup H]].
  apply bind_ret_inv in H. destruct H as [definitions [Hdefs H]].
  apply bind_ret_inv in H. destruct H as [existing [Hexisting H]].
  destruct (is_undef existing).
  - apply bind_ret_inv in H. destruct H as [found [Hfound H]].
    apply bind_ret_inv in H. destruct H as [target [Htarget H]].
    apply bind_ret_inv in H. destruct H as [h1 [Hset H]].
    assert (Et : target = VRef d)
      by (cbn [prop] in Htarget; injection Htarget as <-; exact Hd).
    subst target.
    assert (F1 : frame n h h1) by (eapply set_prop_frame; [exact Hset | exact Hn]).
    eapply frame_trans; [exact F1|].
    refine (IH _ _ _ (or_intror _) H).
    exists d. split; [|split; assumption].
    rewrite <- Hd. cbn [get].
    unfold set_prop in Hset.
    destruct (read h d) as [m|elems];
      [|destruct (index_of_key (key_of_id id)); [|discriminate]];
      inv_ret Hset;
      rewrite store_read_update_other by (intros E; apply Hne; symmetry; exact E);
      reflexivity.
  - refine (IH _ _ _ (or_intror _) H). exists d. auto.
Qed.

(** [convertSchema] touches no cell that was there when it was called. *)
Lemma convertSchema_frame (fuel : nat) (schema root swagger : val)
    (copyDefinitions : bool) (h : heap) (result : val) (h' : heap) :
  convertSchema fuel schema root swagger copyDefinitions h = Ret (result, h') ->
  frame (List.length h) h h'.
Proof.
  intros H. unfold convertSchema in H.
  inv_bind H. destruct a as [[res references] h1].
  destruct (convertSubSchema_allocates fuel swagger _ _ _ _ _ _ Hstep)
    as [F1 [r [-> [R1 R2]]]].
  inv_bind H. rename a into h2.
  set (n := List.length h) in *.
  assert (F2 : frame n h1 h2).
  { destruct copyDefinitions; [|inv_ret Hstep0; apply frame_refl].
    inv_bind Hstep0. rename a into h1'.
    destruct references as [|reference references].
    - inv_ret Hstep1.
      eapply copy_loop_frame; [left; reflexivity | exact Hstep0].
    - unfold alloc in Hstep1.
      assert (Fa : frame n h1 h1').
      { eapply frame_trans; [apply frame_alloc; lia|].
        eapply set_prop_frame; [exact Hstep1 | exact R1]. }
      eapply frame_trans; [exact Fa|].
      eapply copy_loop_frame; [right | exact Hstep0].
      exists (List.length h1). split; [|split; lia].
      unfold set_prop in Hstep1. rewrite store_read_alloc in Hstep1 by exact R2.
      destruct (read h1 r) as [m|elems]; [|discriminate].
      inv_ret Hstep1. cbn [get].
      rewrite store_read_update_same
        by (rewrite length_app; simpl; lia).
      apply props_get_set_same. }
  assert (F : frame n h h2) by (eapply frame_trans; eassumption).
  pose proof (frame_length _ _ _ F) as L.
  destruct (truthy (get h2 (VRef r) "$ref") && copyDefinitions);
    [|inv_ret H; exact F].
  inv_bind H. destruct a as [id referenced].
  inv_bind H. rename a into definition.
  inv_bind H. rename a into hasReferences.
  destruct (negb hasReferences); [inv_ret H; exact F|].
  unfold alloc in H. inv_ret H.
  eapply frame_trans; [exact F|].
  eapply frame_trans; [apply frame_alloc; exact L|].
  eapply frame_trans; apply frame_alloc; rewrite ?length_app; simpl; lia.
Qed.

(** ** Reading the arguments back *)

Lemma all_some_map_ext {A B : Type} (f g : A -> option B) (l : list A) (ys : list B) :
  (forall x y, In x l -> f x = Some y -> g x = Some y) ->
  all_some (map f l) = Some ys -> all_some (map g l) = Some ys.
Proof.
  revert ys. induction l as [|x l IH]; simpl; intros ys Hfg H; [exact H|].
  destruct (f x) as [y|] eqn:Ef; [|discriminate].
  rewrite (Hfg x y (or_introl eq_refl) Ef).
  destruct (all_some (map f l)) as [ys'|] eqn:El; [|discriminate].
  rewrite (IH ys' (fun x0 y0 Hin => Hfg x0 y0 (or_intror Hin)) eq_refl).
  exact H.
Qed.

(** The tree below a value is the same in a heap that kept the cells. *)
Lemma reify_frame (h h' : heap) :
  frame (List.length h) h h' ->
  forall (fuel : nat) (v : val) (j : json),
    reify fuel h v = Some j -> reify fuel h' v = Some j.
Proof.
  intros [_ F]. induction fuel as [|fuel IH]; intros v j H; [discriminate|].
  destruct v as [| | | | |l]; try exact H.
  cbn [reify] in H |- *.
  destruct (nth_error h l) as [c|] eqn:El; [|discriminate].
  assert (Hl : l < List.length h) by (apply nth_error_Some; congruence).
  rewrite (F l Hl), El.
  destruct c as [m|a].
  - destruct (all_some (map (fun kv => option_map (pair (fst kv))
                                         (reify fuel h (snd kv))) m))
      as [m'|] eqn:Em; [|discriminate].
    erewrite all_some_map_ext; [exact H| |exact Em].
    intros kv y _ Hy. cbv beta in Hy |- *.
    destruct (reify fuel h (snd kv)) as [jv|] eqn:Ev; [|discriminate].
    rewrite (IH _ _ Ev). exact Hy.
  - destruct (all_some (map (reify fuel h) a)) as [a'|] eqn:Ea; [|discriminate].
    erewrite all_some_map_ext; [exact H| |exact Ea].
    intros x y _ Hy. apply IH, Hy.
Qed.

End StoreFacts.

(** C10.  A call of [convertSchema] that returns has changed no cell of the
    heap it was called in: every location allocated before the call holds
    what it held.  So the tree below any value, and in particular below the
    schema, the root document and the Swagger document, is after the call
    what it was before; what the call writes to (the copy made by
    [_.cloneDeep], the object [result.definitions], the objects and arrays it
    builds) it has allocated itself. *)
Theorem convertSchema_keeps_arguments
    (fuel : nat) (schema root swagger : Store.val) (copyDefinitions : bool)
    (h : Store.heap) (result : Store.val) (h' : Store.heap) :
  Store.convertSchema fuel schema root swagger copyDefinitions h = Ret (result, h') ->
  (forall l, l < List.length h -> nth_error h' l = nth_error h l)
  /\ (forall (n : nat) (v : Store.val) (j : json),
        Store.reify n h v = Some j -> Store.reify n h' v = Some j).
Proof.
  intros H. pose proof (StoreFacts.convertSchema_frame _ _ _ _ _ _ _ _ H) as F.
  split; [exact (proj2 F)|].
  intros n v j. apply StoreFacts.reify_frame. exact F.
Qed.

Lemma convertSchema_keeps_arguments_witness :
  exists (result : Store.val) (h' : Store.heap),
    Store.convertSchema 5 (snd (fst Store.closure_store)) (fst (fst Store.closure_store))
      (fst (fst Store.closure_store)) true (snd Store.closure_store)
    = Ret (result, h')
    /\ Store.reify 5 h' result = Some closure_result
    /\ Store.reify 5 h' (fst (fst Store.closure_store)) = Some closure_root
    /\ Store.reify 5 h' (snd (fst Store.closure_store)) = Some closure_schema.
Proof.
  eexists. eexists. split; [vm_compute; reflexivity|].
  split; [vm_compute; reflexivity|].
  split.
  - apply (convertSchema_keeps_arguments 5 (snd (fst Store.closure_store))
             (fst (fst Store.closure_store)) (fst (fst Store.closure_store)) true
             (snd Store.closure_store) (Store.VRef 14));
      vm_compute; reflexivity.
  - apply (convertSchema_keeps_arguments 5 (snd (fst Store.closure_store))
             (fst (fst Store.closure_store)) (fst (fst Store.closure_store)) true
             (snd Store.closure_store) (Store.VRef 14));
      vm_compute; reflexivity.
Defined.

(** * Further properties of the code *)

(** ** Reference strings: [parseReference] and [lookupReference] *)

Lemma split_segment (p t : string) :
  no_slash p = true -> split slash (p ++ String slash t) = p :: split slash t.
Proof.
  induction p as [|c p IH]; simpl; intros H; [reflexivity|].
  apply andb_prop in H. destruct H as [Hc Hp].
  apply negb_true_iff in Hc. rewrite Hc, (IH Hp). reflexivity.
Qed.

Lemma split_one (s : string) : no_slash s = true -> split slash s = [s].
Proof.
  induction s as [|c s IH]; simpl; intros H; [reflexivity|].
  apply andb_prop in H. destruct H as [Hc Hs].
  apply negb_true_iff in Hc. rewrite Hc, (IH Hs). reflexivity.
Qed.

Lemma split_segments (s : string) :
  Forall (fun seg => no_slash seg = true) (split slash s).
Proof.
  induction s as [|c s IH]; simpl; [repeat constructor|].
  destruct (Ascii.eqb c slash) eqn:Ec; [constructor; [reflexivity | exact IH]|].
  destruct (split slash s) as [|seg segs]; [repeat constructor; simpl; rewrite Ec; reflexivity|].
  inversion IH as [|? ? Hseg Hsegs]; subst.
  constructor; [simpl; rewrite Ec, Hseg; reflexivity | exact Hsegs].
Qed.

Lemma split_definition (id : string) :
  no_slash id = true ->
  split slash ("#/definitions/" ++ id) = ["#"; "definitions"; id].
Proof.
  intros H.
  change ("#/definitions/" ++ id)%string
    with ("#" ++ String slash ("definitions" ++ String slash id))%string.
  rewrite split_segment by reflexivity.
  rewrite split_segment by reflexivity.
  rewrite (split_one id H). reflexivity.
Qed.

Lemma parseReference_parts (r id : string) :
  parseReference r = Ret id -> split slash r = ["#"; "definitions"; id].
Proof.
  unfold parseReference.
  destruct (split slash r) as [|p0 [|p1 [|p2 [|p3 rest]]]]; simpl.
  - discriminate.
  - destruct (p0 =? "#"); discriminate.
  - destruct (p0 =? "#"); simpl; [|discriminate].
    rewrite andb_false_r. discriminate.
  - destruct (p0 =? "#") eqn:E0; simpl; [|discriminate].
    destruct (p1 =? "definitions") eqn:E1; simpl; [|discriminate].
    intros H. inv_ret H.
    apply String.eqb_eq in E0, E1. subst. reflexivity.
  - destruct (p0 =? "#"); simpl; [|discriminate].
    rewrite andb_false_r. discriminate.
Qed.

(** X1.  [parseReference] accepts exactly the references
    [#/definitions/<id>] whose [id] holds no slash (the empty id included),
    and returns that id. *)
Theorem parseReference_accepts_definition_references (r id : string) :
  parseReference r = Ret id <-> r = ("#/definitions/" ++ id)%string /\ no_slash id = true.
Proof.
  split.
  - intros H. pose proof (parseReference_parts r id H) as Hs.
    pose proof (join_split r) as Hj. rewrite Hs in Hj. simpl in Hj.
    pose proof (split_segments r) as Hf. rewrite Hs in Hf.
    inversion Hf as [|? ? _ Hf1]; subst. inversion Hf1 as [|? ? _ Hf2]; subst.
    inversion Hf2 as [|? ? Hid _]; subst.
    split; [reflexivity | exact Hid].
  - intros [-> H]. unfold parseReference. rewrite (split_definition id H). reflexivity.
Qed.

Lemma split_root (r p0 : string) (rest : list string) :
  split slash r = p0 :: rest -> p0 = "#" -> r = "#" \/ String.prefix "#/" r = true.
Proof.
  intros Hs ->. pose proof (join_split r) as Hj. rewrite Hs in Hj.
  destruct rest as [|p1 rest]; simpl in Hj; [left; symmetry; exact Hj|].
  right. rewrite <- Hj. simpl. apply prefix_empty.
Qed.

(** X2.  A reference that is not [#] and does not start with [#/] is
    rejected by [parseReference] and by [lookupReference] alike, with the
    same error, whatever the root document and the depth. *)
Theorem reference_outside_document_root_rejected
    (r : string) (root : json) (depth : option Z) :
  r <> "#" -> String.prefix "#/" r = false ->
  parseReference r = Throw InvalidReferenceRoot
  /\ lookupReference (JStr r) root depth = Throw InvalidReferenceRoot.
Proof.
  intros Hne Hp.
  assert (Hh : exists p0 rest, split slash r = p0 :: rest /\ (p0 =? "#") = false).
  { destruct (split slash r) as [|p0 rest] eqn:Es; [exfalso; exact (split_not_nil _ _ Es)|].
    exists p0, rest. split; [reflexivity|].
    destruct (p0 =? "#") eqn:E; [|reflexivity].
    apply String.eqb_eq in E.
    destruct (split_root r p0 rest Es E) as [->|Hpre]; [contradiction | congruence]. }
  destruct Hh as [p0 [rest [Hs E]]].
  unfold parseReference, lookupReference. rewrite Hs. simpl. rewrite E. simpl.
  split; reflexivity.
Qed.

Lemma reference_outside_document_root_rejected_witness :
  parseReference "definitions/User" = Throw InvalidReferenceRoot
  /\ lookupReference (JStr "definitions/User") user_root (Some 3%Z)
     = Throw InvalidReferenceRoot.
Proof.
  apply (reference_outside_document_root_rejected "definitions/User" user_root
           (Some 3%Z)); [discriminate | reflexivity].
Defined.

(** X3.  [parseReference] rejects every reference into a definition
    ([#/definitions/<id>/<sub-path>]), which [lookupReference] follows: the
    two functions do not accept the same references. *)
Theorem parseReference_rejects_nested_path (id sub : string) :
  no_slash id = true ->
  parseReference ("#/definitions/" ++ id ++ "/" ++ sub) = Throw InvalidReferenceTarget.
Proof.
  intros H. unfold parseReference.
  change ("#/definitions/" ++ id ++ "/" ++ sub)%string
    with ("#" ++ String slash ("definitions" ++ String slash (id ++ String slash sub)))%string.
  rewrite split_segment by reflexivity.
  rewrite split_segment by reflexivity.
  rewrite (split_segment id sub H).
  destruct (split slash sub) as [|s0 srest] eqn:Es;
    [exfalso; exact (split_not_nil _ _ Es)|].
  reflexivity.
Qed.

Lemma parseReference_rejects_nested_path_witness :
  parseReference "#/definitions/User/properties/name" = Throw InvalidReferenceTarget
  /\ lookupReference (JStr "#/definitions/User/properties/name") user_root None
     = Ret (Some "User", JObj [("type", JStr "string")]).
Proof.
  split; [|reflexivity].
  apply (parseReference_rejects_nested_path "User" "properties/name"). reflexivity.
Defined.

(** X4.  On a reference [parseReference] accepts, whose id is no name
    objects inherit, [lookupReference] agrees with it at every depth:
    against a root whose [definitions] is an object it returns the parsed id
    with the definition of that name, and throws the not-found error when
    there is none.  (Under an inherited name the read [value[key]] finds the
    inherited member when there is no definition of that name.) *)
Theorem lookupReference_agrees_with_parseReference
    (r id : string) (m d : fields) (depth : option Z) :
  parseReference r = Ret id ->
  inherited_name id = false ->
  obj_get m "definitions" = JObj d ->
  lookupReference (JStr r) (JObj m) depth
  = if is_undef (obj_get d id) then Throw (ReferenceNotFound r)
    else Ret (Some id, obj_get d id).
Proof.
  intros Hp _ Hd. unfold lookupReference.
  rewrite (parseReference_parts r id Hp). simpl. rewrite Hd. simpl.
  destruct (depth_reached depth 3); reflexivity.
Qed.

Lemma lookupReference_agrees_with_parseReference_witness :
  lookupReference (JStr "#/definitions/B") closure_root (Some 3%Z)
  = Ret (Some "B", JObj [("type", JStr "string")])
  /\ lookupReference (JStr "#/definitions/Missing") closure_root None
     = Throw (ReferenceNotFound "#/definitions/Missing").
Proof.
  split.
  - apply (lookupReference_agrees_with_parseReference "#/definitions/B" "B"
             [("definitions",
               JObj [("A", JObj [("items", JObj [("$ref", JStr "#/definitions/B")])]);
                     ("B", JObj [("type", JStr "string")])])]
             [("A", JObj [("items", JObj [("$ref", JStr "#/definitions/B")])]);
              ("B", JObj [("type", JStr "string")])] (Some 3%Z)); reflexivity.
  - apply (lookupReference_agrees_with_parseReference "#/definitions/Missing" "Missing"
             [("definitions",
               JObj [("A", JObj [("items", JObj [("$ref", JStr "#/definitions/B")])]);
                     ("B", JObj [("type", JStr "string")])])]
             [("A", JObj [("items", JObj [("$ref", JStr "#/definitions/B")])]);
              ("B", JObj [("type", JStr "string")])] None); reflexivity.
Defined.

Lemma lookup_walk_low_depth (d : Z) (parts : list string) :
  (d <= 2)%Z ->
  forall (value : json) (currentDepth : Z),
    (2 <= currentDepth)%Z ->
    lookup_walk parts value currentDepth (Some d)
    = lookup_walk parts value currentDepth None.
Proof.
  intros Hd. induction parts as [|key parts IH]; intros value cd Hcd; simpl;
    [reflexivity|].
  destruct (is_undef value); [reflexivity|].
  destruct (prop value key) as [value'| |]; simpl; try reflexivity.
  assert (E : (d =? cd + 1)%Z = false) by (apply Z.eqb_neq; lia).
  rewrite E, andb_false_r. apply IH. lia.
Qed.

(** X5.  A depth of 2 or less never stops the walk: the depth counts the
    two segments [#] and [definitions] and is compared after the next
    segment is followed, so such a depth (0 and the negative numbers
    included) resolves like no depth at all. *)
Theorem lookupReference_low_depth_is_no_limit
    (reference root : json) (d : Z) :
  (d <= 2)%Z ->
  lookupReference reference root (Some d) = lookupReference reference root None.
Proof.
  intros Hd. unfold lookupReference.
  destruct reference as [| | | |s| |]; try reflexivity.
  destruct (split slash s) as [|first [|second parts]]; try reflexivity.
  destruct (negb (first =? "#")); [reflexivity|].
  destruct (negb (second =? "definitions")); [reflexivity|].
  destruct (prop root "definitions") as [value| |]; simpl; try reflexivity.
  rewrite (lookup_walk_low_depth d parts Hd value 2) by lia. reflexivity.
Qed.

Lemma lookupReference_low_depth_is_no_limit_witness :
  lookupReference (JStr "#/definitions/User/properties/name") user_root (Some 2%Z)
  = Ret (Some "User", JObj [("type", JStr "string")]).
Proof.
  rewrite (lookupReference_low_depth_is_no_limit
             (JStr "#/definitions/User/properties/name") user_root 2);
    [reflexivity | lia].
Defined.

(** ** The cycle check *)

(** X6.  [pathHasCircularReference] answers true exactly when the joined
    current path, or one of the recorded paths, starts with the reference.
    That [find] returns the matching path, which is falsy when it is the
    empty string, changes nothing: the empty path only starts with the empty
    reference, which the current path starts with as well. *)
Theorem pathHasCircularReference_checks_prefixes
    (paths path : option (list string)) (reference : string) :
  pathHasCircularReference paths path reference = true
  <-> (startsWith (join "/" (or_empty path)) reference = true
       \/ exists p, In p (or_empty paths) /\ startsWith p reference = true).
Proof.
  rewrite pathHasCircularReference_eq, orb_true_iff, existsb_exists. reflexivity.
Qed.

(** ** The reference scanner *)

(** X7.  When [checkSchemaHasReferences] returns, it returns true exactly
    when some object inside the value, at any depth and under any key, has a
    truthy [$ref]; so it also answers true for every schema in which
    [findReferences] has a reference to find. *)
Theorem checkSchemaHasReferences_decides_deep_reference
    (fuel : nat) (v : json) (b : bool) :
  checkSchemaHasReferences fuel v = Ret b ->
  (b = true <-> deep_ref v)
  /\ (forall r, schema_ref r v -> b = true).
Proof.
  intros H.
  assert (Hb : b = true <-> deep_ref v).
  { destruct b.
    - split; [intros _; eapply checkSchemaHasReferences_true; exact H | reflexivity].
    - split; [discriminate|]. intros Hd.
      exfalso. exact (checkSchemaHasReferences_false _ _ H Hd). }
  split; [exact Hb|]. intros r Hr. apply Hb. eapply schema_ref_deep; exact Hr.
Qed.

Lemma checkSchemaHasReferences_decides_deep_reference_witness :
  (true = true <-> deep_ref default_ref_schema)
  /\ (forall r, schema_ref r default_ref_schema -> true = true).
Proof.
  apply (checkSchemaHasReferences_decides_deep_reference 3 default_ref_schema true).
  reflexivity.
Defined.

(** ** Termination *)

(** X8.  Every call of [convertSchema] terminates, with a result or with an
    exception, on definitions that reference each other in a cycle as on any
    other: there is an amount of fuel from which the outcome is the same and
    is not [OutOfFuel].  The [while] loop ends because an iteration takes a
    reference off the worklist and adds references only when it sets a key of
    [result.definitions] that was unset, and the keys come from
    [root.definitions]. *)
Theorem convertSchema_terminates
    (schema root swagger : json) (copyDefinitions : bool) :
  exists r : outcome json,
    r <> OutOfFuel
    /\ exists N, forall k,
         convertSchema (N + k) schema root swagger copyDefinitions = r.
Proof. exact (convertSchema_converges schema root swagger copyDefinitions). Qed.

(** ** What the converter leaves in a node *)

Lemma removed_key_not_written (k : string) :
  removed_key k = true -> ~ In k written_keys.
Proof.
  intros Hr Hin. simpl in Hin.
  repeat (destruct Hin as [<-|Hin]; [discriminate Hr|]). exact Hin.
Qed.

(** X9.  The node converted from a schema that is no reference has none of
    the Swagger-only keys and no extension key: each of them reads
    [undefined] in the result, whatever [copyDefinitions] is. *)
Theorem converted_node_has_no_swagger_key
    (fuel : nat) (schema root swagger : json) (copyDefinitions : bool)
    (res : json) (k : string) :
  convertSchema fuel schema root swagger copyDefinitions = Ret res ->
  truthy (get schema "$ref") = false ->
  removed_key k = true ->
  get res k = JUndef.
Proof.
  intros H Href Hk.
  destruct (convertSchema_node_get _ _ _ _ _ _ H Href) as [a [refs [Hc Hget]]].
  rewrite Hget by (intros <-; discriminate Hk).
  rewrite (convertSubSchema_keeps _ _ _ _ _ _ k Hc Href (removed_key_not_written k Hk)).
  unfold removed_key in Hk. rewrite Hk. reflexivity.
Qed.

Lemma converted_node_has_no_swagger_key_witness :
  get (JObj [("type", JStr "object");
             ("properties", JObj [("name", JObj [("type", JStr "string")])])])
    "x-internal" = JUndef.
Proof.
  apply (converted_node_has_no_swagger_key 5 tagged_schema (JObj []) (JObj []) true);
    reflexivity.
Defined.

Lemma nullable_untyped (a a' : fields) :
  nullable a = Ret a' -> truthy (obj_get a "type") = false ->
  obj_get a' "type"
  = if is_undef (obj_get a "enum") then JStr "null" else obj_get a "type".
Proof.
  unfold nullable. intros H Ht. rewrite Ht in H.
  destruct (is_undef (obj_get a "enum")) eqn:Eu.
  - rewrite obj_get_set_other in H by discriminate.
    destruct (obj_get a "enum"); try discriminate. simpl in H. inv_ret H.
    apply obj_get_set_same.
  - destruct (truthy (obj_get a "enum")); [|inv_ret H; reflexivity].
    destruct (obj_get a "enum") as [| | | |s|l|m]; try discriminate.
    + destruct (is_some (index 0 "null" s)); [|discriminate]. inv_ret H. reflexivity.
    + destruct (existsb is_null l); inv_ret H; [reflexivity|].
      apply obj_get_set_other. discriminate.
Qed.

Lemma file_is_truthy (v : json) : is_file v = true -> v = JStr "file".
Proof.
  destruct v as [| | | |s| |]; try discriminate. simpl. intros H.
  apply String.eqb_eq in H. subst. reflexivity.
Qed.

(** The [type] and the [enum] of the node before the nullable fix are the
    schema's, the [file] type rewritten. *)
Lemma stripped_type (schema : json) (d : json) :
  obj_get (obj_set "examples" d (strip_keys schema)) "type"
  = obj_get (strip_keys schema) "type"
  /\ obj_get (strip_keys schema) "type"
     = if is_file (get schema "type") then JStr "string" else get schema "type".
Proof.
  split; [apply obj_get_set_other; discriminate|].
  rewrite obj_get_strip_keys. simpl.
  destruct (is_file (get schema "type")); [reflexivity|].
  simpl. apply obj_get_entries. reflexivity.
Qed.

Lemma stripped_enum (schema : json) (d : json) :
  obj_get (obj_set "examples" d (strip_keys schema)) "enum"
  = obj_get (strip_keys schema) "enum"
  /\ obj_get (strip_keys schema) "enum" = get schema "enum".
Proof.
  split; [apply obj_get_set_other; discriminate|].
  rewrite obj_get_strip_keys. simpl. rewrite andb_false_r. simpl.
  apply obj_get_entries. reflexivity.
Qed.

(** What [convertSchema] returns under [type] and [enum] for a schema that
    is no reference: what the node held after the nullable fix. *)
Lemma convertSchema_type_enum (fuel : nat) (schema root swagger : json)
    (copyDefinitions : bool) (res : json) :
  convertSchema fuel schema root swagger copyDefinitions = Ret res ->
  truthy (get schema "$ref") = false ->
  exists a1 a2 : fields,
    obj_get a1 "type"
    = (if is_file (get schema "type") then JStr "string" else get schema "type")
    /\ obj_get a1 "enum" = get schema "enum"
    /\ (if truthy (get schema "x-nullable") then nullable a1 = Ret a2 else a2 = a1)
    /\ get res "type" = obj_get a2 "type"
    /\ get res "enum" = obj_get a2 "enum".
Proof.
  intros H Href.
  destruct (convertSchema_node_get _ _ _ _ _ _ H Href) as [a [refs [Hc Hget]]].
  destruct (convertSubSchema_node _ _ _ _ _ _ Hc Href)
    as [f [a1 [a2 [a3 [_ [H1 [H2 [H3 E]]]]]]]].
  inv_ret E. exists a1, a2.
  assert (T1 : obj_get a1 "type"
               = if is_file (get schema "type") then JStr "string"
                 else get schema "type").
  { destruct (truthy (get schema "example")).
    - destruct H1 as [d [_ ->]].
      destruct (stripped_type schema (JArr [d])) as [-> ->]. reflexivity.
    - subst a1. apply (stripped_type schema JNull). }
  assert (E1 : obj_get a1 "enum" = get schema "enum").
  { destruct (truthy (get schema "example")).
    - destruct H1 as [d [_ ->]].
      destruct (stripped_enum schema (JArr [d])) as [-> ->]. reflexivity.
    - subst a1. apply (stripped_enum schema JNull). }
  split; [exact T1|]. split; [exact E1|]. split; [exact H2|].
  split.
  - rewrite Hget by discriminate.
    apply (convert_children_keeps _ _ _ _ _ _ "type" H3).
    simpl. intuition discriminate.
  - rewrite Hget by discriminate.
    apply (convert_children_keeps _ _ _ _ _ _ "enum" H3).
    simpl. intuition discriminate.
Qed.

(** X10.  No converted node is of type [file]: for a schema that is no
    reference, the [type] of the result is never the string ['file'], and a
    schema of type ['file'] that is not nullable is converted to a node of
    type ['string']. *)
Theorem file_type_never_returned
    (fuel : nat) (schema root swagger : json) (copyDefinitions : bool) (res : json) :
  convertSchema fuel schema root swagger copyDefinitions = Ret res ->
  truthy (get schema "$ref") = false ->
  get res "type" <> JStr "file"
  /\ (get schema "type" = JStr "file" -> truthy (get schema "x-nullable") = false ->
      get res "type" = JStr "string").
Proof.
  intros H Href.
  destruct (convertSchema_type_enum _ _ _ _ _ _ H Href)
    as [a1 [a2 [T1 [_ [Hn [Tr _]]]]]].
  assert (Hnf : obj_get a1 "type" <> JStr "file").
  { rewrite T1. destruct (is_file (get schema "type")) eqn:Ef; [discriminate|].
    intros E. rewrite E in Ef. discriminate. }
  split.
  - rewrite Tr. destruct (truthy (get schema "x-nullable")); [|subst a2; exact Hnf].
    destruct (truthy (obj_get a1 "type")) eqn:Et.
    + rewrite (nullable_type _ _ Hn Et). discriminate.
    + rewrite (nullable_untyped _ _ Hn Et).
      destruct (is_undef (obj_get a1 "enum")); [discriminate | exact Hnf].
  - intros Ef Hx. rewrite Hx in Hn. subst a2. rewrite Tr, T1, Ef. reflexivity.
Qed.

Lemma file_type_never_returned_witness :
  get (JObj [("type", JStr "string")]) "type" <> JStr "file"
  /\ (get (JObj [("type", JStr "file"); ("x-upload", JBool true)]) "type" = JStr "file" ->
      truthy (get (JObj [("type", JStr "file"); ("x-upload", JBool true)]) "x-nullable")
      = false ->
      get (JObj [("type", JStr "string")]) "type" = JStr "string").
Proof.
  apply (file_type_never_returned 3
           (JObj [("type", JStr "file"); ("x-upload", JBool true)])
           (JObj []) (JObj []) true); reflexivity.
Defined.

(** X11.  The nullable fix on a schema without a type: for a schema that is
    no reference, has a truthy [x-nullable] and a falsy [type], the result
    has the type ['null'] when the schema has no [enum]; when its [enum] is
    an array, the type is left as it was and [null] is appended to the
    array unless the array holds it already. *)
Theorem nullable_without_type
    (fuel : nat) (schema root swagger : json) (copyDefinitions : bool) (res : json) :
  convertSchema fuel schema root swagger copyDefinitions = Ret res ->
  truthy (get schema "$ref") = false ->
  truthy (get schema "x-nullable") = true ->
  truthy (get schema "type") = false ->
  (get schema "enum" = JUndef -> get res "type" = JStr "null")
  /\ (forall l, get schema "enum" = JArr l ->
        get res "type" = get schema "type"
        /\ get res "enum" = JArr (if existsb is_null l then l else l ++ [JNull])).
Proof.
  intros H Href Hx Ht.
  destruct (convertSchema_type_enum _ _ _ _ _ _ H Href)
    as [a1 [a2 [T1 [E1 [Hn [Tr Er]]]]]].
  rewrite Hx in Hn.
  assert (Ef : is_file (get schema "type") = false).
  { destruct (is_file (get schema "type")) eqn:E; [|reflexivity].
    apply file_is_truthy in E. rewrite E in Ht. discriminate. }
  rewrite Ef in T1.
  assert (Ht1 : truthy (obj_get a1 "type") = false) by (rewrite T1; exact Ht).
  pose proof (nullable_untyped _ _ Hn Ht1) as Hty.
  split.
  - intros Eu. rewrite Tr, Hty, E1, Eu. reflexivity.
  - intros l El. split.
    + rewrite Tr, Hty, E1, El, T1. reflexivity.
    + rewrite Er. apply (nullable_enum _ _ l Hn). rewrite E1. exact El.
Qed.

Lemma nullable_without_type_witness :
  (get (JObj [("enum", JArr [JStr "a"; JStr "b"]); ("x-nullable", JBool true)]) "enum"
   = JUndef ->
   get (JObj [("enum", JArr [JStr "a"; JStr "b"; JNull])]) "type" = JStr "null")
  /\ (forall l,
        get (JObj [("enum", JArr [JStr "a"; JStr "b"]); ("x-nullable", JBool true)]) "enum"
        = JArr l ->
        get (JObj [("enum", JArr [JStr "a"; JStr "b"; JNull])]) "type"
        = get (JObj [("enum", JArr [JStr "a"; JStr "b"]); ("x-nullable", JBool true)])
            "type"
        /\ get (JObj [("enum", JArr [JStr "a"; JStr "b"; JNull])]) "enum"
           = JArr (if existsb is_null l then l else l ++ [JNull])).
Proof.
  apply (nullable_without_type 3
           (JObj [("enum", JArr [JStr "a"; JStr "b"]); ("x-nullable", JBool true)])
           (JObj []) (JObj []) true); reflexivity.
Defined.

(** X12.  For a schema that is no reference, [copyDefinitions] decides the
    [definitions] key of the result and nothing else: the two results read
    the same under every other key. *)
Theorem copyDefinitions_only_adds_definitions
    (fuel : nat) (schema root swagger res res' : json) (k : string) :
  convertSchema fuel schema root swagger true = Ret res ->
  convertSchema fuel schema root swagger false = Ret res' ->
  truthy (get schema "$ref") = false ->
  "definitions" <> k ->
  get res k = get res' k.
Proof.
  intros H H' Href Hk.
  destruct (convertSchema_node_get _ _ _ _ _ _ H Href) as [a [refs [Hc Hget]]].
  destruct (convertSchema_node_get _ _ _ _ _ _ H' Href) as [a' [refs' [Hc' Hget']]].
  rewrite Hc in Hc'. inv_ret Hc'.
  rewrite Hget, Hget' by exact Hk. reflexivity.
Qed.

Lemma copyDefinitions_only_adds_definitions_witness :
  get closure_result "properties" = get closure_schema "properties".
Proof.
  apply (copyDefinitions_only_adds_definitions 5 closure_schema closure_root closure_root);
    [reflexivity | reflexivity | reflexivity | discriminate].
Defined.

(** ** The batch converter *)

Lemma fold_bind_stuck {S K : Type} (step : S -> K -> outcome S) (keys : list K)
    (o : outcome S) :
  (forall s, o <> Ret s) ->
  fold_left (fun acc k => bind acc (fun s => step s k)) keys o = o.
Proof.
  intros Ho. induction keys as [|k keys IH]; simpl; [reflexivity|].
  destruct o as [s| |]; simpl; [exfalso; apply (Ho s); reflexivity | exact IH..].
Qed.

Lemma definitions_fold (fuel : nat) (root : json) (l : fields) :
  NoDup (map fst l) ->
  forall (acc r : fields),
    fold_left
      (fun (acc : outcome fields) (kv : string * json) =>
         jsonSchemaDefinitions <- acc ;;
         converted <- convertSchema fuel (snd kv) root root false ;;
         Ret (obj_set (fst kv) converted jsonSchemaDefinitions))
      l (Ret acc) = Ret r ->
    forall k,
      (In k (map fst l) ->
       convertSchema fuel (obj_get l k) root root false = Ret (obj_get r k))
      /\ (~ In k (map fst l) -> obj_get r k = obj_get acc k).
Proof.
  induction l as [|[k0 v0] l IH]; intros Hnd acc r H k.
  - simpl in H. inv_ret H. split; [intros [] | reflexivity].
  - inversion Hnd as [|? ? Hnin Hnd']; subst.
    cbn [fold_left bind fst snd] in H.
    destruct (convertSchema fuel v0 root root false) as [c| |] eqn:Ec.
    + cbn [bind] in H.
      destruct (IH Hnd' _ _ H k) as [Hin Hout].
      destruct (IH Hnd' _ _ H k0) as [_ Hout0].
      cbn [map fst obj_get In].
      destruct (k0 =? k) eqn:E.
      * apply String.eqb_eq in E. subst k0. split.
        -- intros _. rewrite Ec, (Hout0 Hnin), obj_get_set_same. reflexivity.
        -- intros Hn. exfalso. apply Hn. left; reflexivity.
      * assert (Hne : k0 <> k) by (intros ->; rewrite String.eqb_refl in E; discriminate).
        split.
        -- intros [->|Hk]; [contradiction | apply Hin, Hk].
        -- intros Hn. rewrite Hout by (intros Hk; apply Hn; right; exact Hk).
           apply obj_get_set_other. exact Hne.
    + cbn [bind] in H.
      rewrite (fold_bind_stuck
                 (fun (s : fields) (kv : string * json) =>
                    converted <- convertSchema fuel (snd kv) root root false ;;
                    Ret (obj_set (fst kv) converted s))) in H by discriminate.
      discriminate.
    + cbn [bind] in H.
      rewrite (fold_bind_stuck
                 (fun (s : fields) (kv : string * json) =>
                    converted <- convertSchema fuel (snd kv) root root false ;;
                    Ret (obj_set (fst kv) converted s))) in H by discriminate.
      discriminate.
Qed.

(** X13.  [convertSchemaDefinitions] on an object of definitions (each key
    once, no valid length under [length], no definition named [__proto__],
    which the write [jsonSchemaDefinitions[key] = ...] would make the
    prototype of the result) returns, when it returns, an object with the
    same keys: under every key of the definitions it holds [convertSchema]
    of that definition against [{ definitions }] as root and as Swagger
    document, with [copyDefinitions = false]; it has no property under any
    other key.  So the batch returns only if every entry converts. *)
Theorem convertSchemaDefinitions_converts_each_entry
    (fuel : nat) (d : fields) (res : json) :
  NoDup (map fst d) ->
  isLength (obj_get d "length") = None ->
  obj_has d "__proto__" = false ->
  convertSchemaDefinitions fuel (JObj d) = Ret res ->
  exists r,
    res = JObj r
    /\ forall k,
         (In k (map fst d) ->
          convertSchema fuel (obj_get d k) (JObj [("definitions", JObj d)])
            (JObj [("definitions", JObj d)]) false
          = Ret (obj_get r k))
         /\ (~ In k (map fst d) -> obj_get r k = JUndef).
Proof.
  intros Hnd Hlen _ H. unfold convertSchemaDefinitions in H.
  cbn [truthy] in H. unfold forEach_entries in H. rewrite Hlen in H.
  inv_bind H. inv_ret H. exists a. split; [reflexivity|].
  intros k. exact (definitions_fold fuel _ d Hnd [] a Hstep k).
Qed.

Lemma convertSchemaDefinitions_converts_each_entry_witness :
  exists r,
    JObj [("Pet", JObj [("type", JStr "string")]);
          ("Owner", JObj [("properties", JObj [("pet", JObj [("$ref", JStr "#/definitions/Pet")])])])]
    = JObj r
    /\ forall k,
         (In k ["Pet"; "Owner"] ->
          convertSchema 4
            (obj_get
               [("Pet", JObj [("type", JStr "string"); ("x-kind", JStr "animal")]);
                ("Owner",
                 JObj [("properties",
                        JObj [("pet", JObj [("$ref", JStr "#/definitions/Pet")])])])]
               k)
            (JObj [("definitions",
                    JObj [("Pet", JObj [("type", JStr "string"); ("x-kind", JStr "animal")]);
                          ("Owner",
                           JObj [("properties",
                                  JObj [("pet", JObj [("$ref", JStr "#/definitions/Pet")])])])])])
            (JObj [("definitions",
                    JObj [("Pet", JObj [("type", JStr "string"); ("x-kind", JStr "animal")]);
                          ("Owner",
                           JObj [("properties",
                                  JObj [("pet", JObj [("$ref", JStr "#/definitions/Pet")])])])])])
            false
          = Ret (obj_get r k))
         /\ (~ In k ["Pet"; "Owner"] -> obj_get r k = JUndef).
Proof.
  apply (convertSchemaDefinitions_converts_each_entry 4
           [("Pet", JObj [("type", JStr "string"); ("x-kind", JStr "animal")]);
            ("Owner",
             JObj [("properties",
                    JObj [("pet", JObj [("$ref", JStr "#/definitions/Pet")])])])]).
  - repeat apply NoDup_cons; simpl; try apply NoDup_nil; intuition discriminate.
  - reflexivity.
  - reflexivity.
  - reflexivity.
Defined.

(** ** The dereferencer on values without references *)

Lemma mapM_same {A : Type} (f : A -> outcome A) (l : list A) :
  (forall x, In x l -> f x = Ret x) -> mapM f l = Ret l.
Proof.
  induction l as [|x l IH]; simpl; intros H; [reflexivity|].
  rewrite (H x (or_introl eq_refl)). simpl.
  rewrite IH by (intros y Hy; apply H; right; exact Hy). reflexivity.
Qed.

Lemma dereference_fold_same (f : json -> list string -> outcome json)
    (path : option (list string)) (l : fields) :
  (forall kv, In kv l -> f (snd kv) (or_empty path ++ [fst kv]) = Ret (snd kv)) ->
  forall acc : fields,
    fold_left
      (fun (acc : outcome fields) (kv : string * json) =>
         result <- acc ;;
         value <- f (snd kv) (or_empty path ++ [fst kv]) ;;
         Ret (obj_set (fst kv) value result))
      l (Ret acc)
    = Ret (fold_left (fun acc kv => obj_set (fst kv) (snd kv) acc) l acc).
Proof.
  induction l as [|kv l IH]; intros H acc; [reflexivity|].
  cbn [fold_left bind]. rewrite (H kv (or_introl eq_refl)). cbn [bind].
  apply IH. intros kv' Hin. apply H. right; exact Hin.
Qed.

Lemma dereference_reference_free (fuel : nat) :
  forall (example root : json) (paths path : option (list string)),
    reference_free example ->
    height example < fuel ->
    dereference fuel example root paths path = Ret example.
Proof.
  induction fuel as [|fuel IH]; intros example root paths path Hf Hh; [lia|].
  destruct Hf as [v Hv|l Hl|m Hr Hlen _ Hc Hm].
  - destruct v as [| | | |s| |]; try discriminate Hv; try reflexivity.
    cbn [dereference]. unfold ref_string. cbn [get].
    assert (E : (if "$ref" =? "length" then JNum (Z.of_nat (String.length s))
                 else str_get s 0 "$ref") = JUndef)
      by (simpl; apply str_get_not_ref).
    rewrite E. reflexivity.
  - cbn [dereference]. unfold ref_string. cbn [get].
    assert (E : (if "$ref" =? "length" then JNum (Z.of_nat (List.length l))
                 else arr_get l 0 "$ref") = JUndef)
      by (simpl; apply arr_get_not_ref).
    rewrite E. rewrite mapM_same; [reflexivity|].
    intros x Hx. apply IH; [apply Hl, Hx|].
    pose proof (height_elem l x Hx). lia.
  - cbn [dereference]. rewrite Hr.
    unfold forEach_entries. rewrite Hlen.
    rewrite (dereference_fold_same
               (fun v p => dereference fuel v root paths (Some p)) path m).
    + cbn [bind]. rewrite Hc. reflexivity.
    + intros kv Hin. apply IH; [apply Hm, Hin|].
      pose proof (height_field m kv Hin). lia.
Qed.

(** X14.  [dereference] returns a value without references as it is: when
    no object of the example has a string [$ref] (or is array-like, or has
    a property named [__proto__]), the result is structurally equal to the
    example, whatever the root document and the paths; nothing is looked
    up, so nothing is thrown. *)
Theorem dereference_keeps_reference_free_value
    (fuel : nat) (example root : json) (paths path : option (list string)) :
  reference_free example ->
  height example < fuel ->
  dereference fuel example root paths path = Ret example.
Proof. apply dereference_reference_free. Qed.

Lemma address_reference_free :
  reference_free
    (JObj [("name", JStr "Ada"); ("tags", JArr [JStr "a"; JNull]); ("age", JNum 36)]).
Proof.
  apply free_object; try reflexivity.
  intros kv Hin. simpl in Hin.
  destruct Hin as [<-|[<-|[<-|[]]]]; simpl.
  - apply free_atom. reflexivity.
  - apply free_array. intros x Hx. simpl in Hx.
    destruct Hx as [<-|[<-|[]]]; apply free_atom; reflexivity.
  - apply free_atom. reflexivity.
Qed.

Lemma dereference_keeps_reference_free_value_witness :
  dereference 3
    (JObj [("name", JStr "Ada"); ("tags", JArr [JStr "a"; JNull]); ("age", JNum 36)])
    (JObj []) None None
  = Ret (JObj [("name", JStr "Ada"); ("tags", JArr [JStr "a"; JNull]); ("age", JNum 36)]).
Proof.
  apply (dereference_keeps_reference_free_value 3).
  - exact address_reference_free.
  - vm_compute. lia.
Defined.

(** X15.  A reference to a definition without references dereferences to
    that definition: for an example [{$ref}] whose reference
    [lookupReference] resolves (at full depth) to a value without
    references (and without array-like objects and properties named
    [__proto__]), [dereference] called as the converter calls it (no paths)
    returns the value. *)
Theorem dereference_resolves_reference
    (fuel : nat) (example root : json) (reference : string) (id : option string)
    (referenced : json) :
  ref_string example = Some reference ->
  lookupReference (JStr reference) root None = Ret (id, referenced) ->
  reference_free referenced ->
  height referenced < fuel ->
  dereference (S fuel) example root None None = Ret referenced.
Proof.
  intros Hr Hl Hf Hh.
  destruct (ref_string_obj _ _ Hr) as [m ->].
  cbn [dereference]. rewrite Hr. cbn [is_some andb]. rewrite Hl. cbn [bind].
  apply dereference_reference_free; assumption.
Qed.

Lemma dereference_resolves_reference_witness :
  dereference 3 (JObj [("$ref", JStr "#/definitions/Name")]) example_swagger None None
  = Ret (JObj [("first", JStr "Ada")]).
Proof.
  apply (dereference_resolves_reference 2 (JObj [("$ref", JStr "#/definitions/Name")])
           example_swagger "#/definitions/Name" (Some "Name")).
  - reflexivity.
  - reflexivity.
  - apply free_object; try reflexivity.
    intros kv Hin. simpl in Hin. destruct Hin as [<-|[]]. apply free_atom. reflexivity.
  - vm_compute. lia.
Defined.

(** ** The scanner mirrors the converter *)

Lemma string_refs_obj_get (m : fields) (k : string) :
  string_refs (JObj m) = true -> string_refs (obj_get m k) = true.
Proof.
  induction m as [|[k0 v0] m IH]; cbn [string_refs forallb obj_get fst snd];
    intros H; [reflexivity|].
  apply andb_prop in H. destruct H as [H0 Hm]. apply andb_prop in H0.
  destruct (k0 =? k); [exact (proj2 H0) | exact (IH Hm)].
Qed.

Lemma string_refs_arr_get (l : list json) (i : nat) (k : string) :
  forallb string_refs l = true -> string_refs (arr_get l i k) = true.
Proof.
  revert i. induction l as [|x l IH]; cbn [forallb arr_get]; intros i H;
    [reflexivity|].
  apply andb_prop in H. destruct H as [Hx Hl].
  destruct (key_of_index i =? k); [exact Hx | exact (IH _ Hl)].
Qed.

Lemma string_refs_str_get (s : string) (i : nat) (k : string) :
  string_refs (str_get s i k) = true.
Proof.
  revert i. induction s as [|c s IH]; cbn [str_get]; intros i; [reflexivity|].
  destruct (key_of_index i =? k); [reflexivity | apply IH].
Qed.

Lemma string_refs_get (v : json) (k : string) :
  string_refs v = true -> string_refs (get v k) = true.
Proof.
  destruct v as [| | | |s|l|m]; cbn [get]; intros H; try reflexivity.
  - destruct (k =? "length"); [reflexivity | apply string_refs_str_get].
  - destruct (k =? "length"); [reflexivity | apply string_refs_arr_get, H].
  - apply string_refs_obj_get, H.
Qed.

Lemma string_refs_elem (l : list json) (c : json) :
  string_refs (JArr l) = true -> In c l -> string_refs c = true.
Proof. cbn [string_refs]. intros H Hin. exact (proj1 (forallb_forall _ _) H c Hin). Qed.

Lemma string_refs_ref (v : json) :
  string_refs v = true -> truthy (get v "$ref") = true -> is_string (get v "$ref") = true.
Proof.
  destruct v as [| | | |s|l|m]; cbn [get]; intros H Ht; try discriminate Ht.
  - rewrite (str_get_not_ref s 0) in Ht. discriminate.
  - rewrite (arr_get_not_ref l 0) in Ht. discriminate.
  - induction m as [|[k0 v0] m IH]; cbn [string_refs forallb obj_get fst snd] in *;
      [discriminate|].
    apply andb_prop in H. destruct H as [H0 Hm]. apply andb_prop in H0.
    destruct H0 as [H0 _]. revert H0 Ht.
    destruct (k0 =? "$ref"); intros H0 Ht; [|exact (IH Hm Ht)].
    cbn [negb orb] in H0.
    destruct v0; try reflexivity; simpl in H0, Ht; try discriminate;
      rewrite Ht in H0; discriminate.
Qed.

Lemma concat_spread_of_strings (a found : list json) :
  forallb is_string found = true -> concat_spread a found = a ++ found.
Proof.
  intros H. unfold concat_spread. f_equal.
  induction found as [|x found IH]; [reflexivity|].
  cbn [forallb] in H. apply andb_prop in H. destruct H as [Hx Hf].
  cbn [flat_map]. rewrite (IH Hf). destruct x; try discriminate; reflexivity.
Qed.

Lemma forallb_app_true {A : Type} (p : A -> bool) (l l' : list A) :
  forallb p l = true -> forallb p l' = true -> forallb p (l ++ l') = true.
Proof. intros H H'. rewrite forallb_app, H, H'. reflexivity. Qed.

Section Mirror.

Variable recurse : converter.
Variable find : json -> outcome (list json).

(** What is assumed of the two functions on the children: on a schema whose
    references are strings, the converter adds to the record what the
    scanner returns. *)
Hypothesis mirror :
  forall c r c' r' fc,
    string_refs c = true ->
    recurse c r = Ret (c', r') -> find c = Ret fc ->
    r' = r ++ fc /\ forallb is_string fc = true.

Lemma map_mirror (l : list json) :
  forallb string_refs l = true ->
  forall r l' r' founds,
    map_convert recurse l r = Ret (l', r') ->
    mapM find l = Ret founds ->
    r' = r ++ concat founds /\ forallb is_string (concat founds) = true.
Proof.
  induction l as [|c l IH]; cbn [forallb map_convert mapM]; intros Hs r l' r' founds H F.
  - inv_ret H. inv_ret F. rewrite app_nil_r. split; reflexivity.
  - apply andb_prop in Hs. destruct Hs as [Hc Hl].
    apply bind_ret_inv in H. destruct H as [[c' r1] [Hc' H]].
    apply bind_ret_inv in H. destruct H as [[l1 r2] [Hl1 H]]. inv_ret H.
    apply bind_ret_inv in F. destruct F as [fc [Hfc F]].
    apply bind_ret_inv in F. destruct F as [fl [Hfl F]]. inv_ret F.
    destruct (mirror _ _ _ _ _ Hc Hc' Hfc) as [-> S1].
    destruct (IH Hl _ _ _ _ Hl1 Hfl) as [-> S2].
    cbn [concat]. rewrite app_assoc. split; [reflexivity|].
    apply forallb_app_true; assumption.
Qed.

(** One keyword: the converter's step from [r] to [r'] and the scanner's from
    [fr] to [fr'] add the same references. *)
Definition same_step (r r' fr fr' : list json) : Prop :=
  exists added, r' = r ++ added /\ fr' = fr ++ added /\ forallb is_string added = true.

Lemma same_step_none (r fr : list json) : same_step r r fr fr.
Proof. exists []. rewrite !app_nil_r. repeat split. Qed.

Lemma each_mirror (name : string) (schema : json) (a : fields) (r : list json)
    (a' : fields) (r' fr fr' : list json) :
  string_refs schema = true ->
  convert_each recurse name schema a r = Ret (a', r') ->
  (if truthy (get schema name) then find_each find (get schema name) fr else Ret fr)
  = Ret fr' ->
  same_step r r' fr fr'.
Proof.
  intros Hs H F. unfold convert_each in H.
  pose proof (string_refs_get schema name Hs) as Hv.
  destruct (truthy (get schema name)).
  - apply bind_ret_inv in H. destruct H as [[c r1] [Hm H]]. inv_ret H.
    unfold map_method in Hm. unfold find_each in F.
    destruct (get schema name) as [| | | | |l|]; try discriminate.
    apply bind_ret_inv in Hm. destruct Hm as [[l' r2] [Hm E]]. inv_ret E.
    apply bind_ret_inv in F. destruct F as [founds [Hf F]]. inv_ret F.
    destruct (map_mirror l Hv _ _ _ _ Hm Hf) as [-> S].
    exists (concat founds). repeat split. exact S.
  - inv_ret H. inv_ret F. apply same_step_none.
Qed.

Lemma one_mirror (name : string) (schema : json) (a : fields) (r : list json)
    (a' : fields) (r' fr fr' : list json) :
  string_refs schema = true ->
  convert_one recurse name schema a r = Ret (a', r') ->
  (found <- find (get schema name) ;; Ret (fr ++ found)) = Ret fr' ->
  same_step r r' fr fr'.
Proof.
  intros Hs H F. unfold convert_one in H.
  apply bind_ret_inv in H. destruct H as [[c r1] [Hc H]]. inv_ret H.
  apply bind_ret_inv in F. destruct F as [fc [Hf F]]. inv_ret F.
  destruct (mirror _ _ _ _ _ (string_refs_get schema name Hs) Hc Hf) as [-> S].
  exists fc. repeat split. exact S.
Qed.

Lemma not_mirror (schema : json) (a : fields) (r : list json)
    (a' : fields) (r' fr fr' : list json) :
  string_refs schema = true ->
  convert_one recurse "not" schema a r = Ret (a', r') ->
  (found <- find (get schema "not") ;; Ret (concat_spread fr found)) = Ret fr' ->
  same_step r r' fr fr'.
Proof.
  intros Hs H F. unfold convert_one in H.
  apply bind_ret_inv in H. destruct H as [[c r1] [Hc H]]. inv_ret H.
  apply bind_ret_inv in F. destruct F as [fc [Hf F]]. inv_ret F.
  destruct (mirror _ _ _ _ _ (string_refs_get schema "not" Hs) Hc Hf) as [-> S].
  exists fc. rewrite (concat_spread_of_strings fr fc S). repeat split. exact S.
Qed.

Lemma keys_mirror (name : string) (schema : json) (keys : list string) :
  string_refs schema = true ->
  forall (a : fields) (r : list json) (a' : fields) (r' fr fr' : list json),
    fold_left
      (fun (acc : outcome (fields * list json)) (key : string) =>
         '(actualSchema, references) <- acc ;;
         '(converted, references) <- recurse (get (get schema name) key) references ;;
         target <- set_prop (obj_get actualSchema name) key converted ;;
         Ret (obj_set name target actualSchema, references))
      keys (Ret (a, r)) = Ret (a', r') ->
    fold_left
      (fun (acc : outcome (list json)) (key : string) =>
         references <- acc ;;
         found <- find (get (get schema name) key) ;;
         Ret (references ++ found))
      keys (Ret fr) = Ret fr' ->
    same_step r r' fr fr'.
Proof.
  intros Hs. induction keys as [|key keys IH]; intros a r a' r' fr fr' H F.
  - simpl in H, F. inv_ret H. inv_ret F. apply same_step_none.
  - cbn [fold_left bind] in H, F.
    destruct (recurse (get (get schema name) key) r) as [[c r1]| |] eqn:Hc;
      cbn [bind] in H;
      try (rewrite (fold_bind_stuck
                      (fun (s : fields * list json) (key : string) =>
                         let '(actualSchema, references) := s in
                         '(converted, references) <-
                           recurse (get (get schema name) key) references ;;
                         target <- set_prop (obj_get actualSchema name) key converted ;;
                         Ret (obj_set name target actualSchema, references)))
             in H by discriminate; discriminate).
    destruct (set_prop (obj_get a name) key c) as [target| |] eqn:Ht;
      cbn [bind] in H;
      try (rewrite (fold_bind_stuck
                      (fun (s : fields * list json) (key : string) =>
                         let '(actualSchema, references) := s in
                         '(converted, references) <-
                           recurse (get (get schema name) key) references ;;
                         target <- set_prop (obj_get actualSchema name) key converted ;;
                         Ret (obj_set name target actualSchema, references)))
             in H by discriminate; discriminate).
    destruct (find (get (get schema name) key)) as [fc| |] eqn:Hf;
      cbn [bind] in F;
      try (rewrite (fold_bind_stuck
                      (fun (references : list json) (key : string) =>
                         found <- find (get (get schema name) key) ;;
                         Ret (references ++ found)))
             in F by discriminate; discriminate).
    destruct (mirror _ _ _ _ _
                (string_refs_get _ key (string_refs_get schema name Hs)) Hc Hf)
      as [-> S1].
    destruct (IH _ _ _ _ _ _ H F) as [added [-> [-> S2]]].
    exists (fc ++ added). rewrite !app_assoc. repeat split.
    apply forallb_app_true; assumption.
Qed.

Lemma same_step_trans (r0 r1 r2 f0 f1 f2 : list json) :
  same_step r0 r1 f0 f1 -> same_step r1 r2 f1 f2 -> same_step r0 r2 f0 f2.
Proof.
  intros [a1 [-> [-> S1]]] [a2 [-> [-> S2]]].
  exists (a1 ++ a2). rewrite !app_assoc. repeat split.
  apply forallb_app_true; assumption.
Qed.

Lemma children_mirror (schema : json) (a : fields) (r : list json)
    (a' : fields) (r' found : list json) :
  string_refs schema = true ->
  convert_children recurse schema a r = Ret (a', r') ->
  find_children find schema = Ret found ->
  r' = r ++ found /\ forallb is_string found = true.
Proof.
  intros Hs H F. unfold convert_children in H. unfold find_children in F.
  apply bind_ret_inv in H. destruct H as [[a1 r1] [H1 H]].
  apply bind_ret_inv in F. destruct F as [f1 [F1 F]].
  pose proof (each_mirror _ _ _ _ _ _ _ _ Hs H1 F1) as S1.
  apply bind_ret_inv in H. destruct H as [[a2 r2] [H2 H]].
  apply bind_ret_inv in F. destruct F as [f2 [F2 F]].
  pose proof (each_mirror _ _ _ _ _ _ _ _ Hs H2 F2) as S2.
  apply bind_ret_inv in H. destruct H as [[a3 r3] [H3 H]].
  apply bind_ret_inv in F. destruct F as [f3 [F3 F]].
  pose proof (each_mirror _ _ _ _ _ _ _ _ Hs H3 F3) as S3.
  apply bind_ret_inv in H. destruct H as [[a4 r4] [H4 H]].
  apply bind_ret_inv in F. destruct F as [f4 [F4 F]].
  assert (S4 : same_step r3 r4 f3 f4).
  { destruct (truthy (get schema "not")).
    - eapply not_mirror; eassumption.
    - inv_ret H4. inv_ret F4. apply same_step_none. }
  apply bind_ret_inv in H. destruct H as [[a5 r5] [H5 H]].
  apply bind_ret_inv in F. destruct F as [f5 [F5 F]].
  assert (S5 : same_step r4 r5 f4 f5).
  { destruct (truthy (get schema "items")) eqn:Et.
    - destruct (is_array (get schema "items")).
      + apply (each_mirror "items" schema a4 r4 a5 r5 f4 f5 Hs H5).
        rewrite Et. exact F5.
      + eapply one_mirror; eassumption.
    - inv_ret H5. inv_ret F5. apply same_step_none. }
  apply bind_ret_inv in H. destruct H as [[a6 r6] [H6 H]].
  apply bind_ret_inv in F. destruct F as [f6 [F6 F]].
  assert (S6 : same_step r5 r6 f5 f6).
  { destruct (truthy (get schema "additionalItems")
              && typeof_object (get schema "additionalItems")).
    - eapply one_mirror; eassumption.
    - inv_ret H6. inv_ret F6. apply same_step_none. }
  apply bind_ret_inv in H. destruct H as [[a7 r7] [H7 H]].
  apply bind_ret_inv in F. destruct F as [f7 [F7 F]].
  assert (S7 : same_step r6 r7 f6 f7).
  { destruct (truthy (get schema "properties")).
    - eapply (keys_mirror "properties"); eassumption.
    - inv_ret H7. inv_ret F7. apply same_step_none. }
  apply bind_ret_inv in H. destruct H as [[a8 r8] [H8 H]].
  apply bind_ret_inv in F. destruct F as [f8 [F8 F]].
  assert (S8 : same_step r7 r8 f7 f8).
  { destruct (truthy (get schema "patternProperties")).
    - eapply (keys_mirror "patternProperties"); eassumption.
    - inv_ret H8. inv_ret F8. apply same_step_none. }
  assert (S9 : same_step r8 r' f8 found).
  { destruct (truthy (get schema "additionalProperties")
              && typeof_object (get schema "additionalProperties")).
    - eapply one_mirror; eassumption.
    - inv_ret H. inv_ret F. apply same_step_none. }
  pose proof (same_step_trans _ _ _ _ _ _ S1
               (same_step_trans _ _ _ _ _ _ S2
                  (same_step_trans _ _ _ _ _ _ S3
                     (same_step_trans _ _ _ _ _ _ S4
                        (same_step_trans _ _ _ _ _ _ S5
                           (same_step_trans _ _ _ _ _ _ S6
                              (same_step_trans _ _ _ _ _ _ S7
                                 (same_step_trans _ _ _ _ _ _ S8 S9))))))))
    as [added [-> [E S]]].
  simpl in E. subst found. split; [reflexivity | exact S].
Qed.

End Mirror.

Lemma findReferences_mirror (fuel : nat) :
  forall (fuel' : nat) (schema : json) (refs : list json) (swagger res : json)
         (refs' found : list json),
    string_refs schema = true ->
    convertSubSchema fuel schema refs swagger = Ret (res, refs') ->
    findReferences fuel' schema = Ret found ->
    refs' = refs ++ found /\ forallb is_string found = true.
Proof.
  induction fuel as [|fuel IH]; intros fuel' schema refs swagger res refs' found Hs H F;
    [discriminate|].
  destruct fuel' as [|fuel']; [discriminate|].
  cbn [findReferences] in F.
  apply bind_ret_inv in F. destruct F as [ref [Hp F]].
  destruct (prop_ret_inv _ _ _ Hp) as [-> _].
  destruct (truthy (get schema "$ref")) eqn:Et.
  - inv_ret F. destruct (convertSubSchema_ref _ _ _ _ _ _ H Et) as [_ ->].
    split; [reflexivity|]. cbn [forallb]. rewrite (string_refs_ref schema Hs Et).
    reflexivity.
  - destruct (convertSubSchema_node _ _ _ _ _ _ H Et)
      as [f [a1 [a2 [a3 [Ef [_ [_ [Hc _]]]]]]]].
    injection Ef as <-.
    apply (children_mirror (fun s r => convertSubSchema fuel s r swagger)
             (findReferences fuel')
             (fun c r c' r' fc Hsc Hc' Hf => IH fuel' c r swagger c' r' fc Hsc Hc' Hf)
             schema a2 refs a3 refs' found Hs Hc F).
Qed.

(** X16.  The scanner mirrors the converter: on a schema whose [$ref]
    properties hold strings, the references [convertSubSchema] adds to its
    record are the references [findReferences] returns for the same schema,
    the same ones in the same order, and all of them are strings. *)
Theorem converter_records_what_scanner_finds
    (fuel fuel' : nat) (schema : json) (refs : list json) (swagger res : json)
    (refs' found : list json) :
  string_refs schema = true ->
  convertSubSchema fuel schema refs swagger = Ret (res, refs') ->
  findReferences fuel' schema = Ret found ->
  refs' = refs ++ found /\ forallb is_string found = true.
Proof. apply findReferences_mirror. Qed.

Lemma converter_records_what_scanner_finds_witness :
  [JStr "#/definitions/Old"; JStr "#/definitions/A"; JStr "#/definitions/B"]
  = [JStr "#/definitions/Old"] ++ [JStr "#/definitions/A"; JStr "#/definitions/B"]
  /\ forallb is_string [JStr "#/definitions/A"; JStr "#/definitions/B"] = true.
Proof.
  apply (converter_records_what_scanner_finds 3 4 closure_schema
           [JStr "#/definitions/Old"] closure_root closure_schema); reflexivity.
Defined.

(** ** The store model: what is returned *)

(** X17.  Without [copyDefinitions], which is how the batch converter calls
    it, [convertSchema] returns an object it has allocated itself: the
    result is a location that did not exist before the call, never the
    schema or another object of the caller. *)
Theorem convertSchema_returns_new_object
    (fuel : nat) (schema root swagger : Store.val) (h : Store.heap)
    (result : Store.val) (h' : Store.heap) :
  Store.convertSchema fuel schema root swagger false h = Ret (result, h') ->
  exists l, result = Store.VRef l /\ List.length h <= l /\ l < List.length h'.
Proof.
  intros H. unfold Store.convertSchema in H.
  apply bind_ret_inv in H. destruct H as [[[res references] h1] [Hc H]].
  cbn [bind] in H. rewrite andb_false_r in H. inv_ret H.
  destruct (StoreFacts.convertSubSchema_allocates fuel swagger _ _ _ _ _ _ Hc)
    as [_ Hcr].
  exact Hcr.
Qed.

Lemma convertSchema_returns_new_object_witness :
  exists (result : Store.val) (h' : Store.heap),
    Store.convertSchema 5 (snd (fst Store.closure_store)) (fst (fst Store.closure_store))
      (fst (fst Store.closure_store)) false (snd Store.closure_store)
    = Ret (result, h')
    /\ exists l,
         result = Store.VRef l
         /\ List.length (snd Store.closure_store) <= l /\ l < List.length h'.
Proof.
  eexists. eexists. split; [vm_compute; reflexivity|].
  apply (convertSchema_returns_new_object 5 (snd (fst Store.closure_store))
           (fst (fst Store.closure_store)) (fst (fst Store.closure_store))).
  vm_compute. reflexivity.
Defined.

(** ** Converting a converted schema *)

Lemma strip_kind (x : json) :
  truthy (stripSwaggerKeys x) = truthy x
  /\ is_array (stripSwaggerKeys x) = is_array x
  /\ typeof_object (stripSwaggerKeys x) = typeof_object x.
Proof. destruct x; repeat split. Qed.

Lemma stripped_get (m : fields) (k : string) :
  get (stripSwaggerKeys (JObj m)) k
  = if removed_key k then JUndef
    else strip_child stripSwaggerKeys k (obj_get m k).
Proof. cbn [stripSwaggerKeys get]. apply obj_get_strip_fields. Qed.

Lemma strip_child_each (name : string) (x : json) :
  In name ["allOf"; "anyOf"; "oneOf"] ->
  strip_child stripSwaggerKeys name x
  = match x with JArr l => JArr (map stripSwaggerKeys l) | _ => x end.
Proof.
  intros Hn. simpl in Hn.
  destruct Hn as [<-|[<-|[<-|[]]]]; destruct x; reflexivity.
Qed.

Lemma strip_child_items (x : json) :
  strip_child stripSwaggerKeys "items" x
  = match x with JArr l => JArr (map stripSwaggerKeys l) | _ => stripSwaggerKeys x end.
Proof. destruct x; reflexivity. Qed.

Lemma strip_child_one (name : string) (x : json) :
  In name ["not"; "additionalItems"; "additionalProperties"] ->
  strip_child stripSwaggerKeys name x = stripSwaggerKeys x.
Proof.
  intros Hn. simpl in Hn.
  destruct Hn as [<-|[<-|[<-|[]]]]; destruct x; reflexivity.
Qed.

Lemma strip_child_map (name : string) (x : json) :
  In name ["properties"; "patternProperties"] ->
  strip_child stripSwaggerKeys name x
  = match x with
    | JObj p => JObj (map (fun kv => (fst kv, stripSwaggerKeys (snd kv))) p)
    | _ => x
    end.
Proof.
  intros Hn. simpl in Hn. destruct Hn as [<-|[<-|[]]]; destruct x; reflexivity.
Qed.

(** The conversion of a plain schema is a plain schema. *)
Lemma strip_plain (schema : json) : plain schema -> plain (stripSwaggerKeys schema).
Proof.
  induction 1 as [m Hnd Href Hnull Hfile Hex Harr Hmap Hch IH].
  assert (G : forall k, obj_get
                (flat_map
                   (fun kv =>
                      if removed_key (fst kv) then []
                      else [(fst kv, strip_child stripSwaggerKeys (fst kv) (snd kv))]) m) k
              = if removed_key k then JUndef
                else strip_child stripSwaggerKeys k (obj_get m k))
    by (intros k; apply obj_get_strip_fields).
  assert (Gk : forall k, removed_key k = false -> obj_get
                (flat_map
                   (fun kv =>
                      if removed_key (fst kv) then []
                      else [(fst kv, strip_child stripSwaggerKeys (fst kv) (snd kv))]) m) k
              = strip_child stripSwaggerKeys k (obj_get m k))
    by (intros k Hk; rewrite G, Hk; reflexivity).
  cbn [stripSwaggerKeys]. apply plain_node.
  - rewrite keys_strip_fields.
    apply (filter_keys_nodup (fun k => negb (removed_key k))). exact Hnd.
  - rewrite (Gk "$ref" eq_refl). rewrite strip_child_other; [exact Href|].
    simpl. intuition discriminate.
  - rewrite G. reflexivity.
  - rewrite (Gk "type" eq_refl). rewrite strip_child_other; [exact Hfile|].
    simpl. intuition discriminate.
  - rewrite G. reflexivity.
  - intros name Hn. rewrite G.
    rewrite (child_key_kept name) by (simpl in Hn |- *; tauto).
    rewrite (strip_child_each name _ Hn).
    pose proof (Harr name Hn) as Ha.
    destruct (obj_get m name); intros Ht; try (specialize (Ha Ht)); try discriminate;
      reflexivity.
  - intros name Hn. rewrite G.
    rewrite (child_key_kept name) by (simpl in Hn |- *; tauto).
    rewrite (strip_child_map name _ Hn).
    pose proof (Hmap name Hn) as Hp. intros Ht.
    destruct (obj_get m name) as [| | | |s|l|p] eqn:Eg;
      try (destruct (Hp Ht) as [p0 [E0 _]]; discriminate).
    destruct (Hp eq_refl) as [p0 [E0 Hnd0]]. injection E0 as <-.
    eexists. split; [reflexivity|]. rewrite map_map. exact Hnd0.
  - intros name c Hc.
    inversion Hc as [n v l c' Hn Hg Hin|v Ht|v Ht Hi|n v Hn Ht Hty|n v p key Hn Hg Hin];
      subst.
    + (* an element of an array *)
      cbn [get] in Hg. rewrite G in Hg.
      rewrite (child_key_kept name) in Hg by (simpl in Hn |- *; tauto).
      assert (Hx : exists l0, obj_get m name = JArr l0 /\ l = map stripSwaggerKeys l0).
      { simpl in Hn. destruct Hn as [<-|[<-|[<-|[<-|[]]]]].
        - rewrite strip_child_each in Hg by (simpl; tauto).
          destruct (obj_get m "allOf"); try discriminate.
          injection Hg as <-. eexists; split; reflexivity.
        - rewrite strip_child_each in Hg by (simpl; tauto).
          destruct (obj_get m "anyOf"); try discriminate.
          injection Hg as <-. eexists; split; reflexivity.
        - rewrite strip_child_each in Hg by (simpl; tauto).
          destruct (obj_get m "oneOf"); try discriminate.
          injection Hg as <-. eexists; split; reflexivity.
        - rewrite strip_child_items in Hg.
          destruct (obj_get m "items"); try discriminate.
          injection Hg as <-. eexists; split; reflexivity. }
      destruct Hx as [l0 [E0 ->]].
      apply in_map_iff in Hin. destruct Hin as [c0 [<- Hin0]].
      apply (IH name c0). eapply child_each; [exact Hn | exact E0 | exact Hin0].
    + (* not *)
      cbn [get] in Ht |- *. rewrite (Gk "not" eq_refl) in Ht |- *.
      rewrite strip_child_one in Ht |- * by (simpl; tauto).
      rewrite (proj1 (strip_kind _)) in Ht.
      apply (IH "not" (obj_get m "not")). apply (child_not (JObj m)). exact Ht.
    + (* a single items *)
      cbn [get] in Ht, Hi |- *. rewrite (Gk "items" eq_refl) in Ht, Hi |- *.
      assert (Hna : is_array (obj_get m "items") = false).
      { rewrite strip_child_items in Hi.
        destruct (obj_get m "items"); try reflexivity; discriminate Hi. }
      assert (Es : strip_child stripSwaggerKeys "items" (obj_get m "items")
                   = stripSwaggerKeys (obj_get m "items")).
      { rewrite strip_child_items.
        destruct (obj_get m "items"); try reflexivity; discriminate Hna. }
      rewrite Es in Ht |- *. rewrite (proj1 (strip_kind _)) in Ht.
      apply (IH "items" (obj_get m "items")).
      apply (child_items (JObj m)); assumption.
    + (* an object under additionalItems or additionalProperties *)
      cbn [get] in Ht, Hty |- *. rewrite G in Ht, Hty |- *.
      rewrite (child_key_kept name) in Ht, Hty |- * by (simpl in Hn |- *; tauto).
      rewrite strip_child_one in Ht, Hty |- * by (simpl in Hn |- *; tauto).
      rewrite (proj1 (strip_kind _)) in Ht.
      rewrite (proj2 (proj2 (strip_kind _))) in Hty.
      apply (IH name (obj_get m name)).
      apply (child_additional name (JObj m) Hn Ht Hty).
    + (* a property *)
      cbn [get] in Hg. rewrite G in Hg.
      rewrite (child_key_kept name) in Hg by (simpl in Hn |- *; tauto).
      rewrite (strip_child_map name _ Hn) in Hg.
      destruct (obj_get m name) as [| | | |s|l|p0] eqn:Eg; try discriminate.
      injection Hg as <-. rewrite map_map in Hin. cbn [fst] in Hin.
      rewrite obj_get_map_values, (obj_has_in_keys p0 key Hin).
      apply (IH name (obj_get p0 key)).
      eapply child_property; [exact Hn | exact Eg | exact Hin].
Qed.

Lemma strip_child_twice (n : nat) :
  (forall v, height v < n -> stripSwaggerKeys (stripSwaggerKeys v) = stripSwaggerKeys v) ->
  forall (k : string) (x : json),
    height x < n ->
    strip_child stripSwaggerKeys k (strip_child stripSwaggerKeys k x)
    = strip_child stripSwaggerKeys k x.
Proof.
  intros IH k x Hx.
  assert (Harr : forall l, x = JArr l ->
                   map stripSwaggerKeys (map stripSwaggerKeys l) = map stripSwaggerKeys l).
  { intros l ->. rewrite map_map. apply map_ext_in. intros c Hc. apply IH.
    pose proof (height_elem l c Hc). lia. }
  destruct (in_dec string_dec k child_keys) as [Hin|Hout];
    [|rewrite !strip_child_other by exact Hout; reflexivity].
  simpl in Hin.
  destruct Hin as [<-|[<-|[<-|[<-|[<-|[<-|[<-|[<-|[<-|[]]]]]]]]]].
  - rewrite !strip_child_each by (simpl; tauto).
    destruct x; try reflexivity. rewrite (Harr l eq_refl). reflexivity.
  - rewrite !strip_child_each by (simpl; tauto).
    destruct x; try reflexivity. rewrite (Harr l eq_refl). reflexivity.
  - rewrite !strip_child_each by (simpl; tauto).
    destruct x; try reflexivity. rewrite (Harr l eq_refl). reflexivity.
  - rewrite !strip_child_one by (simpl; tauto). apply IH, Hx.
  - rewrite !strip_child_items.
    destruct x as [| | | |s|l|p]; try reflexivity.
    + rewrite (Harr l eq_refl). reflexivity.
    + cbn [stripSwaggerKeys]. apply (IH (JObj p) Hx).
  - rewrite !strip_child_one by (simpl; tauto). apply IH, Hx.
  - rewrite !strip_child_map by (simpl; tauto).
    destruct x as [| | | |s|l|p]; try reflexivity.
    rewrite map_map. f_equal. apply map_ext_in. intros kv Hkv. cbn [fst snd].
    f_equal. apply IH. pose proof (height_field p kv Hkv). lia.
  - rewrite !strip_child_map by (simpl; tauto).
    destruct x as [| | | |s|l|p]; try reflexivity.
    rewrite map_map. f_equal. apply map_ext_in. intros kv Hkv. cbn [fst snd].
    f_equal. apply IH. pose proof (height_field p kv Hkv). lia.
  - rewrite !strip_child_one by (simpl; tauto). apply IH, Hx.
Qed.

(** Removing the keys twice removes what removing them once does. *)
Lemma strip_twice (n : nat) :
  forall v, height v < n -> stripSwaggerKeys (stripSwaggerKeys v) = stripSwaggerKeys v.
Proof.
  induction n as [|n IH]; intros v Hv; [lia|].
  destruct v as [| | | |s|l|m]; try reflexivity.
  cbn [stripSwaggerKeys]. f_equal.
  assert (Hm : forall kv, In kv m -> height (snd kv) < n).
  { intros kv Hin. pose proof (height_field m kv Hin). lia. }
  clear Hv. induction m as [|[k x] m IHm]; [reflexivity|].
  cbn [flat_map fst snd]. rewrite flat_map_app.
  rewrite IHm by (intros kv Hin; apply Hm; right; exact Hin).
  f_equal. destruct (removed_key k) eqn:Er; [reflexivity|].
  cbn [flat_map fst snd app]. rewrite Er.
  rewrite (strip_child_twice n IH k x (Hm (k, x) (or_introl eq_refl))).
  reflexivity.
Qed.

Lemma convertSchema_plain_result (schema root swagger : json) (copyDefinitions : bool)
    (fuel : nat) :
  plain schema -> height schema < fuel ->
  convertSchema fuel schema root swagger copyDefinitions = Ret (stripSwaggerKeys schema).
Proof.
  intros Hp Hh. unfold convertSchema.
  rewrite (convertSubSchema_plain swagger fuel schema [] Hp Hh). cbn [bind].
  destruct (plain_object _ Hp) as [m ->].
  assert (Href : truthy (obj_get m "$ref") = false) by (inversion Hp; assumption).
  destruct copyDefinitions; cbn [bind]; rewrite (strip_ref_falsy m Href); reflexivity.
Qed.

(** X18.  Conversion is idempotent on plain schemas: what [convertSchema]
    returns for a plain schema (no truthy [$ref], [x-nullable] or [example]
    and no [file] type at any schema position) it returns unchanged when it
    is given the result as schema, against any root and Swagger document and
    for both values of [copyDefinitions]. *)
Theorem conversion_is_idempotent
    (schema root swagger root' swagger' res : json) (copyDefinitions copyDefinitions' : bool)
    (fuel fuel' : nat) :
  plain schema -> height schema < fuel ->
  convertSchema fuel schema root swagger copyDefinitions = Ret res ->
  height res < fuel' ->
  convertSchema fuel' res root' swagger' copyDefinitions' = Ret res.
Proof.
  intros Hp Hh H Hh'.
  rewrite (convertSchema_plain_result schema root swagger copyDefinitions fuel Hp Hh) in H.
  inv_ret H.
  rewrite (convertSchema_plain_result _ root' swagger' copyDefinitions' fuel'
             (strip_plain schema Hp) Hh').
  f_equal. apply (strip_twice (S (height schema))). lia.
Qed.

Lemma conversion_is_idempotent_witness :
  convertSchema 4
    (JObj [("type", JStr "object");
           ("properties", JObj [("name", JObj [("type", JStr "string")])])])
    (JObj []) (JObj []) false
  = Ret (JObj [("type", JStr "object");
               ("properties", JObj [("name", JObj [("type", JStr "string")])])]).
Proof.
  apply (conversion_is_idempotent tagged_schema (JObj []) (JObj []) (JObj []) (JObj [])
           _ true false 5 4).
  - exact tagged_schema_plain.
  - vm_compute. lia.
  - reflexivity.
  - vm_compute. lia.
Defined.

(** ** Examples and other keywords *)

(** X19.  A reference in an example is resolved whatever [copyDefinitions]
    is: when the [example] of a schema that is no reference is a [{$ref}]
    node whose reference [lookupReference] rejects against the Swagger
    document, [convertSchema] throws that error, also with
    [copyDefinitions = false], where the references of the schema itself are
    not looked at. *)
Theorem dangling_example_reference_aborts
    (fuel : nat) (schema root swagger : json) (copyDefinitions : bool)
    (reference : string) (e : error) :
  truthy (get schema "$ref") = false ->
  ref_string (get schema "example") = Some reference ->
  lookupReference (JStr reference) swagger None = Throw e ->
  convertSchema (S (S fuel)) schema root swagger copyDefinitions = Throw e.
Proof.
  intros Href Hr Hl.
  destruct (ref_string_obj _ _ Hr) as [ex Ex].
  assert (Hp : prop schema "$ref" = Ret (get schema "$ref")).
  { destruct schema; try reflexivity; discriminate Ex. }
  assert (Hd : dereference (S fuel) (get schema "example") swagger None None = Throw e).
  { rewrite Ex in Hr |- *. cbn [dereference]. rewrite Hr. cbn [is_some andb].
    rewrite Hl. reflexivity. }
  unfold convertSchema. cbn [convertSubSchema]. rewrite Hp. cbn [bind].
  rewrite Href, Hd, Ex. reflexivity.
Qed.

Lemma dangling_example_reference_aborts_witness :
  convertSchema 2
    (JObj [("type", JStr "object"); ("example", JObj [("$ref", JStr "#/definitions/Gone")])])
    (JObj []) example_swagger false
  = Throw (ReferenceNotFound "#/definitions/Gone").
Proof.
  apply (dangling_example_reference_aborts 0
           (JObj [("type", JStr "object");
                  ("example", JObj [("$ref", JStr "#/definitions/Gone")])])
           (JObj []) example_swagger false "#/definitions/Gone"); reflexivity.
Defined.

(** X20.  Keywords the converter does not know pass through: for an object
    schema that is no reference, every key that is neither Swagger-only nor
    an extension, that the converter does not write ([type], [enum],
    [examples] and the keywords it recurses into), that is not
    [definitions] and is none of the keys lodash guards ([__proto__],
    [constructor], [prototype]), reads in the result what it reads in the
    schema. *)
Theorem other_keywords_are_kept
    (fuel : nat) (m : fields) (root swagger : json) (copyDefinitions : bool)
    (res : json) (k : string) :
  convertSchema fuel (JObj m) root swagger copyDefinitions = Ret res ->
  truthy (obj_get m "$ref") = false ->
  removed_key k = false ->
  guarded_key k = false ->
  ~ In k written_keys ->
  "definitions" <> k ->
  get res k = obj_get m k.
Proof.
  intros H Href Hk _ Hw Hd.
  destruct (convertSchema_node_get _ _ _ _ _ _ H Href) as [a [refs [Hc Hget]]].
  rewrite (Hget k Hd).
  rewrite (convertSubSchema_keeps _ _ _ _ _ _ k Hc Href Hw).
  unfold removed_key in Hk. rewrite Hk. reflexivity.
Qed.

Lemma other_keywords_are_kept_witness :
  get (JObj [("type", JStr "integer"); ("format", JStr "int64"); ("minimum", JNum 0)])
    "format"
  = obj_get [("type", JStr "integer"); ("format", JStr "int64"); ("minimum", JNum 0);
             ("readOnly", JBool true)] "format".
Proof.
  apply (other_keywords_are_kept 2
           [("type", JStr "integer"); ("format", JStr "int64"); ("minimum", JNum 0);
            ("readOnly", JBool true)] (JObj []) (JObj []) true).
  - reflexivity.
  - reflexivity.
  - reflexivity.
  - reflexivity.
  - simpl. intuition discriminate.
  - discriminate.
Defined.

(** X21.  [findReferences] misses no reference: when it returns, every
    string that is the [$ref] of the schema or of a schema below it at a
    schema position is in the list it returns. *)
Theorem findReferences_is_complete
    (fuel : nat) (schema : json) (found : list json) (s : string) :
  findReferences fuel schema = Ret found ->
  schema_ref (JStr s) schema ->
  In (JStr s) found.
Proof. intros H Hs. exact (findReferences_finds fuel schema found H s Hs). Qed.

Lemma findReferences_is_complete_witness :
  In (JStr "#/definitions/B")
    [JStr "#/definitions/A"; JStr "#/definitions/B"].
Proof.
  apply (findReferences_is_complete 3 closure_schema
           [JStr "#/definitions/A"; JStr "#/definitions/B"] "#/definitions/B").
  - reflexivity.
  - apply (ref_below _ closure_schema "properties" (JObj [("$ref", JStr "#/definitions/B")])).
    + reflexivity.
    + apply (child_property "properties" closure_schema
               [("a", JObj [("$ref", JStr "#/definitions/A")]);
                ("b", JObj [("$ref", JStr "#/definitions/B")])] "b");
        [left; reflexivity | reflexivity | right; left; reflexivity].
    + apply ref_here; reflexivity.
Defined.

(** ** The store model: the dereferencer *)

(** X22.  [dereference], which is exported and can be called on its own,
    mutates none of its arguments: a call that returns has changed no cell
    that was allocated before it, so the tree below the example and below
    the root document is what it was. *)
Theorem dereference_keeps_arguments
    (fuel : nat) (example root : Store.val) (paths path : option (list string))
    (h : Store.heap) (result : Store.val) (h' : Store.heap) :
  Store.dereference fuel example root paths path h = Ret (result, h') ->
  (forall l, l < List.length h -> nth_error h' l = nth_error h l)
  /\ (forall (n : nat) (v : Store.val) (j : json),
        Store.reify n h v = Some j -> Store.reify n h' v = Some j).
Proof.
  intros H. pose proof (StoreFacts.dereference_frame _ _ _ _ _ _ _ _ H) as F.
  split; [exact (proj2 F)|].
  intros n v j. apply StoreFacts.reify_frame. exact F.
Qed.

Lemma dereference_keeps_arguments_witness :
  exists (result : Store.val) (h' : Store.heap),
    Store.dereference 5 (Store.VRef 5) (fst (fst Store.closure_store)) None None
      (snd Store.closure_store)
    = Ret (result, h')
    /\ Store.reify 5 h' result
       = Some (JObj [("items", JObj [("type", JStr "string")])])
    /\ Store.reify 5 h' (fst (fst Store.closure_store)) = Some closure_root.
Proof.
  eexists. eexists. split; [vm_compute; reflexivity|].
  split; [vm_compute; reflexivity|].
  apply (dereference_keeps_arguments 5 (Store.VRef 5) (fst (fst Store.closure_store))
           None None (snd Store.closure_store) (Store.VRef 9));
    vm_compute; reflexivity.
Defined.

(** ** Following a whole path *)

Lemma follow_undefined (parts : list string) : follow JUndef parts = JUndef.
Proof. induction parts as [|k parts IH]; [reflexivity | exact IH]. Qed.

Lemma lookup_walk_follows (parts : list string) :
  forall (value : json) (currentDepth : Z),
    (forall done rest, parts = done ++ rest -> rest <> [] -> follow value done <> JNull) ->
    lookup_walk parts value currentDepth None = Ret (follow value parts).
Proof.
  induction parts as [|key parts IH]; intros value cd Hn; [reflexivity|].
  cbn [lookup_walk].
  destruct (is_undef value) eqn:Eu.
  - destruct value; try discriminate. rewrite follow_undefined. reflexivity.
  - assert (Hv : value <> JNull)
      by (apply (Hn [] (key :: parts) eq_refl); discriminate).
    assert (Hp : prop value key = Ret (get value key)).
    { destruct value; try reflexivity; [discriminate Eu | contradiction]. }
    rewrite Hp. cbn [bind depth_reached].
    apply IH. intros done rest E Hr.
    apply (Hn (key :: done) rest); [rewrite E; reflexivity | exact Hr].
Qed.

(** X23.  Without a depth [lookupReference] follows the reference to its
    last segment: for [#/definitions/<parts>] it returns the value reached
    from [root.definitions] along all of [parts], with the first of them as
    id, and throws the not-found error when that value is [undefined],
    provided every segment is read from [undefined] (where the walk has
    ended), from an object under a name that is not inherited, or from an
    array under an index.  (Reading a property of [null] throws; a
    primitive, an array and an inherited name give members that are not of
    the data.) *)
Theorem lookupReference_follows_whole_path
    (reference : string) (root definitions : json) (parts : list string) :
  split slash reference = "#" :: "definitions" :: parts ->
  prop root "definitions" = Ret definitions ->
  (forall done key rest, parts = done ++ key :: rest ->
                         follow definitions done = JUndef
                         \/ own_read (follow definitions done) key = true) ->
  lookupReference (JStr reference) root None
  = if is_undef (follow definitions parts) then Throw (ReferenceNotFound reference)
    else Ret (hd_error parts, follow definitions parts).
Proof.
  intros Hs Hp Hown.
  assert (Hn : forall done rest, parts = done ++ rest -> rest <> [] ->
                 follow definitions done <> JNull).
  { intros done [|key rest] E Hr; [contradiction|].
    destruct (Hown done key rest E) as [-> | Ho]; [discriminate|].
    intros En. rewrite En in Ho. discriminate. }
  unfold lookupReference. rewrite Hs. cbn [String.eqb Ascii.eqb Bool.eqb negb].
  simpl ("#" =? "#"). simpl ("definitions" =? "definitions"). cbn [negb].
  rewrite Hp. cbn [bind].
  rewrite (lookup_walk_follows parts definitions 2 Hn). reflexivity.
Qed.

Lemma lookupReference_follows_whole_path_witness :
  lookupReference (JStr "#/definitions/User/properties/name") user_root None
  = Ret (Some "User", JObj [("type", JStr "string")]).
Proof.
  apply (lookupReference_follows_whole_path "#/definitions/User/properties/name"
           user_root (get user_root "definitions") ["User"; "properties"; "name"]).
  - reflexivity.
  - reflexivity.
  - intros done key rest E. right.
    destruct done as [|d0 [|d1 [|d2 done]]]; simpl in E.
    + injection E as <- _. reflexivity.
    + injection E as <- <- _. reflexivity.
    + injection E as <- <- <- _. reflexivity.
    + injection E as _ _ _ E. destruct done; discriminate E.
Defined.
